(** * myRPC: a shallow embedding of the RPC runtime and the proofs of its
    specification.

    Definitions come first, one module per package or concern of the Go
    sources:
    - [GoString]     the functions of Go's [strings] package the code calls;
    - [GoSlice]      slices of strings over a heap of backing arrays;
    - [Server]       service reflection ([newService], [registerMethods]),
                     [Register] and [findService];
    - [Handler]      [handleRequest] with its time limit, as two tasks;
    - [ClientCore]   calls, the pending table, sequence numbers, the receive
                     pump, and the client as a system of tasks;
    - [ClientTasks]  the same client with every lock, read and channel
                     operation as a step of its own: [call.done()] waits
                     for room in the channel;
    - [Registry]     the heartbeat registry ([putServer], [getAliveServers],
                     [ServeHTTP], [Heartbeat]);
    - [Discovery]    [MultiServersDiscovery] and [CenterRegistryDiscovery];
    - [RegistryHTTP] the registry as a discovery reaches it over HTTP;
    - [Dial]         [parseOption], [dialTimeout] and [XDial];
    - [Serve]        [ServeConn], [readRequest] and the loop of [ServeCodec];
    - [XClientM]     the load-balanced client.
    The modules that follow ([GoStringFacts], [ServerSpec],
    [ServerFlowSpec], [HandlerSpec], [ServeSpec], [RegistrySpec],
    [DiscoverySpec], [ClientSpec], [ClientFlowSpec], [ClientTasksSpec],
    [DialSpec], [DialFlowSpec], [XClientSpec], [XClientFlowSpec],
    [RegistryDiscoverySpec]) hold the proofs.

    Go's [error] is modelled as [option string]: [None] is [nil], [Some m] an
    error whose message is [m].  Go strings are byte strings, so they are
    Rocq [string]s.  A pointer is an address in an explicit heap wherever
    sharing matters. *)

From stdpp Require Import gmap strings list fin_maps sorting.
From Stdlib Require Import Ascii ZArith Lia.

Open Scope string_scope.
Open Scope list_scope.
Open Scope nat_scope.

(** Go's [error] interface value. *)
Abbreviation error := (option string).

(* ===================================================================== *)
(** * Strings *)
(* ===================================================================== *)

Module GoString.

(** [c] occurs in [s]. *)
Fixpoint contains (s : string) (c : ascii) : bool :=
  match s with
  | "" => false
  | String a s' => if decide (a = c) then true else contains s' c
  end.

(** Position of the last occurrence of the byte [c] in [s]. *)
Fixpoint lastIndexByte (s : string) (c : ascii) : option nat :=
  match s with
  | "" => None
  | String a s' =>
      match lastIndexByte s' c with
      | Some i => Some (S i)
      | None => if decide (a = c) then Some 0%nat else None
      end
  end.

(** [strings.LastIndex(s, sep)] for a one-byte separator: the index of the
    last occurrence, or [-1]. *)
Definition LastIndex (s : string) (c : ascii) : Z :=
  match lastIndexByte s c with
  | Some i => Z.of_nat i
  | None => (-1)%Z
  end.

(** The slice expressions [s[:n]] and [s[n:]]. *)
Definition slice_to (s : string) (n : nat) : string := String.substring 0 n s.
Definition slice_from (s : string) (n : nat) : string :=
  String.substring n (String.length s - n) s.

(** [strings.Split(s, sep)] for a one-byte separator: always at least one
    field; [Split("", ",")] is [[""]]. *)
Fixpoint Split (s : string) (c : ascii) : list string :=
  match s with
  | "" => [""]
  | String a s' =>
      if decide (a = c) then "" :: Split s' c
      else match Split s' c with
           | [] => [String a ""]
           | f :: fs => String a f :: fs
           end
  end.

(** The string of the bytes [l]. *)
Definition bytes (l : list nat) : string :=
  String.string_of_list_ascii (Ascii.ascii_of_nat <$> l).

(** The white space of [unicode.IsSpace], each rune in its UTF-8 encoding:
    tab, line feed, vertical tab, form feed, carriage return and space;
    U+0085 and U+00A0; U+1680; U+2000 to U+200A; U+2028, U+2029, U+202F,
    U+205F and U+3000.  The decoder takes no other encoding of these runes,
    and an ill-formed sequence decodes to U+FFFD, which is not white
    space. *)
Definition whiteSpace : list string :=
  bytes <$> [[9]; [10]; [11]; [12]; [13]; [32];
             [194; 133]; [194; 160];
             [225; 154; 128];
             [226; 128; 128]; [226; 128; 129]; [226; 128; 130]; [226; 128; 131];
             [226; 128; 132]; [226; 128; 133]; [226; 128; 134]; [226; 128; 135];
             [226; 128; 136]; [226; 128; 137]; [226; 128; 138];
             [226; 128; 168]; [226; 128; 169]; [226; 128; 175];
             [226; 129; 159];
             [227; 128; 128]].

(** [s] without the prefix [p], when it starts with it. *)
Fixpoint stripPrefix (p s : string) : option string :=
  match p, s with
  | "", _ => Some s
  | String a p', String b s' => if decide (a = b) then stripPrefix p' s' else None
  | String _ _, "" => None
  end.

(** [s] without its first rune, when that rune is one of [runes]. *)
Fixpoint dropRune (runes : list string) (s : string) : option string :=
  match runes with
  | [] => None
  | r :: runes' =>
      match stripPrefix r s with
      | Some s' => Some s'
      | None => dropRune runes' s
      end
  end.

(** The leading runes of [s] are dropped while they are among [runes];
    [n] bounds the number of runes dropped. *)
Fixpoint dropRunes (runes : list string) (n : nat) (s : string) : string :=
  match n with
  | 0 => s
  | S n' =>
      match dropRune runes s with
      | Some s' => dropRunes runes n' s'
      | None => s
      end
  end.

(** [strings.TrimLeftFunc(s, unicode.IsSpace)]. *)
Definition trimLeft (s : string) : string :=
  dropRunes whiteSpace (String.length s) s.

(** [strings.TrimRightFunc(s, unicode.IsSpace)]: the last rune is the one
    whose encoding ends the string, so the bytes are matched from the end
    backwards. *)
Definition trimRight (s : string) : string :=
  String.rev (dropRunes (String.rev <$> whiteSpace) (String.length s) (String.rev s)).

(** [strings.TrimSpace]: leading and trailing white space, as defined by
    Unicode, removed. *)
Definition TrimSpace (s : string) : string := trimRight (trimLeft s).

(** [strings.Join]. *)
Definition Join (l : list string) (sep : string) : string := String.concat sep l.

End GoString.

(* ===================================================================== *)
(** * Slices of strings over a heap of backing arrays *)
(* ===================================================================== *)

Module GoSlice.

(** A slice header: the backing array it points into, the offset of its
    first element there, its length and its capacity.  The heap maps the
    address of a backing array to its contents. *)
Record Slice := { arr : nat; off : nat; len : nat; cap : nat }.

Abbreviation Heap := (gmap nat (list string)).

(** The nil slice: no elements, no capacity. *)
Definition nilSlice : Slice := {| arr := 0; off := 0; len := 0; cap := 0 |}.

Definition backing (h : Heap) (s : Slice) : list string :=
  default [] (h !! arr s).

(** The elements of [s]. *)
Definition read (h : Heap) (s : Slice) : list string :=
  take (len s) (drop (off s) (backing h s)).

(** The window of a slice lies inside its backing array. *)
Definition wf (h : Heap) (s : Slice) : Prop :=
  len s ≤ cap s ∧ off s + cap s ≤ length (backing h s).

(** [make([]string, n, c)]: a new backing array of [c] empty strings at an
    address not in use. *)
Definition make (h : Heap) (n c : nat) : Heap * Slice :=
  let l := fresh (dom h) in
  (<[l := replicate c ""]> h, {| arr := l; off := 0; len := n; cap := c |}).

(** Overwrite the elements of [s] from its start with [vals]. *)
Definition writeAt (h : Heap) (s : Slice) (vals : list string) : Heap :=
  alter (λ a, take (off s) a ++ vals ++ drop (off s + length vals) a) (arr s) h.

(** [copy(dst, src)]: the first [min(len(dst), len(src))] elements. *)
Definition copy (h : Heap) (dst src : Slice) : Heap * nat :=
  let n := len dst `min` len src in
  (writeAt h dst (take n (read h src)), n).

(** [s[i] = v]; [None] is the index-out-of-range panic. *)
Definition store (h : Heap) (s : Slice) (i : nat) (v : string) : option Heap :=
  if decide (i < len s) then Some (alter (λ a, <[off s + i := v]> a) (arr s) h)
  else None.

(** [append(s, v)]: in place while the capacity lasts, otherwise into a new,
    larger array (how much larger is the runtime's choice; here twice the
    capacity plus one). *)
Definition append (h : Heap) (s : Slice) (v : string) : Heap * Slice :=
  if decide (len s < cap s) then
    (alter (λ a, <[off s + len s := v]> a) (arr s) h,
     {| arr := arr s; off := off s; len := S (len s); cap := cap s |})
  else
    let c := (2 * cap s + 1)%nat in
    let l := fresh (dom h) in
    (<[l := read h s ++ v :: replicate (c - S (len s)) ""]> h,
     {| arr := l; off := 0; len := S (len s); cap := c |}).

(** What a caller may do to a slice it holds. *)
Inductive mutation :=
| Store (i : nat) (v : string)
| Append (v : string)
| Reslice (lo hi : nat).

(** [s[lo:hi]]; [None] is the slice-bounds panic. *)
Definition reslice (s : Slice) (lo hi : nat) : option Slice :=
  if decide (lo ≤ hi ∧ hi ≤ cap s) then
    Some {| arr := arr s; off := off s + lo; len := hi - lo; cap := cap s - lo |}
  else None.

Definition mutate (st : Heap * Slice) (m : mutation) : option (Heap * Slice) :=
  match m with
  | Store i v => h ← store st.1 st.2 i v; Some (h, st.2)
  | Append v => Some (append st.1 st.2 v)
  | Reslice lo hi => s ← reslice st.2 lo hi; Some (st.1, s)
  end.

Fixpoint mutates (st : Heap * Slice) (ms : list mutation) : option (Heap * Slice) :=
  match ms with
  | [] => Some st
  | m :: ms' => st' ← mutate st m; mutates st' ms'
  end.

(** The slice a caller holds stays away from the array at [l0], which still
    holds what it held in [h0]. *)
Definition apart (l0 : nat) (h0 : Heap) (st : Heap * Slice) : Prop :=
  arr st.2 ≠ l0 ∧ st.1 !! l0 = h0 !! l0.

End GoSlice.

(* ===================================================================== *)
(** * Server: service reflection and method lookup *)
(* ===================================================================== *)

Module Server.

(** What the code reads of a [reflect.Type]: its name, its package path
    (empty for predeclared and unnamed types) and its kind. *)
Inductive Kind :=
| Bool | Int | Uint64 | Float64 | String_ | Struct | Ptr | Slice | Map
| Interface | Func | Array | Chan.

#[global] Instance Kind_eq_dec : EqDecision Kind.
Proof. solve_decision. Defined.

Record rtype := { Name : string; PkgPath : string; kind : Kind }.

#[global] Instance rtype_eq_dec : EqDecision rtype.
Proof. solve_decision. Defined.

(** The type the source compares [Out(0)] with: the predeclared interface
    [error]. *)
Definition errorType : rtype :=
  {| Name := "error"; PkgPath := ""; kind := Interface |}.

(** A [reflect.Method]: its name and the inputs (receiver first) and
    outputs of its function type. *)
Record Method := { mName : string; In : list rtype; Out : list rtype }.

Record methodType := {
  method : Method;
  ArgType : rtype;
  ReplyType : rtype;
  numCalls : Z
}.

(** [typ] is the method set of the receiver's type, in the order
    [Type.Method(i)] enumerates it. *)
Record service := {
  name : string;
  typ : list Method;
  methods : gmap string methodType
}.

(** What [newService] reads of its argument by reflection: the name of
    the type behind it, through a pointer if it is one, and the method set
    of its type. *)
Record receiver := { typeName : string; methodSet : list Method }.

(** How a call ends: it returns, it panics on a nil pointer, or it stops
    the process in [log.Fatalf]. *)
Inductive ends (A : Type) :=
| Gives (a : A)
| NilDereference
| LogFatal (msg : string).
Arguments Gives {A} a.
Arguments NilDereference {A}.
Arguments LogFatal {A} msg.

Section Reflector.

(** [ast.IsExported] of the Go standard library: the name starts with an
    upper-case letter. *)
Variable IsExported : string → bool.

Definition isExportedOrBuiltinType (t : rtype) : bool :=
  IsExported (Name t) || bool_decide (PkgPath t = "").

(** One iteration of the loop of [registerMethods]: each [continue]
    leaves the map as it is. *)
Definition registerMethod (acc : gmap string methodType) (m : Method)
  : gmap string methodType :=
  if negb (bool_decide (length (In m) = 3%nat))
     || negb (bool_decide (length (Out m) = 1%nat)) then acc
  else
    match Out m, In m with
    | [out0], [_; argType; replyType] =>
        if negb (bool_decide (out0 = errorType)) then acc
        else if negb (isExportedOrBuiltinType argType)
                || negb (isExportedOrBuiltinType replyType) then acc
        else <[mName m := {| method := m; ArgType := argType;
                             ReplyType := replyType; numCalls := 0 |}]> acc
    | _, _ => acc
    end.

Definition registerMethods (s : service) : service :=
  {| name := name s; typ := typ s;
     methods := foldl registerMethod ∅ (typ s) |}.

(** [newService].  Its result parameter [s] is a [*service] that no
    statement allocates: it is nil when the first statement assigns to
    [s.rcvr].  The rest of the body fills the name and the type, refuses a
    name that is not exported, and registers the methods. *)
Definition newService (rcvr : receiver) : ends service :=
  let s : option service := None in
  match s with
  | None => NilDereference
  | Some s0 =>
      let s1 := {| name := typeName rcvr; typ := methodSet rcvr;
                   methods := methods s0 |} in
      if negb (IsExported (name s1)) then
        LogFatal ("rpc server: " +:+ name s1 +:+ " is not a valid service name")
      else Gives (registerMethods s1)
  end.

End Reflector.

(** The server's [serviceMap]. *)
Record Server := { serviceMap : gmap string service }.

Definition dotByte : ascii := "."%char.

(** [findService] returns its three named results. *)
Definition findService (server : Server) (serviceMethod : string)
  : option service * option methodType * error :=
  let dot := GoString.LastIndex serviceMethod dotByte in
  if bool_decide (dot < 0)%Z then
    (None, None,
     Some ("rpc server: service/method request ill-formed: " +:+ serviceMethod))
  else
    let serviceName := GoString.slice_to serviceMethod (Z.to_nat dot) in
    let methodName := GoString.slice_from serviceMethod (Z.to_nat (dot + 1)) in
    match serviceMap server !! serviceName with
    | None =>
        (None, None, Some ("rpc server: can't find service " +:+ serviceName))
    | Some svc =>
        match methods svc !! methodName with
        | None =>
            (Some svc, None,
             Some ("rpc server: can't find method " +:+ methodName))
        | Some mtype => (Some svc, Some mtype, None)
        end
    end.

(** A service with one method whose reply parameter is a plain [int]:
  [func (t *T) Echo(arg int, reply int) error]. *)
Definition intType : rtype := {| Name := "int"; PkgPath := ""; kind := Int |}.
Definition ptrT : rtype := {| Name := ""; PkgPath := ""; kind := Ptr |}.
Definition Echo : Method :=
  {| mName := "Echo"; In := [ptrT; intType; intType]; Out := [errorType] |}.
Definition echoService : service :=
  {| name := "T"; typ := [Echo]; methods := ∅ |}.

(** The service of the end-to-end scenario: [Arith.Sum(Args, *int) error]. *)
Definition argsType : rtype := {| Name := "Args"; PkgPath := "main"; kind := Struct |}.
Definition ptrInt : rtype := {| Name := ""; PkgPath := ""; kind := Ptr |}.
Definition Sum : Method :=
  {| mName := "Sum"; In := [ptrT; argsType; ptrInt]; Out := [errorType] |}.
Definition asciiExported (s : string) : bool :=
  match s with
  | String a _ => let n := Ascii.nat_of_ascii a in (65 <=? n)%nat && (n <=? 90)%nat
  | "" => false
  end.
Definition arith : service :=
  registerMethods asciiExported {| name := "Arith"; typ := [Sum]; methods := ∅ |}.
Definition arithServer : Server := {| serviceMap := {[ "Arith" := arith ]} |}.

(** [Register]: [newService], then [LoadOrStore], which keeps the service
    already stored under the name. *)
Definition Register (IsExported : string → bool) (rcvr : receiver)
    (server : Server) : ends (Server * error) :=
  match newService IsExported rcvr with
  | NilDereference => NilDereference
  | LogFatal msg => LogFatal msg
  | Gives s =>
      match serviceMap server !! name s with
      | Some _ =>
          Gives (server, Some ("rpc: service already defined: " +:+ name s))
      | None =>
          Gives ({| serviceMap := <[name s := s]> (serviceMap server) |}, None)
      end
  end.

End Server.
(* ===================================================================== *)
(** * Server: handling one request within a time limit *)
(* ===================================================================== *)

Module Handler.

(** What [sendResponse] writes: the header's [Error] at the time of the
    write, and whether the body is [invalidRequest] or the reply value. *)
Inductive body := InvalidRequest | ReplyValue.

#[global] Instance body_eq_dec : EqDecision body.
Proof. solve_decision. Defined.

(** The task started by [handleRequest]: in [svc.call]; at its [select]
    with the result [err] of the call; past [called <- struct{}{}], about
    to send the response; past [sendResponse], at [sent <- struct{}{}];
    returned. *)
Inductive wstate :=
| WCalling
| WSelect (err : error)
| WRespond (err : error)
| WSignal (err : error)
| WDone.

(** [handleRequest] itself: at [<-called] (no time limit); at its
    [select]; in the timer's case, about to send the response; at
    [<-sent]; about to return; returned (the deferred [close(isReturn)]
    and [wg.Done()] have run). *)
Inductive hstate :=
| HWaitCalled
| HSelect
| HTimedOut
| HWaitSent
| HLeaving
| HReturned.

Record HState := {
  worker : wstate;
  handler : hstate;
  hError : string;                  (* req.h.Error *)
  written : list (string * body);   (* the responses written, in order *)
  isReturn : bool                   (* isReturn has been closed *)
}.

Inductive hevent :=
| CallReturns (err : error)   (* svc.call returns *)
| HandOffCalled               (* called <- struct{}{} meets <-called *)
| WorkerResponds              (* the task's sendResponse *)
| HandOffSent                 (* sent <- struct{}{} meets <-sent *)
| TimerFires                  (* the case <-time.After(timeout) is taken *)
| HandlerResponds             (* the sendResponse of the timer's case *)
| HandlerReturns              (* return: close(isReturn), wg.Done() *)
| WorkerSeesReturn.           (* the case <-isReturn is taken *)

#[global] Instance hevent_eq_dec : EqDecision hevent.
Proof. solve_decision. Defined.

Section HandleRequest.

(** [time.Duration] printed with [%s]; the time limit; the [Error] of the
    request's header as it was read. *)
Variable durationString : Z → string.
Variable timeout : Z.
Variable reqError : string.

Definition timeoutError : string :=
  "rpc server: request handle timeout: expect within " +:+ durationString timeout.

(** The state after [go func() {...}()]. *)
Definition hinit : HState :=
  {| worker := WCalling;
     handler := if bool_decide (timeout = 0%Z) then HWaitCalled else HSelect;
     hError := reqError; written := []; isReturn := false |}.

(** One step; [None] when the event cannot happen in this state. *)
Definition hstep (st : HState) (ev : hevent) : option HState :=
  match ev, worker st, handler st with
  | CallReturns err, WCalling, _ =>
      Some {| worker := WSelect err; handler := handler st; hError := hError st;
              written := written st; isReturn := isReturn st |}
  | HandOffCalled, WSelect err, (HWaitCalled | HSelect) =>
      Some {| worker := WRespond err; handler := HWaitSent; hError := hError st;
              written := written st; isReturn := isReturn st |}
  | WorkerResponds, WRespond (Some e), _ =>
      Some {| worker := WSignal (Some e); handler := handler st; hError := e;
              written := written st ++ [(e, InvalidRequest)];
              isReturn := isReturn st |}
  | WorkerResponds, WRespond None, _ =>
      Some {| worker := WSignal None; handler := handler st; hError := hError st;
              written := written st ++ [(hError st, ReplyValue)];
              isReturn := isReturn st |}
  | HandOffSent, WSignal err, HWaitSent =>
      Some {| worker := WDone; handler := HLeaving; hError := hError st;
              written := written st; isReturn := isReturn st |}
  | TimerFires, _, HSelect =>
      Some {| worker := worker st; handler := HTimedOut; hError := hError st;
              written := written st; isReturn := isReturn st |}
  | HandlerResponds, _, HTimedOut =>
      Some {| worker := worker st; handler := HLeaving; hError := timeoutError;
              written := written st ++ [(timeoutError, InvalidRequest)];
              isReturn := isReturn st |}
  | HandlerReturns, _, HLeaving =>
      Some {| worker := worker st; handler := HReturned; hError := hError st;
              written := written st; isReturn := true |}
  | WorkerSeesReturn, WSelect err, _ =>
      if isReturn st then
        Some {| worker := WDone; handler := handler st; hError := hError st;
                written := written st; isReturn := isReturn st |}
      else None
  | _, _, _ => None
  end.

Fixpoint hrun (st : HState) (evs : list hevent) : option HState :=
  match evs with
  | [] => Some st
  | ev :: evs' => st' ← hstep st ev; hrun st' evs'
  end.

(** The response the task writes when the call has returned [err]. *)
Definition workerResponse (err : error) : string * body :=
  match err with
  | Some e => (e, InvalidRequest)
  | None => (reqError, ReplyValue)
  end.

(** What has happened so far fits the state: [hist] are the events so
    far. *)
Definition hinv (hist : list hevent) (st : HState) : Prop :=
  let timed := TimerFires ∈ hist in
  let waiting :=
    written st = [] ∧ isReturn st = false ∧ hError st = reqError ∧ ¬ timed in
  let byHandler (closed : bool) :=
    written st = [(timeoutError, InvalidRequest)] ∧ isReturn st = closed
    ∧ timed ∧ (HandOffCalled ∉ hist) in
  let byWorker (closed : bool) :=
    (∃ err, written st = [workerResponse err] ∧ CallReturns err ∈ hist)
    ∧ isReturn st = closed ∧ ¬ timed in
  let called :=
    match worker st with
    | WSelect err => CallReturns err ∈ hist
    | _ => True
    end in
  match worker st, handler st with
  | (WCalling | WSelect _), HWaitCalled =>
      timeout = 0%Z ∧ waiting ∧ (HandOffCalled ∉ hist) ∧ called
  | (WCalling | WSelect _), HSelect =>
      timeout ≠ 0%Z ∧ waiting ∧ (HandOffCalled ∉ hist) ∧ called
  | (WCalling | WSelect _), HTimedOut =>
      timeout ≠ 0%Z ∧ written st = [] ∧ isReturn st = false
      ∧ timed ∧ (HandOffCalled ∉ hist) ∧ called
  | (WCalling | WSelect _), HLeaving => timeout ≠ 0%Z ∧ byHandler false ∧ called
  | (WCalling | WSelect _), HReturned => timeout ≠ 0%Z ∧ byHandler true ∧ called
  | WRespond err, HWaitSent => waiting ∧ CallReturns err ∈ hist
  | WSignal err, HWaitSent =>
      written st = [workerResponse err] ∧ CallReturns err ∈ hist
      ∧ isReturn st = false ∧ ¬ timed
  | WDone, HLeaving => byWorker false
  | WDone, HReturned => (timeout ≠ 0%Z ∧ byHandler true) ∨ byWorker true
  | _, _ => False
  end.

(** An upper bound on the steps still to come. *)
Definition remaining (st : HState) : nat :=
  match worker st with
  | WCalling => 2
  | WSelect _ | WRespond _ => 1
  | WSignal _ | WDone => 0
  end
  + match handler st with
    | HWaitCalled | HSelect => 3
    | HTimedOut | HWaitSent => 2
    | HLeaving => 1
    | HReturned => 0
    end.

End HandleRequest.

End Handler.

(* ===================================================================== *)
(** * Client core: calls, the pending table, the receive pump *)
(* ===================================================================== *)

Module ClientCore.

(** [uint64] arithmetic wraps. *)
Definition wrap64 (z : Z) : Z := (z `mod` 2 ^ 64)%Z.

(** [codec.Header]. *)
Record Header := { hServiceMethod : string; hSeq : Z; hError : string }.

(** A [Call].  [Done] is the address of its completion channel; the
    arguments and the reply are the encoded values. *)
Record Call := {
  Seq : Z;
  ServiceMethod : string;
  Args : string;
  Reply : string;
  Error : error;
  Done : nat
}.

(** A channel of [*Call]: its capacity and the values sent on it so far, in
    the order of the sends.  Here a send is recorded when it completes; the
    wait of a send that finds the buffer full, and what the receivers have
    taken, are in [ClientTasks]. *)
Record Chan := { capacity : nat; sent : list nat }.

Record Client := {
  seq : Z;
  header : Header;
  pending : gmap Z nat;
  isClosed : bool;
  isShutdown : bool;
  codecClosed : bool
}.

(** The [Call] objects and channels by address, and the client. *)
Record State := {
  calls : gmap nat Call;
  chans : gmap nat Chan;
  client : Client
}.

Definition ErrShutdown : string := "connection is shut down".

Definition withClient (st : State) (cl : Client) : State :=
  {| calls := calls st; chans := chans st; client := cl |}.

(** An assignment to a field of the call at address [c]. *)
Definition updCall (f : Call → Call) (c : nat) (st : State) : State :=
  {| calls := alter f c (calls st); chans := chans st; client := client st |}.

(** [call.Error = e] *)
Definition setError (c : nat) (e : error) : State → State :=
  updCall (λ call, {| Seq := Seq call; ServiceMethod := ServiceMethod call;
                      Args := Args call; Reply := Reply call;
                      Error := e; Done := Done call |}) c.

(** [call.Seq = s] *)
Definition setSeq (c : nat) (s : Z) : State → State :=
  updCall (λ call, {| Seq := s; ServiceMethod := ServiceMethod call;
                      Args := Args call; Reply := Reply call;
                      Error := Error call; Done := Done call |}) c.

(** The body decoded into [call.Reply]. *)
Definition setReply (c : nat) (body : string) : State → State :=
  updCall (λ call, {| Seq := Seq call; ServiceMethod := ServiceMethod call;
                      Args := Args call; Reply := body;
                      Error := Error call; Done := Done call |}) c.

(** [call.done()]: [call.Done <- call]. *)
Definition done (c : nat) (st : State) : State :=
  match calls st !! c with
  | Some call =>
      {| calls := calls st;
         chans := alter (λ ch, {| capacity := capacity ch; sent := sent ch ++ [c] |})
                        (Done call) (chans st);
         client := client st |}
  | None => st
  end.

(** How often [c] has been sent on its [Done] channel. *)
Definition writes (st : State) (c : nat) : nat :=
  match calls st !! c with
  | Some call =>
      match chans st !! Done call with
      | Some ch => length (filter (λ x, x = c) (sent ch))
      | None => 0
      end
  | None => 0
  end.

Definition callError (st : State) (c : nat) : option error :=
  Error <$> calls st !! c.

(** [NewClientCodec]: the counter starts at 1, nothing is pending. *)
Definition NewClientCodec : Client :=
  {| seq := 1; header := {| hServiceMethod := ""; hSeq := 0; hError := "" |};
     pending := ∅; isClosed := false; isShutdown := false; codecClosed := false |}.

Definition IsAvailable (cl : Client) : bool :=
  negb (isShutdown cl) && negb (isClosed cl).

(** [Close]: the shutdown error when already closed. *)
Definition Close (cl : Client) : Client * error :=
  if isClosed cl then (cl, Some ErrShutdown)
  else ({| seq := seq cl; header := header cl; pending := pending cl;
           isClosed := true; isShutdown := isShutdown cl; codecClosed := true |},
        None).

(** [registerCall]. *)
Definition registerCall (c : nat) (st : State) : State * Z * error :=
  let cl := client st in
  if isShutdown cl || isClosed cl then (st, 0%Z, Some ErrShutdown)
  else
    let st1 := setSeq c (seq cl) st in
    (withClient st1
       {| seq := wrap64 (seq cl + 1); header := header cl;
          pending := <[seq cl := c]> (pending cl);
          isClosed := isClosed cl; isShutdown := isShutdown cl;
          codecClosed := codecClosed cl |},
     seq cl, None).

(** [removeCall]: the call found under [s], if any, and the map without
    it. *)
Definition removeCall (s : Z) (st : State) : State * option nat :=
  let cl := client st in
  (withClient st
     {| seq := seq cl; header := header cl; pending := delete s (pending cl);
        isClosed := isClosed cl; isShutdown := isShutdown cl;
        codecClosed := codecClosed cl |},
   pending cl !! s).

(** One iteration of the loop of [terminateCalls]. *)
Definition terminateOne (err : string) (st : State) (e : Z * nat) : State :=
  done e.2 (setError e.2 (Some err) st).

(** [terminateCalls] when the range statement enumerates [pending] in the
    order [entries] (Go leaves that order unspecified). *)
Definition terminateCallsIn (entries : list (Z * nat)) (err : string)
    (st : State) : State :=
  let cl := client st in
  let st1 := withClient st
               {| seq := seq cl; header := header cl; pending := pending cl;
                  isClosed := isClosed cl; isShutdown := true;
                  codecClosed := codecClosed cl |} in
  foldl (terminateOne err) st1 entries.

Definition terminateCalls (err : string) (st : State) : State :=
  terminateCallsIn (map_to_list (pending (client st))) err st.

(** The part of [send] after a successful [registerCall]: the scratch
    header is filled and [codec.Write] returns [werr]. *)
Definition setHeader (sm : string) (s : Z) (st : State) : State :=
  let cl := client st in
  withClient st
    {| seq := seq cl;
       header := {| hServiceMethod := sm; hSeq := s; hError := "" |};
       pending := pending cl; isClosed := isClosed cl;
       isShutdown := isShutdown cl; codecClosed := codecClosed cl |}.

Definition afterWrite (s : Z) (werr : error) (st : State) : State :=
  match werr with
  | None => st
  | Some e =>
      let '(st1, call) := removeCall s st in
      match call with
      | Some c => done c (setError c (Some e) st1)
      | None => st1
      end
  end.

(** [send], start to end, when nothing else runs in between. *)
Definition send (c : nat) (werr : error) (st : State) : State :=
  let '(st1, s, err) := registerCall c st in
  match err with
  | Some e => done c (setError c (Some e) st1)
  | None =>
      let sm := default "" (ServiceMethod <$> calls st1 !! c) in
      afterWrite s werr (setHeader sm s st1)
  end.

(** One turn of the loop of [receive] once [ReadHeader] has returned [h],
    taken as one step; [berr] is what [ReadBody] returns and [body] what it
    decodes.  The second component is the loop variable [err].  The turn
    split at its lock and channel operations is in [ClientTasks]. *)
Definition receiveFrame (h : Header) (body : string) (berr : error)
    (st : State) : State * error :=
  let '(st1, call) := removeCall (hSeq h) st in
  match call with
  | None => (st1, berr)
  | Some c =>
      if bool_decide (hError h ≠ "") then
        (* the text of h.Error as it is; what fmt.Errorf makes of it is in
           ClientTasks *)
        (done c (setError c (Some (hError h)) st1), berr)
      else
        match berr with
        | Some e => (done c (setError c (Some ("reading body " +:+ e)) st1), berr)
        | None => (done c (setReply c body st1), berr)
        end
  end.

(** ** The client as a system of tasks

    The callers' tasks, the receive task and the two mutexes.  [sending]
    is the send mutex: [Some (c, s)] while a [send] of the call [c],
    registered under [s], is between its registration and its write.  Every
    other step is taken as a whole.  This is the system the statements about
    the sequence numbers, the pending table and the flags are made on; the
    statements about the signals on [Done] are made on [ClientTasks]. *)

Inductive recvState :=
| Receiving                 (* in the loop *)
| Failing (err : string)    (* out of the loop, about to call terminateCalls *)
| Exited.

Record System := {
  state : State;
  sending : option (nat * Z);
  receiver : recvState;
  assigned : list Z   (* the values returned by the successful registerCalls *)
}.

(** The [done] argument of [Go]. *)
Inductive doneArg :=
| DoneNil                   (* nil: Go makes a channel of capacity 10 *)
| DoneMake (cap : nat)      (* a channel the caller has just made *)
| DoneChan (ch : nat).      (* a channel the caller already uses *)

Inductive event :=
| GoRegister (sm args : string) (d : doneArg)
| SendWrite (werr : error)
| RecvFrame (h : Header) (body : string) (berr : error)
| RecvFail (err : string)
| Terminate
| Cancel (c : nat)
| CloseClient.

(** The channel [Go] ends up with; [None] is the panic on an unbuffered
    channel (or a channel that does not exist). *)
Definition resolveDone (d : doneArg) (st : State) : option (State * nat) :=
  match d with
  | DoneNil =>
      let ch := fresh (dom (chans st)) in
      Some ({| calls := calls st;
               chans := <[ch := {| capacity := 10; sent := [] |}]> (chans st);
               client := client st |}, ch)
  | DoneMake cap =>
      if decide (cap = 0) then None
      else
        let ch := fresh (dom (chans st)) in
        Some ({| calls := calls st;
                 chans := <[ch := {| capacity := cap; sent := [] |}]> (chans st);
                 client := client st |}, ch)
  | DoneChan ch =>
      match chans st !! ch with
      | Some c => if decide (capacity c = 0) then None else Some (st, ch)
      | None => None
      end
  end.

(** [call := &Call{...}] in [Go]. *)
Definition newCall (sm args : string) (ch : nat) (st : State) : State * nat :=
  let c := fresh (dom (calls st)) in
  ({| calls := <[c := {| Seq := 0; ServiceMethod := sm; Args := args;
                         Reply := ""; Error := None; Done := ch |}]> (calls st);
      chans := chans st; client := client st |}, c).

Definition withState (sys : System) (st : State) : System :=
  {| state := st; sending := sending sys; receiver := receiver sys;
     assigned := assigned sys |}.

(** One step; [None] when the event cannot happen in this state. *)
Definition step (sys : System) (ev : event) : option System :=
  match ev with
  | GoRegister sm args d =>
      match sending sys with
      | Some _ => None
      | None =>
          '(st0, ch) ← resolveDone d (state sys);
          let '(st1, c) := newCall sm args ch st0 in
          let '(st2, s, err) := registerCall c st1 in
          match err with
          | Some e =>
              Some {| state := done c (setError c (Some e) st2);
                      sending := None; receiver := receiver sys;
                      assigned := assigned sys |}
          | None =>
              Some {| state := setHeader sm s st2;
                      sending := Some (c, s); receiver := receiver sys;
                      assigned := assigned sys ++ [s] |}
          end
      end
  | SendWrite werr =>
      match sending sys with
      | Some (c, s) =>
          Some {| state := afterWrite s werr (state sys);
                  sending := None; receiver := receiver sys;
                  assigned := assigned sys |}
      | None => None
      end
  | RecvFrame h body berr =>
      match receiver sys with
      | Receiving =>
          let '(st1, err) := receiveFrame h body berr (state sys) in
          Some {| state := st1; sending := sending sys;
                  receiver := match err with
                              | Some e => Failing e
                              | None => Receiving
                              end;
                  assigned := assigned sys |}
      | _ => None
      end
  | RecvFail err =>
      match receiver sys with
      | Receiving =>
          Some {| state := state sys; sending := sending sys;
                  receiver := Failing err; assigned := assigned sys |}
      | _ => None
      end
  | Terminate =>
      match receiver sys, sending sys with
      | Failing err, None =>
          Some {| state := terminateCalls err (state sys); sending := None;
                  receiver := Exited; assigned := assigned sys |}
      | _, _ => None
      end
  | Cancel c =>
      call ← calls (state sys) !! c;
      Some (withState sys (removeCall (Seq call) (state sys)).1)
  | CloseClient =>
      Some (withState sys (withClient (state sys) (Close (client (state sys))).1))
  end.

Fixpoint run (sys : System) (evs : list event) : option System :=
  match evs with
  | [] => Some sys
  | ev :: evs' => sys' ← step sys ev; run sys' evs'
  end.

(** A new client over a codec, with the channels the callers already
    hold, given by their capacities: nothing has been sent on them. *)
Definition newSystem (userChans : gmap nat nat) : System :=
  {| state := {| calls := ∅;
                 chans := (λ cap, {| capacity := cap; sent := [] |}) <$> userChans;
                 client := NewClientCodec |};
     sending := None; receiver := Receiving; assigned := [] |}.

(** Two calls sent and not yet answered. *)
Definition twoCallsSent : list event :=
  [GoRegister "Arith.Sum" "3,4" (DoneMake 1); SendWrite None;
   GoRegister "Arith.Sum" "5,6" DoneNil; SendWrite None].

Definition twoPending : System :=
  default (newSystem ∅) (run (newSystem ∅) twoCallsSent).

(** ** Well-formed states

    Pending calls are allocated and no call is pending under two numbers;
    what was sent on a channel is an allocated call; the [Done] channel of
    a call exists. *)
Record wfState (st : State) : Prop := {
  wf_pending_alloc :
    ∀ s c, pending (client st) !! s = Some c → is_Some (calls st !! c);
  wf_pending_inj :
    ∀ s1 s2 c, pending (client st) !! s1 = Some c →
               pending (client st) !! s2 = Some c → s1 = s2;
  wf_sent_alloc :
    ∀ ch chan c, chans st !! ch = Some chan → c ∈ sent chan →
                 is_Some (calls st !! c);
  wf_done_chan :
    ∀ c call, calls st !! c = Some call → is_Some (chans st !! Done call)
}.

(** The invariant of the system: no call is signalled twice; while the
    receive task lives, a pending call has not been signalled; once it has
    exited, the client is shut down and no send is under way. *)
Record inv (sys : System) : Prop := {
  inv_wf : wfState (state sys);
  inv_once : ∀ c, writes (state sys) c ≤ 1;
  inv_pending :
    receiver sys ≠ Exited →
    ∀ s c, pending (client (state sys)) !! s = Some c → writes (state sys) c = 0;
  inv_exited :
    receiver sys = Exited →
    sending sys = None ∧ isShutdown (client (state sys)) = true;
  inv_seq :
    seq (client (state sys)) = wrap64 (1 + Z.of_nat (length (assigned sys)));
  inv_assigned :
    ∀ i s, assigned sys !! i = Some s → s = wrap64 (1 + Z.of_nat i)
}.

(** The [Seq] field of the call at address [c]. *)
Definition seqOf (st : State) (c : nat) : option Z := Seq <$> calls st !! c.

(** Sequence numbers and calls: a pending call sits under its own [Seq],
    which [registerCall] has returned; the [Seq] of any call is 0 or a
    number [registerCall] has returned; and while fewer than [2^64] numbers
    have been given out, no two calls carry the same number. *)
Record keyed (sys : System) : Prop := {
  keyed_pending :
    ∀ s c, pending (client (state sys)) !! s = Some c →
           seqOf (state sys) c = Some s ∧ s ∈ assigned sys;
  keyed_calls :
    ∀ c s, seqOf (state sys) c = Some s → s = 0%Z ∨ s ∈ assigned sys;
  keyed_inj :
    (Z.of_nat (length (assigned sys)) < 2 ^ 64)%Z →
    ∀ c1 c2 s, seqOf (state sys) c1 = Some s → seqOf (state sys) c2 = Some s →
               s ≠ 0%Z → c1 = c2
}.

End ClientCore.
(* ===================================================================== *)
(** * The client's tasks, step by step *)
(* ===================================================================== *)

(** The client of [ClientCore] again, with every point at which a task can
    be overtaken as a step of its own.  [receive] gives up the state mutex
    between [removeCall] and [call.done()], and reads the body in between;
    [call.done()] is a send on a channel and waits while the buffer is
    full, in [send] with the send mutex held and in [terminateCalls] with
    both mutexes held; and the text of a header error goes through
    [fmt.Errorf]. *)
Module ClientTasks.
Import ClientCore.

(** The task in [send], the holder of the mutex [sending]. *)
Inductive sendState :=
| SendIdle                          (* nobody is in [send] *)
| SendWriting (c : nat) (s : Z)     (* registered under [s], in [codec.Write] *)
| SendSignalling (c : nat).         (* at [call.done()], before it returns *)

(** The receive task. *)
Inductive recvState :=
| RecvHeader                        (* in [ReadHeader] *)
| RecvBody (h : Header) (call : option nat)
                                    (* after [removeCall(h.Seq)], in [ReadBody] *)
| RecvSignalling (c : nat) (err : error)
                                    (* at [call.done()]; [err] is the loop variable *)
| RecvFailing (err : string)        (* out of the loop, before [terminateCalls] *)
| Terminating (err : string) (visited : gset Z) (at_ : option nat)
                                    (* in the range of [terminateCalls], holding both
                                       mutexes: the keys visited so far, and the call
                                       it is at [call.done()] with *)
| RecvExited.

Record Tasks := {
  store : State;
  sendTask : sendState;
  recvTask : recvState;
  received : gmap nat nat   (* how many values the callers have taken from
                               each channel *)
}.

(** What the tasks do.  The values that come from outside (what the codec
    reads and returns, which entry the range visits next) are part of the
    step. *)
Inductive act :=
| GoSend (sm args : string) (d : doneArg)
                          (* [Go] up to the return of [registerCall] in [send] *)
| WriteReturns (werr : error)
                          (* [codec.Write] returns; on an error, [removeCall] *)
| SendSignals             (* [call.done()] in [send] returns, and so does [send] *)
| HeaderRead (h : Header)
                          (* [ReadHeader] returns nil; [removeCall(h.Seq)] *)
| HeaderFails (err : string)
                          (* [ReadHeader] returns an error *)
| BodyRead (body : string) (berr : error)
                          (* [ReadBody] returns *)
| RecvSignals             (* [call.done()] in [receive] returns *)
| TermEnters              (* [terminateCalls] has both mutexes; [isShutdown = true] *)
| TermVisits (s : Z)      (* the range comes to the entry [s]; [call.Error = err] *)
| TermSignals             (* [call.done()] in the range returns *)
| TermReturns             (* the range is over; both mutexes are released *)
| Cancels (c : nat)       (* [removeCall(call.Seq)] of an abandoned [Call] *)
| Closes                  (* [Close] *)
| Takes (ch : nat).       (* a caller receives from the channel [ch] *)

Definition withStore (t : Tasks) (st : State) : Tasks :=
  {| store := st; sendTask := sendTask t; recvTask := recvTask t;
     received := received t |}.

Definition withSend (t : Tasks) (st : State) (s : sendState) : Tasks :=
  {| store := st; sendTask := s; recvTask := recvTask t; received := received t |}.

Definition withRecv (t : Tasks) (st : State) (r : recvState) : Tasks :=
  {| store := st; sendTask := sendTask t; recvTask := r; received := received t |}.

(** The state mutex is held across steps only by [terminateCalls]. *)
Definition holdsMu (r : recvState) : bool :=
  match r with
  | Terminating _ _ _ => true
  | _ => false
  end.

(** The buffer of [ch] takes one more value: fewer values are waiting in
    it than its capacity. *)
Definition hasRoom (t : Tasks) (ch : nat) : bool :=
  match chans (store t) !! ch with
  | Some chan =>
      bool_decide (length (sent chan) - default 0 (received t !! ch) < capacity chan)
  | None => false
  end.

(** [call.done()] can return: the channel of the call has room. *)
Definition canSignal (t : Tasks) (c : nat) : bool :=
  match calls (store t) !! c with
  | Some call => hasRoom t (Done call)
  | None => false
  end.

(** Where the loop of [receive] goes after a frame, by its variable
    [err]. *)
Definition afterFrame (err : error) : recvState :=
  match err with
  | Some e => RecvFailing e
  | None => RecvHeader
  end.

(** [client.isShutdown = true] *)
Definition shutDown (st : State) : State :=
  let cl := client st in
  withClient st
    {| seq := seq cl; header := header cl; pending := pending cl;
       isClosed := isClosed cl; isShutdown := true;
       codecClosed := codecClosed cl |}.

(** [<-ch]: the oldest value not yet taken. *)
Definition take (ch : nat) (t : Tasks) : option (Tasks * nat) :=
  chan ← chans (store t) !! ch;
  let n := default 0 (received t !! ch) in
  v ← sent chan !! n;
  Some ({| store := store t; sendTask := sendTask t; recvTask := recvTask t;
           received := <[ch := S n]> (received t) |}, v).

Section Errorf.

(** [fmt.Errorf(format)] for a format that is given no operands: the text
    of the error it returns.  It is the format itself when the format
    holds no [%]; otherwise the verbs are replaced by the marks of
    [fmt]. *)
Variable Errorf : string → string.

(** One step; [None] when the step cannot be taken in this state: the
    task is not there, the mutex it needs is held, the channel is full, or
    [Go] panics. *)
Definition perform (t : Tasks) (a : act) : option Tasks :=
  match a with
  | GoSend sm args d =>
      match sendTask t, holdsMu (recvTask t) with
      | SendIdle, false =>
          '(st0, ch) ← resolveDone d (store t);
          let '(st1, c) := newCall sm args ch st0 in
          let '(st2, s, err) := registerCall c st1 in
          match err with
          | Some e =>
              Some (withSend t (setError c (Some e) st2) (SendSignalling c))
          | None =>
              Some (withSend t (setHeader sm s st2) (SendWriting c s))
          end
      | _, _ => None
      end
  | WriteReturns werr =>
      match sendTask t, holdsMu (recvTask t) with
      | SendWriting _ s, false =>
          match werr with
          | None => Some (withSend t (store t) SendIdle)
          | Some e =>
              let '(st1, call) := removeCall s (store t) in
              match call with
              | Some c => Some (withSend t (setError c (Some e) st1)
                                         (SendSignalling c))
              | None => Some (withSend t st1 SendIdle)
              end
          end
      | _, _ => None
      end
  | SendSignals =>
      match sendTask t with
      | SendSignalling c =>
          if canSignal t c then Some (withSend t (done c (store t)) SendIdle)
          else None
      | _ => None
      end
  | HeaderRead h =>
      match recvTask t with
      | RecvHeader =>
          let '(st1, call) := removeCall (hSeq h) (store t) in
          match call with
          | Some c =>
              if bool_decide (hError h ≠ "") then
                Some (withRecv t (setError c (Some (Errorf (hError h))) st1)
                               (RecvBody h call))
              else Some (withRecv t st1 (RecvBody h call))
          | None => Some (withRecv t st1 (RecvBody h call))
          end
      | _ => None
      end
  | HeaderFails err =>
      match recvTask t with
      | RecvHeader => Some (withRecv t (store t) (RecvFailing err))
      | _ => None
      end
  | BodyRead body berr =>
      match recvTask t with
      | RecvBody h None => Some (withRecv t (store t) (afterFrame berr))
      | RecvBody h (Some c) =>
          if bool_decide (hError h ≠ "") then
            Some (withRecv t (store t) (RecvSignalling c berr))
          else
            match berr with
            | Some e =>
                Some (withRecv t (setError c (Some ("reading body " +:+ e)) (store t))
                               (RecvSignalling c berr))
            | None =>
                Some (withRecv t (setReply c body (store t))
                               (RecvSignalling c berr))
            end
      | _ => None
      end
  | RecvSignals =>
      match recvTask t with
      | RecvSignalling c err =>
          if canSignal t c then Some (withRecv t (done c (store t)) (afterFrame err))
          else None
      | _ => None
      end
  | TermEnters =>
      match recvTask t, sendTask t with
      | RecvFailing err, SendIdle =>
          Some (withRecv t (shutDown (store t)) (Terminating err ∅ None))
      | _, _ => None
      end
  | TermVisits s =>
      match recvTask t with
      | Terminating err visited None =>
          if decide (s ∈ visited) then None
          else
            c ← pending (client (store t)) !! s;
            Some (withRecv t (setError c (Some err) (store t))
                           (Terminating err ({[s]} ∪ visited) (Some c)))
      | _ => None
      end
  | TermSignals =>
      match recvTask t with
      | Terminating err visited (Some c) =>
          if canSignal t c then
            Some (withRecv t (done c (store t)) (Terminating err visited None))
          else None
      | _ => None
      end
  | TermReturns =>
      match recvTask t with
      | Terminating err visited None =>
          if decide (dom (pending (client (store t))) ⊆ visited) then
            Some (withRecv t (store t) RecvExited)
          else None
      | _ => None
      end
  | Cancels c =>
      if holdsMu (recvTask t) then None
      else
        call ← calls (store t) !! c;
        Some (withStore t (removeCall (Seq call) (store t)).1)
  | Closes =>
      if holdsMu (recvTask t) then None
      else Some (withStore t (withClient (store t) (Close (client (store t))).1))
  | Takes ch => fst <$> take ch t
  end.

Fixpoint performs (t : Tasks) (acts : list act) : option Tasks :=
  match acts with
  | [] => Some t
  | a :: acts' => t' ← perform t a; performs t' acts'
  end.

(** [Go], start to end, when no other task takes a step in between:
    [None] when it panics or cannot go on.  The second component is the
    address of the new call. *)
Definition Go (sm args : string) (d : doneArg) (werr : error) (t : Tasks)
  : option (Tasks * nat) :=
  let c := fresh (dom (calls (store t))) in
  t1 ← perform t (GoSend sm args d);
  t2 ← match sendTask t1 with
       | SendWriting _ _ => perform t1 (WriteReturns werr)
       | _ => Some t1
       end;
  t3 ← match sendTask t2 with
       | SendSignalling _ => perform t2 SendSignals
       | _ => Some t2
       end;
  Some (t3, c).

(** [Client.Call]: [Go] with a new channel of capacity 1, then the
    [select].  [others] are the steps of the other tasks while the caller
    waits.  With [ctxErr = Some e] the case [<-ctx.Done()] is the one
    taken, and [e] is the text of [ctx.Err()]; with [None] it is the case
    [call = <-call.Done], which needs a value in the channel ([None]
    otherwise: the caller is still waiting). *)
Definition Client_Call (sm args : string) (werr : error) (others : list act)
    (ctxErr : option string) (t : Tasks) : option (Tasks * error) :=
  '(t1, c) ← Go sm args (DoneMake 1) werr t;
  t2 ← performs t1 others;
  match ctxErr with
  | Some e =>
      t3 ← perform t2 (Cancels c);
      Some (t3, Some ("rpc client: call failed: " +:+ e))
  | None =>
      call ← calls (store t2) !! c;
      '(t3, v) ← take (Done call) t2;
      err ← callError (store t3) v;
      Some (t3, err)
  end.

(** The [Error] that the switch of [receive] leaves in a call which had
    none, for the frame [h] when [ReadBody] returns [berr]. *)
Definition replyError (h : Header) (berr : error) : error :=
  if bool_decide (hError h ≠ "") then Some (Errorf (hError h))
  else match berr with
       | Some e => Some ("reading body " +:+ e)
       | None => None
       end.

End Errorf.

(** A new client over a codec, with the channels the callers already
    hold, given by their capacities: nothing has been sent on them or
    taken from them. *)
Definition newTasks (userChans : gmap nat nat) : Tasks :=
  {| store := state (newSystem userChans);
     sendTask := SendIdle; recvTask := RecvHeader; received := ∅ |}.

(** The call that the step [a] signals in [t], if it is one of the three
    [call.done()]. *)
Definition signalled (t : Tasks) (a : act) : option nat :=
  match a, sendTask t, recvTask t with
  | SendSignals, SendSignalling c, _ => Some c
  | RecvSignals, _, RecvSignalling c _ => Some c
  | TermSignals, _, Terminating _ _ (Some c) => Some c
  | _, _, _ => None
  end.

(** The call the receive task has taken out of [pending] and not yet
    signalled. *)
Definition recvHolds (r : recvState) : option nat :=
  match r with
  | RecvBody _ (Some c) => Some c
  | RecvSignalling c _ => Some c
  | _ => None
  end.

(** The entry [s] of [pending] is one that [terminateCalls] has not come
    to. *)
Definition unvisited (r : recvState) (s : Z) : Prop :=
  match r with
  | Terminating _ visited _ => s ∉ visited
  | RecvExited => False
  | _ => True
  end.

(** The range of [terminateCalls] has been at the entry [s]. *)
Definition visitedBy (r : recvState) (s : Z) : Prop :=
  match r with
  | Terminating _ visited _ => s ∈ visited
  | RecvExited => True
  | _ => False
  end.

(** The call a task is at [call.done()] with, or will be after
    [ReadBody]. *)
Definition inHand (t : Tasks) (c : nat) : Prop :=
  sendTask t = SendSignalling c
  ∨ recvHolds (recvTask t) = Some c
  ∨ ∃ err visited, recvTask t = Terminating err visited (Some c).

(** The invariant of the tasks.  No call is signalled twice.  A call in
    [pending] that [terminateCalls] has not come to is not signalled and
    sits under its own [Seq].  A call in the hands of [send] or of
    [receive] is allocated, out of [pending] and not signalled, and the
    two hold different calls.  In the range of [terminateCalls] nobody is
    in [send], and from its start on the client is shut down and nobody is
    in [codec.Write]; a call in [pending] that the range has been at is
    signalled, or is the one the range is signalling. *)
Record tinv (t : Tasks) : Prop := {
  tinv_wf : wfState (store t);
  tinv_once : ∀ c, writes (store t) c ≤ 1;
  tinv_pending :
    ∀ s c, pending (client (store t)) !! s = Some c → unvisited (recvTask t) s →
           writes (store t) c = 0;
  tinv_keyed :
    ∀ s c, pending (client (store t)) !! s = Some c →
           seqOf (store t) c = Some s;
  tinv_send :
    ∀ c, sendTask t = SendSignalling c →
         is_Some (calls (store t) !! c) ∧ writes (store t) c = 0
         ∧ (∀ s, pending (client (store t)) !! s ≠ Some c)
         ∧ recvHolds (recvTask t) ≠ Some c;
  tinv_recv :
    ∀ c, recvHolds (recvTask t) = Some c →
         is_Some (calls (store t) !! c) ∧ writes (store t) c = 0
         ∧ (∀ s, pending (client (store t)) !! s ≠ Some c);
  tinv_at :
    ∀ err visited c, recvTask t = Terminating err visited (Some c) →
         writes (store t) c = 0
         ∧ ∃ s, s ∈ visited ∧ pending (client (store t)) !! s = Some c;
  tinv_writing :
    ∀ c s, sendTask t = SendWriting c s →
         holdsMu (recvTask t) = false ∧ recvTask t ≠ RecvExited;
  tinv_locked :
    holdsMu (recvTask t) = true → sendTask t = SendIdle;
  tinv_shut :
    holdsMu (recvTask t) = true ∨ recvTask t = RecvExited →
    isShutdown (client (store t)) = true;
  tinv_taken :
    ∀ ch n, received t !! ch = Some n →
            ∃ chan, chans (store t) !! ch = Some chan ∧ n ≤ length (sent chan);
  tinv_visited :
    ∀ s c, pending (client (store t)) !! s = Some c → visitedBy (recvTask t) s →
           writes (store t) c = 1
           ∨ ∃ err visited, recvTask t = Terminating err visited (Some c)
}.

(** The call [c] is out of the client's reach: it is not in [pending] and
    neither [send] nor [receive] has it in hand. *)
Definition released (t : Tasks) (c : nat) : Prop :=
  (∀ s, pending (client (store t)) !! s ≠ Some c)
  ∧ sendTask t ≠ SendSignalling c
  ∧ recvHolds (recvTask t) ≠ Some c.

(** A [fmt.Errorf] for the examples, whose error texts hold no [%]. *)
Definition plainErrorf (format : string) : string := format.

(** [Client.Call] abandoned by its context while its call is pending; the
    reply then comes late and is dropped, the connection fails, and
    [terminateCalls] runs to its end. *)
Definition lateReply : list act :=
  [HeaderRead {| hServiceMethod := "Arith.Sum"; hSeq := 1; hError := "" |};
   BodyRead "7" None; HeaderFails "EOF"; TermEnters; TermReturns].

(** The reply to call 1 is read, and signalled after anything else that
    may happen in between. *)
Definition replyHeader : list act :=
  [HeaderRead {| hServiceMethod := "Arith.Sum"; hSeq := 1; hError := "" |}].
Definition replyRest : list act := [BodyRead "7" None; RecvSignals].

(** Two calls sent and not yet answered. *)
Definition twoSent : list act :=
  [GoSend "Arith.Sum" "3,4" (DoneMake 1); WriteReturns None;
   GoSend "Arith.Sum" "5,6" DoneNil; WriteReturns None].

Definition twoWaiting : Tasks :=
  default (newTasks ∅) (performs plainErrorf (newTasks ∅) twoSent).

(** A caller gives its channel 0, of capacity 1, to [Go] and does not read
    from it; the write fails, and the signal fills the channel. *)
Definition oneChannel : gmap nat nat := {[0 := 1]}.

Definition channelFilled : list act :=
  [GoSend "Arith.Sum" "3,4" (DoneChan 0); WriteReturns (Some "broken pipe");
   SendSignals].

Definition channelFull : Tasks :=
  default (newTasks oneChannel)
          (performs plainErrorf (newTasks oneChannel) channelFilled).

End ClientTasks.
(* ===================================================================== *)
(** * Registry: heartbeats and TTL eviction *)
(* ===================================================================== *)

Module Registry.

(** Instants and durations are integers (nanoseconds): [t.Add(d)] is
    [t + d] and [t.After(u)] is [u < t]. *)
Record ServerItem := { Addr : string; start : Z }.

Record CenterRegistry := {
  timeout : Z;
  servers : gmap string ServerItem
}.

Definition New (timeout : Z) : CenterRegistry :=
  {| timeout := timeout; servers := ∅ |}.

Definition defaultTimeout : Z := 5 * 60 * 1000000000.

(** [putServer] at the instant [now]: a new item, or the start of the
    existing one moved to [now]. *)
Definition putServer (now : Z) (addr : string) (r : CenterRegistry)
  : CenterRegistry :=
  match servers r !! addr with
  | None =>
      {| timeout := timeout r;
         servers := <[addr := {| Addr := addr; start := now |}]> (servers r) |}
  | Some server =>
      {| timeout := timeout r;
         servers := <[addr := {| Addr := Addr server; start := now |}]> (servers r) |}
  end.

(** The test of the loop:
    [r.timeout == 0 || server.start.Add(r.timeout).After(time.Now())]. *)
Definition isAlive (timeout now : Z) (server : ServerItem) : bool :=
  bool_decide (timeout = 0%Z) || bool_decide (now < start server + timeout)%Z.

(** One iteration of [for addr, server := range r.servers]. *)
Definition visit (timeout now : Z)
    (acc : list string * gmap string ServerItem) (e : string * ServerItem)
  : list string * gmap string ServerItem :=
  if isAlive timeout now e.2 then (acc.1 ++ [e.1], acc.2)
  else (acc.1, delete e.1 acc.2).

(** [sort.Strings]: ascending in the byte order of Go's string
    comparison. *)
Definition sortStrings (l : list string) : list string :=
  merge_sort String.le l.

(** [getAliveServers] when the range statement enumerates the map in the
    order [entries] (Go leaves that order unspecified).  The mutex is held
    throughout; the clock reads [now]. *)
Definition getAliveServersIn (entries : list (string * ServerItem))
    (now : Z) (r : CenterRegistry) : list string * CenterRegistry :=
  let acc := foldl (visit (timeout r) now) ([], servers r) entries in
  (sortStrings acc.1, {| timeout := timeout r; servers := acc.2 |}).

Definition getAliveServers (now : Z) (r : CenterRegistry)
  : list string * CenterRegistry :=
  getAliveServersIn (map_to_list (servers r)) now r.

(** What [ServeHTTP] reads of the request and writes of the response. *)
Record Request := {
  Method : string;
  XMyrpcServer : string   (* req.Header.Get("X-Myrpc-Server"), "" if absent *)
}.

Record Response := {
  status : Z;
  XMyrpcServers : option string   (* the response header, when set *)
}.

Definition StatusOK : Z := 200.
Definition StatusInternalServerError : Z := 500.
Definition StatusMethodNotAllowed : Z := 405.

Definition ServeHTTP (now : Z) (req : Request) (r : CenterRegistry)
  : Response * CenterRegistry :=
  if bool_decide (Method req = "GET") then
    let '(alive, r') := getAliveServers now r in
    ({| status := StatusOK; XMyrpcServers := Some (GoString.Join alive ",") |}, r')
  else if bool_decide (Method req = "POST") then
    if bool_decide (XMyrpcServer req = "") then
      ({| status := StatusInternalServerError; XMyrpcServers := None |}, r)
    else ({| status := StatusOK; XMyrpcServers := None |},
          putServer now (XMyrpcServer req) r)
  else ({| status := StatusMethodNotAllowed; XMyrpcServers := None |}, r).

(** Three servers heard at instants 10, 40 and 70. *)
Definition threeServers (ttl : Z) : CenterRegistry :=
  putServer 70 "tcp@b:2" (putServer 40 "tcp@c:3" (putServer 10 "tcp@a:1" (New ttl))).

(** A run of requests, each served at its instant. *)
Definition serveAll (reqs : list (Z * Request)) (r : CenterRegistry)
  : CenterRegistry :=
  foldl (λ r tr, (ServeHTTP tr.1 tr.2 r).2) r reqs.

(** The request [sendHeartbeat] builds. *)
Definition heartbeatRequest (serverAddr : string) : Request :=
  {| Method := "POST"; XMyrpcServer := serverAddr |}.

(** The send cycle of [Heartbeat]: a zero duration stands for the default
    timeout less one minute. *)
Definition heartbeatPeriod (duration : Z) : Z :=
  if bool_decide (duration = 0)%Z then (defaultTimeout - 1 * (60 * 1000000000))%Z
  else duration.

(** The loop of the task [Heartbeat] starts: [err] is what the last
    [sendHeartbeat] returned, [k] the number of heartbeats sent so far,
    [ticks] the ticks of the ticker that are still to come; [post k] is
    what the [k]-th [sendHeartbeat] returns.  The result lists the
    heartbeats sent, by number. *)
Fixpoint heartbeatLoop (post : nat → error) (err : error) (k ticks : nat)
  : list nat :=
  match ticks with
  | 0 => []
  | S n =>
      match err with
      | None => k :: heartbeatLoop post (post k) (S k) n
      | Some _ => []
      end
  end.

(** [Heartbeat], once the ticker has delivered [ticks] ticks: one heartbeat
    at once, then one per tick while the last one succeeded.  The second
    component is true when [time.NewTicker] panics, which it does on a
    period that is not positive. *)
Definition Heartbeat (post : nat → error) (duration : Z) (ticks : nat)
  : list nat * bool :=
  let duration := heartbeatPeriod duration in
  if bool_decide (duration ≤ 0)%Z then ([0], true)
  else (0 :: heartbeatLoop post (post 0) 1 ticks, false).

End Registry.

(* ===================================================================== *)
(** * Discovery: the server list and its registry-backed refresh *)
(* ===================================================================== *)

Module Discovery.
Import GoSlice.

Inductive SelectMode := RandomSelect | RoundRobinSelect | OtherMode (n : Z).

(** The fields the methods read and write; the random source [r] is the
    function [Intn] below. *)
Record MultiServersDiscovery := {
  servers : Slice;
  index : nat
}.

Section Selection.

(** [d.r.Intn(n)]: the next draw of the random source. *)
Variable Intn : nat → nat.

(** [Refresh] of the in-memory discovery does nothing. *)
Definition Refresh (d : MultiServersDiscovery) : error := None.

(** [Update] stores the caller's slice header as it is. *)
Definition Update (s : Slice) (d : MultiServersDiscovery)
  : MultiServersDiscovery * error :=
  ({| servers := s; index := index d |}, None).

(** [Get]; the outer [None] is the index-out-of-range panic of
    [d.servers[i]]. *)
Definition Get (h : Heap) (mode : SelectMode) (d : MultiServersDiscovery)
  : option (MultiServersDiscovery * string * error) :=
  let n := len (servers d) in
  if decide (n = 0%nat) then Some (d, "", Some "rpc discovery: no available servers")
  else match mode with
       | RandomSelect =>
           s ← read h (servers d) !! Intn n; Some (d, s, None)
       | RoundRobinSelect =>
           s ← read h (servers d) !! (index d `mod` n)%nat;
           Some ({| servers := servers d; index := (index d + 1) `mod` n |}, s, None)
       | OtherMode _ =>
           Some (d, "", Some "rpc discovery: not supported select mode")
       end.

(** [GetAll]: a new array of [n] strings, filled by [copy]. *)
Definition GetAll (h : Heap) (d : MultiServersDiscovery)
  : Heap * Slice * error :=
  let n := len (servers d) in
  let '(h1, servers') := make h n n in
  let '(h2, _) := copy h1 servers' (servers d) in
  (h2, servers', None).

End Selection.

(** ** The registry-backed discovery *)

Record CenterRegistryDiscovery := {
  base : MultiServersDiscovery;   (* the embedded *MultiServersDiscovery *)
  registryAddr : string;
  timeout : Z;
  lastUpdate : Z
}.

Definition defaultUpdateTimeout : Z := 10 * 1000000000.

(** The outcome of [http.Get]: an error, or a response of which the code
    reads the header X-Myrpc-Servers ([""] when the header is absent). *)
Inductive httpResult :=
| HttpErr (e : string)
| HttpOk (xMyrpcServers : string).

(** The loop of [Refresh] over the fields of the header. *)
Definition appendTrimmed (acc : Heap * Slice) (server : string) : Heap * Slice :=
  if bool_decide (GoString.TrimSpace server ≠ "") then
    append acc.1 acc.2 (GoString.TrimSpace server)
  else acc.

Section Refreshing.

(** The network: what [http.Get] answers for a URL. *)
Variable httpGet : string → httpResult.

(** [Refresh] at the instant [now].  The last component lists the URLs
    fetched by this call. *)
Definition CRefresh (now : Z) (h : Heap) (d : CenterRegistryDiscovery)
  : Heap * CenterRegistryDiscovery * error * list string :=
  if bool_decide (now < lastUpdate d + timeout d)%Z then (h, d, None, [])
  else
    match httpGet (registryAddr d) with
    | HttpErr e => (h, d, Some e, [registryAddr d])
    | HttpOk hdr =>
        let fields := GoString.Split hdr ","%char in
        let '(h1, s0) := make h 0 (length fields) in
        let '(h2, s) := foldl appendTrimmed (h1, s0) fields in
        (h2,
         {| base := {| servers := s; index := index (base d) |};
            registryAddr := registryAddr d;
            timeout := timeout d;
            lastUpdate := now |},
         None, [registryAddr d])
    end.

Variable Intn : nat → nat.

(** [Get] and [GetAll] refresh first and give up on its error.  The third
    component lists the URLs fetched; a last component [None] is the
    index-out-of-range panic inside the embedded [Get]. *)
Definition CGet (now : Z) (h : Heap) (mode : SelectMode)
    (d : CenterRegistryDiscovery)
  : Heap * CenterRegistryDiscovery * list string * option (string * error) :=
  let '(h1, d1, err, fetched) := CRefresh now h d in
  match err with
  | Some e => (h1, d1, fetched, Some ("", Some e))
  | None =>
      match Get Intn h1 mode (base d1) with
      | Some (b, s, err') =>
          (h1,
           {| base := b; registryAddr := registryAddr d1;
              timeout := timeout d1; lastUpdate := lastUpdate d1 |},
           fetched, Some (s, err'))
      | None => (h1, d1, fetched, None)
      end
  end.

Definition CGetAll (now : Z) (h : Heap) (d : CenterRegistryDiscovery)
  : Heap * CenterRegistryDiscovery * Slice * error * list string :=
  let '(h1, d1, err, fetched) := CRefresh now h d in
  match err with
  | Some e => (h1, d1, nilSlice, Some e, fetched)
  | None =>
      let '(h2, s, err') := GetAll h1 (base d1) in
      (h2, d1, s, err', fetched)
  end.

End Refreshing.

(** [Update] of the registry-backed discovery also stamps [lastUpdate]. *)
Definition CUpdate (now : Z) (s : Slice) (d : CenterRegistryDiscovery)
  : CenterRegistryDiscovery * error :=
  ({| base := {| servers := s; index := index (base d) |};
      registryAddr := registryAddr d; timeout := timeout d;
      lastUpdate := now |}, None).

Definition NewMultiServersDiscovery (seed : nat) (s : Slice)
  : MultiServersDiscovery :=
  {| servers := s; index := seed |}.

Definition NewCenterRegistryDiscovery (seed : nat) (h : Heap)
    (registerAddr : string) (timeout : Z) : Heap * CenterRegistryDiscovery :=
  let timeout := if bool_decide (timeout = 0%Z) then defaultUpdateTimeout else timeout in
  let '(h1, s) := make h 0 0 in
  (h1, {| base := NewMultiServersDiscovery seed s;
          registryAddr := registerAddr; timeout := timeout; lastUpdate := 0 |}).

(** A discovery over two servers, its list stored in a heap array. *)
Definition twoServersHeap : Heap :=
  writeAt (make ∅ 2 2).1 (make ∅ 2 2).2 ["tcp@a:1"; "tcp@b:2"].
Definition twoServers : MultiServersDiscovery :=
  NewMultiServersDiscovery 5 (make ∅ 2 2).2.

(** A registry-backed discovery that last refreshed at instant 100 with a
    refresh period of 10, holding the two servers; a network on which the
    registry is unreachable, and one on which it answers. *)
Definition cachedDiscovery : CenterRegistryDiscovery :=
  {| base := twoServers; registryAddr := "http://reg/myRPC/registry";
     timeout := 10; lastUpdate := 100 |}.
Definition netDown (url : string) : httpResult := HttpErr "connection refused".
Definition netUp (url : string) : httpResult := HttpOk "tcp@c:3, tcp@d:4,,".

(** [k] calls of [Get] in a row, all of which must succeed: the addresses
    returned, in order. *)
Fixpoint GetMany (Intn : nat → nat) (k : nat) (h : Heap) (mode : SelectMode)
    (d : MultiServersDiscovery)
  : option (MultiServersDiscovery * list string) :=
  match k with
  | 0 => Some (d, [])
  | S k' =>
      '(d1, s, err) ← Get Intn h mode d;
      match err with
      | Some _ => None
      | None => '(d2, l) ← GetMany Intn k' h mode d1; Some (d2, s :: l)
      end
  end.

End Discovery.

(* ===================================================================== *)
(** * The registry as the discovery reaches it *)
(* ===================================================================== *)

Module RegistryHTTP.
Import Registry Discovery.

(** The request [http.Get] sends. *)
Definition getRequest : Request := {| Method := "GET"; XMyrpcServer := "" |}.

(** [http.Get(d.registryAddr)] answered by the registry [r] at the instant
    [now]: the client reads the header X-Myrpc-Servers as [ServeHTTP] set
    it.  That is what HTTP does to a value made of the bytes [headerByte]
    admits, with no white space at either end. *)
Definition httpGetFrom (now : Z) (r : CenterRegistry) (url : string)
  : httpResult :=
  HttpOk (default "" (XMyrpcServers (ServeHTTP now getRequest r).1)).

(** The bytes a header value carries unchanged: no control character
    (net/http writes a line end as a space and refuses the others). *)
Definition headerByte (a : ascii) : bool :=
  let n := Ascii.nat_of_ascii a in
  (32 <=? n)%nat && negb (n =? 127)%nat.

(** An address that survives the header and [Refresh]: no comma and no
    control character in it, no white space (as [strings.TrimSpace] sees
    it) around it, not empty. *)
Definition plainAddr (a : string) : Prop :=
  GoString.contains a ","%char = false
  ∧ forallb headerByte (String.list_ascii_of_string a) = true
  ∧ GoString.TrimSpace a = a ∧ a ≠ "".

#[global] Instance plainAddr_dec a : Decision (plainAddr a).
Proof. unfold plainAddr. apply _. Defined.

End RegistryHTTP.

(* ===================================================================== *)
(** * Dial: options, connect timeout, address dispatch *)
(* ===================================================================== *)

Module Dial.
Import ClientCore.

(** [Option], as the timeout chapter declares it (the field is spelled
    [ConnectTimeout] in the client code).  Durations are nanoseconds. *)
Record Option := {
  MagicNumber : Z;
  CodecType : string;
  ConnectTimeout : Z;
  HandleTimeout : Z
}.

Definition MagicNumberConst : Z := 0x3bef5c.
Definition GobType : string := "application/gob".
Definition JsonType : string := "application/json".
Definition connected : string := "200 Connected to myRPC".

Definition DefaultOption : Option :=
  {| MagicNumber := MagicNumberConst; CodecType := GobType;
     ConnectTimeout := 10 * 1000000000; HandleTimeout := 0 |}.

(** What a blocking operation does: it returns, or it never does. *)
Inductive outcome (A : Type) :=
| Returns (a : A)
| Hangs.
Arguments Returns {A} a.
Arguments Hangs {A}.

(** What [dialTimeout] does besides returning, in order. *)
Inductive effect :=
| NetDial (network address : string) (timeout : Z)
| WorkerSpawned                 (* go func() { client, err = f(conn, opt) ... }() *)
| TimerStarted (d : Z)          (* time.After(opt.ConnectTimeout) *)
| HandOff                       (* client = <-ch *)
| ConnClosed (conn : nat).      (* the deferred conn.Close() *)

(** [parseOption(opts...)]; a [None] element is a nil pointer. *)
Definition parseOption (opts : list (option Option)) : option Option * error :=
  match opts with
  | [] | None :: _ => (Some DefaultOption, None)
  | Some opt :: rest =>
      if negb (bool_decide (length opts = 1)) then
        (None, Some "number of options is more than 1")
      else
        (Some {| MagicNumber := MagicNumber DefaultOption;
                 CodecType := if bool_decide (CodecType opt = "")
                              then CodecType DefaultOption else CodecType opt;
                 ConnectTimeout := ConnectTimeout opt;
                 HandleTimeout := HandleTimeout opt |}, None)
  end.

Section Network.

(** The network: [net.DialTimeout] gives a connection or an error, or never
    returns; writing the options on a connection; the answer to the HTTP
    CONNECT request (its status line, or an error). *)
Variable netDialTimeout : string → string → Z → outcome (nat + string).
Variable encodeOption : nat → Option → outcome error.
Variable readResponse : nat → outcome (string + string).

(** [time.Duration] printed with [%s]. *)
Variable durationString : Z → string.

(** A constructor of clients: [NewClient] or [NewHTTPClient]. *)
Definition newClientFunc := nat → Option → outcome (option Client * error).

(** [NewClient]: only the gob codec is registered. *)
Definition NewClient : newClientFunc := λ conn opt,
  if negb (bool_decide (CodecType opt = GobType)) then
    Returns (None, Some ("invalid codec type " +:+ CodecType opt))
  else
    match encodeOption conn opt with
    | Hangs => Hangs
    | Returns (Some e) => Returns (None, Some e)
    | Returns None => Returns (Some NewClientCodec, None)
    end.

(** [NewHTTPClient]. *)
Definition NewHTTPClient : newClientFunc := λ conn opt,
  match readResponse conn with
  | Hangs => Hangs
  | Returns (inl status) =>
      if bool_decide (status = connected) then NewClient conn opt
      else Returns (None, Some ("unexpected HTTP response: " +:+ status))
  | Returns (inr e) => Returns (None, Some e)
  end.

(** The deferred function: the connection is closed when [err] is not
    nil. *)
Definition closeOnError (conn : nat) (err : error) : list effect :=
  match err with
  | Some _ => [ConnClosed conn]
  | None => []
  end.

(** [dialTimeout].  [timerFirst] says which case of the final [select]
    fires when both could: the timer, or the worker's hand-off.  The
    results are the named results [client, err], which the worker assigns
    as well: the value given here is the caller's, and it is the code's
    only in the runs that [ordered] describes below. *)
Definition dialTimeout (f : newClientFunc) (timerFirst : bool)
    (network address : string) (opts : list (option Option))
  : outcome (option Client * error) * list effect :=
  match parseOption opts with
  | (_, Some e) => (Returns (None, Some e), [])
  | (None, None) => (Returns (None, None), [])
  | (Some opt, None) =>
      let dial := NetDial network address (ConnectTimeout opt) in
      match netDialTimeout network address (ConnectTimeout opt) with
      | Hangs => (Hangs, [dial])
      | Returns (inr e) => (Returns (None, Some e), [dial])
      | Returns (inl conn) =>
          if bool_decide (ConnectTimeout opt = 0%Z) then
            match f conn opt with
            | Hangs => (Hangs, [dial; WorkerSpawned])
            | Returns (client, err) =>
                (Returns (client, err),
                 [dial; WorkerSpawned; HandOff] ++ closeOnError conn err)
            end
          else
            let timedOut :=
              (Returns (None,
                        Some ("rpc client: connect timeout: expect within "
                              +:+ durationString (ConnectTimeout opt))),
               [dial; WorkerSpawned; TimerStarted (ConnectTimeout opt);
                ConnClosed conn]) in
            match f conn opt with
            | Hangs => timedOut
            | Returns (client, err) =>
                if timerFirst then timedOut
                else (Returns (client, err),
                      [dial; WorkerSpawned; TimerStarted (ConnectTimeout opt);
                       HandOff] ++ closeOnError conn err)
            end
      end
  end.

(** The runs in which the named results are assigned in a fixed order: the
    caller waits for the hand-off (no timeout is set, or the hand-off is
    the case the [select] takes), so that the worker's
    [client, err = f(conn, opt)] comes before the caller reads them; or
    the constructor never returns, so that the worker assigns nothing.  In
    the remaining runs the timer fires and the constructor returns too:
    there the worker's assignment is not ordered with the caller's
    [return nil, ...] nor with the deferred test of [err]. *)
Definition ordered (f : newClientFunc) (timerFirst : bool) (conn : nat)
    (opt : Option) : Prop :=
  ConnectTimeout opt = 0%Z ∨ f conn opt = Hangs ∨ timerFirst = false.

Definition Dial := dialTimeout NewClient.
Definition DialHTTP := dialTimeout NewHTTPClient.

(** [XDial]: [protocol@addr]. *)
Definition XDial (timerFirst : bool) (rpcAddr : string)
    (opts : list (option Option))
  : outcome (option Client * error) * list effect :=
  match GoString.Split rpcAddr "@"%char with
  | [protocol; addr] =>
      if bool_decide (protocol = "http") then DialHTTP timerFirst "tcp" addr opts
      else Dial timerFirst protocol addr opts
  | _ =>
      (Returns (None, Some ("rpc client err: wrong format '" +:+ rpcAddr
                            +:+ "', expect protocol@addr")), [])
  end.

(** The spec's wording for a zero connect timeout: "run
    [newClient(conn, opt)] synchronously and return". *)
Definition newClientDirectly (f : newClientFunc) (conn : nat) (opt : Option)
  : outcome (option Client * error) :=
  f conn opt.

End Network.

Definition isTimer (e : effect) : bool :=
  match e with
  | TimerStarted _ => true
  | _ => false
  end.

(** A network on which every dial gives connection 7 and every write
    succeeds. *)
Definition netOk (network address : string) (t : Z) : outcome (nat + string) :=
  Returns (inl 7).
Definition encodeOk (conn : nat) (opt : Option) : outcome error := Returns None.
Definition responseOk (conn : nat) : outcome (string + string) :=
  Returns (inl connected).
Definition noTimeout : Option :=
  {| MagicNumber := 0; CodecType := ""; ConnectTimeout := 0; HandleTimeout := 0 |}.
Definition showNanos (d : Z) : string := "10s".

Definition isClose (e : effect) : bool :=
  match e with
  | ConnClosed _ => true
  | _ => false
  end.

Definition isDial (e : effect) : bool :=
  match e with
  | NetDial _ _ _ => true
  | _ => false
  end.

End Dial.

(* ===================================================================== *)
(** * Server: the handshake and the request loop *)
(* ===================================================================== *)

Module Serve.
Import Server ClientCore Dial.

(** How [ServeConn] ends: it could not decode the options, it refused the
    magic number or the codec type, or it went on to [ServeCodec]. *)
Inductive served :=
| OptionsError
| InvalidMagicNumber
| InvalidCodecType
| ServesCodec.

(** [ServeConn]; [decoded] is what [json.NewDecoder(conn).Decode(&opt)]
    gives.  [NewCodecFuncMap] holds a constructor for the gob type only. *)
Definition ServeConn (decoded : Option + string) : served :=
  match decoded with
  | inr _ => OptionsError
  | inl opt =>
      if negb (bool_decide (MagicNumber opt = MagicNumberConst)) then
        InvalidMagicNumber
      else if negb (bool_decide (CodecType opt = GobType)) then InvalidCodecType
      else ServesCodec
  end.

(** A [reflect.Value] of a request: the zero [Value] of a field never
    assigned, a value newly made by [newArgv] or [newReplyv], or such a
    value after [ReadBody] has decoded the body into it. *)
Inductive value :=
| Unset
| Made
| Decoded.

(** A [request]. *)
Record request := {
  h : Header;
  argv : value;
  replyv : value;
  mtype : option methodType;
  svc : option service
}.

(** A call returns, or panics. *)
Inductive result (A : Type) :=
| Returned (a : A)
| Panicked.
Arguments Returned {A} a.
Arguments Panicked {A}.

(** [Type.Elem()] is defined for arrays, channels, maps, pointers and
    slices; for a type of any other kind it panics. *)
Definition hasElem (k : Kind) : bool :=
  match k with
  | Array | Server.Chan | Map | Ptr | Slice => true
  | _ => false
  end.

Definition Elem (t : rtype) : result unit :=
  if hasElem (kind t) then Returned () else Panicked.

(** [m.newArgv()]: a new value of the argument type, or a pointer to a new
    value of the type it points to. *)
Definition newArgv (m : methodType) : result value :=
  if bool_decide (kind (ArgType m) = Ptr) then
    match Elem (ArgType m) with
    | Returned _ => Returned Made
    | Panicked => Panicked
    end
  else Returned Made.

(** [m.newReplyv()]: a pointer to a new value of [m.ReplyType.Elem()],
    whatever the kind of the reply type. *)
Definition newReplyv (m : methodType) : result value :=
  match Elem (ReplyType m) with
  | Returned _ => Returned Made
  | Panicked => Panicked
  end.

(** [readRequest]: [header] is what [ReadHeader] gives, [berr] what
    [ReadBody] returns if it is called.  When [findService] fails, the
    request is returned as it is at that point, with the nil error. *)
Definition readRequest (server : Server) (header : Header + string)
    (berr : error) : result (option request * error) :=
  match header with
  | inr e => Returned (None, Some e)
  | inl hd =>
      let '(s, m, err) := findService server (hServiceMethod hd) in
      match err with
      | Some _ =>
          Returned (Some {| h := hd; argv := Unset; replyv := Unset;
                            mtype := m; svc := s |}, None)
      | None =>
          match m with
          | None => Panicked   (* a nil method type; [findService] gives none *)
          | Some mt =>
              match newArgv mt with
              | Panicked => Panicked
              | Returned a =>
                  match newReplyv mt with
                  | Panicked => Panicked
                  | Returned r =>
                      match berr with
                      | Some e =>
                          Returned (Some {| h := hd; argv := a; replyv := r;
                                            mtype := m; svc := s |}, Some e)
                      | None =>
                          Returned (Some {| h := hd; argv := Decoded; replyv := r;
                                            mtype := m; svc := s |}, None)
                      end
                  end
              end
          end
      end
  end.

(** What one turn of the loop of [ServeCodec] does with the result of
    [readRequest]: leave the loop, answer at once with an error response
    (the header is the request's with [Error] set), or start
    [handleRequest] for the request.  A panic of [readRequest] is a panic
    of the task that serves the connection. *)
Inductive action :=
| Break
| RespondError (hd : Header)
| Handle (req : request)
| Panic.

Definition serveOne (server : Server) (header : Header + string) (berr : error)
  : action :=
  match readRequest server header berr with
  | Panicked => Panic
  | Returned (req, Some e) =>
      match req with
      | None => Break
      | Some r =>
          RespondError {| hServiceMethod := hServiceMethod (h r);
                          hSeq := hSeq (h r); hError := e |}
      end
  | Returned (Some r, None) => Handle r
  | Returned (None, None) => Break   (* [readRequest] never returns this *)
  end.

End Serve.

(* ===================================================================== *)
(** * XClient: the load-balanced client *)
(* ===================================================================== *)

Module XClientM.
Import ClientCore Dial Discovery.

(** The [Client] objects by address, and what has happened on the network:
    every [XDial] with the options it was given, and every [Client.Call]
    with the client it went through. *)
Record World := {
  heap : gmap nat Client;
  dials : list (string * list (option Option));
  calls : list (nat * string)
}.

(** [XClient]: the discovery [d] (of some type [D] implementing the
    [Discovery] interface), the mode, the options, and the cache of clients
    by address. *)
Record XClient (D : Type) := {
  d : D;
  mode : SelectMode;
  opt : option Option;
  clients : gmap string nat
}.
Arguments d {D} _.
Arguments mode {D} _.
Arguments opt {D} _.
Arguments clients {D} _.

Section WithNetwork.

Context {D : Type}.

(** The [Get] method of the discovery. *)
Variable dGet : SelectMode → D → D * string * error.

(** What [XDial] returns for an address and options (see [Dial.XDial]): a
    client, or an error; a dial that never returns is not considered
    here. *)
Variable xdial : string → list (option Option) → Client + string.

(** What [Client.Call] returns on the client at an address of the heap. *)
Variable clientCall : nat → string → string → error.

(** [XDial] as a step of the world: a client that is returned is a new
    object. *)
Definition XDialW (rpcAddr : string) (opts : list (option Option)) (w : World)
  : World * option nat * error :=
  let w1 := {| heap := heap w; dials := dials w ++ [(rpcAddr, opts)];
               calls := calls w |} in
  match xdial rpcAddr opts with
  | inl cl =>
      let p := fresh (dom (heap w)) in
      ({| heap := <[p := cl]> (heap w); dials := dials w1; calls := calls w1 |},
       Some p, None)
  | inr e => (w1, None, Some e)
  end.

(** [client.Close()] and [client.IsAvailable()] on the heap; a missing
    address is the nil pointer. *)
Definition closeAt (p : nat) (w : World) : World :=
  {| heap := alter (λ cl, (Close cl).1) p (heap w); dials := dials w;
     calls := calls w |}.

Definition availableAt (p : nat) (w : World) : bool :=
  match heap w !! p with
  | Some cl => IsAvailable cl
  | None => false
  end.

Definition withClients (xc : XClient D) (m : gmap string nat) : XClient D :=
  {| d := d xc; mode := mode xc; opt := opt xc; clients := m |}.

(** [xc.dial]. *)
Definition dial (rpcAddr : string) (xc : XClient D) (w : World)
  : XClient D * World * option nat * error :=
  let '(xc1, w1, client) :=
    match clients xc !! rpcAddr with
    | Some p =>
        if negb (availableAt p w) then
          (withClients xc (delete rpcAddr (clients xc)), closeAt p w, None)
        else (xc, w, Some p)
    | None => (xc, w, None)
    end in
  match client with
  | Some p => (xc1, w1, Some p, None)
  | None =>
      let '(w2, client', err) := XDialW rpcAddr [opt xc] w1 in
      match err, client' with
      | None, Some p =>
          (withClients xc1 (<[rpcAddr := p]> (clients xc1)), w2, Some p, None)
      | _, _ => (xc1, w2, None, err)
      end
  end.

(** [xc.call]: the client comes from [XDial(rpcAddr)]. *)
Definition call (rpcAddr : string) (serviceMethod args : string)
    (xc : XClient D) (w : World) : XClient D * World * error :=
  let '(w1, client, err) := XDialW rpcAddr [] w in
  match err, client with
  | None, Some p =>
      (xc,
       {| heap := heap w1; dials := dials w1;
          calls := calls w1 ++ [(p, serviceMethod)] |},
       clientCall p serviceMethod args)
  | _, _ => (xc, w1, err)
  end.

(** [xc.Call]. *)
Definition Call (serviceMethod args : string) (xc : XClient D) (w : World)
  : XClient D * World * error :=
  let '(d', rpcAddr, err) := dGet (mode xc) (d xc) in
  let xc' := {| d := d'; mode := mode xc; opt := opt xc; clients := clients xc |} in
  match err with
  | Some e => (xc', w, Some e)
  | None => call rpcAddr serviceMethod args xc' w
  end.

End WithNetwork.

(** One server, always chosen; every dial succeeds; every call succeeds. *)
Definition oneServer (m : SelectMode) (u : unit) : unit * string * error :=
  (tt, "tcp@10.0.0.1:9999", None).
Definition dialOk (rpcAddr : string) (opts : list (option Option))
  : Client + string := inl NewClientCodec.
Definition callOk (p : nat) (sm args : string) : error := None.

(** An [XClient] whose cache already holds an available client for the
    server, at address 0. *)
Definition cachedWorld : World :=
  {| heap := {[ 0 := NewClientCodec ]}; dials := []; calls := [] |}.
Definition cachedXClient : XClient unit :=
  {| d := tt; mode := RoundRobinSelect; opt := Some DefaultOption;
     clients := {[ "tcp@10.0.0.1:9999" := 0 ]} |}.

(** One iteration of the loop of [XClient.Close]:
    [_ = client.Close(); delete(xc.clients, index)]. *)
Definition closeOne (acc : gmap string nat * World) (e : string * nat)
  : gmap string nat * World :=
  (delete e.1 acc.1, closeAt e.2 acc.2).

(** [XClient.Close] when the range statement enumerates the cache in the
    order [entries] (Go leaves that order unspecified). *)
Definition CloseIn {D : Type} (entries : list (string * nat)) (xc : XClient D)
    (w : World) : XClient D * World * error :=
  let acc := foldl closeOne (clients xc, w) entries in
  (withClients xc acc.1, acc.2, None).

Definition XClient_Close {D : Type} (xc : XClient D) (w : World)
  : XClient D * World * error :=
  CloseIn (map_to_list (clients xc)) xc w.

(** ** Broadcast

    The variables the tasks of [Broadcast] share under [mu]: [e],
    [replyDone], what [reply] points to, and whether [cancel] has been
    called. *)
Record Gather := {
  e : error;
  replyDone : bool;
  reply : option string;
  cancelled : bool
}.

(** The critical section of one task: [err] is what its [xc.call] returned
    and [clonedReply] what the call stored in the task's own reply. *)
Definition gather (g : Gather) (res : error * string) : Gather :=
  let '(err, clonedReply) := res in
  let g1 :=
    match err, e g with
    | Some _, None =>
        {| e := err; replyDone := replyDone g; reply := reply g;
           cancelled := true |}
    | _, _ => g
    end in
  match err with
  | None =>
      if negb (replyDone g1) then
        {| e := e g1; replyDone := true; reply := Some clonedReply;
           cancelled := cancelled g1 |}
      else g1
  | Some _ => g1
  end.

(** [Broadcast]: [getAll] is what [xc.d.GetAll()] returns; [replyGiven]
    says that [reply] is not nil; [results] lists, in the order in which
    the tasks enter the critical section, what each [xc.call] returned.
    The first component is the error returned; a [None] in the second is
    the case where no task was started. *)
Definition Broadcast (getAll : list string * error) (replyGiven : bool)
    (results : list (error * string)) : error * option Gather :=
  match getAll.2 with
  | Some err => (Some err, None)
  | None =>
      let g := foldl gather
                 {| e := None; replyDone := negb replyGiven; reply := None;
                    cancelled := false |} results in
      (e g, Some g)
  end.

End XClientM.
(* ===================================================================== *)
(** * Facts about the string functions *)
(* ===================================================================== *)

Module GoStringFacts.
Import GoString.

Lemma contains_app s1 s2 c :
  contains (s1 +:+ s2) c = contains s1 c || contains s2 c.
Proof.
  induction s1 as [|a s1 IH]; simpl; [done|].
  destruct (decide (a = c)); [done|]. apply IH.
Qed.

Lemma lastIndexByte_None s c :
  lastIndexByte s c = None ↔ contains s c = false.
Proof.
  induction s as [|a s IH]; simpl; [done|].
  destruct (lastIndexByte s c) as [i|] eqn:E.
  - split; [done|]. destruct (decide (a = c)); [done|].
    intros H. apply IH in H. done.
  - destruct (decide (a = c)); [done|]. split; [|done]. intros _. by apply IH.
Qed.

(** The last occurrence sits right after [s1] when the rest has none. *)
Lemma lastIndexByte_app s1 s2 c :
  contains s2 c = false →
  lastIndexByte (s1 +:+ String c s2) c = Some (String.length s1).
Proof.
  intros H. induction s1 as [|a s1 IH]; simpl.
  - apply lastIndexByte_None in H. rewrite H.
    destruct (decide (c = c)); done.
  - by rewrite IH.
Qed.

Lemma slice_to_app s1 s2 : slice_to (s1 +:+ s2) (String.length s1) = s1.
Proof.
  unfold slice_to. induction s1 as [|a s1 IH]; simpl.
  - by destruct s2.
  - by rewrite IH.
Qed.

Lemma substring_all s : String.substring 0 (String.length s) s = s.
Proof. induction s as [|a s IH]; simpl; [done|]. by rewrite IH. Qed.

Lemma length_app s1 s2 :
  String.length (s1 +:+ s2) = (String.length s1 + String.length s2)%nat.
Proof. induction s1 as [|a s1 IH]; simpl; [done|]. by rewrite IH. Qed.

Lemma slice_from_app s1 c s2 :
  slice_from (s1 +:+ String c s2) (S (String.length s1)) = s2.
Proof.
  unfold slice_from. rewrite length_app. simpl.
  replace (String.length s1 + S (String.length s2) - S (String.length s1))%nat
    with (String.length s2) by lia.
  induction s1 as [|a s1 IH]; simpl.
  - apply substring_all.
  - apply IH.
Qed.

(** Conversely, a found index splits the string around its last [c]. *)
Lemma lastIndexByte_Some s c i :
  lastIndexByte s c = Some i →
  s = slice_to s i +:+ String c (slice_from s (S i))
  ∧ contains (slice_from s (S i)) c = false
  ∧ String.length (slice_to s i) = i.
Proof.
  revert i. induction s as [|a s IH]; simpl; [done|].
  intros i. destruct (lastIndexByte s c) as [j|] eqn:E.
  - intros [= <-]. destruct (IH j eq_refl) as (H1 & H2 & H3).
    unfold slice_to, slice_from in *. simpl.
    split; [|split].
    + change (String a s = String a (String.substring 0 j s +:+
          String c (String.substring (S j) (String.length s - S j) s))).
      by rewrite <- H1.
    + exact H2.
    + by rewrite H3.
  - destruct (decide (a = c)) as [->|]; [|done].
    intros [= <-]. unfold slice_to, slice_from. simpl.
    rewrite Nat.sub_0_r, substring_all.
    split; [|split]; [|by apply lastIndexByte_None|done].
    by destruct s.
Qed.

(** [Split] undoes [Join] when no field holds the separator. *)
Lemma Split_no_sep a c : contains a c = false → Split a c = [a].
Proof.
  induction a as [|x a IH]; simpl; [done|].
  destruct (decide (x = c)); [done|]. intros H. by rewrite IH.
Qed.

Lemma Split_app_sep a c rest :
  contains a c = false → Split (a +:+ String c rest) c = a :: Split rest c.
Proof.
  induction a as [|x a IH]; simpl.
  - intros _. by rewrite decide_True.
  - destruct (decide (x = c)); [done|]. intros H. by rewrite IH.
Qed.

Lemma Split_Join l c :
  l ≠ [] → Forall (λ s, contains s c = false) l →
  Split (Join l (String c "")) c = l.
Proof.
  unfold Join. induction l as [|a l IH]; [done|]. intros _ Hall.
  apply Forall_cons in Hall as [Ha Hall]. destruct l as [|b l].
  - simpl. by apply Split_no_sep.
  - change (String.concat (String c "") (a :: b :: l))
      with (a +:+ String c (String.concat (String c "") (b :: l))).
    rewrite Split_app_sep by done. f_equal. by apply IH.
Qed.

(** [Join] undoes [Split], whose fields hold no separator; there is one
    field more than there are separators. *)
Lemma Split_nonempty s c : Split s c ≠ [].
Proof.
  destruct s as [|x s]; simpl; [done|].
  destruct (decide (x = c)); [done|]. by destruct (Split s c).
Qed.

Lemma Join_cons_char x f fs sep :
  Join (String x f :: fs) sep = String x (Join (f :: fs) sep).
Proof. unfold Join. by destruct fs. Qed.

Lemma Join_Split s c : Join (Split s c) (String c "") = s.
Proof.
  induction s as [|x s IH]; simpl; [done|].
  destruct (decide (x = c)) as [->|Hne].
  - pose proof (Split_nonempty s c) as Hn.
    destruct (Split s c) as [|f fs] eqn:E; [done|].
    unfold Join in *. simpl. simpl in IH. by rewrite IH.
  - pose proof (Split_nonempty s c) as Hn.
    destruct (Split s c) as [|f fs] eqn:E; [done|].
    rewrite Join_cons_char. by rewrite IH.
Qed.

Lemma Split_fields s c : Forall (λ f, contains f c = false) (Split s c).
Proof.
  induction s as [|x s IH]; simpl.
  - by apply Forall_singleton.
  - destruct (decide (x = c)) as [->|Hne].
    + by apply Forall_cons.
    + destruct (Split s c) as [|f fs].
      * apply Forall_singleton. simpl. by rewrite decide_False.
      * apply Forall_cons in IH as [Hf Hfs]. apply Forall_cons. split; [|done].
        simpl. by rewrite decide_False.
Qed.

Lemma Split_length s c :
  length (Split s c)
  = S (length (filter (λ a, a = c) (String.list_ascii_of_string s))).
Proof.
  induction s as [|x s IH]; simpl; [done|].
  destruct (decide (x = c)) as [->|Hne].
  - rewrite filter_cons_True by done. simpl. by rewrite IH.
  - rewrite filter_cons_False by done. rewrite <- IH.
    pose proof (Split_nonempty s c). by destruct (Split s c).
Qed.

(** [TrimSpace] removes Unicode white space as well as ASCII: here a
    no-break space (U+00A0) in front, and an ideographic space (U+3000)
    and a line end behind.  White space inside the string stays. *)
Example TrimSpace_unicode :
  TrimSpace (bytes [194; 160] +:+ " tcp@10.0.0.1:9999 "
             +:+ bytes [227; 128; 128; 13; 10])
  = "tcp@10.0.0.1:9999"
  ∧ TrimSpace " a b " = "a b"
  ∧ TrimSpace (bytes [9; 32; 226; 128; 131]) = "".
Proof. split_and!; reflexivity. Qed.

(** A continuation byte on its own, or a sequence cut short, is not a
    rune and so not white space. *)
Example TrimSpace_ill_formed :
  TrimSpace (bytes [160] +:+ "a" +:+ bytes [226; 128])
  = bytes [160] +:+ "a" +:+ bytes [226; 128].
Proof. reflexivity. Qed.

End GoStringFacts.
(* ===================================================================== *)
(** * Server: method registration and lookup, proved *)
(* ===================================================================== *)

Module ServerSpec.
Import Server.

(** [dot < 0] in the source is exactly "no index found". *)
Lemma LastIndex_negative s c :
  (GoString.LastIndex s c < 0)%Z ↔ GoString.lastIndexByte s c = None.
Proof.
  unfold GoString.LastIndex. destruct (GoString.lastIndexByte s c); split;
    intros; try done; lia.
Qed.

(** The three outcomes once the name has a dot: the text before the last
    dot names the service, the text after it the method. *)
Lemma findService_split server sn mn :
  GoString.contains mn dotByte = false →
  findService server (sn +:+ "." +:+ mn) =
    match serviceMap server !! sn with
    | None => (None, None, Some ("rpc server: can't find service " +:+ sn))
    | Some svc =>
        match methods svc !! mn with
        | None => (Some svc, None, Some ("rpc server: can't find method " +:+ mn))
        | Some mtype => (Some svc, Some mtype, None)
        end
    end.
Proof.
  intros Hmn. unfold findService, GoString.LastIndex.
  change (sn +:+ "." +:+ mn) with (sn +:+ String dotByte mn).
  rewrite (GoStringFacts.lastIndexByte_app sn mn dotByte Hmn).
  rewrite bool_decide_eq_false_2 by lia. cbv zeta.
  replace (Z.to_nat (Z.of_nat (String.length sn) + 1)) with (S (String.length sn))
    by lia.
  rewrite Nat2Z.id.
  rewrite GoStringFacts.slice_to_app, GoStringFacts.slice_from_app.
  reflexivity.
Qed.

(** C8. [findService] splits its argument at the last dot.  A string with
    no dot gives the error "rpc server: service/method request ill-formed: "
    followed by the input; an unknown service name gives "rpc server: can't
    find service " followed by the name; a known service with an unknown
    method gives "rpc server: can't find method " followed by the method
    name; otherwise the registered service and method descriptor come back
    with a nil error.  Every string with a dot is of the form
    [sn.mn] with no dot in [mn], so the four cases are all there is. *)
Theorem findService_resolves (server : Server) (s sn mn : string) :
  (GoString.contains s dotByte = false →
   findService server s =
     (None, None,
      Some ("rpc server: service/method request ill-formed: " +:+ s)))
  ∧ (GoString.contains mn dotByte = false → serviceMap server !! sn = None →
     findService server (sn +:+ "." +:+ mn) =
       (None, None, Some ("rpc server: can't find service " +:+ sn)))
  ∧ (∀ svc, GoString.contains mn dotByte = false →
       serviceMap server !! sn = Some svc → methods svc !! mn = None →
       findService server (sn +:+ "." +:+ mn) =
         (Some svc, None, Some ("rpc server: can't find method " +:+ mn)))
  ∧ (∀ svc mtype, GoString.contains mn dotByte = false →
       serviceMap server !! sn = Some svc → methods svc !! mn = Some mtype →
       findService server (sn +:+ "." +:+ mn) = (Some svc, Some mtype, None))
  ∧ (GoString.contains s dotByte = true →
     ∃ sn' mn', s = sn' +:+ "." +:+ mn' ∧ GoString.contains mn' dotByte = false).
Proof.
  repeat split.
  - intros Hs. unfold findService.
    rewrite bool_decide_eq_true_2; [done|].
    by apply LastIndex_negative, GoStringFacts.lastIndexByte_None.
  - intros Hmn Hsn. by rewrite findService_split, Hsn.
  - intros svc Hmn Hsn Hm. by rewrite findService_split, Hsn, Hm.
  - intros svc mtype Hmn Hsn Hm. by rewrite findService_split, Hsn, Hm.
  - intros Hs. destruct (GoString.lastIndexByte s dotByte) as [i|] eqn:E.
    + destruct (GoStringFacts.lastIndexByte_Some s dotByte i E) as (H1 & H2 & _).
      exists (GoString.slice_to s i), (GoString.slice_from s (S i)).
      split; [exact H1 | exact H2].
    + apply GoStringFacts.lastIndexByte_None in E. congruence.
Qed.

(** The four outcomes at the server of the [Arith] scenario. *)
Lemma findService_resolves_witness :
  findService arithServer "ArithSum" =
    (None, None,
     Some "rpc server: service/method request ill-formed: ArithSum")
  ∧ findService arithServer "Foo.Sum" =
      (None, None, Some "rpc server: can't find service Foo")
  ∧ findService arithServer "Arith.Mul" =
      (Some arith, None, Some "rpc server: can't find method Mul")
  ∧ (∃ mtype, findService arithServer "Arith.Sum" = (Some arith, Some mtype, None))
  ∧ (∃ sn' mn', "a.b.c" = sn' +:+ "." +:+ mn' ∧ GoString.contains mn' dotByte = false).
Proof.
  split; [|split; [|split; [|split]]].
  - apply (proj1 (findService_resolves arithServer "ArithSum" "" "")).
    reflexivity.
  - apply (proj1 (proj2 (findService_resolves arithServer "" "Foo" "Sum")));
      reflexivity.
  - apply (proj1 (proj2 (proj2 (findService_resolves arithServer "" "Arith" "Mul"))));
      reflexivity.
  - eexists.
    apply (proj1 (proj2 (proj2 (proj2
             (findService_resolves arithServer "" "Arith" "Sum")))));
      reflexivity.
  - apply (proj2 (proj2 (proj2 (proj2
             (findService_resolves arithServer "a.b.c" "" ""))))).
    reflexivity.
Defined.

(** A method that passes the checks of the loop is in the map, whatever
    the kind of its reply parameter: the loop never reads [kind]. *)
Lemma registerMethod_inserts IsExported acc m rcv a r :
  In m = [rcv; a; r] → Out m = [errorType] →
  isExportedOrBuiltinType IsExported a = true →
  isExportedOrBuiltinType IsExported r = true →
  registerMethod IsExported acc m !! mName m =
    Some {| method := m; ArgType := a; ReplyType := r; numCalls := 0 |}.
Proof.
  intros Hin Hout Ha Hr. unfold registerMethod. rewrite Hin, Hout. simpl.
  rewrite Ha, Hr. simpl. by rewrite lookup_insert_eq.
Qed.

(** C4, on the code.  [registerMethods] has no check of the reply
    parameter's kind: the method [Echo(arg int, reply int) error] is
    registered although [reply] is not a pointer, and [findService] then
    resolves "T.Echo" with a nil error instead of the can't-find-method
    error. *)
Theorem registerMethods_keeps_non_pointer_reply (IsExported : string → bool) :
  let svc := registerMethods IsExported echoService in
  ∃ mtype, methods svc !! "Echo" = Some mtype
           ∧ kind (ReplyType mtype) ≠ Ptr
           ∧ findService {| serviceMap := {[ "T" := svc ]} |} "T.Echo"
             = (Some svc, Some mtype, None).
Proof.
  intros svc.
  assert (Hb : isExportedOrBuiltinType IsExported intType = true).
  { unfold isExportedOrBuiltinType. simpl. by rewrite orb_true_r. }
  assert (Hm : methods svc !! "Echo" =
               Some {| method := Echo; ArgType := intType;
                       ReplyType := intType; numCalls := 0 |}).
  { unfold svc, registerMethods, echoService. simpl.
    by apply (registerMethod_inserts IsExported ∅ Echo ptrT). }
  eexists. split; [exact Hm|]. split; [done|].
  change "T.Echo" with ("T" +:+ "." +:+ "Echo").
  rewrite findService_split by reflexivity.
  simpl. rewrite lookup_singleton_eq. by rewrite Hm.
Qed.

End ServerSpec.

(* ===================================================================== *)
(** * Server: which methods are registered, and where they are found *)
(* ===================================================================== *)

Module ServerFlowSpec.
Import GoString Server ServerSpec.

Section Reflector.
Variable IsExported : string → bool.

(** The conditions under which [registerMethods] keeps a method. *)
Lemma registerMethod_cases acc m :
  (∃ rcv a r,
     In m = [rcv; a; r] ∧ Out m = [errorType]
     ∧ isExportedOrBuiltinType IsExported a = true
     ∧ isExportedOrBuiltinType IsExported r = true
     ∧ registerMethod IsExported acc m
       = <[mName m := {| method := m; ArgType := a; ReplyType := r;
                         numCalls := 0 |}]> acc)
  ∨ ((∀ rcv a r,
        In m = [rcv; a; r] → Out m = [errorType] →
        isExportedOrBuiltinType IsExported a = true →
        isExportedOrBuiltinType IsExported r = true → False)
     ∧ registerMethod IsExported acc m = acc).
Proof.
  unfold registerMethod.
  destruct (In m) as [|rcv [|a [|r [|x l]]]] eqn:Hin; simpl;
    try (right; split; [by intros ? ? ? [=]|]; by rewrite ?orb_true_r).
  destruct (Out m) as [|o [|y l]] eqn:Hout; simpl;
    try (right; split; [by intros ? ? ? _ [=]|]; done).
  case_bool_decide as Ho; simpl.
  - subst o.
    destruct (isExportedOrBuiltinType IsExported a) eqn:Ha; simpl.
    + destruct (isExportedOrBuiltinType IsExported r) eqn:Hr; simpl.
      * left. exists rcv, a, r. done.
      * right. split; [|done]. intros ? ? ? [= <- <- <-] _ _ ?. congruence.
    + right. split; [|done]. intros ? ? ? [= <- <- <-] _ ?. congruence.
  - right. split; [|done]. intros ? ? ? _ [= ?]. done.
Qed.

Lemma registerMethods_fold (l : list Method) : ∀ acc n mt,
  NoDup (mName <$> l) →
  foldl (registerMethod IsExported) acc l !! n = Some mt
  ↔ (∃ m rcv a r,
       m ∈ l ∧ mName m = n ∧ In m = [rcv; a; r] ∧ Out m = [errorType]
       ∧ isExportedOrBuiltinType IsExported a = true
       ∧ isExportedOrBuiltinType IsExported r = true
       ∧ mt = {| method := m; ArgType := a; ReplyType := r; numCalls := 0 |})
    ∨ (acc !! n = Some mt
       ∧ ∀ m rcv a r,
           m ∈ l → mName m = n → In m = [rcv; a; r] → Out m = [errorType] →
           isExportedOrBuiltinType IsExported a = true →
           isExportedOrBuiltinType IsExported r = true → False).
Proof.
  induction l as [|m l IH]; intros acc n mt Hnd; simpl.
  - split.
    + intros H. right. split; [done|]. intros ? ? ? ? Hin.
      by apply elem_of_nil in Hin.
    + intros [(m & ? & ? & ? & Hin & _)|[H _]]; [|done].
      by apply elem_of_nil in Hin.
  - rewrite fmap_cons in Hnd. apply NoDup_cons in Hnd as [Hm Hnd].
    rewrite (IH _ n mt Hnd).
    destruct (registerMethod_cases acc m)
      as [(rcv & a & r & Hin & Hout & Ha & Hr & ->)|[Hno ->]].
    + split.
      * intros [(m' & rcv' & a' & r' & Hin' & Hn & H1 & H2 & H3 & H4 & ->)
               |[Hacc Hnone]].
        -- left. exists m', rcv', a', r'. split_and!; try done. by right.
        -- destruct (decide (mName m = n)) as [<-|Hne].
           ++ rewrite lookup_insert_eq in Hacc. injection Hacc as <-.
              left. exists m, rcv, a, r. split_and!; try done. by left.
           ++ rewrite lookup_insert_ne in Hacc by done. right.
              split; [done|]. intros m' ? ? ? Hin'.
              apply elem_of_cons in Hin' as [->|Hin']; [done|].
              by apply Hnone.
      * intros [(m' & rcv' & a' & r' & Hin' & Hn & H1 & H2 & H3 & H4 & ->)
               |[Hacc Hnone]].
        -- apply elem_of_cons in Hin' as [->|Hin'].
           ++ right. rewrite H1 in Hin. injection Hin as <- <- <-.
              rewrite <- Hn, lookup_insert_eq. split; [done|].
              intros m' ? ? ? Hin' Hn'. destruct Hm.
              apply list_elem_of_fmap. exists m'. by rewrite Hn', Hn.
           ++ left. exists m', rcv', a', r'. done.
        -- destruct (decide (mName m = n)) as [Hn|Hne].
           ++ exfalso. apply (Hnone m rcv a r); try done. by left.
           ++ right. rewrite lookup_insert_ne by done. split; [done|].
              intros m' ? ? ? Hin'. apply Hnone. by right.
    + split.
      * intros [(m' & rcv' & a' & r' & Hin' & Hn & H1 & H2 & H3 & H4 & ->)
               |[Hacc Hnone]].
        -- left. exists m', rcv', a', r'. split_and!; try done. by right.
        -- right. split; [done|]. intros m' ? ? ? Hin'.
           apply elem_of_cons in Hin' as [->|Hin']; [|by apply Hnone].
           intros _. apply Hno.
      * intros [(m' & rcv' & a' & r' & Hin' & Hn & H1 & H2 & H3 & H4 & ->)
               |[Hacc Hnone]].
        -- apply elem_of_cons in Hin' as [->|Hin'].
           ++ by destruct (Hno rcv' a' r').
           ++ left. exists m', rcv', a', r'. done.
        -- right. split; [done|]. intros m' ? ? ? Hin'.
           apply Hnone. by right.
Qed.

(** X22. [registerMethods] registers exactly the methods that pass its
    tests: a name is in the method map if and only if the type has a
    method of that name with three inputs (the receiver first), one output
    of type [error], and an argument and a reply type that are exported or
    builtin; the entry records that method with these two types and a call
    count of zero.  The service's name and type are left as they are. *)
Theorem registerMethods_registers_exactly
    (s : service) (n : string) (mt : methodType) :
  NoDup (mName <$> typ s) →
  name (registerMethods IsExported s) = name s
  ∧ typ (registerMethods IsExported s) = typ s
  ∧ (methods (registerMethods IsExported s) !! n = Some mt
     ↔ ∃ m rcv a r,
         m ∈ typ s ∧ mName m = n ∧ In m = [rcv; a; r] ∧ Out m = [errorType]
         ∧ isExportedOrBuiltinType IsExported a = true
         ∧ isExportedOrBuiltinType IsExported r = true
         ∧ mt = {| method := m; ArgType := a; ReplyType := r; numCalls := 0 |}).
Proof.
  intros Hnd. split; [done|]. split; [done|].
  unfold registerMethods. simpl. rewrite (registerMethods_fold _ ∅ n mt Hnd).
  split; [|by left]. intros [H|[H _]]; [done|]. by rewrite lookup_empty in H.
Qed.

End Reflector.

Lemma registerMethods_registers_exactly_witness :
  methods arith !! "Sum"
  = Some {| method := Sum; ArgType := argsType; ReplyType := ptrInt;
            numCalls := 0 |}.
Proof.
  apply (registerMethods_registers_exactly asciiExported
           {| name := "Arith"; typ := [Sum]; methods := ∅ |} "Sum").
  - simpl. apply NoDup_singleton.
  - exists Sum, ptrT, argsType, ptrInt. split_and!; try done. by left.
Defined.

(** X23. [Register] stores nothing: [newService] assigns to a field of its
    result pointer, which is still nil, so for every receiver and every
    server the call panics on a nil pointer before the name is tested and
    before [LoadOrStore] is reached; in particular it never returns an
    error and never changes the service map. *)
Theorem Register_panics_on_nil_service
    (IsExported : string → bool) (rcvr : receiver) (server : Server) :
  newService IsExported rcvr = NilDereference
  ∧ Register IsExported rcvr server = NilDereference
  ∧ (∀ res, Register IsExported rcvr server ≠ Gives res)
  ∧ (∀ msg, Register IsExported rcvr server ≠ LogFatal msg).
Proof. split_and!; done. Qed.

End ServerFlowSpec.

(* ===================================================================== *)
(** * Server: one response per request *)
(* ===================================================================== *)

Module HandlerSpec.
Import Handler.

Section HandleRequest.
Variable durationString : Z → string.
Variable timeout : Z.
Variable reqError : string.

Abbreviation hinit := (hinit timeout reqError).
Abbreviation hstep := (hstep durationString timeout).
Abbreviation hrun := (hrun durationString timeout).
Abbreviation hinv := (hinv durationString timeout reqError).
Abbreviation timeoutError := (timeoutError durationString timeout).
Abbreviation workerResponse := (workerResponse reqError).

Lemma hinv_init : hinv [] hinit.
Proof.
  unfold Handler.hinv, Handler.hinit. simpl.
  case_bool_decide; split_and!; try done; by intros ?%elem_of_nil.
Qed.

Ltac hist_solver :=
  repeat match goal with
         | H : _ ∧ _ |- _ => destruct H
         | H : ∃ _, _ |- _ => destruct H
         | H : _ ∨ _ |- _ => destruct H
         end;
  repeat split; subst; simpl in *; try done;
  rewrite ?elem_of_app, ?list_elem_of_singleton in *;
  try match goal with
      | |- ¬ _ => intros [?|?]; try done
      | |- _ ∉ _ => intros [?|?]%elem_of_app; try done
      end;
  try (by left); try (by right); try done; try congruence;
  eauto.

Lemma hinv_step hist st ev st' :
  hinv hist st → hstep st ev = Some st' → hinv (hist ++ [ev]) st'.
Proof.
  intros Hinv Hstep. destruct st as [w h herr wr ir].
  unfold Handler.hstep in Hstep. unfold Handler.hinv in *. simpl in *.
  destruct ev, w as [|e|[e|]|e|], h; simpl in *; try done;
    try destruct ir; try done;
    injection Hstep as <-; simpl; hist_solver.
  - exists e. split; [done|]. apply elem_of_app. by left.
  - right. split_and!; try done.
    + exists x. split; [done|]. apply elem_of_app. by left.
    + intros [?|?]; done.
  - left. split_and!; try done; [by left|]. intros [?|?]; done.
Qed.

Ltac hyps :=
  repeat match goal with
         | H : _ ∨ _ |- _ => destruct H
         | H : _ ∧ _ |- _ => destruct H
         | H : ∃ _, _ |- _ => destruct H
         end; subst.

Lemma hinv_run evs : ∀ hist st st',
  hinv hist st → hrun st evs = Some st' → hinv (hist ++ evs) st'.
Proof.
  induction evs as [|ev evs IH]; intros hist st st' Hinv Hrun; simpl in Hrun.
  - injection Hrun as <-. by rewrite app_nil_r.
  - destruct (hstep st ev) as [st1|] eqn:E; [|done]. simpl in Hrun.
    replace (hist ++ ev :: evs) with ((hist ++ [ev]) ++ evs)
      by (by rewrite <- app_assoc).
    eapply IH; [|exact Hrun]. by eapply hinv_step.
Qed.

Lemma remaining_step st ev st' :
  hstep st ev = Some st' → remaining st' < remaining st.
Proof.
  destruct st as [w h herr wr ir]. unfold Handler.hstep, remaining. simpl.
  destruct ev, w as [|e|[e|]|e|], h; simpl; try done; try destruct ir;
    try done; intros [= <-]; simpl; lia.
Qed.

Lemma remaining_run evs : ∀ st st',
  hrun st evs = Some st' → remaining st' + length evs ≤ remaining st.
Proof.
  induction evs as [|ev evs IH]; intros st st' Hrun; simpl in Hrun.
  - injection Hrun as <-. simpl. lia.
  - destruct (hstep st ev) as [st1|] eqn:E; [|done]. simpl in Hrun.
    pose proof (remaining_step _ _ _ E). pose proof (IH _ _ Hrun). simpl. lia.
Qed.

(** X24. [handleRequest] with a time limit, under every interleaving of
    its two tasks.  At most one response is ever written, and exactly one
    has been written by the time [handleRequest] returns.  It is the
    timeout error if the timer's case was taken, which happens only with a
    non-zero time limit and excludes the hand-off; otherwise it is what
    the call returned: the error text with an invalid-request body, or
    the reply under the header as it was read.  The two tasks never block
    each other: whenever no step is possible both have finished, and with
    a non-zero time limit [handleRequest] can always go on without the
    call ever returning.  No run has more than five steps. *)
Theorem handleRequest_writes_one_response (evs : list hevent) (st : HState) :
  hrun hinit evs = Some st →
  length (written st) ≤ 1
  ∧ (handler st = HReturned → length (written st) = 1)
  ∧ (∀ r, r ∈ written st →
       (TimerFires ∈ evs ∧ timeout ≠ 0%Z ∧ (HandOffCalled ∉ evs)
        ∧ r = (timeoutError, InvalidRequest))
       ∨ ((TimerFires ∉ evs)
          ∧ ∃ err, CallReturns err ∈ evs ∧ r = workerResponse err))
  ∧ (timeout = 0%Z → TimerFires ∉ evs)
  ∧ ((∀ ev, hstep st ev = None) ↔ worker st = WDone ∧ handler st = HReturned)
  ∧ (timeout ≠ 0%Z → handler st ≠ HReturned →
     ∃ ev, (∀ err, ev ≠ CallReturns err) ∧ is_Some (hstep st ev))
  ∧ length evs ≤ 5.
Proof.
  intros Hrun. pose proof (hinv_run evs [] _ _ hinv_init Hrun) as Hinv.
  pose proof (remaining_run _ _ _ Hrun) as Hrem.
  rewrite app_nil_l in Hinv. clear Hrun.
  destruct st as [w h herr wr ir]. unfold Handler.hinv in Hinv. simpl in *.
  split_and!.
  - destruct w, h; simpl in Hinv; try done; hyps; simpl; lia.
  - intros ->. destruct w; simpl in Hinv; try done; hyps; done.
  - intros r Hr. destruct w, h; simpl in Hinv; try done; hyps;
      first [by apply elem_of_nil in Hr
            |apply list_elem_of_singleton in Hr; subst r; eauto 10].
  - intros Hz. destruct w, h; simpl in Hinv; try done; hyps; done.
  - split.
    + intros Hstuck.
      pose proof (Hstuck (CallReturns None)) as H1.
      pose proof (Hstuck HandOffCalled) as H2.
      pose proof (Hstuck WorkerResponds) as H3.
      pose proof (Hstuck HandOffSent) as H4.
      pose proof (Hstuck HandlerResponds) as H5.
      pose proof (Hstuck HandlerReturns) as H6.
      pose proof (Hstuck WorkerSeesReturn) as H7.
      unfold Handler.hstep in *. simpl in *.
      destruct w as [|e|[e|]|e|], h; simpl in *; try done;
        destruct_and?; subst; done.
    + intros [-> ->] ev. unfold Handler.hstep. simpl. by destruct ev.
  - intros Hnz Hh. unfold Handler.hstep. simpl.
    destruct h; try done.
    + destruct w; simpl in Hinv; try done; by destruct_and?.
    + exists TimerFires. split; [done|]. by destruct w.
    + exists HandlerResponds. split; [done|]. by destruct w.
    + destruct w as [|e|[e|]|e|]; simpl in Hinv; try done.
      * exists WorkerResponds. split; [done|]. eauto.
      * exists WorkerResponds. split; [done|]. eauto.
      * exists HandOffSent. split; [done|]. eauto.
    + exists HandlerReturns. split; [done|]. by destruct w.
  - unfold remaining, Handler.hinit in Hrem. simpl in Hrem.
    case_bool_decide; simpl in Hrem; lia.
Qed.

End HandleRequest.

Lemma handleRequest_writes_one_response_witness :
  ∃ st,
    hrun (λ _, "1s") 1000000000 (hinit 1000000000 "")
      [TimerFires; HandlerResponds; HandlerReturns; CallReturns None;
       WorkerSeesReturn] = Some st
    ∧ length (written st) = 1
    ∧ ∀ r, r ∈ written st →
           r = ("rpc server: request handle timeout: expect within 1s",
                InvalidRequest).
Proof.
  eexists. split; [reflexivity|].
  match goal with
  | |- length (written ?s) = 1 ∧ _ =>
      destruct (handleRequest_writes_one_response (λ _, "1s") 1000000000 ""
                  [TimerFires; HandlerResponds; HandlerReturns; CallReturns None;
                   WorkerSeesReturn] s eq_refl) as (_ & H1 & H2 & _)
  end.
  split; [by apply H1|]. intros r Hr.
  destruct (H2 r Hr) as [(_ & _ & _ & ->)|[Hno _]]; [done|].
  destruct Hno. by left.
Defined.

End HandlerSpec.

(* ===================================================================== *)
(** * Server: who is served, and which requests are answered at once *)
(* ===================================================================== *)

Module ServeSpec.
Import GoString Server ClientCore Dial Serve ServerSpec.

(** X25. Client and server agree on the handshake, the server decoding
    the options as the client encoded them.  [ServeConn] goes on to serve
    exactly the options that carry the magic number and the gob codec
    type.  Every option that [parseOption] returns and with which
    [NewClient] makes a client is one of them, and [NewClient] sends no
    options at all when the codec type is not gob. *)
Theorem handshake_is_accepted
    (encodeOption : nat → Option → outcome error) (conn : nat)
    (opts : list (option Option)) (opt : Option) :
  (ServeConn (inl opt) = ServesCodec
   ↔ MagicNumber opt = MagicNumberConst ∧ CodecType opt = GobType)
  ∧ (parseOption opts = (Some opt, None) →
     ∀ cl, NewClient encodeOption conn opt = Returns (Some cl, None) →
           ServeConn (inl opt) = ServesCodec
           ∧ encodeOption conn opt = Returns None)
  ∧ (CodecType opt ≠ GobType →
     NewClient encodeOption conn opt
     = Returns (None, Some ("invalid codec type " +:+ CodecType opt))
     ∧ ServeConn (inl opt) ≠ ServesCodec).
Proof.
  unfold ServeConn, NewClient. split_and!.
  - repeat case_bool_decide; simpl; split; try done; by intros [? ?].
  - intros Hopt cl.
    assert (Hm : MagicNumber opt = MagicNumberConst).
    { destruct opts as [|[o|] [|o' rest]]; simpl in Hopt; try done;
        by injection Hopt as <-. }
    rewrite (bool_decide_eq_true_2 _ Hm).
    case_bool_decide; simpl; [|done].
    by destruct (encodeOption conn opt) as [[e|]|].
  - intros Hc. rewrite (bool_decide_eq_false_2 _ Hc). simpl. split; [done|].
    by case_bool_decide.
Qed.

(** [newArgv] never panics; [newReplyv] panics exactly when the reply
    type has no element type. *)
Lemma newArgv_returns (m : methodType) : newArgv m = Returned Made.
Proof.
  unfold newArgv, Elem. case_bool_decide as Hk; [|done]. by rewrite Hk.
Qed.

Lemma newReplyv_cases (m : methodType) :
  newReplyv m = if hasElem (kind (ReplyType m)) then Returned Made else Panicked.
Proof. unfold newReplyv, Elem. by destruct (hasElem _). Qed.

(** [readRequest] and the turn of the loop, by the outcome of
    [findService]. *)
Lemma serveOne_cases (server : Server) (hd : Header) (berr : error) :
  match findService server (hServiceMethod hd) with
  | (s, m, Some _) =>
      readRequest server (inl hd) berr
      = Returned (Some {| h := hd; argv := Unset; replyv := Unset;
                          mtype := m; svc := s |}, None)
      ∧ m = None
  | (s, Some mt, None) =>
      is_Some s
      ∧ readRequest server (inl hd) berr
        = if hasElem (kind (ReplyType mt)) then
            match berr with
            | Some e =>
                Returned (Some {| h := hd; argv := Made; replyv := Made;
                                  mtype := Some mt; svc := s |}, Some e)
            | None =>
                Returned (Some {| h := hd; argv := Decoded; replyv := Made;
                                  mtype := Some mt; svc := s |}, None)
            end
          else Panicked
  | (_, None, None) => False
  end.
Proof.
  unfold readRequest.
  assert (Hf : match findService server (hServiceMethod hd) with
               | (s, m, Some _) => m = None
               | (s, Some _, None) => is_Some s
               | (_, None, None) => False
               end).
  { unfold findService. case_bool_decide; [done|].
    destruct (serviceMap server !! _) as [sv|]; [|done].
    by destruct (methods sv !! _). }
  destruct (findService server (hServiceMethod hd)) as [[s m] [e|]];
    cbv beta iota in *.
  - by destruct m.
  - destruct m as [mt|]; [|done]. split; [done|].
    rewrite newArgv_returns, newReplyv_cases.
    by destruct (hasElem _), berr.
Qed.

(** X26. What one turn of the loop of [ServeCodec] does with a request.
    It leaves the loop exactly when the header cannot be read.  When
    [findService] fails, [readRequest] drops that error and reads no body:
    the request goes to [handleRequest] without a method type and with
    neither value made.  When the method is found and its reply type is a
    pointer (or has an element type otherwise), the request is answered at
    once with the error of [ReadBody] in the header, or handed to
    [handleRequest] with the argument decoded.  When the method is found
    and its reply type has no element type, [newReplyv] panics in the task
    that serves the connection: nothing is answered. *)
Theorem ServeCodec_dispatch
    (server : Server) (header : Header + string) (berr : error) :
  (serveOne server header berr = Break ↔ ∃ e, header = inr e)
  ∧ (∀ hd, header = inl hd →
       (findService server (hServiceMethod hd)).2 ≠ None →
       (readRequest server header berr)
       = Returned (Some {| h := hd; argv := Unset; replyv := Unset; mtype := None;
                           svc := (findService server (hServiceMethod hd)).1.1 |},
                   None)
       ∧ serveOne server header berr
         = Handle {| h := hd; argv := Unset; replyv := Unset; mtype := None;
                     svc := (findService server (hServiceMethod hd)).1.1 |})
  ∧ (∀ hd, header = inl hd →
       (findService server (hServiceMethod hd)).2 = None →
       ∃ s m, findService server (hServiceMethod hd) = (Some s, Some m, None)
              ∧ (hasElem (kind (ReplyType m)) = false →
                 serveOne server header berr = Panic)
              ∧ (hasElem (kind (ReplyType m)) = true →
                 match berr with
                 | Some e =>
                     serveOne server header berr
                     = RespondError {| hServiceMethod := hServiceMethod hd;
                                       hSeq := hSeq hd; hError := e |}
                 | None =>
                     serveOne server header berr
                     = Handle {| h := hd; argv := Decoded; replyv := Made;
                                 mtype := Some m; svc := Some s |}
                 end)).
Proof.
  split_and!.
  - destruct header as [hd|e].
    + split; [|by intros [? ?]]. unfold serveOne.
      pose proof (serveOne_cases server hd berr) as Hc.
      destruct (findService server (hServiceMethod hd)) as [[s [mt|]] [e|]];
        cbv beta iota in Hc.
      * by destruct Hc as [_ ?].
      * destruct Hc as [_ ->]. by destruct (hasElem _), berr.
      * by destruct Hc as [-> _].
      * done.
    + split; [eauto|done].
  - intros hd -> Herr. unfold serveOne.
    pose proof (serveOne_cases server hd berr) as Hc.
    destruct (findService server (hServiceMethod hd)) as [[s [mt|]] [e|]];
      cbv beta iota in Hc; try done.
    + by destruct Hc as [_ ?].
    + by destruct Hc as [-> _].
  - intros hd -> Herr. unfold serveOne.
    pose proof (serveOne_cases server hd berr) as Hc.
    destruct (findService server (hServiceMethod hd)) as [[s [mt|]] [e|]];
      cbv beta iota in Hc; try done.
    destruct Hc as [[sv ->] ->].
    exists sv, mt. split; [done|]. split; intros ->; [done|].
    by destruct berr.
Qed.

(** A request for a method that does not exist is handed on. *)
Example unknown_method_is_handed_on :
  serveOne arithServer
    (inl {| hServiceMethod := "Arith.Mul"; hSeq := 7; hError := "" |}) None
  = Handle {| h := {| hServiceMethod := "Arith.Mul"; hSeq := 7; hError := "" |};
              argv := Unset; replyv := Unset; mtype := None;
              svc := Some arith |}.
Proof. by vm_compute. Qed.

(** A request for [T.Echo], the method with a plain [int] as its reply
    parameter that [registerMethods] keeps: [newReplyv] panics. *)
Example non_pointer_reply_panics :
  serveOne {| serviceMap := {[ "T" := registerMethods asciiExported echoService ]} |}
    (inl {| hServiceMethod := "T.Echo"; hSeq := 1; hError := "" |}) None
  = Panic.
Proof. by vm_compute. Qed.

End ServeSpec.

(* ===================================================================== *)
(** * Registry: what a GET returns and evicts *)
(* ===================================================================== *)

Module RegistrySpec.
Import Registry.

Section Loop.
Variables timeout now : Z.

(** The two components of the loop state, separately. *)
Lemma loop_alive entries alive m :
  (foldl (visit timeout now) (alive, m) entries).1
  = alive ++ (filter (λ e, isAlive timeout now e.2 = true) entries).*1.
Proof.
  revert alive m. induction entries as [|e entries IH]; intros alive m; simpl.
  - by rewrite app_nil_r.
  - unfold visit at 2. simpl. rewrite filter_cons.
    destruct (decide (isAlive timeout now e.2 = true)) as [E|E].
    + rewrite E, IH. simpl. by rewrite <- app_assoc.
    + apply not_true_is_false in E. rewrite E. apply IH.
Qed.

(** Deleting never adds a key. *)
Lemma loop_servers_None entries alive (m : gmap string ServerItem) a :
  m !! a = None → (foldl (visit timeout now) (alive, m) entries).2 !! a = None.
Proof.
  revert alive m. induction entries as [|e entries IH]; intros alive m Hm; simpl.
  - done.
  - unfold visit at 2. destruct (isAlive timeout now e.2); simpl; apply IH.
    + done.
    + destruct (decide (e.1 = a)) as [->|Hne].
      * apply lookup_delete_eq.
      * by rewrite lookup_delete_ne.
Qed.

(** An entry visited and found expired is gone at the end. *)
Lemma loop_servers_dead entries alive (m : gmap string ServerItem) a v :
  (a, v) ∈ entries → isAlive timeout now v = false →
  (foldl (visit timeout now) (alive, m) entries).2 !! a = None.
Proof.
  revert alive m. induction entries as [|e entries IH]; intros alive m Hin Hd.
  - by apply elem_of_nil in Hin.
  - simpl. apply elem_of_cons in Hin as [<-|Hin].
    + unfold visit at 2. simpl. rewrite Hd. simpl.
      apply loop_servers_None, lookup_delete_eq.
    + unfold visit at 2. destruct (isAlive timeout now e.2); simpl; by apply IH.
Qed.

(** A key none of whose visited entries is expired keeps its item. *)
Lemma loop_servers_kept entries alive (m : gmap string ServerItem) a :
  (∀ v, (a, v) ∈ entries → isAlive timeout now v = true) →
  (foldl (visit timeout now) (alive, m) entries).2 !! a = m !! a.
Proof.
  revert alive m. induction entries as [|e entries IH]; intros alive m Hk.
  - done.
  - simpl. unfold visit at 2. destruct e as [k v]. simpl.
    destruct (isAlive timeout now v) eqn:E; simpl.
    + apply IH. intros v' Hv'. apply Hk. by apply elem_of_cons; right.
    + rewrite IH by (intros v' Hv'; apply Hk; by apply elem_of_cons; right).
      destruct (decide (k = a)) as [->|Hne].
      * rewrite (Hk v) in E; [done|]. by apply elem_of_cons; left.
      * by rewrite lookup_delete_ne.
Qed.

End Loop.

Lemma isAlive_true timeout now item :
  isAlive timeout now item = true
  ↔ timeout = 0%Z ∨ (now < start item + timeout)%Z.
Proof.
  unfold isAlive. rewrite orb_true_iff, !bool_decide_eq_true. done.
Qed.

(** The loop over any enumeration of the map keeps exactly the live
    items. *)
Lemma getAliveServersIn_servers entries now r :
  entries ≡ₚ map_to_list (servers r) →
  servers (getAliveServersIn entries now r).2
  = filter (λ kv, isAlive (timeout r) now kv.2 = true) (servers r).
Proof.
  intros Hp. unfold getAliveServersIn. simpl. apply map_eq. intros a.
  destruct (servers r !! a) as [v|] eqn:Ha.
  - assert (Hin : (a, v) ∈ entries).
    { rewrite Hp. by apply elem_of_map_to_list. }
    destruct (isAlive (timeout r) now v) eqn:E.
    + rewrite loop_servers_kept.
      * rewrite Ha. symmetry. by apply map_lookup_filter_Some.
      * intros v' Hv'. rewrite Hp in Hv'. apply elem_of_map_to_list in Hv'.
        congruence.
    + rewrite (loop_servers_dead _ _ _ _ _ a v Hin E). symmetry.
      apply map_lookup_filter_None. right. intros v' Hv'. simpl. congruence.
  - rewrite loop_servers_None by done. symmetry.
    apply map_lookup_filter_None. by left.
Qed.

Lemma getAliveServersIn_alive entries now r :
  (getAliveServersIn entries now r).1
  = sortStrings (filter (λ e, isAlive (timeout r) now e.2 = true) entries).*1.
Proof. unfold getAliveServersIn. simpl. by rewrite loop_alive. Qed.

Lemma sortStrings_Sorted l : Sorted String.le (sortStrings l).
Proof. apply (Sorted_merge_sort String.le). Qed.

Lemma sortStrings_Permutation l : sortStrings l ≡ₚ l.
Proof. apply (merge_sort_Permutation String.le). Qed.

(** Two enumerations of the same entries sort to the same list. *)
Lemma sortStrings_perm l1 l2 : l1 ≡ₚ l2 → sortStrings l1 = sortStrings l2.
Proof.
  intros Hp. apply (Sorted_unique String.le); try apply sortStrings_Sorted.
  by rewrite !sortStrings_Permutation.
Qed.

(** The order in which the range statement visits the map does not show
    in the result. *)
Lemma getAliveServers_any_order entries now r :
  entries ≡ₚ map_to_list (servers r) →
  getAliveServersIn entries now r = getAliveServers now r.
Proof.
  intros Hp. unfold getAliveServers.
  rewrite (surjective_pairing (getAliveServersIn entries now r)).
  rewrite (surjective_pairing (getAliveServersIn (map_to_list _) now r)).
  f_equal.
  - rewrite !getAliveServersIn_alive. apply sortStrings_perm.
    by rewrite Hp.
  - assert (Ht : ∀ l, timeout (getAliveServersIn l now r).2 = timeout r) by done.
    pose proof (getAliveServersIn_servers entries now r Hp) as H1.
    pose proof (getAliveServersIn_servers (map_to_list (servers r)) now r
                  (reflexivity _)) as H2.
    destruct (getAliveServersIn entries now r).2 as [t1 s1] eqn:E1.
    destruct (getAliveServersIn (map_to_list (servers r)) now r).2
      as [t2 s2] eqn:E2.
    pose proof (Ht entries) as Ht1. pose proof (Ht (map_to_list (servers r))) as Ht2.
    rewrite E1 in Ht1. rewrite E2 in Ht2. simpl in *. congruence.
Qed.

Lemma getAliveServers_elem now r a :
  a ∈ (getAliveServers now r).1
  ↔ ∃ item, servers r !! a = Some item
            ∧ (timeout r = 0%Z ∨ (now < start item + timeout r)%Z).
Proof.
  unfold getAliveServers. rewrite getAliveServersIn_alive.
  rewrite sortStrings_Permutation, list_elem_of_fmap. split.
  - intros ([k v] & -> & Hin). apply list_elem_of_filter in Hin as [Hl Hin].
    apply elem_of_map_to_list in Hin. exists v. split; [done|].
    by apply isAlive_true.
  - intros (v & Hv & Hl). exists (a, v). split; [done|].
    apply list_elem_of_filter. split; [by apply isAlive_true|].
    by apply elem_of_map_to_list.
Qed.

Lemma getAliveServers_NoDup now r : NoDup (getAliveServers now r).1.
Proof.
  unfold getAliveServers. rewrite getAliveServersIn_alive.
  rewrite sortStrings_Permutation.
  eapply sublist_NoDup; [apply (NoDup_fst_map_to_list (servers r))|].
  apply fmap_sublist, sublist_filter.
Qed.

(** With a zero timeout the loop deletes nothing. *)
Lemma getAliveServers_zero now m :
  (getAliveServers now {| timeout := 0; servers := m |}).2
  = {| timeout := 0; servers := m |}.
Proof.
  pose proof (getAliveServersIn_servers (map_to_list m) now
                {| timeout := 0; servers := m |} (reflexivity _)) as H.
  unfold getAliveServers, getAliveServersIn in *. simpl in *. f_equal.
  rewrite H. by apply map_filter_id.
Qed.


(** The end-to-end scenario on three servers heard at 10, 40 and 70 with a
    TTL of 50: at instant 65 the first has expired. *)
Example registry_GET_three :
  (getAliveServers 65 (threeServers 50)).1 = ["tcp@b:2"; "tcp@c:3"]
  ∧ (getAliveServers 65 (threeServers 0)).1 = ["tcp@a:1"; "tcp@b:2"; "tcp@c:3"]
  ∧ (ServeHTTP 65 {| Method := "GET"; XMyrpcServer := "" |} (threeServers 50)).1
    = {| status := 200; XMyrpcServers := Some "tcp@b:2,tcp@c:3" |}.
Proof. by vm_compute. Qed.

(** ** Heartbeats, the other requests, and repeated reads *)

Lemma putServer_lookup t addr r :
  ∃ item, servers (putServer t addr r) !! addr = Some item ∧ start item = t.
Proof.
  unfold putServer. destruct (servers r !! addr); simpl;
    rewrite lookup_insert_eq; eauto.
Qed.

Lemma putServer_other t addr r a :
  a ≠ addr → servers (putServer t addr r) !! a = servers r !! a.
Proof.
  intros Hne. unfold putServer.
  destruct (servers r !! addr); simpl; by rewrite lookup_insert_ne.
Qed.

Lemma putServer_timeout t addr r : timeout (putServer t addr r) = timeout r.
Proof. unfold putServer. by destruct (servers r !! addr). Qed.

Lemma ServeHTTP_POST t addr r :
  addr ≠ "" →
  ServeHTTP t (heartbeatRequest addr) r
  = ({| status := StatusOK; XMyrpcServers := None |}, putServer t addr r).
Proof.
  intros Hne. unfold ServeHTTP, heartbeatRequest. simpl.
  by rewrite (bool_decide_eq_false_2 (addr = "")).
Qed.

Lemma putServer_alive t now addr r :
  addr ∈ (getAliveServers now (putServer t addr r)).1
  ↔ timeout r = 0%Z ∨ (now < t + timeout r)%Z.
Proof.
  rewrite getAliveServers_elem, putServer_timeout.
  destruct (putServer_lookup t addr r) as (item & Hi & Hs). split.
  - intros (item' & Hi' & H). rewrite Hi in Hi'. injection Hi' as <-.
    by rewrite Hs in H.
  - intros H. exists item. rewrite Hs. done.
Qed.

(** X1. A heartbeat POST at [t] answers 200, touches no other address, and
    a GET at [now] then lists the address exactly when the TTL is 0 or
    [now] is before [t] plus the TTL, whatever was stored for it before. *)
Theorem POST_then_GET (t now : Z) (addr : string) (r : CenterRegistry) :
  addr ≠ "" →
  let r1 := (ServeHTTP t (heartbeatRequest addr) r).2 in
  (ServeHTTP t (heartbeatRequest addr) r).1
  = {| status := StatusOK; XMyrpcServers := None |}
  ∧ (addr ∈ (getAliveServers now r1).1
     ↔ timeout r = 0%Z ∨ (now < t + timeout r)%Z)
  ∧ (∀ a, a ≠ addr → servers r1 !! a = servers r !! a).
Proof.
  intros Hne r1. unfold r1. rewrite ServeHTTP_POST by done. cbn [fst snd].
  split_and!; [done|apply putServer_alive|].
  intros a Ha. by apply putServer_other.
Qed.

Lemma POST_then_GET_witness :
  "tcp@a:1" ∈ (getAliveServers 59
                 (ServeHTTP 10 (heartbeatRequest "tcp@a:1") (New 50)).2).1
  ∧ ¬ "tcp@a:1" ∈ (getAliveServers 60
                     (ServeHTTP 10 (heartbeatRequest "tcp@a:1") (New 50)).2).1.
Proof.
  destruct (POST_then_GET 10 59 "tcp@a:1" (New 50)) as (_ & H1 & _); [done|].
  destruct (POST_then_GET 10 60 "tcp@a:1" (New 50)) as (_ & H2 & _); [done|].
  split.
  - apply H1. right. simpl. lia.
  - intros H. apply H2 in H. simpl in H. lia.
Defined.

(** The registry a GET leaves: the same TTL, the live items. *)
Lemma getAliveServers_state now r :
  timeout (getAliveServers now r).2 = timeout r
  ∧ servers (getAliveServers now r).2
    = filter (λ kv, timeout r = 0%Z ∨ (now < start kv.2 + timeout r)%Z)
             (servers r).
Proof.
  split; [done|]. unfold getAliveServers.
  rewrite (getAliveServersIn_servers _ now r (reflexivity _)).
  apply map_filter_ext. intros k v _. simpl. apply isAlive_true.
Qed.

(** The cases of [ServeHTTP], by method and header. *)
Lemma ServeHTTP_cases (now : Z) (req : Request) (r : CenterRegistry) :
  timeout (ServeHTTP now req r).2 = timeout r
  ∧ dom (servers (ServeHTTP now req r).2)
    ⊆ dom (servers r) ∪ {[XMyrpcServer req]}
  ∧ (Method req ≠ "GET" →
     dom (servers r) ⊆ dom (servers (ServeHTTP now req r).2))
  ∧ (Method req = "GET" →
     servers (ServeHTTP now req r).2 ⊆ servers r)
  ∧ (Method req = "POST" → XMyrpcServer req = "" →
     ServeHTTP now req r
     = ({| status := StatusInternalServerError; XMyrpcServers := None |}, r))
  ∧ (Method req ≠ "GET" → Method req ≠ "POST" →
     ServeHTTP now req r
     = ({| status := StatusMethodNotAllowed; XMyrpcServers := None |}, r)).
Proof.
  destruct (getAliveServers_state now r) as [Ht Hs].
  unfold ServeHTTP.
  destruct (getAliveServers now r) as [alive r'] eqn:EG. simpl in Ht, Hs.
  destruct (decide (Method req = "GET")) as [HGET|HGET].
  { rewrite bool_decide_eq_true_2 by done. simpl.
    split_and!; try done; try (intros; congruence).
    - rewrite Hs. etrans; [apply dom_filter_subseteq|]. set_solver.
    - intros _. rewrite Hs. apply map_filter_subseteq. }
  rewrite (bool_decide_eq_false_2 (Method req = "GET")) by done.
  destruct (decide (Method req = "POST")) as [HPOST|HPOST].
  - rewrite bool_decide_eq_true_2 by done.
    destruct (decide (XMyrpcServer req = "")) as [Hempty|Hempty].
    + rewrite bool_decide_eq_true_2 by done. simpl.
      split_and!; try done; try (intros; congruence). set_solver.
    + rewrite (bool_decide_eq_false_2 (XMyrpcServer req = "")) by done. simpl.
      split_and!; try done; try (intros; congruence).
      * apply putServer_timeout.
      * unfold putServer. destruct (servers r !! XMyrpcServer req); simpl;
          rewrite dom_insert_L; by rewrite (comm_L (∪)).
      * intros _. unfold putServer.
        destruct (servers r !! XMyrpcServer req); simpl;
          rewrite dom_insert_L; apply union_subseteq_r.
  - rewrite (bool_decide_eq_false_2 (Method req = "POST")) by done. simpl.
    split_and!; try done; try (intros; congruence). set_solver.
Qed.

(** X2. What a request can do to the registry: it never changes the TTL;
    it adds no address but the one in the header; only a GET removes
    addresses, and what a GET leaves is as it was; a POST without the
    header answers 500 and any method other than GET and POST answers 405,
    both leaving the registry as it is. *)
Theorem ServeHTTP_effects (now : Z) (req : Request) (r : CenterRegistry) :
  timeout (ServeHTTP now req r).2 = timeout r
  ∧ dom (servers (ServeHTTP now req r).2)
    ⊆ dom (servers r) ∪ {[XMyrpcServer req]}
  ∧ (Method req ≠ "GET" →
     dom (servers r) ⊆ dom (servers (ServeHTTP now req r).2))
  ∧ (Method req = "GET" →
     servers (ServeHTTP now req r).2 ⊆ servers r)
  ∧ (Method req = "POST" → XMyrpcServer req = "" →
     ServeHTTP now req r
     = ({| status := StatusInternalServerError; XMyrpcServers := None |}, r))
  ∧ (Method req ≠ "GET" → Method req ≠ "POST" →
     ServeHTTP now req r
     = ({| status := StatusMethodNotAllowed; XMyrpcServers := None |}, r)).
Proof. apply ServeHTTP_cases. Qed.

Lemma serveAll_app reqs1 reqs2 r :
  serveAll (reqs1 ++ reqs2) r = serveAll reqs2 (serveAll reqs1 r).
Proof. unfold serveAll. by rewrite foldl_app. Qed.

(** Each item sits under its own, non-empty, address. *)
Lemma ServeHTTP_keyed now req r :
  (∀ a item, servers r !! a = Some item → Addr item = a ∧ a ≠ "") →
  ∀ a item, servers (ServeHTTP now req r).2 !! a = Some item →
            Addr item = a ∧ a ≠ "".
Proof.
  intros Hk a item Ha. destruct (ServeHTTP_cases now req r)
    as (_ & _ & _ & HGET & H500 & H405).
  destruct (decide (Method req = "GET")) as [EG|EG].
  { apply Hk. eapply lookup_weaken; [exact Ha|by apply HGET]. }
  destruct (decide (Method req = "POST")) as [EP|EP].
  - destruct (decide (XMyrpcServer req = "")) as [EE|EE].
    + rewrite (H500 EP EE) in Ha. by apply Hk.
    + assert (E : ServeHTTP now req r
                  = ({| status := StatusOK; XMyrpcServers := None |},
                     putServer now (XMyrpcServer req) r)).
      { destruct req as [m x]. simpl in *. subst m. by apply ServeHTTP_POST. }
      rewrite E in Ha. simpl in Ha.
      destruct (decide (a = XMyrpcServer req)) as [->|Hne].
      * unfold putServer in Ha.
        destruct (servers r !! XMyrpcServer req) as [old|] eqn:Eo; simpl in Ha;
          rewrite lookup_insert_eq in Ha; injection Ha as <-; simpl.
        -- split; [|done]. by apply (Hk _ _ Eo).
        -- done.
      * rewrite putServer_other in Ha by done. by apply Hk.
  - rewrite (H405 EG EP) in Ha. by apply Hk.
Qed.

(** X3. Whatever requests a new registry has served, its TTL is the one it
    was made with and every item is stored under its own address, which is
    never the empty string. *)
Theorem registry_items_keyed_by_Addr
    (ttl : Z) (reqs : list (Z * Request)) (a : string) (item : ServerItem) :
  timeout (serveAll reqs (New ttl)) = ttl
  ∧ (servers (serveAll reqs (New ttl)) !! a = Some item →
     Addr item = a ∧ a ≠ "").
Proof.
  assert (H : ∀ r, (∀ a item, servers r !! a = Some item → Addr item = a ∧ a ≠ "") →
            timeout (serveAll reqs r) = timeout r
            ∧ ∀ a item, servers (serveAll reqs r) !! a = Some item →
                        Addr item = a ∧ a ≠ "").
  { induction reqs as [|[t req] reqs IH]; intros r Hk; [done|].
    change (serveAll ((t, req) :: reqs) r)
      with (serveAll reqs (ServeHTTP t req r).2).
    destruct (IH (ServeHTTP t req r).2 (ServeHTTP_keyed t req r Hk)) as [H1 H2].
    split; [|done]. rewrite H1.
    by destruct (ServeHTTP_cases t req r) as (-> & _). }
  destruct (H (New ttl)) as [H1 H2].
  - intros a' item' Ha. simpl in Ha. by rewrite lookup_empty in Ha.
  - split; [done|]. apply H2.
Qed.

(** Two sorted lists without repetition that have the same elements are
    the same list. *)
Lemma sorted_same_elements (l1 l2 : list string) :
  Sorted String.le l1 → Sorted String.le l2 → NoDup l1 → NoDup l2 →
  (∀ a, a ∈ l1 ↔ a ∈ l2) → l1 = l2.
Proof.
  intros S1 S2 N1 N2 He. apply (Sorted_unique String.le); try done.
  by apply NoDup_Permutation.
Qed.

(** X4. The eviction done by a GET does not show in later reads: a GET at
    [now'] after a GET at an earlier (or the same) instant [now] returns
    what a GET at [now'] alone returns and leaves the same map; in
    particular a second GET at the same instant returns the same list and
    changes nothing. *)
Theorem GET_eviction_is_transparent (now now' : Z) (r : CenterRegistry) :
  (now ≤ now')%Z →
  getAliveServers now' (getAliveServers now r).2 = getAliveServers now' r
  ∧ getAliveServers now (getAliveServers now r).2
    = ((getAliveServers now r).1, (getAliveServers now r).2).
Proof.
  assert (H : ∀ t t', (t ≤ t')%Z →
            getAliveServers t' (getAliveServers t r).2 = getAliveServers t' r).
  { intros t t' Hle.
    destruct (getAliveServers_state t r) as [Ht1 Hs1].
    destruct (getAliveServers_state t' r) as [Ht2 Hs2].
    destruct (getAliveServers_state t' (getAliveServers t r).2) as [Ht3 Hs3].
    pose proof (getAliveServers_elem t' r) as He2.
    pose proof (getAliveServers_elem t' (getAliveServers t r).2) as He3.
    rewrite (surjective_pairing (getAliveServers t' (getAliveServers t r).2)).
    rewrite (surjective_pairing (getAliveServers t' r)). f_equal.
    - apply sorted_same_elements;
        try apply sortStrings_Sorted; try apply getAliveServers_NoDup.
      intros a. rewrite He3, He2, Ht1, Hs1. split.
      + intros (item & Hi & Hl). apply map_lookup_filter_Some in Hi as [Hi _].
        eauto.
      + intros (item & Hi & Hl). exists item. split; [|done].
        apply map_lookup_filter_Some. split; [done|]. simpl. lia.
    - assert (Hrec : ∀ x y : CenterRegistry,
                timeout x = timeout y → servers x = servers y → x = y).
      { intros [] []. simpl. congruence. }
      apply Hrec; [congruence|].
      rewrite Hs3, Hs2, Ht1, Hs1.
      apply map_eq. intros a. apply option_eq. intros item.
      rewrite !map_lookup_filter_Some. simpl. split.
      + intros [[Hi _] Hl]. done.
      + intros [Hi Hl]. split; [|done]. split; [done|]. lia. }
  intros Hle. split; [by apply H|].
  rewrite (H now now) by lia. by destruct (getAliveServers now r).
Qed.

Lemma GET_eviction_is_transparent_witness :
  getAliveServers 95 (getAliveServers 65 (threeServers 50)).2
  = getAliveServers 95 (threeServers 50).
Proof.
  destruct (GET_eviction_is_transparent 65 95 (threeServers 50)) as [H _];
    [lia|exact H].
Defined.

(** The heartbeats the loop sends are the numbers from [k] on, up to the
    first failure and to the number of ticks. *)
Lemma heartbeatLoop_elem post err k ticks j :
  j ∈ heartbeatLoop post err k ticks
  ↔ k ≤ j < k + ticks ∧ err = None ∧ ∀ i, k ≤ i < j → post i = None.
Proof.
  revert err k. induction ticks as [|n IH]; intros err k; simpl.
  - split; [by intros H%elem_of_nil|lia].
  - destruct err as [e|].
    + split; [by intros H%elem_of_nil|]. by intros (_ & ? & _).
    + rewrite elem_of_cons, IH. split.
      * intros [->|(Hr & Hp & Ha)].
        -- split; [lia|]. split; [done|]. intros i Hi. lia.
        -- split; [lia|]. split; [done|]. intros i Hi.
           destruct (decide (i = k)) as [->|]; [done|]. apply Ha. lia.
      * intros (Hr & _ & Ha). destruct (decide (j = k)) as [->|Hne]; [by left|].
        right. split; [lia|]. split; [apply Ha; lia|].
        intros i Hi. apply Ha. lia.
Qed.


End RegistrySpec.
(* ===================================================================== *)
(** * Discovery: copies, refresh and its failure *)
(* ===================================================================== *)

Module DiscoverySpec.
Import GoSlice Discovery.

(** Reading a slice depends on its own backing array only. *)
Lemma read_frame (h h' : Heap) s :
  h' !! arr s = h !! arr s → read h' s = read h s.
Proof. intros H. unfold read, backing. by rewrite H. Qed.

Lemma make_fresh (h : Heap) n c : h !! arr (make h n c).2 = None.
Proof.
  unfold make. simpl. apply not_elem_of_dom. apply is_fresh.
Qed.

Lemma length_read_wf h s : wf h s → length (read h s) = len s.
Proof.
  intros [H1 H2]. unfold read. rewrite length_take, length_drop. lia.
Qed.

Lemma mutate_apart l0 h0 st m st' :
  is_Some (h0 !! l0) → apart l0 h0 st → mutate st m = Some st' →
  apart l0 h0 st'.
Proof.
  intros Hsome [Hne Heq] Hm. destruct st as [h s]. simpl in *.
  destruct m as [i v|v|lo hi]; simpl in Hm.
  - unfold store in Hm. case_decide; [|done]. simpl in Hm.
    injection Hm as <-. split; simpl; [done|].
    by rewrite lookup_alter_ne.
  - injection Hm as <-. unfold append. case_decide; simpl.
    + split; simpl; [done|]. by rewrite lookup_alter_ne.
    + assert (Hl : fresh (dom h) ≠ l0).
      { intros E. apply (is_fresh (dom h)). rewrite E.
        apply elem_of_dom. by rewrite Heq. }
      split; simpl; [done|]. by rewrite lookup_insert_ne.
  - unfold reslice in Hm. case_decide; [|done]. simpl in Hm.
    injection Hm as <-. split; simpl; done.
Qed.

Lemma mutates_apart l0 h0 ms st st' :
  is_Some (h0 !! l0) → apart l0 h0 st → mutates st ms = Some st' →
  apart l0 h0 st'.
Proof.
  intros Hsome. revert st. induction ms as [|m ms IH]; intros st Ha Hm; simpl in Hm.
  - by injection Hm as <-.
  - destruct (mutate st m) as [st1|] eqn:E; [|done]. simpl in Hm.
    eapply IH; [|exact Hm]. eapply mutate_apart; eauto.
Qed.

(** [GetAll] leaves the arrays that were there alone, and the slice it
    returns reads as the server list. *)
Lemma GetAll_heap h d :
  let '(h1, s, err) := GetAll h d in
  err = None
  ∧ h !! arr s = None
  ∧ (∀ l, l ≠ arr s → h1 !! l = h !! l)
  ∧ (wf h (servers d) → read h1 s = read h (servers d)).
Proof.
  unfold GetAll, make, copy, writeAt. simpl.
  set (l := fresh (dom h)).
  assert (Hl : h !! l = None) by (apply not_elem_of_dom, is_fresh).
  split_and!; [done|done| |].
  - intros l' Hne. rewrite lookup_alter_ne by done. by rewrite lookup_insert_ne.
  - intros Hwf. pose proof (length_read_wf h _ Hwf) as Hlen.
    assert (Hsrc : read (<[l:=replicate (len (servers d)) ""]> h) (servers d)
                   = read h (servers d)).
    { destruct (decide (arr (servers d) = l)) as [E|E].
      - destruct Hwf as [Hw1 Hw2]. unfold backing in Hw2. rewrite E, Hl in Hw2.
        simpl in Hw2. unfold read. replace (len (servers d)) with 0 by lia.
        done.
      - apply read_frame. by rewrite lookup_insert_ne. }
    rewrite Hsrc. unfold read at 1, backing. simpl.
    rewrite lookup_alter_eq, lookup_insert_eq. simpl.
    rewrite Nat.min_id, drop_0.
    rewrite (take_ge (read h (servers d))) by lia.
    rewrite take_app_length'; [done|]. by rewrite Hlen.
Qed.

(** C10. [GetAll] always returns a nil error, and the slice it returns is a
    fresh copy of the server list: it has the same elements, its backing
    array was not allocated before the call, and whatever a caller then does
    to it (element stores, appends, reslicing, in any number) the elements
    of the discovery's [servers] field stay what they were. *)
Theorem GetAll_returns_private_copy (h : Heap) (d : MultiServersDiscovery)
    (ms : list mutation) :
  (GetAll h d).2 = None
  ∧ (wf h (servers d) →
     let h1 := (GetAll h d).1.1 in
     let s := (GetAll h d).1.2 in
     read h1 s = read h (servers d)
     ∧ h !! arr s = None
     ∧ read h1 (servers d) = read h (servers d)
     ∧ ∀ h2 s2, mutates (h1, s) ms = Some (h2, s2) →
                read h2 (servers d) = read h (servers d)).
Proof.
  pose proof (GetAll_heap h d) as H.
  destruct (GetAll h d) as [[h1 s] err]. simpl.
  destruct H as (He & Hfresh & Hframe & Hcopy).
  split; [done|]. intros Hwf.
  destruct (decide (len (servers d) = 0)) as [Hz|Hnz].
  { split_and!; [by apply Hcopy|done| |].
    - unfold read. by rewrite Hz.
    - intros. unfold read. by rewrite Hz. }
  assert (Hsome : is_Some (h !! arr (servers d))).
  { destruct Hwf as [Hw1 Hw2]. unfold backing in Hw2.
    destruct (h !! arr (servers d)); [eauto|]. simpl in Hw2. lia. }
  assert (Hne : arr s ≠ arr (servers d)).
  { intros E. rewrite <- E, Hfresh in Hsome. by destruct Hsome. }
  split_and!; [by apply Hcopy|done| |].
  - apply read_frame, Hframe. done.
  - intros h2 s2 Hm.
    assert (Ha : apart (arr (servers d)) h (h1, s)).
    { split; simpl; [done|]. by apply Hframe. }
    destruct (mutates_apart _ _ _ _ _ Hsome Ha Hm) as [_ Heq].
    by apply read_frame.
Qed.

(** On the two-server discovery: a caller overwrites the first element of
    the returned slice and appends to it twice; the discovery still reads
    its two addresses. *)
Lemma GetAll_returns_private_copy_witness :
  wf twoServersHeap (servers twoServers)
  ∧ (GetAll twoServersHeap twoServers).2 = None
  ∧ read (GetAll twoServersHeap twoServers).1.1
         (GetAll twoServersHeap twoServers).1.2 = ["tcp@a:1"; "tcp@b:2"]
  ∧ ∀ h2 s2,
      mutates ((GetAll twoServersHeap twoServers).1.1,
               (GetAll twoServersHeap twoServers).1.2)
              [Store 0 "tcp@evil:6"; Append "x"; Append "y"] = Some (h2, s2) →
      read h2 (servers twoServers) = ["tcp@a:1"; "tcp@b:2"].
Proof.
  assert (Hwf : wf twoServersHeap (servers twoServers)).
  { split; vm_compute; lia. }
  destruct (GetAll_returns_private_copy twoServersHeap twoServers
              [Store 0 "tcp@evil:6"; Append "x"; Append "y"]) as [He H].
  destruct (H Hwf) as (Hcopy & _ & _ & Hmut).
  split_and!; [exact Hwf|exact He|exact Hcopy|].
  intros h2 s2 Hm. exact (Hmut h2 s2 Hm).
Defined.

(** The same run, evaluated: the caller's slice has changed, the
    discovery's has not. *)
Example GetAll_then_mutate :
  let h1 := (GetAll twoServersHeap twoServers).1.1 in
  let s := (GetAll twoServersHeap twoServers).1.2 in
  (st ← mutates (h1, s) [Store 0 "tcp@evil:6"; Append "x"; Append "y"];
   Some (read st.1 st.2, read st.1 (servers twoServers)))
  = Some (["tcp@evil:6"; "tcp@b:2"; "x"; "y"], ["tcp@a:1"; "tcp@b:2"]).
Proof. by vm_compute. Qed.

(** By contrast [Update] keeps the caller's array: a later store through
    the caller's slice shows in the discovery. *)
Example Update_shares_the_array :
  let d := (Update (make ∅ 2 2).2 twoServers).1 in
  (h ← store twoServersHeap (make ∅ 2 2).2 0 "tcp@evil:6";
   Some (read h (servers d)))
  = Some ["tcp@evil:6"; "tcp@b:2"].
Proof. by vm_compute. Qed.

(** C9. When the cache is stale and the HTTP GET to the registry fails with
    [e], [Refresh] returns [e] and leaves the heap and the discovery (its
    server list and its [lastUpdate]) as they were; [Get] and [GetAll]
    return that error without serving the cached list.  At any later
    instant the next [Refresh], [Get] or [GetAll] fetches from the registry
    again, whatever the network then answers. *)
Theorem Refresh_failure_keeps_cache_and_retries
    (httpGet : string → httpResult) (Intn : nat → nat) (now now' : Z)
    (h : Heap) (d : CenterRegistryDiscovery) (e : string) (mode : SelectMode) :
  (lastUpdate d + timeout d ≤ now)%Z →
  httpGet (registryAddr d) = HttpErr e →
  (now ≤ now')%Z →
  CRefresh httpGet now h d = (h, d, Some e, [registryAddr d])
  ∧ CGet httpGet Intn now h mode d
    = (h, d, [registryAddr d], Some ("", Some e))
  ∧ CGetAll httpGet now h d = (h, d, nilSlice, Some e, [registryAddr d])
  ∧ ∀ httpGet' : string → httpResult,
      (CRefresh httpGet' now' h d).2 = [registryAddr d]
      ∧ (CGet httpGet' Intn now' h mode d).1.2 = [registryAddr d]
      ∧ (CGetAll httpGet' now' h d).2 = [registryAddr d].
Proof.
  intros Hstale Herr Hlater.
  assert (HR : CRefresh httpGet now h d = (h, d, Some e, [registryAddr d])).
  { unfold CRefresh. rewrite bool_decide_eq_false_2 by lia. by rewrite Herr. }
  split_and!.
  - exact HR.
  - unfold CGet. by rewrite HR.
  - unfold CGetAll. by rewrite HR.
  - intros httpGet'.
    assert (HR' : (CRefresh httpGet' now' h d).2 = [registryAddr d]).
    { unfold CRefresh. rewrite bool_decide_eq_false_2 by lia.
      destruct (httpGet' (registryAddr d)) as [e'|hdr]; [done|].
      destruct (make _ _ _) as [h1 s0].
      by destruct (foldl _ _ _) as [h2 s]. }
    split_and!; [exact HR'| |].
    + unfold CGet. destruct (CRefresh httpGet' now' h d) as [[[h1 d1] err] f].
      simpl in HR'. subst f. destruct err; [done|].
      destruct (Get _ _ _ _) as [[[b s] err']|]; done.
    + unfold CGetAll. destruct (CRefresh httpGet' now' h d) as [[[h1 d1] err] f].
      simpl in HR'. subst f. destruct err; [done|].
      by destruct (GetAll _ _) as [[h2 s] err'].
Qed.

(** The stale cache of [cachedDiscovery] at instant 200 with the registry
    down, then a retry at 201. *)
Lemma Refresh_failure_keeps_cache_and_retries_witness :
  CRefresh netDown 200 twoServersHeap cachedDiscovery
  = (twoServersHeap, cachedDiscovery, Some "connection refused",
     ["http://reg/myRPC/registry"])
  ∧ (CGetAll netUp 201 twoServersHeap cachedDiscovery).2
    = ["http://reg/myRPC/registry"].
Proof.
  destruct (Refresh_failure_keeps_cache_and_retries netDown (λ n, 0) 200 201
              twoServersHeap cachedDiscovery "connection refused"
              RoundRobinSelect) as (H1 & _ & _ & H4).
  - vm_compute. discriminate.
  - reflexivity.
  - lia.
  - split; [exact H1|]. exact (proj2 (proj2 (H4 netUp))).
Defined.

(** Within the refresh period nothing is fetched; after a successful fetch
    the list is the trimmed, non-empty fields of the header. *)
Example Refresh_fresh_and_success :
  (CRefresh netDown 105 twoServersHeap cachedDiscovery).2 = []
  ∧ (let '(h1, d1, err, _) := CRefresh netUp 200 twoServersHeap cachedDiscovery in
     (read h1 (servers (base d1)), lastUpdate d1, err))
    = (["tcp@c:3"; "tcp@d:4"], 200%Z, None).
Proof. by vm_compute. Qed.

(** ** Selection *)

Lemma read_lookup_lt h s i :
  wf h s → i < len s → is_Some (read h s !! i).
Proof.
  intros Hwf Hi. apply lookup_lt_is_Some. by rewrite length_read_wf.
Qed.

(** X6. [Get] never panics on a well-formed list when the random source
    keeps its contract.  It fails, with an empty address and the discovery
    unchanged, exactly when the list is empty ("no available servers") or
    the mode is neither random nor round-robin; otherwise the address it
    returns is one of the list.  It never changes the list. *)
Theorem Get_returns_a_listed_server
    (Intn : nat → nat) (h : Heap) (mode : SelectMode)
    (d : MultiServersDiscovery) :
  wf h (servers d) → (∀ n, 0 < n → Intn n < n) →
  ∃ d' s err,
    Get Intn h mode d = Some (d', s, err)
    ∧ servers d' = servers d
    ∧ (err = None → s ∈ read h (servers d))
    ∧ (err ≠ None → s = "" ∧ d' = d)
    ∧ (len (servers d) = 0 → err = Some "rpc discovery: no available servers")
    ∧ (len (servers d) ≠ 0 →
       (err = None ↔ mode = RandomSelect ∨ mode = RoundRobinSelect)).
Proof.
  intros Hwf HI. unfold Get.
  destruct (decide (len (servers d) = 0)) as [Hz|Hnz].
  { exists d, "", (Some "rpc discovery: no available servers").
    split_and!; try done. }
  destruct mode as [| |m].
  - destruct (read_lookup_lt h (servers d) (Intn (len (servers d))) Hwf)
      as [s Hs]; [apply HI; lia|].
    exists d, s, None. rewrite Hs. simpl.
    split_and!; [done|done| | | |].
    + intros _. by eapply list_elem_of_lookup_2.
    + by intros H.
    + by intros H.
    + intros _. split; auto.
  - destruct (read_lookup_lt h (servers d) (index d `mod` len (servers d)) Hwf)
      as [s Hs]; [apply Nat.mod_upper_bound; lia|].
    eexists _, s, None. rewrite Hs. simpl.
    split_and!; [done|done| | | |].
    + intros _. by eapply list_elem_of_lookup_2.
    + by intros H.
    + by intros H.
    + intros _. split; auto.
  - exists d, "", (Some "rpc discovery: not supported select mode").
    split_and!; try done. intros _. split; [done|]. by intros [|].
Qed.

Lemma Get_returns_a_listed_server_witness :
  ∃ d' s,
    Get (λ _, 0) twoServersHeap RoundRobinSelect twoServers = Some (d', s, None)
    ∧ s ∈ read twoServersHeap (servers twoServers).
Proof.
  destruct (Get_returns_a_listed_server (λ _, 0) twoServersHeap
              RoundRobinSelect twoServers)
    as (d' & s & err & HG & _ & Hin & _ & _ & Hok).
  - split; vm_compute; lia.
  - intros n Hn. exact Hn.
  - assert (He : err = None) by (apply Hok; [by vm_compute|by right]).
    subst err. exists d', s. split; [exact HG|by apply Hin].
Defined.

(** Round robin, call after call. *)
Lemma GetMany_round_robin Intn k h d :
  wf h (servers d) → len (servers d) ≠ 0 →
  ∃ d' l,
    GetMany Intn k h RoundRobinSelect d = Some (d', l)
    ∧ servers d' = servers d
    ∧ length l = k
    ∧ ∀ j, j < k →
        l !! j = read h (servers d) !! ((index d + j) `mod` len (servers d)).
Proof.
  intros Hwf Hnz. revert d Hwf Hnz. induction k as [|k IH]; intros d Hwf Hnz.
  - exists d, []. split_and!; try done. intros j Hj. lia.
  - simpl. unfold Get at 1. rewrite decide_False by done.
    destruct (read_lookup_lt h (servers d) (index d `mod` len (servers d)) Hwf)
      as [s Hs]; [apply Nat.mod_upper_bound; lia|].
    rewrite Hs. simpl.
    set (d1 := {| servers := servers d;
                  index := (index d + 1) `mod` len (servers d) |}).
    destruct (IH d1 Hwf Hnz) as (d' & l & HG & Hsv & Hlen & Hl).
    rewrite HG. simpl. exists d', (s :: l).
    split_and!; try done; [simpl; lia|].
    intros [|j] Hj; simpl.
    + by rewrite Nat.add_0_r.
    + rewrite Hl by lia. simpl. f_equal.
      rewrite Nat.Div0.add_mod_idemp_l. f_equal. lia.
Qed.

(** X7. Round robin visits the servers in turn: the [j]-th of [k] calls in
    a row returns the server at position [(index + j) mod n] of the list of
    [n] servers, so [n] calls in a row return every position once. *)
Theorem round_robin_takes_turns
    (Intn : nat → nat) (k : nat) (h : Heap) (d : MultiServersDiscovery) :
  wf h (servers d) → len (servers d) ≠ 0 →
  ∃ d' l,
    GetMany Intn k h RoundRobinSelect d = Some (d', l)
    ∧ length l = k
    ∧ (∀ j, j < k →
         l !! j = read h (servers d) !! ((index d + j) `mod` len (servers d)))
    ∧ (k = len (servers d) → l ≡ₚ read h (servers d)).
Proof.
  intros Hwf Hnz.
  destruct (GetMany_round_robin Intn k h d Hwf Hnz) as (d' & l & HG & _ & Hlen & Hl).
  exists d', l. split_and!; try done.
  intros ->. set (n := len (servers d)) in *. set (xs := read h (servers d)) in *.
  assert (Hxs : length xs = n) by by apply length_read_wf.
  assert (Hrot : l = rotate (index d `mod` n) xs).
  { apply list_eq. intros j. destruct (decide (j < n)) as [Hj|Hj].
    - rewrite Hl by done. rewrite lookup_rotate_r by lia.
      unfold rotate_nat_add. rewrite Hxs. f_equal.
      rewrite Z2Nat.inj_mod, !Nat2Z.id by lia. rewrite Z2Nat.inj_add by lia.
      rewrite !Nat2Z.id. rewrite Nat.Div0.add_mod_idemp_l. done.
    - rewrite !lookup_ge_None_2; [done| |lia]. rewrite length_rotate. lia. }
  rewrite Hrot. unfold rotate. by rewrite <- Permutation_app_comm, take_drop.
Qed.

Lemma round_robin_takes_turns_witness :
  ∃ d', GetMany (λ _, 0) 3 twoServersHeap RoundRobinSelect twoServers
        = Some (d', ["tcp@b:2"; "tcp@a:1"; "tcp@b:2"]).
Proof.
  destruct (round_robin_takes_turns (λ _, 0) 3 twoServersHeap twoServers)
    as (d' & l & HG & Hlen & Hl & _).
  - split; vm_compute; lia.
  - by vm_compute.
  - exists d'. rewrite HG. do 2 f_equal.
    destruct l as [|a [|b [|c [|? ?]]]]; try done.
    pose proof (Hl 0 ltac:(lia)) as H0. pose proof (Hl 1 ltac:(lia)) as H1.
    pose proof (Hl 2 ltac:(lia)) as H2. vm_compute in H0, H1, H2. congruence.
Defined.

(** ** Updating and refreshing *)

Lemma store_read h s i v h' :
  wf h s → store h s i v = Some h' →
  read h' s = <[i := v]> (read h s) ∧ wf h' s.
Proof.
  intros [Hw1 Hw2] Hst. unfold store in Hst. case_decide as Hi; [|done].
  injection Hst as <-. unfold read, wf, backing in *.
  rewrite lookup_alter_eq.
  destruct (h !! arr s) as [a|] eqn:Ea; simpl in *; [|lia].
  split.
  - rewrite drop_insert_ge by lia. rewrite take_insert_lt by lia.
    f_equal. lia.
  - rewrite length_insert. done.
Qed.

(** X8. [Update] does not copy: the discovery reads its servers through the
    caller's backing array, so a store the caller makes later through its
    own slice shows in the discovery's list and in what [GetAll] then
    returns. *)
Theorem Update_shares_the_callers_array
    (h h' : Heap) (s : Slice) (d : MultiServersDiscovery) (i : nat) (v : string) :
  wf h s → store h s i v = Some h' →
  let d1 := (Update s d).1 in
  (Update s d).2 = None
  ∧ index d1 = index d
  ∧ read h (servers d1) = read h s
  ∧ read h' (servers d1) = <[i := v]> (read h s)
  ∧ read (GetAll h' d1).1.1 (GetAll h' d1).1.2 = <[i := v]> (read h s).
Proof.
  intros Hwf Hst d1. destruct (store_read h s i v h' Hwf Hst) as [Hr Hwf'].
  split_and!; try done.
  pose proof (GetAll_heap h' d1) as HG.
  destruct (GetAll h' d1) as [[h2 s2] e]. simpl.
  destruct HG as (_ & _ & _ & Hcopy). by rewrite Hcopy.
Qed.

Lemma Update_shares_the_callers_array_witness :
  ∃ h', store twoServersHeap (servers twoServers) 0 "tcp@evil:6" = Some h'
        ∧ read h' (servers (Update (servers twoServers) twoServers).1)
          = ["tcp@evil:6"; "tcp@b:2"].
Proof.
  destruct (store twoServersHeap (servers twoServers) 0 "tcp@evil:6")
    as [h'|] eqn:E; [|by vm_compute in E].
  exists h'. split; [done|].
  destruct (Update_shares_the_callers_array twoServersHeap h'
              (servers twoServers) twoServers 0 "tcp@evil:6")
    as (_ & _ & _ & H & _); [split; vm_compute; lia|exact E|].
  rewrite H. by vm_compute.
Defined.

(** The servers kept from the fields of the header. *)
Lemma appendTrimmed_step h s f :
  appendTrimmed (h, s) f
  = if decide (GoString.TrimSpace f = "") then (h, s)
    else append h s (GoString.TrimSpace f).
Proof.
  unfold appendTrimmed. simpl. destruct (decide _) as [Hf|Hf].
  - by rewrite bool_decide_eq_false_2 by (intros H; done).
  - by rewrite bool_decide_eq_true_2.
Qed.

Lemma appendTrimmed_fold fields : ∀ (h : Heap) s pre c l,
  arr s = l → off s = 0 → cap s = c → len s = length pre →
  h !! l = Some (pre ++ replicate (c - length pre) "") →
  length pre + length fields ≤ c →
  arr (foldl appendTrimmed (h, s) fields).2 = l
  ∧ off (foldl appendTrimmed (h, s) fields).2 = 0
  ∧ cap (foldl appendTrimmed (h, s) fields).2 = c
  ∧ len (foldl appendTrimmed (h, s) fields).2
    = length (pre ++ filter (λ x, x ≠ "") (GoString.TrimSpace <$> fields))
  ∧ (foldl appendTrimmed (h, s) fields).1 !! l
    = Some ((pre ++ filter (λ x, x ≠ "") (GoString.TrimSpace <$> fields))
            ++ replicate
                 (c - length (pre ++ filter (λ x, x ≠ "")
                                       (GoString.TrimSpace <$> fields))) "")
  ∧ ∀ l', l' ≠ l → (foldl appendTrimmed (h, s) fields).1 !! l' = h !! l'.
Proof.
  induction fields as [|f fields IH]; intros h s pre c l Ha Ho Hc Hl Hh Hlen.
  - simpl. rewrite app_nil_r. split_and!; done.
  - rewrite fmap_cons. cbn [foldl]. rewrite appendTrimmed_step.
    simpl in Hlen.
    destruct (decide (GoString.TrimSpace f = "")) as [Hf|Hf].
    + rewrite filter_cons_False by (intros H; done).
      apply IH; try done. lia.
    + rewrite filter_cons_True by done.
      unfold append. rewrite decide_True by lia.
      set (t := GoString.TrimSpace f).
      set (h1 := alter (λ a, <[off s + len s := t]> a) (arr s) h).
      set (s1 := {| arr := arr s; off := off s; len := S (len s); cap := cap s |}).
      assert (Hh1 : h1 !! l
                    = Some ((pre ++ [t]) ++ replicate (c - length (pre ++ [t])) "")).
      { unfold h1. rewrite Ha, lookup_alter_eq, Hh. simpl. f_equal.
        rewrite Ho, Hl. simpl. rewrite insert_app_r_alt by lia.
        rewrite Nat.sub_diag, length_app. simpl.
        replace (c - length pre) with (S (c - (length pre + 1))) by lia.
        simpl. by rewrite <- app_assoc. }
      destruct (IH h1 s1 (pre ++ [t]) c l) as (H1 & H2 & H3 & H4 & H5 & H6);
        try done.
      * simpl. rewrite length_app. simpl. lia.
      * rewrite length_app. simpl. lia.
      * assert (E : ∀ K, (pre ++ [t]) ++ K = pre ++ t :: K)
          by (intros K; by rewrite <- app_assoc).
        rewrite !E in H4, H5.
        split_and!; try done.
        intros l' Hne. rewrite H6 by done. unfold h1. rewrite Ha.
        by rewrite lookup_alter_ne.
Qed.

Lemma CGetAll_fresh httpGet now h d :
  (now < lastUpdate d + timeout d)%Z →
  CGetAll httpGet now h d
  = let '(h2, s, e) := GetAll h (base d) in (h2, d, s, e, []).
Proof.
  intros H. unfold CGetAll, CRefresh. by rewrite bool_decide_eq_true_2.
Qed.

(** A stale cache and a registry that answers. *)
Lemma CRefresh_parses (httpGet : string → httpResult) (now : Z) (h : Heap)
    (d : CenterRegistryDiscovery) (hdr : string) :
  (lastUpdate d + timeout d ≤ now)%Z →
  httpGet (registryAddr d) = HttpOk hdr →
  ∃ h2 s2,
    CRefresh httpGet now h d
    = (h2, {| base := {| servers := s2; index := index (base d) |};
              registryAddr := registryAddr d; timeout := timeout d;
              lastUpdate := now |}, None, [registryAddr d])
    ∧ read h2 s2 = filter (λ x, x ≠ "")
                     (GoString.TrimSpace <$> GoString.Split hdr ","%char)
    ∧ wf h2 s2
    ∧ ∀ l, is_Some (h !! l) → h2 !! l = h !! l.
Proof.
  intros Hstale Hok.
  unfold CRefresh. rewrite bool_decide_eq_false_2 by lia. rewrite Hok.
  unfold make. set (fields := GoString.Split hdr ","%char).
  set (l := fresh (dom h)).
  assert (Hl : h !! l = None) by (apply not_elem_of_dom, is_fresh).
  pose proof (appendTrimmed_fold fields
                (<[l := replicate (length fields) ""]> h)
                {| arr := l; off := 0; len := 0; cap := length fields |}
                [] (length fields) l eq_refl eq_refl eq_refl eq_refl) as HF.
  simpl in HF. rewrite lookup_insert_eq, Nat.sub_0_r in HF.
  specialize (HF eq_refl (le_n _)).
  destruct (foldl appendTrimmed _ fields) as [hf sf]. simpl in HF.
  destruct HF as (Ha & Ho & Hc & Hlen & Hb & Hframe).
  exists hf, sf. split_and!; [done| | |].
  - unfold read, backing. rewrite Ha, Hb, Ho, Hlen. cbv [default from_option id].
    cbn [drop]. apply take_app_length.
  - unfold wf, backing. rewrite Ha, Hb, Ho, Hc, Hlen. cbv [default from_option id].
    rewrite length_app, length_replicate.
    assert (length (filter (λ x, x ≠ "") (GoString.TrimSpace <$> fields))
            ≤ length fields).
    { etrans; [apply length_filter|]. by rewrite length_fmap. }
    lia.
  - intros l' [x Hx]. rewrite Hframe by congruence.
    rewrite lookup_insert_ne; [done|congruence].
Qed.

(** X9. When the cache is stale and the registry answers, [Refresh] returns
    nil and the discovery then lists the fields of the X-Myrpc-Servers
    header, split at the commas, trimmed, the empty ones dropped, in a new
    array (what the heap held before is untouched); [lastUpdate] is the
    instant of the refresh.  Until the refresh period has gone by again,
    [GetAll] returns a copy of that list without fetching anything,
    whatever the network then does. *)
Theorem Refresh_success_replaces_the_list
    (httpGet httpGet' : string → httpResult) (now now' : Z) (h : Heap)
    (d : CenterRegistryDiscovery) (hdr : string) :
  (lastUpdate d + timeout d ≤ now)%Z →
  httpGet (registryAddr d) = HttpOk hdr →
  (now ≤ now' < now + timeout d)%Z →
  let h2 := (CRefresh httpGet now h d).1.1.1 in
  let d2 := (CRefresh httpGet now h d).1.1.2 in
  let parsed := filter (λ x, x ≠ "")
                  (GoString.TrimSpace <$> GoString.Split hdr ","%char) in
  (CRefresh httpGet now h d).1.2 = None
  ∧ (CRefresh httpGet now h d).2 = [registryAddr d]
  ∧ read h2 (servers (base d2)) = parsed
  ∧ wf h2 (servers (base d2))
  ∧ lastUpdate d2 = now ∧ timeout d2 = timeout d
  ∧ registryAddr d2 = registryAddr d ∧ index (base d2) = index (base d)
  ∧ (∀ l, is_Some (h !! l) → h2 !! l = h !! l)
  ∧ (CGetAll httpGet' now' h2 d2).2 = []
  ∧ (CGetAll httpGet' now' h2 d2).1.2 = None
  ∧ read (CGetAll httpGet' now' h2 d2).1.1.1.1 (CGetAll httpGet' now' h2 d2).1.1.2
    = parsed.
Proof.
  intros Hstale Hok Hwin h2 d2 parsed. unfold h2, d2.
  destruct (CRefresh_parses httpGet now h d hdr Hstale Hok)
    as (hf & sf & -> & Hread & Hwf & Hframe).
  cbn [fst snd].
  set (dd := {| base := {| servers := sf; index := index (base d) |};
                registryAddr := registryAddr d; timeout := timeout d;
                lastUpdate := now |}).
  assert (Hfresh : (now' < lastUpdate dd + timeout dd)%Z) by (simpl; lia).
  rewrite (CGetAll_fresh httpGet' now' hf dd Hfresh).
  pose proof (GetAll_heap hf (base dd)) as HG.
  destruct (GetAll hf (base dd)) as [[hg sg] eg].
  destruct HG as (-> & _ & _ & Hcopy). cbn [fst snd].
  split_and!; try done.
  rewrite Hcopy by done. done.
Qed.

Lemma Refresh_success_replaces_the_list_witness :
  read (CRefresh netUp 200 twoServersHeap cachedDiscovery).1.1.1
       (servers (base (CRefresh netUp 200 twoServersHeap cachedDiscovery).1.1.2))
  = ["tcp@c:3"; "tcp@d:4"]
  ∧ (CGetAll netDown 205 (CRefresh netUp 200 twoServersHeap cachedDiscovery).1.1.1
       (CRefresh netUp 200 twoServersHeap cachedDiscovery).1.1.2).2 = [].
Proof.
  destruct (Refresh_success_replaces_the_list netUp netDown 200 205
              twoServersHeap cachedDiscovery "tcp@c:3, tcp@d:4,,")
    as (_ & _ & H1 & _ & _ & _ & _ & _ & _ & H2 & _);
    [by vm_compute|done|by vm_compute|].
  split; [|exact H2]. rewrite H1. by vm_compute.
Defined.

End DiscoverySpec.
(* ===================================================================== *)
(** * Client core: sequence numbers, termination, completion signals *)
(* ===================================================================== *)

Module ClientSpec.
Import ClientCore.

(** ** How the primitives move [writes] *)

Lemma writes_withClient st cl c : writes (withClient st cl) c = writes st c.
Proof. done. Qed.

Lemma writes_updCall f c st c' :
  (∀ call, Done (f call) = Done call) →
  writes (updCall f c st) c' = writes st c'.
Proof.
  intros Hf. unfold writes, updCall. simpl.
  destruct (decide (c = c')) as [->|Hne].
  - rewrite lookup_alter_eq. destruct (calls st !! c') as [call|]; simpl; [|done].
    by rewrite Hf.
  - by rewrite lookup_alter_ne.
Qed.

Lemma writes_setError c e st c' : writes (setError c e st) c' = writes st c'.
Proof. by apply writes_updCall. Qed.

Lemma writes_setSeq c s st c' : writes (setSeq c s st) c' = writes st c'.
Proof. by apply writes_updCall. Qed.

Lemma writes_setReply c b st c' : writes (setReply c b st) c' = writes st c'.
Proof. by apply writes_updCall. Qed.

Lemma writes_done_ne c st c' : c' ≠ c → writes (done c st) c' = writes st c'.
Proof.
  intros Hne. unfold done. destruct (calls st !! c) as [call|] eqn:Hc; [|done].
  unfold writes. simpl. destruct (calls st !! c') as [call'|]; [|done].
  destruct (decide (Done call = Done call')) as [E|E].
  - rewrite E, lookup_alter_eq. destruct (chans st !! Done call'); simpl; [|done].
    rewrite filter_app, length_app. simpl.
    rewrite filter_cons_False by congruence. simpl. lia.
  - by rewrite lookup_alter_ne.
Qed.

Lemma writes_done_eq c st call :
  calls st !! c = Some call → is_Some (chans st !! Done call) →
  writes (done c st) c = S (writes st c).
Proof.
  intros Hc [ch Hch]. unfold done, writes. rewrite Hc. simpl. rewrite Hc.
  rewrite lookup_alter_eq, Hch. simpl.
  rewrite filter_app, length_app. simpl.
  rewrite filter_cons_True by done. simpl. lia.
Qed.

Lemma calls_done c st : calls (done c st) = calls st.
Proof. unfold done. by destruct (calls st !! c). Qed.

Lemma client_done c st : client (done c st) = client st.
Proof. unfold done. by destruct (calls st !! c). Qed.

(** ** Well-formedness is kept by the primitives *)

Lemma is_Some_alter {A} (f : A → A) (m : gmap nat A) i k :
  is_Some (alter f i m !! k) ↔ is_Some (m !! k).
Proof.
  destruct (decide (i = k)) as [->|Hne].
  - rewrite lookup_alter_eq. by rewrite fmap_is_Some.
  - by rewrite lookup_alter_ne.
Qed.

Lemma wf_withClient st cl :
  wfState st → pending cl = pending (client st) → wfState (withClient st cl).
Proof.
  intros [H1 H2 H3 H4] Hp. split; simpl; rewrite ?Hp; eauto.
Qed.

Lemma wf_updCall f c st :
  (∀ call, Done (f call) = Done call) → wfState st → wfState (updCall f c st).
Proof.
  intros Hf [H1 H2 H3 H4]. split; simpl.
  - intros s c' Hs. apply is_Some_alter. eauto.
  - eauto.
  - intros ch chan c' Hch Hin. apply is_Some_alter. eauto.
  - intros c' call' Hc'. destruct (decide (c = c')) as [->|Hne].
    + rewrite lookup_alter_eq in Hc'.
      destruct (calls st !! c') as [call|] eqn:E; [|done].
      simpl in Hc'. injection Hc' as <-. rewrite Hf. eauto.
    + rewrite lookup_alter_ne in Hc' by done. eauto.
Qed.

Lemma wf_done c st : wfState st → wfState (done c st).
Proof.
  intros [H1 H2 H3 H4]. unfold done.
  destruct (calls st !! c) as [call|] eqn:Hc; [|by split].
  split; simpl.
  - eauto.
  - eauto.
  - intros ch chan c' Hch Hin.
    destruct (decide (Done call = ch)) as [<-|Hne].
    + rewrite lookup_alter_eq in Hch.
      destruct (chans st !! Done call) as [chan0|] eqn:E; [|done].
      simpl in Hch. injection Hch as <-. simpl in Hin.
      apply elem_of_app in Hin as [Hin|Hin]; [eauto|].
      apply list_elem_of_singleton in Hin as ->. eauto.
    + rewrite lookup_alter_ne in Hch by done. eauto.
  - intros c' call' Hc'. apply is_Some_alter. eauto.
Qed.

Lemma wf_removeCall s st : wfState st → wfState (removeCall s st).1.
Proof.
  intros [H1 H2 H3 H4]. split; simpl; eauto.
  - intros s' c Hs. apply lookup_delete_Some in Hs as [_ Hs]. eauto.
  - intros s1 s2 c Hs1 Hs2. apply lookup_delete_Some in Hs1 as [_ Hs1].
    apply lookup_delete_Some in Hs2 as [_ Hs2]. eauto.
Qed.

Lemma removeCall_found s st :
  (removeCall s st).2 = pending (client st) !! s.
Proof. done. Qed.

(** The channel [Go] settles on exists, and nothing else has changed. *)
Lemma resolveDone_spec d st st' ch :
  resolveDone d st = Some (st', ch) → wfState st →
  wfState st' ∧ is_Some (chans st' !! ch) ∧ calls st' = calls st
  ∧ client st' = client st ∧ ∀ c, writes st' c = writes st c.
Proof.
  intros Hr Hwf. pose proof Hwf as [H1 H2 H3 H4].
  assert (Hfresh : ∀ cap,
    let ch' := fresh (dom (chans st)) in
    let st1 := {| calls := calls st;
                  chans := <[ch' := {| capacity := cap; sent := [] |}]> (chans st);
                  client := client st |} in
    wfState st1 ∧ is_Some (chans st1 !! ch') ∧ calls st1 = calls st
    ∧ client st1 = client st ∧ ∀ c, writes st1 c = writes st c).
  { intros cap ch' st1.
    assert (Hn : chans st !! ch' = None) by (apply not_elem_of_dom, is_fresh).
    split_and!; try done.
    - split; simpl; eauto.
      + intros ch0 chan c Hch Hin.
        destruct (decide (ch' = ch0)) as [<-|Hne].
        * rewrite lookup_insert_eq in Hch. injection Hch as <-.
          by apply elem_of_nil in Hin.
        * rewrite lookup_insert_ne in Hch by done. eauto.
      + intros c call Hc. destruct (H4 c call Hc) as [chan Hchan].
        rewrite lookup_insert_ne; [eauto|]. intros E. congruence.
    - simpl. rewrite lookup_insert_eq. eauto.
    - intros c. unfold writes. simpl.
      destruct (calls st !! c) as [call|] eqn:Hc; [|done].
      destruct (H4 c call Hc) as [chan Hchan].
      rewrite lookup_insert_ne; [done|]. intros E. congruence. }
  destruct d as [|cap|ch0]; simpl in Hr.
  - injection Hr as <- <-. apply Hfresh.
  - case_decide; [done|]. injection Hr as <- <-. apply Hfresh.
  - destruct (chans st !! ch0) as [chan|] eqn:E; [|done].
    case_decide; [done|]. injection Hr as <- <-.
    split_and!; eauto.
Qed.

(** The new call is at an address not in use and has not been signalled. *)
Lemma newCall_spec sm args ch st :
  is_Some (chans st !! ch) → wfState st →
  let st' := (newCall sm args ch st).1 in
  let c := (newCall sm args ch st).2 in
  wfState st' ∧ calls st !! c = None
  ∧ calls st' !! c = Some {| Seq := 0; ServiceMethod := sm; Args := args;
                             Reply := ""; Error := None; Done := ch |}
  ∧ writes st' c = 0 ∧ (∀ c', c' ≠ c → writes st' c' = writes st c')
  ∧ (∀ c', c' ≠ c → calls st' !! c' = calls st !! c')
  ∧ client st' = client st ∧ chans st' = chans st.
Proof.
  intros [chan Hch] [H1 H2 H3 H4]. unfold newCall. simpl.
  set (c := fresh (dom (calls st))).
  assert (Hn : calls st !! c = None) by (apply not_elem_of_dom, is_fresh).
  split_and!; try done.
  - split; simpl; eauto.
    + intros s c' Hs. destruct (decide (c = c')) as [<-|Hne].
      * rewrite lookup_insert_eq. eauto.
      * rewrite lookup_insert_ne by done. eauto.
    + intros ch0 chan0 c' Hc0 Hin. destruct (decide (c = c')) as [<-|Hne].
      * rewrite lookup_insert_eq. eauto.
      * rewrite lookup_insert_ne by done. eauto.
    + intros c' call' Hc'. destruct (decide (c = c')) as [<-|Hne].
      * rewrite lookup_insert_eq in Hc'. injection Hc' as <-. simpl. eauto.
      * rewrite lookup_insert_ne in Hc' by done. eauto.
  - by rewrite lookup_insert_eq.
  - unfold writes. simpl. rewrite lookup_insert_eq. simpl. rewrite Hch.
    destruct (filter (λ x, x = c) (sent chan)) as [|x l] eqn:E; [done|].
    assert (Hx : x ∈ filter (λ x, x = c) (sent chan)) by (rewrite E; left).
    apply list_elem_of_filter in Hx as [-> Hx].
    destruct (H3 ch chan c Hch Hx) as [? ?]. congruence.
  - intros c' Hne. unfold writes. simpl. by rewrite lookup_insert_ne.
  - intros c' Hne. by rewrite lookup_insert_ne.
Qed.

(** ** The loop of [terminateCalls] *)

Section TerminateLoop.
Variable err : string.

Lemma terminateOne_wf st e : wfState st → wfState (terminateOne err st e).
Proof. intros H. apply wf_done. by apply wf_updCall. Qed.

Lemma terminateOne_client st e : client (terminateOne err st e) = client st.
Proof. unfold terminateOne. by rewrite client_done. Qed.

Lemma terminateOne_alloc st e c :
  is_Some (calls (terminateOne err st e) !! c) ↔ is_Some (calls st !! c).
Proof.
  unfold terminateOne. rewrite calls_done. unfold setError, updCall. simpl.
  apply is_Some_alter.
Qed.

Lemma terminateOne_writes_ne st e c :
  c ≠ e.2 → writes (terminateOne err st e) c = writes st c.
Proof.
  intros Hne. unfold terminateOne. rewrite writes_done_ne by done.
  apply writes_setError.
Qed.

Lemma terminateOne_writes_eq st e :
  wfState st → is_Some (calls st !! e.2) →
  writes (terminateOne err st e) e.2 = S (writes st e.2).
Proof.
  intros Hwf [call Hc]. unfold terminateOne.
  assert (Hwf' : wfState (setError e.2 (Some err) st)) by by apply wf_updCall.
  assert (Hc' : is_Some (calls (setError e.2 (Some err) st) !! e.2)).
  { unfold setError, updCall. simpl. apply is_Some_alter. eauto. }
  destruct Hc' as [call' Hc'].
  rewrite (writes_done_eq _ _ call' Hc').
  - by rewrite writes_setError.
  - by apply (wf_done_chan _ Hwf' e.2).
Qed.

Lemma terminateOne_error_set st e :
  is_Some (calls st !! e.2) →
  callError (terminateOne err st e) e.2 = Some (Some err).
Proof.
  intros [call Hc]. unfold callError, terminateOne. rewrite calls_done.
  unfold setError, updCall. simpl. rewrite lookup_alter_eq, Hc. done.
Qed.

Lemma terminateOne_error_kept st e c :
  callError st c = Some (Some err) →
  callError (terminateOne err st e) c = Some (Some err).
Proof.
  unfold callError, terminateOne. rewrite calls_done.
  unfold setError, updCall. simpl. intros H.
  destruct (decide (e.2 = c)) as [->|Hne].
  - rewrite lookup_alter_eq. by destruct (calls st !! c).
  - by rewrite lookup_alter_ne.
Qed.

Lemma loop_wf entries st :
  wfState st → wfState (foldl (terminateOne err) st entries).
Proof.
  revert st. induction entries as [|e entries IH]; intros st H; simpl; [done|].
  by apply IH, terminateOne_wf.
Qed.

Lemma loop_client entries st :
  client (foldl (terminateOne err) st entries) = client st.
Proof.
  revert st. induction entries as [|e entries IH]; intros st; simpl; [done|].
  by rewrite IH, terminateOne_client.
Qed.

Lemma loop_alloc entries st c :
  is_Some (calls (foldl (terminateOne err) st entries) !! c)
  ↔ is_Some (calls st !! c).
Proof.
  revert st. induction entries as [|e entries IH]; intros st; simpl; [done|].
  by rewrite IH, terminateOne_alloc.
Qed.

Lemma loop_writes_other entries st c :
  c ∉ entries.*2 → writes (foldl (terminateOne err) st entries) c = writes st c.
Proof.
  revert st. induction entries as [|e entries IH]; intros st Hn; simpl; [done|].
  simpl in Hn. apply not_elem_of_cons in Hn as [Hne Hn].
  rewrite IH by done. by apply terminateOne_writes_ne.
Qed.

Lemma loop_writes_visited entries st c :
  wfState st → NoDup entries.*2 → c ∈ entries.*2 → is_Some (calls st !! c) →
  writes (foldl (terminateOne err) st entries) c = S (writes st c).
Proof.
  revert st. induction entries as [|e entries IH]; intros st Hwf Hnd Hin Hc; simpl.
  - by apply elem_of_nil in Hin.
  - simpl in Hnd, Hin. apply NoDup_cons in Hnd as [Hne Hnd].
    apply elem_of_cons in Hin as [->|Hin].
    + rewrite loop_writes_other by done. by apply terminateOne_writes_eq.
    + rewrite IH; try done.
      * f_equal. apply terminateOne_writes_ne. intros ->. done.
      * by apply terminateOne_wf.
      * by apply terminateOne_alloc.
Qed.

Lemma loop_error entries st c :
  c ∈ entries.*2 → is_Some (calls st !! c) →
  callError (foldl (terminateOne err) st entries) c = Some (Some err).
Proof.
  assert (Hkept : ∀ l st0, callError st0 c = Some (Some err) →
            callError (foldl (terminateOne err) st0 l) c = Some (Some err)).
  { induction l as [|e l IH]; intros st0 H; simpl; [done|].
    by apply IH, terminateOne_error_kept. }
  revert st. induction entries as [|e entries IH]; intros st Hin Hc; simpl.
  - by apply elem_of_nil in Hin.
  - simpl in Hin. apply elem_of_cons in Hin as [->|Hin].
    + by apply Hkept, terminateOne_error_set.
    + apply IH; [done|]. by apply terminateOne_alloc.
Qed.

End TerminateLoop.

(** The calls of a well-formed pending table are pairwise distinct. *)
Lemma pending_NoDup st :
  wfState st → NoDup (map_to_list (pending (client st))).*2.
Proof.
  intros Hwf. apply NoDup_fmap_2_strong; [|apply NoDup_map_to_list].
  intros [s1 c1] [s2 c2] H1 H2 E. simpl in E. subst c2.
  apply elem_of_map_to_list in H1, H2. f_equal.
  by apply (wf_pending_inj _ Hwf s1 s2 c1).
Qed.

(** ** Registration and completion *)

Lemma wf_insert_pending st cl' s c :
  wfState st → is_Some (calls st !! c) →
  (∀ s', pending (client st) !! s' ≠ Some c) →
  pending cl' = <[s := c]> (pending (client st)) →
  wfState (withClient st cl').
Proof.
  intros [H1 H2 H3 H4] Hc Hfresh Hp. split; simpl; rewrite ?Hp; eauto.
  - intros s' c' Hs. destruct (decide (s = s')) as [<-|Hne].
    + rewrite lookup_insert_eq in Hs. by injection Hs as <-.
    + rewrite lookup_insert_ne in Hs by done. eauto.
  - intros s1 s2 c' Hs1 Hs2.
    destruct (decide (s = s1)) as [<-|Hne1]; destruct (decide (s = s2)) as [<-|Hne2];
      try done.
    + rewrite lookup_insert_eq in Hs1. injection Hs1 as <-.
      rewrite lookup_insert_ne in Hs2 by done. by destruct (Hfresh s2).
    + rewrite lookup_insert_eq in Hs2. injection Hs2 as <-.
      rewrite lookup_insert_ne in Hs1 by done. by destruct (Hfresh s1).
    + rewrite lookup_insert_ne in Hs1, Hs2 by done. eauto.
Qed.

(** A call taken out of [pending], given its result and signalled: one more
    write on its channel, none on any other. *)
Lemma complete_spec g s c st :
  (∀ call, Done (g call) = Done call) → wfState st →
  pending (client st) !! s = Some c →
  let st' := done c (updCall g c (removeCall s st).1) in
  wfState st'
  ∧ writes st' c = S (writes st c)
  ∧ (∀ c', c' ≠ c → writes st' c' = writes st c')
  ∧ client st' = client (removeCall s st).1
  ∧ ∀ s' c', pending (client st') !! s' = Some c' →
             c' ≠ c ∧ pending (client st) !! s' = Some c'.
Proof.
  intros Hg Hwf Hs st'.
  assert (Hwf1 : wfState (updCall g c (removeCall s st).1)).
  { by apply wf_updCall, wf_removeCall. }
  assert (Hc : is_Some (calls (updCall g c (removeCall s st).1) !! c)).
  { unfold updCall. simpl. apply is_Some_alter.
    by apply (wf_pending_alloc _ Hwf s). }
  destruct Hc as [call Hc].
  split_and!.
  - by apply wf_done.
  - unfold st'. rewrite (writes_done_eq _ _ call Hc).
    + by rewrite writes_updCall.
    + by apply (wf_done_chan _ Hwf1 c).
  - intros c' Hne. unfold st'. rewrite writes_done_ne by done.
    by rewrite writes_updCall.
  - unfold st'. by rewrite client_done.
  - intros s' c' Hs'. unfold st' in Hs'. rewrite client_done in Hs'.
    simpl in Hs'. apply lookup_delete_Some in Hs' as [Hne Hs'].
    split; [|done]. intros ->. apply Hne.
    by apply (wf_pending_inj _ Hwf s s' c).
Qed.

Lemma wrap64_succ z : wrap64 (wrap64 z + 1) = wrap64 (z + 1).
Proof. unfold wrap64. by rewrite Zplus_mod_idemp_l. Qed.

(** ** The invariant holds at the start and is kept by every step *)

#[local] Arguments newCall : simpl never.
#[local] Arguments registerCall : simpl never.
#[local] Arguments resolveDone : simpl never.
#[local] Arguments done : simpl never.
#[local] Arguments setError : simpl never.
#[local] Arguments setSeq : simpl never.
#[local] Arguments setReply : simpl never.
#[local] Arguments setHeader : simpl never.
#[local] Arguments afterWrite : simpl never.
#[local] Arguments receiveFrame : simpl never.
#[local] Arguments terminateCalls : simpl never.
#[local] Arguments removeCall : simpl never.
#[local] Arguments Close : simpl never.

Lemma inv_newSystem userChans : inv (newSystem userChans).
Proof.
  split; simpl.
  - split; simpl.
    + intros s c Hs. by rewrite lookup_empty in Hs.
    + intros s1 s2 c Hs. by rewrite lookup_empty in Hs.
    + intros ch chan c Hch Hin. rewrite lookup_fmap in Hch.
      destruct (userChans !! ch); simpl in Hch; [|done].
      injection Hch as <-. by apply elem_of_nil in Hin.
    + intros c call Hc. by rewrite lookup_empty in Hc.
  - intros c. unfold writes. simpl. rewrite lookup_empty. lia.
  - intros _ s c Hs. by rewrite lookup_empty in Hs.
  - done.
  - done.
  - intros i s Hi. by rewrite lookup_nil in Hi.
Qed.

Lemma inv_GoRegister sys sm args d sys' :
  inv sys → step sys (GoRegister sm args d) = Some sys' → inv sys'.
Proof.
  intros [Hwf Honce Hpend Hex Hseq Hasg] Hstep. unfold step in Hstep.
  destruct (sending sys) as [?|] eqn:Hsend; [done|].
  destruct (resolveDone d (state sys)) as [[st0 ch]|] eqn:Hr; [|done].
  unfold mbind, option_bind in Hstep. cbv beta iota in Hstep.
  destruct (resolveDone_spec _ _ _ _ Hr Hwf) as (Hwf0 & Hch & Hcalls0 & Hcl0 & Hw0).
  pose proof (newCall_spec sm args ch st0 Hch Hwf0) as Hn.
  destruct (newCall sm args ch st0) as [st1 c]. simpl in Hn.
  destruct Hn as (Hwf1 & Hfresh & Hc1 & Hwc & Hwo & Hco & Hcl1 & Hch1).
  assert (Hnotpending : ∀ s', pending (client st1) !! s' ≠ Some c).
  { intros s' Hs'. rewrite Hcl1 in Hs'.
    destruct (wf_pending_alloc _ Hwf0 s' c Hs') as [? ?]. congruence. }
  assert (Hother : ∀ c', c' ≠ c → writes st1 c' = writes (state sys) c').
  { intros c' Hne. by rewrite Hwo, Hw0. }
  assert (Hle : ∀ c', writes st1 c' ≤ 1).
  { intros c'. destruct (decide (c' = c)) as [->|Hne]; [lia|].
    rewrite Hother by done. apply Honce. }
  unfold registerCall in Hstep.
  destruct (isShutdown (client st1) || isClosed (client st1)) eqn:Hflags.
  - (* rejected: the call carries the shutdown error and is signalled *)
    cbv beta iota zeta in Hstep. injection Hstep as <-.
    assert (Hwf2 : wfState (setError c (Some ErrShutdown) st1)) by by apply wf_updCall.
    assert (Hc2 : is_Some (calls (setError c (Some ErrShutdown) st1) !! c)).
    { unfold setError, updCall. simpl. apply is_Some_alter. eauto. }
    destruct Hc2 as [call2 Hc2].
    assert (Hwc' : writes (done c (setError c (Some ErrShutdown) st1)) c = 1).
    { rewrite (writes_done_eq _ _ call2 Hc2).
      - by rewrite writes_setError, Hwc.
      - by apply (wf_done_chan _ Hwf2 c). }
    assert (Hwo' : ∀ c', c' ≠ c →
              writes (done c (setError c (Some ErrShutdown) st1)) c'
              = writes (state sys) c').
    { intros c' Hne. rewrite writes_done_ne, writes_setError by done.
      by apply Hother. }
    split; simpl.
    + by apply wf_done.
    + intros c'. destruct (decide (c' = c)) as [->|Hne]; [lia|].
      rewrite Hwo' by done. apply Honce.
    + intros Hrecv s' c' Hs'. rewrite client_done in Hs'. simpl in Hs'.
      assert (c' ≠ c) by (intros ->; by apply (Hnotpending s')).
      rewrite Hwo' by done. apply (Hpend Hrecv s').
      by rewrite <- Hcl0, <- Hcl1.
    + intros Hrecv. destruct (Hex Hrecv) as [_ Hsh]. split; [done|].
      rewrite client_done. simpl. by rewrite Hcl1, Hcl0.
    + rewrite client_done. simpl. by rewrite Hcl1, Hcl0.
    + done.
  - (* registered *)
    cbv beta iota zeta in Hstep. injection Hstep as <-.
    apply orb_false_iff in Hflags as [Hsh Hclosed].
    split; simpl.
    + apply wf_withClient; [|done].
      eapply (wf_insert_pending (setSeq c (seq (client st1)) st1)).
      * by apply wf_updCall.
      * unfold setSeq, updCall. simpl. apply is_Some_alter. eauto.
      * done.
      * done.
    + intros c'. unfold setHeader. rewrite !writes_withClient, writes_setSeq.
      apply Hle.
    + intros Hrecv s' c'. unfold setHeader. rewrite !writes_withClient, writes_setSeq.
      simpl. intros Hs'. destruct (decide (seq (client st1) = s')) as [<-|Hne].
      * rewrite lookup_insert_eq in Hs'. by injection Hs' as <-.
      * rewrite lookup_insert_ne in Hs' by done.
        assert (c' ≠ c) by (intros ->; by apply (Hnotpending s')).
        rewrite Hother by done. apply (Hpend Hrecv s').
        by rewrite <- Hcl0, <- Hcl1.
    + intros Hrecv. destruct (Hex Hrecv) as [_ Hsh'].
      rewrite <- Hcl0, <- Hcl1 in Hsh'. congruence.
    + rewrite Hcl1, Hcl0, Hseq, wrap64_succ, length_app. simpl.
      f_equal. lia.
    + intros i s Hi. rewrite Hcl1, Hcl0 in Hi.
      apply lookup_app_Some in Hi as [Hi|[Hlen Hi]]; [by apply Hasg|].
      apply list_lookup_singleton_Some in Hi as [Hi <-].
      rewrite Hseq. f_equal. lia.
Qed.

(** A step that signals nothing and adds nothing to [pending]. *)
Lemma inv_frame sys st' sd rv :
  inv sys → wfState st' →
  (∀ c, writes st' c = writes (state sys) c) →
  (∀ s c, pending (client st') !! s = Some c →
          pending (client (state sys)) !! s = Some c) →
  seq (client st') = seq (client (state sys)) →
  isShutdown (client st') = isShutdown (client (state sys)) →
  (rv = Exited ↔ receiver sys = Exited) → (rv = Exited → sd = None) →
  inv {| state := st'; sending := sd; receiver := rv; assigned := assigned sys |}.
Proof.
  intros [Hwf Honce Hpend Hex Hseq Hasg] Hwf' Hw Hp Hs Hsh Hrv Hsd.
  split; simpl; try done.
  - intros c. rewrite Hw. apply Honce.
  - intros Hne s c Hc. rewrite Hw. apply (Hpend (λ E, Hne (proj2 Hrv E)) s).
    by apply Hp.
  - intros E. split; [by apply Hsd|]. rewrite Hsh. by apply Hex, Hrv.
  - by rewrite Hs.
Qed.

(** A step that takes one pending call out and signals it, while the
    receive task lives. *)
Lemma inv_complete sys g s c sd rv :
  (∀ call, Done (g call) = Done call) →
  inv sys → receiver sys ≠ Exited → rv ≠ Exited →
  pending (client (state sys)) !! s = Some c →
  inv {| state := done c (updCall g c (removeCall s (state sys)).1);
         sending := sd; receiver := rv; assigned := assigned sys |}.
Proof.
  intros Hg [Hwf Honce Hpend Hex Hseq Hasg] Hrecv Hrv Hs.
  destruct (complete_spec g s c (state sys) Hg Hwf Hs)
    as (Hwf' & Hwc & Hwo & Hcl & Hp).
  split; cbn [state sending receiver assigned]; try done.
  - intros c'. destruct (decide (c' = c)) as [->|Hne].
    + rewrite Hwc, (Hpend Hrecv s c Hs). lia.
    + rewrite Hwo by done. apply Honce.
  - intros _ s' c' Hs'. destruct (Hp s' c' Hs') as [Hne Hold].
    rewrite Hwo by done. by apply (Hpend Hrecv s').
  - by rewrite Hcl.
Qed.

Lemma afterWrite_Some s e st :
  afterWrite s (Some e) st
  = match pending (client st) !! s with
    | Some c => done c (setError c (Some e) (removeCall s st).1)
    | None => (removeCall s st).1
    end.
Proof. done. Qed.

Lemma receiveFrame_eq h body berr st :
  receiveFrame h body berr st
  = match pending (client st) !! hSeq h with
    | None => ((removeCall (hSeq h) st).1, berr)
    | Some c =>
        if bool_decide (hError h ≠ "") then
          (done c (setError c (Some (hError h)) (removeCall (hSeq h) st).1), berr)
        else
          match berr with
          | Some e =>
              (done c (setError c (Some ("reading body " +:+ e))
                         (removeCall (hSeq h) st).1), berr)
          | None => (done c (setReply c body (removeCall (hSeq h) st).1), berr)
          end
    end.
Proof. done. Qed.

Lemma removeCall_frame sys s sd rv :
  inv sys → (rv = Exited ↔ receiver sys = Exited) → (rv = Exited → sd = None) →
  inv {| state := (removeCall s (state sys)).1; sending := sd; receiver := rv;
         assigned := assigned sys |}.
Proof.
  intros Hinv Hrv Hsd. apply inv_frame; try done.
  - apply wf_removeCall, Hinv.
  - intros s' c Hs'. unfold removeCall in Hs'. simpl in Hs'.
    by apply lookup_delete_Some in Hs' as [_ Hs'].
Qed.

Lemma inv_SendWrite sys werr sys' :
  inv sys → step sys (SendWrite werr) = Some sys' → inv sys'.
Proof.
  intros Hinv Hstep. unfold step in Hstep.
  destruct (sending sys) as [[c s]|] eqn:Hsend; [|done].
  injection Hstep as <-.
  assert (Hrecv : receiver sys ≠ Exited).
  { intros E. destruct (inv_exited _ Hinv E). congruence. }
  destruct werr as [e|].
  - rewrite afterWrite_Some.
    destruct (pending (client (state sys)) !! s) as [c'|] eqn:Hs.
    + by apply inv_complete.
    + by apply removeCall_frame.
  - unfold afterWrite. destruct Hinv. apply inv_frame; try done.
Qed.

Lemma inv_RecvFrame sys h body berr sys' :
  inv sys → step sys (RecvFrame h body berr) = Some sys' → inv sys'.
Proof.
  intros Hinv Hstep. unfold step in Hstep.
  destruct (receiver sys) eqn:Hrecv; try done.
  rewrite receiveFrame_eq in Hstep.
  assert (Hrv : ∀ err : error,
            match err with Some e => Failing e | None => Receiving end ≠ Exited).
  { by intros [e|]. }
  assert (Hlive : receiver sys ≠ Exited) by by rewrite Hrecv.
  destruct (pending (client (state sys)) !! hSeq h) as [c|] eqn:Hs.
  - case_bool_decide; [|destruct berr as [e|]];
      injection Hstep as <-; apply inv_complete; try done.
  - injection Hstep as <-. apply removeCall_frame; [done| |].
    + split; intros E; [by destruct (Hrv berr)|congruence].
    + intros E. by destruct (Hrv berr).
Qed.

(** What [terminateCallsIn] does, for any enumeration of [pending]. *)
Lemma terminateCallsIn_spec entries err st :
  wfState st → entries ≡ₚ map_to_list (pending (client st)) →
  let st' := terminateCallsIn entries err st in
  wfState st'
  ∧ isShutdown (client st') = true
  ∧ pending (client st') = pending (client st)
  ∧ seq (client st') = seq (client st)
  ∧ (∀ s c, pending (client st) !! s = Some c →
            callError st' c = Some (Some err) ∧ writes st' c = S (writes st c))
  ∧ (∀ c, (∀ s, pending (client st) !! s ≠ Some c) → writes st' c = writes st c).
Proof.
  intros Hwf Hp st'. unfold st', terminateCallsIn.
  set (st1 := withClient st _).
  assert (Hwf1 : wfState st1) by by apply wf_withClient.
  assert (Hnd : NoDup entries.*2).
  { rewrite Hp. by apply pending_NoDup. }
  assert (Hin : ∀ s c, pending (client st) !! s = Some c → c ∈ entries.*2).
  { intros s c Hs. apply list_elem_of_fmap. exists (s, c). split; [done|].
    rewrite Hp. by apply elem_of_map_to_list. }
  split_and!.
  - by apply loop_wf.
  - by rewrite loop_client.
  - by rewrite loop_client.
  - by rewrite loop_client.
  - intros s c Hs. pose proof (wf_pending_alloc _ Hwf s c Hs) as Hc. split.
    + apply loop_error; [by apply (Hin s)|done].
    + rewrite loop_writes_visited; try done. by apply (Hin s).
  - intros c Hc. rewrite loop_writes_other; [done|].
    intros Hin'. apply list_elem_of_fmap in Hin' as ([s c'] & -> & Hin').
    rewrite Hp in Hin'. apply elem_of_map_to_list in Hin'. by apply (Hc s).
Qed.

Lemma inv_Terminate sys sys' :
  inv sys → step sys Terminate = Some sys' → inv sys'.
Proof.
  intros [Hwf Honce Hpend Hex Hseq Hasg] Hstep. unfold step in Hstep.
  destruct (receiver sys) as [|err|] eqn:Hrecv; try done.
  destruct (sending sys) eqn:Hsend; [done|]. injection Hstep as <-.
  assert (Hlive : Failing err ≠ Exited) by done.
  destruct (terminateCallsIn_spec (map_to_list (pending (client (state sys))))
              err (state sys) Hwf (reflexivity _))
    as (Hwf' & Hsh & Hp & Hs & Hvis & Hoth).
  fold (terminateCalls err (state sys)) in *.
  split; cbn [state sending receiver assigned]; try done.
  - intros c.
    destruct (decide (c ∈ (map_to_list (pending (client (state sys)))).*2))
      as [Hin|Hnin].
    + apply list_elem_of_fmap in Hin as ([s c'] & -> & Hin).
      apply elem_of_map_to_list in Hin. simpl.
      destruct (Hvis s c' Hin) as [_ ->]. rewrite (Hpend Hlive s c' Hin). lia.
    + rewrite Hoth; [apply Honce|]. intros s Hs'. apply Hnin.
      apply list_elem_of_fmap. exists (s, c). split; [done|].
      by apply elem_of_map_to_list.
  - by rewrite Hs.
Qed.

Lemma inv_Cancel sys c sys' :
  inv sys → step sys (Cancel c) = Some sys' → inv sys'.
Proof.
  intros Hinv Hstep. unfold step in Hstep.
  destruct (calls (state sys) !! c) as [call|]; [|done].
  simpl in Hstep. injection Hstep as <-.
  apply removeCall_frame; [done|done|]. intros E. by apply (inv_exited _ Hinv).
Qed.

Lemma inv_CloseClient sys sys' :
  inv sys → step sys CloseClient = Some sys' → inv sys'.
Proof.
  intros Hinv Hstep. unfold step in Hstep. injection Hstep as <-.
  assert (Hc : pending (Close (client (state sys))).1 = pending (client (state sys))
             ∧ seq (Close (client (state sys))).1 = seq (client (state sys))
             ∧ isShutdown (Close (client (state sys))).1
               = isShutdown (client (state sys))).
  { unfold Close. by destruct (isClosed (client (state sys))). }
  destruct Hc as (Hp & Hs & Hsh).
  apply inv_frame; try done.
  - apply wf_withClient; [apply Hinv|done].
  - intros s c. simpl. by rewrite Hp.
  - intros E. by apply (inv_exited _ Hinv).
Qed.

Lemma inv_step sys ev sys' : inv sys → step sys ev = Some sys' → inv sys'.
Proof.
  intros Hinv Hstep. destruct ev.
  - by eapply inv_GoRegister.
  - by eapply inv_SendWrite.
  - by eapply inv_RecvFrame.
  - unfold step in Hstep. destruct (receiver sys) eqn:Hr; try done.
    injection Hstep as <-. destruct Hinv. apply inv_frame; try done.
    by rewrite Hr.
  - by eapply inv_Terminate.
  - by eapply inv_Cancel.
  - by eapply inv_CloseClient.
Qed.

Lemma inv_run evs sys sys' : inv sys → run sys evs = Some sys' → inv sys'.
Proof.
  revert sys. induction evs as [|ev evs IH]; intros sys Hinv Hrun; simpl in Hrun.
  - by injection Hrun as <-.
  - destruct (step sys ev) as [sys1|] eqn:E; [|done]. simpl in Hrun.
    eapply IH; [|exact Hrun]. by eapply inv_step.
Qed.

Lemma run_twoCallsSent : run (newSystem ∅) twoCallsSent = Some twoPending.
Proof. by vm_compute. Qed.

Lemma inv_twoPending : inv twoPending.
Proof. eapply inv_run; [apply (inv_newSystem ∅)|apply run_twoCallsSent]. Qed.

(** ** C2: what [terminateCalls] leaves behind *)

(** C2, as the code has it.  After [terminateCalls(e)], whatever the order
    in which the range statement visits [pending]: the client is shut down;
    every call that was in [pending] at entry has [Error = e] and has been
    sent once more on its [Done] channel; no other call has been signalled;
    and [pending] holds the same entries as at entry: the loop deletes
    none. *)
Theorem terminateCalls_signals_pending
    (entries : list (Z * nat)) (e : string) (st : State) :
  wfState st →
  entries ≡ₚ map_to_list (pending (client st)) →
  let st' := terminateCallsIn entries e st in
  isShutdown (client st') = true
  ∧ pending (client st') = pending (client st)
  ∧ (∀ s c, pending (client st) !! s = Some c →
            callError st' c = Some (Some e) ∧ writes st' c = S (writes st c))
  ∧ (∀ c, (∀ s, pending (client st) !! s ≠ Some c) → writes st' c = writes st c).
Proof.
  intros Hwf Hp st'.
  destruct (terminateCallsIn_spec entries e st Hwf Hp)
    as (_ & H1 & H2 & _ & H3 & H4).
  done.
Qed.

(** With two calls pending and the transport error "EOF". *)
Lemma terminateCalls_signals_pending_witness :
  let st := state twoPending in
  let st' := terminateCalls "EOF" st in
  isShutdown (client st') = true
  ∧ pending (client st') = pending (client st)
  ∧ (∀ s c, pending (client st) !! s = Some c →
            callError st' c = Some (Some "EOF") ∧ writes st' c = S (writes st c)).
Proof.
  intros st st'.
  destruct (terminateCalls_signals_pending
              (map_to_list (pending (client st))) "EOF" st
              (inv_wf _ inv_twoPending) (reflexivity _))
    as (H1 & H2 & H3 & _).
  split_and!; [exact H1|exact H2|exact H3].
Defined.

(** C2 as stated fails: after [terminateCalls] the two calls are still in
    [pending], so the map is not empty. *)
Lemma terminateCalls_leaves_pending :
  let st' := terminateCalls "EOF" (state twoPending) in
  pending (client st') !! 1%Z = Some 0
  ∧ pending (client st') !! 2%Z = Some 1
  ∧ pending (client st') ≠ ∅
  ∧ callError st' 0 = Some (Some "EOF") ∧ writes st' 0 = 1.
Proof.
  split_and!; by vm_compute.
Qed.

(** ** C6: the sequence numbers *)

Lemma registerCall_rejected c st :
  isShutdown (client st) || isClosed (client st) = true →
  registerCall c st = (st, 0%Z, Some ErrShutdown).
Proof. intros H. unfold registerCall. by rewrite H. Qed.

Lemma registerCall_accepted c st :
  isShutdown (client st) || isClosed (client st) = false →
  (registerCall c st).1.2 = seq (client st)
  ∧ (registerCall c st).2 = None
  ∧ seq (client (registerCall c st).1.1) = wrap64 (seq (client st) + 1)
  ∧ pending (client (registerCall c st).1.1) = <[seq (client st) := c]> (pending (client st)).
Proof. intros H. unfold registerCall. by rewrite H. Qed.

(** A rejected [Go] leaves the list of assigned numbers and the counter as
    they were. *)
Lemma step_rejected_assigns_nothing sys sm args d sys' :
  isShutdown (client (state sys)) || isClosed (client (state sys)) = true →
  step sys (GoRegister sm args d) = Some sys' →
  assigned sys' = assigned sys
  ∧ seq (client (state sys')) = seq (client (state sys))
  ∧ pending (client (state sys')) = pending (client (state sys)).
Proof.
  intros Hflags Hstep. unfold step in Hstep.
  destruct (sending sys); [done|].
  destruct (resolveDone d (state sys)) as [[st0 ch]|] eqn:Hr; [|done].
  unfold mbind, option_bind in Hstep. cbv beta iota in Hstep.
  assert (Hcl : client st0 = client (state sys)).
  { destruct d as [|cap|ch0]; unfold resolveDone in Hr.
    - by injection Hr as <- <-.
    - case_decide; [done|]. by injection Hr as <- <-.
    - destruct (chans (state sys) !! ch0); [|done]. case_decide; [done|].
      by injection Hr as <- <-. }
  unfold newCall in Hstep. cbv beta iota zeta in Hstep.
  rewrite registerCall_rejected in Hstep by (simpl; by rewrite Hcl).
  injection Hstep as <-. simpl. rewrite client_done. simpl. by rewrite Hcl.
Qed.

Lemma assigned_prefix (l : list Z) :
  (∀ i s, l !! i = Some s → s = wrap64 (1 + Z.of_nat i)) →
  (Z.of_nat (length l) < 2 ^ 64)%Z →
  l = Z.of_nat <$> List.seq 1 (length l).
Proof.
  intros Hl Hlen. apply list_eq. intros i. rewrite list_lookup_fmap.
  destruct (l !! i) as [s|] eqn:E.
  - pose proof (lookup_lt_Some _ _ _ E) as Hi.
    rewrite (lookup_seq_lt _ _ _ Hi). simpl. f_equal.
    rewrite (Hl i s E). unfold wrap64. rewrite Z.mod_small; lia.
  - apply lookup_ge_None in E. by rewrite lookup_seq_ge.
Qed.

(** C6. Along any run of a client, the numbers returned by the successful
    [registerCall]s are, in the order of registration, [1 + i] modulo 2^64
    for the i-th of them (counting from 0): while fewer than 2^64 calls
    have been registered this is the list 1, 2, 3, ..., n, without
    duplicates.  A registration rejected because the client is closed or
    shut down returns 0 with the shutdown error, leaves the client as it
    was, and adds nothing to the list. *)
Theorem assigned_seqs_count_from_one
    (userChans : gmap nat nat) (evs : list event) (sys : System) :
  run (newSystem userChans) evs = Some sys →
  (Z.of_nat (length (assigned sys)) < 2 ^ 64)%Z →
  assigned sys = Z.of_nat <$> List.seq 1 (length (assigned sys))
  ∧ NoDup (assigned sys)
  ∧ seq (client (state sys)) = wrap64 (1 + Z.of_nat (length (assigned sys)))
  ∧ (∀ c, isShutdown (client (state sys)) || isClosed (client (state sys)) = true →
          registerCall c (state sys) = (state sys, 0%Z, Some ErrShutdown))
  ∧ (∀ sm args d sys',
       isShutdown (client (state sys)) || isClosed (client (state sys)) = true →
       step sys (GoRegister sm args d) = Some sys' →
       assigned sys' = assigned sys
       ∧ seq (client (state sys')) = seq (client (state sys)))
  ∧ (∀ sm args d sys',
       isShutdown (client (state sys)) || isClosed (client (state sys)) = false →
       step sys (GoRegister sm args d) = Some sys' →
       assigned sys' = assigned sys ++ [seq (client (state sys))]).
Proof.
  intros Hrun Hlen.
  pose proof (inv_run _ _ _ (inv_newSystem userChans) Hrun) as Hinv.
  pose proof (assigned_prefix _ (inv_assigned _ Hinv) Hlen) as Hpre.
  split_and!.
  - exact Hpre.
  - rewrite Hpre. apply NoDup_fmap; [apply Nat2Z.inj'|apply NoDup_seq].
  - apply Hinv.
  - intros c Hf. by apply registerCall_rejected.
  - intros sm args d sys' Hf Hstep.
    destruct (step_rejected_assigns_nothing _ _ _ _ _ Hf Hstep) as (H1 & H2 & _).
    done.
  - intros sm args d sys' Hf Hstep. unfold step in Hstep.
    destruct (sending sys); [done|].
    destruct (resolveDone d (state sys)) as [[st0 ch]|] eqn:Hr; [|done].
    unfold mbind, option_bind in Hstep. cbv beta iota in Hstep.
    destruct (resolveDone_spec _ _ _ _ Hr (inv_wf _ Hinv)) as (_ & _ & _ & Hcl & _).
    unfold newCall in Hstep. cbv beta iota zeta in Hstep.
    unfold registerCall in Hstep. simpl in Hstep. rewrite Hcl, Hf in Hstep.
    by injection Hstep as <-.
Qed.

(** Three registrations, a close, and a fourth attempt that is rejected. *)
Lemma assigned_seqs_count_from_one_witness :
  ∃ sys,
    run (newSystem ∅)
      [GoRegister "A.M" "x" DoneNil; SendWrite None;
       GoRegister "A.M" "y" DoneNil; SendWrite None;
       GoRegister "A.M" "z" DoneNil; SendWrite (Some "broken pipe");
       CloseClient; GoRegister "A.M" "w" DoneNil] = Some sys
    ∧ assigned sys = [1; 2; 3]%Z
    ∧ NoDup (assigned sys).
Proof.
  eexists. split; [by vm_compute|].
  match goal with
  | |- assigned ?s = _ ∧ _ =>
      destruct (assigned_seqs_count_from_one ∅
        [GoRegister "A.M" "x" DoneNil; SendWrite None;
         GoRegister "A.M" "y" DoneNil; SendWrite None;
         GoRegister "A.M" "z" DoneNil; SendWrite (Some "broken pipe");
         CloseClient; GoRegister "A.M" "w" DoneNil] s)
        as (H1 & H2 & _)
  end.
  - by vm_compute.
  - by vm_compute.
  - split; [|exact H2]. rewrite H1. by vm_compute.
Defined.

End ClientSpec.
(* ===================================================================== *)
(** * Client: sequence numbers, replies and cancellation *)
(* ===================================================================== *)

Module ClientFlowSpec.
Import ClientCore ClientSpec.

#[local] Arguments newCall : simpl never.
#[local] Arguments registerCall : simpl never.
#[local] Arguments resolveDone : simpl never.
#[local] Arguments done : simpl never.
#[local] Arguments setError : simpl never.
#[local] Arguments setSeq : simpl never.
#[local] Arguments setReply : simpl never.
#[local] Arguments setHeader : simpl never.
#[local] Arguments afterWrite : simpl never.
#[local] Arguments receiveFrame : simpl never.
#[local] Arguments terminateCalls : simpl never.
#[local] Arguments removeCall : simpl never.
#[local] Arguments Close : simpl never.

(** ** What leaves the [Seq] fields alone *)

Lemma seqOf_updCall f c st c' :
  (∀ call, Seq (f call) = Seq call) →
  seqOf (updCall f c st) c' = seqOf st c'.
Proof.
  intros Hf. unfold seqOf, updCall. simpl.
  destruct (decide (c' = c)) as [->|Hne].
  - rewrite lookup_alter_eq. destruct (calls st !! c); simpl; [|done].
    by rewrite Hf.
  - by rewrite lookup_alter_ne.
Qed.

Lemma seqOf_setError c e st c' : seqOf (setError c e st) c' = seqOf st c'.
Proof. by apply seqOf_updCall. Qed.

Lemma seqOf_setReply c b st c' : seqOf (setReply c b st) c' = seqOf st c'.
Proof. by apply seqOf_updCall. Qed.

Lemma seqOf_done c st c' : seqOf (done c st) c' = seqOf st c'.
Proof. unfold seqOf. by rewrite calls_done. Qed.

Lemma seqOf_removeCall s st c : seqOf (removeCall s st).1 c = seqOf st c.
Proof. done. Qed.

Lemma seqOf_afterWrite s werr st c : seqOf (afterWrite s werr st) c = seqOf st c.
Proof.
  destruct werr as [e|]; [|done]. rewrite afterWrite_Some.
  destruct (pending (client st) !! s); [|done].
  by rewrite seqOf_done, seqOf_setError.
Qed.

Lemma seqOf_receiveFrame h body berr st c :
  seqOf (receiveFrame h body berr st).1 c = seqOf st c.
Proof.
  rewrite receiveFrame_eq. destruct (pending (client st) !! hSeq h); [|done].
  case_bool_decide; [|destruct berr]; cbn [fst];
    by rewrite seqOf_done, ?seqOf_setError, ?seqOf_setReply.
Qed.

Lemma seqOf_loop err entries : ∀ st c,
  seqOf (foldl (terminateOne err) st entries) c = seqOf st c.
Proof.
  induction entries as [|e entries IH]; intros st c; simpl; [done|].
  rewrite IH. unfold terminateOne. by rewrite seqOf_done, seqOf_setError.
Qed.

Lemma seqOf_terminateCalls err st c : seqOf (terminateCalls err st) c = seqOf st c.
Proof. unfold terminateCalls, terminateCallsIn. by rewrite seqOf_loop. Qed.

(** ** What only shrinks [pending] *)

Lemma pending_afterWrite s werr st s' c :
  pending (client (afterWrite s werr st)) !! s' = Some c →
  pending (client st) !! s' = Some c.
Proof.
  destruct werr as [e|]; [|done]. rewrite afterWrite_Some.
  destruct (pending (client st) !! s);
    rewrite ?client_done; simpl; unfold removeCall; simpl;
    intros H; by apply lookup_delete_Some in H as [_ H].
Qed.

Lemma pending_receiveFrame h body berr st :
  pending (client (receiveFrame h body berr st).1)
  = delete (hSeq h) (pending (client st)).
Proof.
  rewrite receiveFrame_eq. destruct (pending (client st) !! hSeq h); [|done].
  case_bool_decide; [|destruct berr]; cbn [fst]; by rewrite client_done.
Qed.

Lemma pending_terminateCalls err st :
  pending (client (terminateCalls err st)) = pending (client st).
Proof. unfold terminateCalls, terminateCallsIn. by rewrite loop_client. Qed.

(** ** The invariant [keyed] *)

Lemma keyed_newSystem userChans : keyed (newSystem userChans).
Proof.
  split; simpl.
  - intros s c H. by rewrite lookup_empty in H.
  - intros c s H. unfold seqOf in H. simpl in H. by rewrite lookup_empty in H.
  - intros _ c1 c2 s H. unfold seqOf in H. simpl in H.
    by rewrite lookup_empty in H.
Qed.

Lemma keyed_frame sys st' sd rv :
  keyed sys →
  (∀ c, seqOf st' c = seqOf (state sys) c) →
  (∀ s c, pending (client st') !! s = Some c →
          pending (client (state sys)) !! s = Some c) →
  keyed {| state := st'; sending := sd; receiver := rv; assigned := assigned sys |}.
Proof.
  intros [Hp Hc Hi] Hseq Hpend. split; cbn [state assigned].
  - intros s c H. rewrite Hseq. by apply Hp, Hpend.
  - intros c s. rewrite Hseq. apply Hc.
  - intros Hb c1 c2 s. rewrite !Hseq. by apply Hi.
Qed.

Lemma assigned_nonzero sys s :
  inv sys → (Z.of_nat (length (assigned sys)) < 2 ^ 64)%Z →
  s ∈ assigned sys → (1 ≤ s ≤ Z.of_nat (length (assigned sys)))%Z.
Proof.
  intros Hinv Hb Hin. apply list_elem_of_lookup in Hin as [i Hi].
  pose proof (lookup_lt_Some _ _ _ Hi) as Hlt.
  rewrite (inv_assigned _ Hinv i s Hi). unfold wrap64.
  rewrite Z.mod_small by lia. lia.
Qed.

Lemma keyed_GoRegister sys sm args d sys' :
  inv sys → keyed sys → step sys (GoRegister sm args d) = Some sys' → keyed sys'.
Proof.
  intros Hinv [Hp Hc Hi] Hstep. pose proof (inv_wf _ Hinv) as Hwf.
  unfold step in Hstep.
  destruct (sending sys) as [?|] eqn:Hsend; [done|].
  destruct (resolveDone d (state sys)) as [[st0 ch]|] eqn:Hr; [|done].
  unfold mbind, option_bind in Hstep. cbv beta iota in Hstep.
  destruct (resolveDone_spec _ _ _ _ Hr Hwf) as (Hwf0 & Hch & Hcalls0 & Hcl0 & Hw0).
  pose proof (newCall_spec sm args ch st0 Hch Hwf0) as Hn.
  destruct (newCall sm args ch st0) as [st1 c]. simpl in Hn.
  destruct Hn as (Hwf1 & Hfresh & Hc1 & Hwc & Hwo & Hco & Hcl1 & Hch1).
  assert (Hold : ∀ c', c' ≠ c → seqOf st1 c' = seqOf (state sys) c').
  { intros c' Hne. unfold seqOf. by rewrite Hco, Hcalls0. }
  assert (Hnew : seqOf st1 c = Some 0%Z) by (unfold seqOf; by rewrite Hc1).
  assert (Hnone : seqOf (state sys) c = None).
  { unfold seqOf. by rewrite <- Hcalls0, Hfresh. }
  assert (Hpc : ∀ s c', pending (client (state sys)) !! s = Some c' → c' ≠ c).
  { intros s c' Hs ->. destruct (Hp s c Hs) as [Hs' _]. congruence. }
  unfold registerCall in Hstep.
  destruct (isShutdown (client st1) || isClosed (client st1)) eqn:Hflags.
  - cbv beta iota zeta in Hstep. injection Hstep as <-.
    assert (Hsq : ∀ c', seqOf (done c (setError c (Some ErrShutdown) st1)) c'
                        = seqOf st1 c').
    { intros c'. by rewrite seqOf_done, seqOf_setError. }
    split; cbn [state assigned].
    + intros s c'. rewrite client_done. simpl. rewrite Hcl1, Hcl0. intros Hs.
      rewrite Hsq, Hold by by eapply Hpc. by apply Hp.
    + intros c' s. rewrite Hsq. destruct (decide (c' = c)) as [->|Hne].
      * rewrite Hnew. intros [= <-]. by left.
      * rewrite Hold by done. apply Hc.
    + intros Hb c1 c2 s. rewrite !Hsq.
      destruct (decide (c1 = c)) as [->|H1]; [rewrite Hnew; congruence|].
      destruct (decide (c2 = c)) as [->|H2]; [rewrite Hnew; congruence|].
      rewrite !Hold by done. by apply Hi.
  - cbv beta iota zeta in Hstep. injection Hstep as <-.
    set (s0 := seq (client st1)).
    assert (Hsq : ∀ c', seqOf (setHeader sm s0
                          (withClient (setSeq c s0 st1)
                             {| seq := wrap64 (s0 + 1); header := header (client st1);
                                pending := <[s0 := c]> (pending (client st1));
                                isClosed := isClosed (client st1);
                                isShutdown := isShutdown (client st1);
                                codecClosed := codecClosed (client st1) |})) c'
                        = if decide (c' = c) then Some s0 else seqOf (state sys) c').
    { intros c'. unfold setHeader, withClient, seqOf, setSeq, updCall. simpl.
      destruct (decide (c' = c)) as [->|Hne].
      - rewrite lookup_alter_eq, Hc1. done.
      - rewrite lookup_alter_ne by done. by apply Hold. }
    assert (Hs0 : s0 = wrap64 (1 + Z.of_nat (length (assigned sys)))).
    { unfold s0. rewrite Hcl1, Hcl0. apply (inv_seq _ Hinv). }
    split; cbn [state assigned].
    + intros s c'. unfold setHeader. simpl. intros Hs.
      rewrite Hsq. destruct (decide (s0 = s)) as [<-|Hne].
      * rewrite lookup_insert_eq in Hs. injection Hs as <-.
        rewrite decide_True by done. split; [done|].
        apply elem_of_app. right. by apply list_elem_of_singleton.
      * rewrite lookup_insert_ne in Hs by done. rewrite Hcl1, Hcl0 in Hs.
        rewrite decide_False by by eapply Hpc.
        destruct (Hp s c' Hs) as [? ?]. split; [done|].
        apply elem_of_app. by left.
    + intros c' s. rewrite Hsq. destruct (decide (c' = c)) as [->|Hne].
      * intros [= <-]. right. apply elem_of_app. right.
        by apply list_elem_of_singleton.
      * intros H. destruct (Hc c' s H) as [?|?]; [by left|right].
        apply elem_of_app. by left.
    + rewrite length_app. simpl. intros Hb c1 c2 s. rewrite !Hsq.
      assert (Hb' : (Z.of_nat (length (assigned sys)) < 2 ^ 64)%Z) by lia.
      assert (Hs0' : s0 = (1 + Z.of_nat (length (assigned sys)))%Z).
      { rewrite Hs0. unfold wrap64. apply Z.mod_small. lia. }
      assert (Hfar : ∀ c', seqOf (state sys) c' = Some s0 → False).
      { intros c' H. destruct (Hc c' s0 H) as [H0|Hin]; [lia|].
        pose proof (assigned_nonzero sys s0 Hinv Hb' Hin). lia. }
      destruct (decide (c1 = c)) as [->|H1]; destruct (decide (c2 = c)) as [->|H2];
        try done.
      * intros [= <-] H2' _. by destruct (Hfar c2).
      * intros H1' [= <-] _. by destruct (Hfar c1).
      * by apply Hi.
Qed.

Lemma keyed_step sys ev sys' :
  inv sys → keyed sys → step sys ev = Some sys' → keyed sys'.
Proof.
  intros Hinv Hk Hstep. destruct ev.
  - by eapply keyed_GoRegister.
  - unfold step in Hstep. destruct (sending sys) as [[c s]|]; [|done].
    injection Hstep as <-. apply keyed_frame; [done| |].
    + intros c'. apply seqOf_afterWrite.
    + intros s' c'. apply pending_afterWrite.
  - unfold step in Hstep. destruct (receiver sys); try done.
    pose proof (seqOf_receiveFrame h body berr (state sys)) as Hs.
    pose proof (pending_receiveFrame h body berr (state sys)) as Hp.
    destruct (receiveFrame h body berr (state sys)) as [st1 err].
    injection Hstep as <-. apply keyed_frame; [done|done|].
    intros s c. simpl in Hp. rewrite Hp. intros H.
    by apply lookup_delete_Some in H as [_ H].
  - unfold step in Hstep. destruct (receiver sys); try done.
    injection Hstep as <-. by apply keyed_frame.
  - unfold step in Hstep. destruct (receiver sys); try done.
    destruct (sending sys); [done|]. injection Hstep as <-.
    apply keyed_frame; [done| |].
    + intros c. apply seqOf_terminateCalls.
    + intros s c. by rewrite pending_terminateCalls.
  - unfold step in Hstep. destruct (calls (state sys) !! c) as [call|]; [|done].
    simpl in Hstep. injection Hstep as <-. unfold withState.
    apply keyed_frame; [done|done|].
    intros s c'. unfold removeCall. simpl. intros H.
    by apply lookup_delete_Some in H as [_ H].
  - unfold step in Hstep. injection Hstep as <-. unfold withState.
    apply keyed_frame; [done|done|].
    intros s c. simpl. unfold Close. by destruct (isClosed _).
Qed.

Lemma keyed_run evs : ∀ sys sys',
  inv sys → keyed sys → run sys evs = Some sys' → keyed sys'.
Proof.
  induction evs as [|ev evs IH]; intros sys sys' Hinv Hk Hrun; simpl in Hrun.
  - by injection Hrun as <-.
  - destruct (step sys ev) as [sys1|] eqn:E; [|done]. simpl in Hrun.
    eapply IH; [| |exact Hrun]; [by eapply inv_step|by eapply keyed_step].
Qed.

Lemma keyed_reachable userChans evs sys :
  run (newSystem userChans) evs = Some sys → inv sys ∧ keyed sys.
Proof.
  intros Hrun. split.
  - eapply inv_run; [apply inv_newSystem|exact Hrun].
  - eapply keyed_run; [apply inv_newSystem|apply keyed_newSystem|exact Hrun].
Qed.

(** After [removeCall(call.Seq)] the call is not pending; the other calls
    stay, unless one of them carries the same number. *)
Lemma Cancel_spec sys c sys' :
  inv sys → keyed sys → step sys (Cancel c) = Some sys' →
  (∀ s, pending (client (state sys')) !! s ≠ Some c)
  ∧ ((Z.of_nat (length (assigned sys)) < 2 ^ 64)%Z →
     ∀ s c', c' ≠ c → pending (client (state sys)) !! s = Some c' →
             pending (client (state sys')) !! s = Some c')
  ∧ calls (state sys') = calls (state sys)
  ∧ chans (state sys') = chans (state sys).
Proof.
  intros Hinv Hk Hstep. unfold step in Hstep.
  destruct (calls (state sys) !! c) as [call|] eqn:Hc; [|done].
  simpl in Hstep. injection Hstep as <-.
  assert (Hsc : seqOf (state sys) c = Some (Seq call)).
  { unfold seqOf. by rewrite Hc. }
  split_and!; [| |done|done].
  - intros s Hs. simpl in Hs. apply lookup_delete_Some in Hs as [Hne Hs].
    destruct (keyed_pending _ Hk s c Hs) as [Hs' _]. congruence.
  - intros Hb s c' Hne Hs. simpl. rewrite lookup_delete_ne; [done|].
    intros <-. destruct (keyed_pending _ Hk _ c' Hs) as [Hs' Hin].
    pose proof (assigned_nonzero sys _ Hinv Hb Hin) as Hpos.
    apply Hne. apply (keyed_inj _ Hk Hb c' c (Seq call)); [done|done|lia].
Qed.

(** X11. In every reachable state of the client a pending call sits in
    [pending] under its own [Seq].  So the [removeCall(call.Seq)] of an
    abandoned [Call] always leaves that call out of [pending], touches no
    call and no channel, and, while fewer than [2^64] sequence numbers
    have been given out, removes nothing else. *)
Theorem pending_calls_sit_under_their_Seq
    (userChans : gmap nat nat) (evs : list event) (sys : System) :
  run (newSystem userChans) evs = Some sys →
  (∀ s c, pending (client (state sys)) !! s = Some c →
          seqOf (state sys) c = Some s)
  ∧ (∀ c sys', step sys (Cancel c) = Some sys' →
       (∀ s, pending (client (state sys')) !! s ≠ Some c)
       ∧ ((Z.of_nat (length (assigned sys)) < 2 ^ 64)%Z →
          ∀ s c', c' ≠ c → pending (client (state sys)) !! s = Some c' →
                  pending (client (state sys')) !! s = Some c')
       ∧ calls (state sys') = calls (state sys)
       ∧ chans (state sys') = chans (state sys)).
Proof.
  intros Hrun. destruct (keyed_reachable _ _ _ Hrun) as [Hinv Hk]. split.
  - intros s c Hs. by destruct (keyed_pending _ Hk s c Hs).
  - intros c sys' Hstep. by apply Cancel_spec.
Qed.

Lemma pending_calls_sit_under_their_Seq_witness :
  (∀ s c, pending (client (state twoPending)) !! s = Some c →
          seqOf (state twoPending) c = Some s)
  ∧ ∀ sys', step twoPending (Cancel 0) = Some sys' →
            pending (client (state sys')) !! 2%Z = Some 1.
Proof.
  destruct (pending_calls_sit_under_their_Seq ∅ twoCallsSent twoPending)
    as [H1 H2]; [by vm_compute|].
  split; [exact H1|]. intros sys' Hstep.
  destruct (H2 0 sys' Hstep) as (_ & H & _).
  apply H; [by vm_compute|done|by vm_compute].
Defined.

(** ** Availability and the [done] argument *)

Lemma IsAvailable_flags cl :
  IsAvailable cl = negb (isShutdown cl || isClosed cl).
Proof. unfold IsAvailable. by destruct (isShutdown cl), (isClosed cl). Qed.

Lemma resolveDone_None d st :
  resolveDone d st = None
  ↔ d = DoneMake 0
    ∨ ∃ ch, d = DoneChan ch
            ∧ ∀ chan, chans st !! ch = Some chan → capacity chan = 0.
Proof.
  unfold resolveDone. destruct d as [|cap|ch]; simpl.
  - split; [done|]. by intros [?|(? & ? & _)].
  - case_decide as Hc; simpl.
    + split; [intros _; left; by rewrite Hc|done].
    + split; [done|]. intros [[= ?]|(? & ? & _)]; done.
  - destruct (chans st !! ch) as [chan|] eqn:E.
    + case_decide as Hc.
      * split; [|done]. intros _. right. exists ch. split; [done|].
        intros chan' H. rewrite E in H. by injection H as <-.
      * split; [done|]. intros [?|(ch' & [= <-] & H)]; [done|].
        destruct Hc. by apply H.
    + split; [|done]. intros _. right. exists ch. split; [done|].
      intros chan' H. by rewrite E in H.
Qed.

(** ** Closing and shutting down *)

Lemma client_resolveDone d st st' ch :
  resolveDone d st = Some (st', ch) → client st' = client st.
Proof.
  unfold resolveDone. destruct d as [|cap|ch0].
  - by intros [= <- <-].
  - case_decide; [done|]. by intros [= <- <-].
  - destruct (chans st !! ch0); [|done]. case_decide; [done|].
    by intros [= <- <-].
Qed.

Lemma client_afterWrite s werr st :
  isShutdown (client (afterWrite s werr st)) = isShutdown (client st)
  ∧ isClosed (client (afterWrite s werr st)) = isClosed (client st).
Proof.
  destruct werr as [e|]; [|done]. rewrite afterWrite_Some.
  destruct (pending (client st) !! s); by rewrite ?client_done.
Qed.

Lemma client_receiveFrame h body berr st :
  isShutdown (client (receiveFrame h body berr st).1) = isShutdown (client st)
  ∧ isClosed (client (receiveFrame h body berr st).1) = isClosed (client st).
Proof.
  rewrite receiveFrame_eq. destruct (pending (client st) !! hSeq h); [|done].
  case_bool_decide; [|destruct berr]; cbn [fst]; by rewrite client_done.
Qed.

Lemma client_terminateCalls err st :
  isShutdown (client (terminateCalls err st)) = true
  ∧ isClosed (client (terminateCalls err st)) = isClosed (client st).
Proof. unfold terminateCalls, terminateCallsIn. by rewrite loop_client. Qed.

(** Neither flag is ever reset. *)
Lemma step_flags sys ev sys' :
  step sys ev = Some sys' →
  (isShutdown (client (state sys)) = true →
   isShutdown (client (state sys')) = true)
  ∧ (isClosed (client (state sys)) = true →
     isClosed (client (state sys')) = true).
Proof.
  intros Hstep. destruct ev; unfold step in Hstep.
  - destruct (sending sys); [done|].
    destruct (resolveDone d (state sys)) as [[st0 ch]|] eqn:Hr; [|done].
    unfold mbind, option_bind in Hstep. cbv beta iota in Hstep.
    pose proof (client_resolveDone _ _ _ _ Hr) as Hcl0.
    assert (Hcl1 : client (newCall sm args ch st0).1 = client st0) by done.
    destruct (newCall sm args ch st0) as [st1 c]. simpl in Hcl1.
    unfold registerCall in Hstep.
    destruct (isShutdown (client st1) || isClosed (client st1)) eqn:Hflags;
      cbv beta iota zeta in Hstep; injection Hstep as <-; cbn [state].
    + rewrite client_done. unfold setError, updCall. simpl.
      by rewrite Hcl1, Hcl0.
    + unfold setHeader. simpl. by rewrite Hcl1, Hcl0.
  - destruct (sending sys) as [[c s]|]; [|done]. injection Hstep as <-.
    cbn [state]. by destruct (client_afterWrite s werr (state sys)) as [-> ->].
  - destruct (receiver sys); try done.
    pose proof (client_receiveFrame h body berr (state sys)) as Hc.
    destruct (receiveFrame h body berr (state sys)) as [st1 err].
    injection Hstep as <-. cbn [state]. simpl in Hc. by destruct Hc as [-> ->].
  - destruct (receiver sys); try done. by injection Hstep as <-.
  - destruct (receiver sys); try done. destruct (sending sys); [done|].
    injection Hstep as <-. cbn [state].
    by destruct (client_terminateCalls err (state sys)) as [-> ->].
  - destruct (calls (state sys) !! c); [|done]. simpl in Hstep.
    by injection Hstep as <-.
  - injection Hstep as <-. simpl. unfold Close.
    by destruct (isClosed (client (state sys))) eqn:E.
Qed.

Lemma step_unavailable sys ev sys' :
  IsAvailable (client (state sys)) = false → step sys ev = Some sys' →
  IsAvailable (client (state sys')) = false
  ∧ assigned sys' = assigned sys
  ∧ ∀ s c, pending (client (state sys')) !! s = Some c →
           pending (client (state sys)) !! s = Some c.
Proof.
  intros Hav Hstep. split.
  { destruct (step_flags _ _ _ Hstep) as [H1 H2].
    rewrite IsAvailable_flags in *. apply negb_false_iff in Hav.
    apply negb_false_iff. apply orb_true_iff in Hav as [H|H].
    - by rewrite H1.
    - rewrite H2 by done. apply orb_true_r. }
  rewrite IsAvailable_flags in Hav. apply negb_false_iff in Hav.
  destruct ev.
  - destruct (step_rejected_assigns_nothing _ _ _ _ _ Hav Hstep) as (-> & _ & ->).
    done.
  - unfold step in Hstep. destruct (sending sys) as [[c s]|]; [|done].
    injection Hstep as <-. split; [done|]. intros s' c'. apply pending_afterWrite.
  - unfold step in Hstep. destruct (receiver sys); try done.
    pose proof (pending_receiveFrame h body berr (state sys)) as Hp.
    destruct (receiveFrame h body berr (state sys)) as [st1 err].
    injection Hstep as <-. split; [done|]. intros s c. simpl in *. rewrite Hp.
    intros H. by apply lookup_delete_Some in H as [_ H].
  - unfold step in Hstep. destruct (receiver sys); try done.
    by injection Hstep as <-.
  - unfold step in Hstep. destruct (receiver sys); try done.
    destruct (sending sys); [done|]. injection Hstep as <-. split; [done|].
    intros s c. cbn [state]. by rewrite pending_terminateCalls.
  - unfold step in Hstep. destruct (calls (state sys) !! c); [|done].
    simpl in Hstep. injection Hstep as <-. split; [done|]. intros s c'. simpl.
    intros H. by apply lookup_delete_Some in H as [_ H].
  - unfold step in Hstep. injection Hstep as <-. split; [done|]. intros s c.
    simpl. unfold Close. by destruct (isClosed _).
Qed.

Lemma run_unavailable evs : ∀ sys sys',
  IsAvailable (client (state sys)) = false → run sys evs = Some sys' →
  IsAvailable (client (state sys')) = false
  ∧ assigned sys' = assigned sys
  ∧ ∀ s c, pending (client (state sys')) !! s = Some c →
           pending (client (state sys)) !! s = Some c.
Proof.
  induction evs as [|ev evs IH]; intros sys sys' Hav Hrun; simpl in Hrun.
  - by injection Hrun as <-.
  - destruct (step sys ev) as [sys1|] eqn:E; [|done]. simpl in Hrun.
    destruct (step_unavailable _ _ _ Hav E) as (Hav1 & Ha1 & Hp1).
    destruct (IH _ _ Hav1 Hrun) as (Hav2 & Ha2 & Hp2).
    split_and!; [done|congruence|]. intros s c H. by apply Hp1, Hp2.
Qed.

(** X14. [Close] and [terminateCalls] are final.  Once either has run,
    whatever the tasks do afterwards, [IsAvailable] stays false, no
    sequence number is given out any more, and [pending] can only lose
    entries; after a [Close], every further [Close] returns
    [ErrShutdown].  [Close] itself signals no call and leaves [pending]
    as it is. *)
Theorem unavailable_is_final
    (sys sys0 sys' : System) (ev0 : event) (evs : list event) :
  ev0 = CloseClient ∨ ev0 = Terminate →
  step sys ev0 = Some sys0 →
  run sys0 evs = Some sys' →
  IsAvailable (client (state sys')) = false
  ∧ assigned sys' = assigned sys
  ∧ (∀ s c, pending (client (state sys')) !! s = Some c →
            pending (client (state sys)) !! s = Some c)
  ∧ (ev0 = CloseClient →
       (Close (client (state sys'))).2 = Some ErrShutdown
       ∧ pending (client (state sys0)) = pending (client (state sys))
       ∧ calls (state sys0) = calls (state sys)
       ∧ chans (state sys0) = chans (state sys)).
Proof.
  intros Hev Hstep Hrun.
  assert (H0 : IsAvailable (client (state sys0)) = false
               ∧ assigned sys0 = assigned sys
               ∧ pending (client (state sys0)) = pending (client (state sys))
               ∧ (ev0 = CloseClient →
                    isClosed (client (state sys0)) = true
                    ∧ calls (state sys0) = calls (state sys)
                    ∧ chans (state sys0) = chans (state sys))).
  { destruct Hev as [-> | ->]; unfold step in Hstep.
    - injection Hstep as <-. simpl. unfold Close, IsAvailable.
      destruct (isClosed (client (state sys))) eqn:E; simpl;
        rewrite ?E, ?andb_false_r; done.
    - destruct (receiver sys); try done. destruct (sending sys); [done|].
      injection Hstep as <-. cbn [state assigned].
      destruct (client_terminateCalls err (state sys)) as [Hsh _].
      rewrite IsAvailable_flags, Hsh, pending_terminateCalls. done. }
  destruct H0 as (Hav0 & Ha0 & Hp0 & Hc0).
  destruct (run_unavailable _ _ _ Hav0 Hrun) as (Hav & Ha & Hp).
  split_and!; [done|congruence| |].
  - intros s c H. rewrite <- Hp0. by apply Hp.
  - intros E. destruct (Hc0 E) as (Hcl & Hcs & Hch). split_and!; try done.
    assert (Hcl' : isClosed (client (state sys')) = true).
    { clear -Hcl Hrun. revert sys0 Hcl Hrun.
      induction evs as [|ev evs IH]; intros sys0 Hcl Hrun; simpl in Hrun.
      - by injection Hrun as <-.
      - destruct (step sys0 ev) as [sys1|] eqn:E1; [|done]. simpl in Hrun.
        apply (IH sys1); [|done]. by apply (step_flags _ _ _ E1). }
    unfold Close. by rewrite Hcl'.
Qed.

Lemma unavailable_is_final_witness :
  ∃ sys', run twoPending [CloseClient; GoRegister "Arith.Sum" "1,2" DoneNil;
                          RecvFail "EOF"; Terminate] = Some sys'
          ∧ IsAvailable (client (state sys')) = false
          ∧ assigned sys' = [1; 2]%Z.
Proof.
  destruct (step twoPending CloseClient) as [sys0|] eqn:E;
    [|by vm_compute in E].
  destruct (run sys0 [GoRegister "Arith.Sum" "1,2" DoneNil; RecvFail "EOF";
                      Terminate]) as [sys'|] eqn:Hrun.
  - exists sys'.
    destruct (unavailable_is_final twoPending sys0 sys' CloseClient
                [GoRegister "Arith.Sum" "1,2" DoneNil; RecvFail "EOF"; Terminate])
      as (H1 & H2 & _); [by left|exact E|exact Hrun|].
    split; [|split; [exact H1|rewrite H2; by vm_compute]].
    cbn [run]. rewrite E. exact Hrun.
  - exfalso. vm_compute in E. injection E as <-. by vm_compute in Hrun.
Defined.

End ClientFlowSpec.
(* ===================================================================== *)
(** * The client's tasks: completion signals, replies, [Go] and [Call] *)
(* ===================================================================== *)

Module ClientTasksSpec.
Import ClientCore ClientSpec ClientFlowSpec ClientTasks.

#[local] Arguments newCall : simpl never.
#[local] Arguments registerCall : simpl never.
#[local] Arguments resolveDone : simpl never.
#[local] Arguments done : simpl never.
#[local] Arguments setError : simpl never.
#[local] Arguments setSeq : simpl never.
#[local] Arguments setReply : simpl never.
#[local] Arguments setHeader : simpl never.
#[local] Arguments removeCall : simpl never.
#[local] Arguments Close : simpl never.
#[local] Arguments shutDown : simpl never.

(** ** What the primitives leave alone *)

Lemma chans_updCall f c st : chans (updCall f c st) = chans st.
Proof. done. Qed.

Lemma client_updCall f c st : client (updCall f c st) = client st.
Proof. done. Qed.

Lemma alloc_updCall f c st c' :
  is_Some (calls (updCall f c st) !! c') ↔ is_Some (calls st !! c').
Proof. unfold updCall. simpl. apply is_Some_alter. Qed.

Lemma client_setError c e st : client (setError c e st) = client st.
Proof. done. Qed.

Lemma client_setReply c b st : client (setReply c b st) = client st.
Proof. done. Qed.

Lemma chans_setError c e st : chans (setError c e st) = chans st.
Proof. done. Qed.

Lemma chans_setReply c b st : chans (setReply c b st) = chans st.
Proof. done. Qed.

Lemma alloc_setError c e st c' :
  is_Some (calls (setError c e st) !! c') ↔ is_Some (calls st !! c').
Proof. apply alloc_updCall. Qed.

Lemma alloc_setReply c b st c' :
  is_Some (calls (setReply c b st) !! c') ↔ is_Some (calls st !! c').
Proof. apply alloc_updCall. Qed.

Lemma client_shutDown st :
  pending (client (shutDown st)) = pending (client st)
  ∧ isShutdown (client (shutDown st)) = true
  ∧ isClosed (client (shutDown st)) = isClosed (client st)
  ∧ seq (client (shutDown st)) = seq (client st).
Proof. done. Qed.

Lemma pending_shutDown st : pending (client (shutDown st)) = pending (client st).
Proof. done. Qed.

Lemma writes_shutDown st c : writes (shutDown st) c = writes st c.
Proof. done. Qed.

Lemma calls_shutDown st : calls (shutDown st) = calls st.
Proof. done. Qed.

Lemma chans_shutDown st : chans (shutDown st) = chans st.
Proof. done. Qed.

Lemma seqOf_shutDown st c : seqOf (shutDown st) c = seqOf st c.
Proof. done. Qed.

Lemma pending_removeCall s st :
  pending (client (removeCall s st).1) = delete s (pending (client st)).
Proof. done. Qed.

Lemma writes_removeCall s st c : writes (removeCall s st).1 c = writes st c.
Proof. done. Qed.

Lemma calls_removeCall s st : calls (removeCall s st).1 = calls st.
Proof. done. Qed.

Lemma chans_removeCall s st : chans (removeCall s st).1 = chans st.
Proof. done. Qed.

Lemma isShutdown_removeCall s st :
  isShutdown (client (removeCall s st).1) = isShutdown (client st).
Proof. done. Qed.

Lemma done_chans c st ch chan :
  chans st !! ch = Some chan →
  ∃ chan', chans (done c st) !! ch = Some chan'
           ∧ capacity chan' = capacity chan
           ∧ length (sent chan) ≤ length (sent chan').
Proof.
  intros Hch. unfold done. destruct (calls st !! c) as [call|]; [|eauto].
  simpl. destruct (decide (Done call = ch)) as [->|Hne].
  - rewrite lookup_alter_eq, Hch. simpl. eexists. split; [done|]. simpl.
    split; [done|]. rewrite length_app. lia.
  - rewrite lookup_alter_ne by done. eauto.
Qed.

Lemma wf_shutDown st : wfState st → wfState (shutDown st).
Proof. intros H. by apply wf_withClient. Qed.

Lemma wf_Close st : wfState st → wfState (withClient st (Close (client st)).1).
Proof.
  intros H. apply wf_withClient; [done|]. unfold Close.
  by destruct (isClosed (client st)).
Qed.

(** The channel [Go] settles on: the caller's, or a new one with nothing
    sent on it; the other channels are as they were. *)
Lemma resolveDone_chans d st st' ch :
  resolveDone d st = Some (st', ch) →
  (∀ ch0 chan, chans st !! ch0 = Some chan → chans st' !! ch0 = Some chan)
  ∧ match d with
    | DoneChan ch0 => ch = ch0 ∧ st' = st
    | DoneNil =>
        chans st !! ch = None
        ∧ chans st' !! ch = Some {| capacity := 10; sent := [] |}
    | DoneMake cap =>
        chans st !! ch = None ∧ cap ≠ 0
        ∧ chans st' !! ch = Some {| capacity := cap; sent := [] |}
    end.
Proof.
  assert (Hn : chans st !! fresh (dom (chans st)) = None)
    by (apply not_elem_of_dom, is_fresh).
  unfold resolveDone. destruct d as [|cap|ch0].
  - intros [= <- <-]. simpl. split.
    + intros ch0 chan H. rewrite lookup_insert_ne; [done|]. congruence.
    + by rewrite lookup_insert_eq.
  - case_decide; [done|]. intros [= <- <-]. simpl. split.
    + intros ch0 chan H'. rewrite lookup_insert_ne; [done|]. congruence.
    + by rewrite lookup_insert_eq.
  - destruct (chans st !! ch0); [|done]. case_decide; [done|].
    by intros [= <- <-].
Qed.

Create Rewrite HintDb tasks.
#[local] Hint Rewrite
  writes_setError writes_setReply writes_removeCall writes_shutDown
  seqOf_setError seqOf_setReply seqOf_done seqOf_shutDown
  client_setError client_setReply client_done
  chans_setError chans_setReply chans_removeCall chans_shutDown
  calls_done calls_removeCall calls_shutDown
  pending_removeCall pending_shutDown isShutdown_removeCall : tasks.

(** [call.done()] on a call that is allocated and not yet signalled. *)
Lemma signal_spec c st :
  wfState st → is_Some (calls st !! c) → writes st c = 0 →
  wfState (done c st)
  ∧ writes (done c st) c = 1
  ∧ (∀ c', c' ≠ c → writes (done c st) c' = writes st c')
  ∧ calls (done c st) = calls st
  ∧ client (done c st) = client st
  ∧ (∀ c', seqOf (done c st) c' = seqOf st c').
Proof.
  intros Hwf [call Hc] Hw. split_and!.
  - by apply wf_done.
  - rewrite (writes_done_eq _ _ call Hc); [by rewrite Hw|].
    by apply (wf_done_chan _ Hwf c).
  - intros c' Hne. by apply writes_done_ne.
  - apply calls_done.
  - apply client_done.
  - intros c'. apply seqOf_done.
Qed.

(** ** The invariant holds at the start and is kept by every step *)

Lemma tinv_newTasks userChans : tinv (newTasks userChans).
Proof.
  split; simpl.
  - apply (inv_wf _ (inv_newSystem userChans)).
  - intros c. unfold writes. simpl. rewrite lookup_empty. lia.
  - intros s c Hs. by rewrite lookup_empty in Hs.
  - intros s c Hs. by rewrite lookup_empty in Hs.
  - done.
  - done.
  - done.
  - done.
  - done.
  - by intros [?|?].
  - intros ch n H. by rewrite lookup_empty in H.
  - intros s c Hs. by rewrite lookup_empty in Hs.
Qed.

Section Errorf.
Variable Errorf : string → string.

Abbreviation perform := (ClientTasks.perform Errorf).
Abbreviation performs := (ClientTasks.performs Errorf).

Ltac tsimpl :=
  cbn [store sendTask recvTask received withStore withSend withRecv
       recvHolds holdsMu unvisited visitedBy
       mbind option_bind fmap option_fmap option_map] in *.

Ltac tnorm := autorewrite with tasks in *.

Ltac tstart Hstep :=
  intros [Hwf Honce Hpend Hkey Hsend Hrecv Hat Hwr Hlock Hshut Htak Hvis] Hstep;
  match goal with
  | H : ClientTasks.perform _ ?t _ = _ |- _ => destruct t as [st sd rv rc]
  end;
  unfold ClientTasks.perform in Hstep; tsimpl.

Ltac tinj Hstep :=
  apply (inj Some) in Hstep;
  match type of Hstep with _ = ?t' => subst t' end; tsimpl.

(** The registration step of [Go], by the outcome of [registerCall]. *)
Lemma GoSend_spec t sm args d t1 :
  wfState (store t) → perform t (GoSend sm args d) = Some t1 →
  let c := fresh (dom (calls (store t))) in
  let s := seq (client (store t)) in
  sendTask t = SendIdle ∧ holdsMu (recvTask t) = false
  ∧ recvTask t1 = recvTask t ∧ received t1 = received t
  ∧ calls (store t) !! c = None
  ∧ wfState (store t1)
  ∧ (∀ c', c' ≠ c → calls (store t1) !! c' = calls (store t) !! c'
                    ∧ writes (store t1) c' = writes (store t) c')
  ∧ writes (store t1) c = 0
  ∧ (∃ st0 ch, resolveDone d (store t) = Some (st0, ch)
               ∧ chans (store t1) = chans st0
               ∧ Done <$> calls (store t1) !! c = Some ch)
  ∧ (isShutdown (client (store t)) || isClosed (client (store t)) = true →
       sendTask t1 = SendSignalling c ∧ client (store t1) = client (store t)
       ∧ ∃ ch, calls (store t1) !! c
               = Some {| Seq := 0; ServiceMethod := sm; Args := args; Reply := "";
                         Error := Some ErrShutdown; Done := ch |})
  ∧ (isShutdown (client (store t)) || isClosed (client (store t)) = false →
       sendTask t1 = SendWriting c s
       ∧ pending (client (store t1)) = <[s := c]> (pending (client (store t)))
       ∧ seq (client (store t1)) = wrap64 (s + 1)
       ∧ header (client (store t1))
         = {| hServiceMethod := sm; hSeq := s; hError := "" |}
       ∧ isShutdown (client (store t1)) = isShutdown (client (store t))
       ∧ isClosed (client (store t1)) = isClosed (client (store t))
       ∧ ∃ ch, calls (store t1) !! c
               = Some {| Seq := s; ServiceMethod := sm; Args := args; Reply := "";
                         Error := None; Done := ch |}).
Proof.
  intros Hwf Hstep c s. destruct t as [st sd rv rc].
  unfold ClientTasks.perform in Hstep. tsimpl.
  destruct sd; try done. destruct (holdsMu rv) eqn:Hmu; [done|].
  destruct (resolveDone d st) as [[st0 ch]|] eqn:Hr; [|done]. tsimpl.
  destruct (resolveDone_spec _ _ _ _ Hr Hwf) as (Hwf0 & Hch & Hcalls0 & Hcl0 & Hw0).
  pose proof (newCall_spec sm args ch st0 Hch Hwf0) as Hn.
  assert (Hceq : (newCall sm args ch st0).2 = c).
  { unfold newCall, c. simpl. by rewrite Hcalls0. }
  destruct (newCall sm args ch st0) as [st1 c0]. simpl in Hn, Hceq. subst c0.
  destruct Hn as (Hwf1 & Hfresh & Hc1 & Hwc & Hwo & Hco & Hcl1 & Hch1).
  assert (Hnotpending : ∀ s', pending (client st1) !! s' ≠ Some c).
  { intros s' Hs'. rewrite Hcl1 in Hs'.
    destruct (wf_pending_alloc _ Hwf0 s' c Hs') as [? ?]. congruence. }
  unfold registerCall in Hstep. rewrite Hcl1, Hcl0 in Hstep. fold s in Hstep.
  destruct (isShutdown (client st) || isClosed (client st)) eqn:Hflags;
    cbv beta iota zeta in Hstep; tinj Hstep.
  - split_and!; try done.
    + by rewrite <- Hcalls0.
    + by apply wf_updCall.
    + intros c' Hne. rewrite writes_setError.
      unfold setError, updCall. simpl. rewrite lookup_alter_ne by done.
      by rewrite Hco, Hwo, Hcalls0, Hw0.
    + by rewrite writes_setError.
    + exists st0, ch. split; [done|]. split; [by rewrite chans_setError|].
      unfold setError, updCall. simpl. by rewrite lookup_alter_eq, Hc1.
    + intros _. split; [done|]. split; [by rewrite client_setError, Hcl1, Hcl0|].
      exists ch. unfold setError, updCall. simpl.
      by rewrite lookup_alter_eq, Hc1.
  - apply orb_false_iff in Hflags as [Hsh Hclosed].
    split_and!; try done.
    + by rewrite <- Hcalls0.
    + apply wf_withClient; [|done].
      eapply (wf_insert_pending (setSeq c s st1)).
      * by apply wf_updCall.
      * unfold setSeq, updCall. simpl. apply is_Some_alter. eauto.
      * done.
      * simpl. by rewrite Hcl1, Hcl0.
    + intros c' Hne. unfold setHeader. rewrite !writes_withClient, writes_setSeq.
      unfold setSeq, updCall. simpl. rewrite lookup_alter_ne by done.
      by rewrite Hco, Hwo, Hcalls0, Hw0.
    + unfold setHeader. by rewrite !writes_withClient, writes_setSeq.
    + exists st0, ch. split; [done|]. split; [by rewrite <- Hch1|].
      unfold setHeader, setSeq, updCall. simpl.
      by rewrite lookup_alter_eq, Hc1.
    + intros _. unfold setHeader. simpl.
      split_and!; try done.
      exists ch. by rewrite lookup_alter_eq, Hc1.
Qed.

Lemma tinv_GoSend t sm args d t' :
  tinv t → perform t (GoSend sm args d) = Some t' → tinv t'.
Proof.
  intros [Hwf Honce Hpend Hkey Hsend Hrecv Hat Hwr Hlock Hshut Htak Hvis] Hstep.
  pose proof (GoSend_spec _ _ _ _ _ Hwf Hstep) as H. cbv zeta in H.
  set (c := fresh (dom (calls (store t)))) in *.
  set (s := seq (client (store t))) in *.
  destruct H as (Hsd & Hmu & Hrv & Hrc & Hfresh & Hwf' & Hoth & Hwc
                 & (st0 & ch & Hr & Hchans & Hdone) & Hrej & Hacc).
  assert (Halloc : ∀ c', is_Some (calls (store t) !! c') → c' ≠ c).
  { intros c' [x Hx] ->. congruence. }
  assert (Hal' : ∀ c', is_Some (calls (store t) !! c') →
                       is_Some (calls (store t') !! c')).
  { intros c' Hc'. by rewrite (proj1 (Hoth c' (Halloc c' Hc'))). }
  assert (Hpa : ∀ s' c', pending (client (store t)) !! s' = Some c' → c' ≠ c).
  { intros s' c' Hs'. apply Halloc. by apply (wf_pending_alloc _ Hwf s'). }
  assert (Hseq' : ∀ c', c' ≠ c → seqOf (store t') c' = seqOf (store t) c').
  { intros c' Hne. unfold seqOf. by rewrite (proj1 (Hoth c' Hne)). }
  assert (Hpold : ∀ s' c', pending (client (store t')) !! s' = Some c' →
                    (c' = c ∧ s' = s
                     ∧ isShutdown (client (store t))
                       || isClosed (client (store t)) = false)
                    ∨ pending (client (store t)) !! s' = Some c').
  { intros s' c' Hs'.
    destruct (isShutdown (client (store t)) || isClosed (client (store t)))
      eqn:Hflags.
    - destruct (Hrej eq_refl) as (_ & Hcl & _). rewrite Hcl in Hs'. by right.
    - destruct (Hacc eq_refl) as (_ & Hp & _). rewrite Hp in Hs'.
      destruct (decide (s = s')) as [<-|Hne].
      + rewrite lookup_insert_eq in Hs'. injection Hs' as <-. by left.
      + rewrite lookup_insert_ne in Hs' by done. by right. }
  assert (Hsh' : isShutdown (client (store t')) = isShutdown (client (store t))).
  { destruct (isShutdown (client (store t)) || isClosed (client (store t)))
      eqn:Hflags.
    - destruct (Hrej eq_refl) as (_ & Hcl & _). by rewrite Hcl.
    - by destruct (Hacc eq_refl) as (_ & _ & _ & _ & ? & _). }
  split; rewrite ?Hrv, ?Hrc, ?Hmu.
  - done.
  - intros c'. destruct (decide (c' = c)) as [->|Hne]; [lia|].
    rewrite (proj2 (Hoth c' Hne)). apply Honce.
  - intros s' c' Hs' Hv. destruct (Hpold s' c' Hs') as [(-> & _)|Hold]; [done|].
    rewrite (proj2 (Hoth c' (Hpa _ _ Hold))). by apply (Hpend s').
  - intros s' c' Hs'. destruct (Hpold s' c' Hs') as [(-> & -> & Hfl)|Hold].
    + destruct (Hacc Hfl) as (_ & _ & _ & _ & _ & _ & ch' & Hc).
      unfold seqOf. by rewrite Hc.
    + rewrite Hseq' by by eapply Hpa. by apply Hkey.
  - intros c' Hc'.
    destruct (isShutdown (client (store t)) || isClosed (client (store t)))
      eqn:Hflags.
    + destruct (Hrej eq_refl) as (Hs1 & Hcl & ch' & Hc).
      rewrite Hs1 in Hc'. injection Hc' as <-. rewrite Hcl.
      split_and!; [by rewrite Hc|done| |].
      * intros s' Hs'. by apply (Hpa s' c).
      * intros Hh. destruct (Hrecv c Hh) as ([x Hx] & _). congruence.
    + destruct (Hacc eq_refl) as (Hs1 & _). by rewrite Hs1 in Hc'.
  - intros c' Hc'. destruct (Hrecv c' Hc') as (H1 & H2 & H3).
    pose proof (Halloc c' H1) as Hne.
    rewrite (proj2 (Hoth c' Hne)). split_and!; [by apply Hal'|done|].
    intros s' Hs'. destruct (Hpold s' c' Hs') as [(-> & _)|Hold]; [done|].
    by apply (H3 s').
  - intros err visited c' E. by rewrite E in Hmu.
  - intros c' s' Hc'. split; [done|]. intros E.
    destruct (isShutdown (client (store t)) || isClosed (client (store t)))
      eqn:Hflags.
    + destruct (Hrej eq_refl) as (Hs1 & _). by rewrite Hs1 in Hc'.
    + apply orb_false_iff in Hflags as [Hsh _].
      rewrite Hshut in Hsh by by right. done.
  - done.
  - intros [?|E]; [done|]. rewrite Hsh'. apply Hshut. by right.
  - intros ch' n Hn. destruct (Htak ch' n Hn) as (chan & Hch & Hle).
    exists chan. split; [|done]. rewrite Hchans.
    by apply (proj1 (resolveDone_chans _ _ _ _ Hr)).
  - intros s' c' Hs' Hv. destruct (Hpold s' c' Hs') as [(-> & -> & Hfl)|Hold].
    + exfalso. apply orb_false_iff in Hfl as [Hsh _].
      rewrite Hshut in Hsh; [done|].
      destruct (recvTask t); try done. by right.
    + rewrite (proj2 (Hoth c' (Hpa _ _ Hold))). by apply (Hvis s').
Qed.

Lemma tinv_WriteReturns t werr t' :
  tinv t → perform t (WriteReturns werr) = Some t' → tinv t'.
Proof.
  tstart Hstep.
  destruct sd as [|c0 s|]; try done.
  destruct (Hwr c0 s eq_refl) as [Hmu Hex]. rewrite Hmu in Hstep.
  assert (Hun : ∀ s', unvisited rv s').
  { intros s'. destruct rv; try done. }
  assert (Hnv : ∀ s', ¬ visitedBy rv s').
  { intros s'. destruct rv; simpl in *; try done; by intros []. }
  destruct werr as [e|].
  - assert (Hrm : removeCall s st
                  = ((removeCall s st).1, pending (client st) !! s)) by done.
    rewrite Hrm in Hstep. clear Hrm.
    set (st1 := (removeCall s st).1) in *.
    assert (Hwf1 : wfState st1) by by apply wf_removeCall.
    assert (Hp1 : ∀ s' c, pending (client st1) !! s' = Some c →
                          s' ≠ s ∧ pending (client st) !! s' = Some c).
    { intros s' c Hs. unfold st1 in Hs. rewrite pending_removeCall in Hs.
      apply lookup_delete_Some in Hs as [Hne Hs]. split; [by intros ->|done]. }
    destruct (pending (client st) !! s) as [c|] eqn:Hs; tinj Hstep.
    + split; tsimpl; rewrite ?Hmu; try done.
      * by apply wf_updCall.
      * intros c'. tnorm. apply Honce.
      * intros s' c' Hs' _. tnorm. apply (Hpend s'); [|done]. by apply Hp1.
      * intros s' c' Hs'. tnorm. by apply Hkey, Hp1.
      * intros c' [= <-]. tnorm. split_and!.
        -- apply alloc_setError. by apply (wf_pending_alloc _ Hwf s).
        -- by apply (Hpend s).
        -- intros s' Hs'. destruct (Hp1 _ _ Hs') as [Hne Hs''].
           apply Hne. by apply (wf_pending_inj _ Hwf s' s c).
        -- intros Hh. destruct (Hrecv c Hh) as (_ & _ & H3). by apply (H3 s).
      * intros c' Hc'. destruct (Hrecv c' Hc') as (H1 & H2 & H3). tnorm.
        split_and!; [by apply alloc_setError|done|].
        intros s' Hs'. by apply (H3 s'), Hp1.
      * intros err visited c' ->. done.
      * intros [?|?]; [done|]. tnorm. apply Hshut. by right.
      * intros s' c' _ Hv. by destruct (Hnv s').
    + split; tsimpl; rewrite ?Hmu; try done.
      * intros s' c' Hs' _. apply (Hpend s'); [|done]. by apply Hp1.
      * intros s' c' Hs'. by apply Hkey, Hp1.
      * intros c' Hc'. destruct (Hrecv c' Hc') as (H1 & H2 & H3).
        split_and!; [done|done|]. intros s' Hs'. by apply (H3 s'), Hp1.
      * intros err visited c' ->. done.
      * by intros [?|?].
      * intros s' c' _ Hv. by destruct (Hnv s').
  - tinj Hstep. split; tsimpl; rewrite ?Hmu; try done. by intros [?|?].
Qed.

Lemma tinv_HeaderFails t err t' :
  tinv t → perform t (HeaderFails err) = Some t' → tinv t'.
Proof.
  tstart Hstep. destruct rv; try done. tinj Hstep.
  split; tsimpl; try done. by intros [?|?].
Qed.

Lemma tinv_Takes t ch t' :
  tinv t → perform t (Takes ch) = Some t' → tinv t'.
Proof.
  tstart Hstep. unfold take in Hstep. tsimpl.
  destruct (chans st !! ch) as [chan|] eqn:Hch; [|done]. tsimpl.
  destruct (sent chan !! default 0 (rc !! ch)) as [v|] eqn:Hv; [|done].
  tsimpl. tinj Hstep.
  split; cbn [fst]; tsimpl; try done.
  intros ch' n Hn. destruct (decide (ch = ch')) as [<-|Hne].
  - rewrite lookup_insert_eq in Hn. injection Hn as <-. exists chan.
    split; [done|]. apply lookup_lt_Some in Hv. lia.
  - rewrite lookup_insert_ne in Hn by done. eauto.
Qed.

Lemma tinv_Closes t t' :
  tinv t → perform t Closes = Some t' → tinv t'.
Proof.
  tstart Hstep.
  destruct (holdsMu rv) eqn:Hmu; [done|]. tinj Hstep.
  pose proof (wf_Close st Hwf) as Hwf'. unfold Close in *.
  destruct (isClosed (client st)); split; tsimpl; rewrite ?Hmu; try done.
Qed.

Lemma tinv_Cancels t c t' :
  tinv t → perform t (Cancels c) = Some t' → tinv t'.
Proof.
  tstart Hstep.
  destruct (holdsMu rv) eqn:Hmu; [done|].
  destruct (calls st !! c) as [call|] eqn:Hc; [|done]. tsimpl.
  tinj Hstep.
  split; tsimpl;
    rewrite ?Hmu, ?calls_removeCall, ?chans_removeCall, ?isShutdown_removeCall;
    try done.
  - by apply wf_removeCall.
  - intros s c' Hs. rewrite pending_removeCall in Hs.
    apply lookup_delete_Some in Hs as [_ Hs]. by apply Hpend.
  - intros s c' Hs. rewrite pending_removeCall in Hs.
    apply lookup_delete_Some in Hs as [_ Hs]. by apply Hkey.
  - intros c' Hc'. destruct (Hsend c' Hc') as (H1 & H2 & H3 & H4).
    split_and!; try done. intros s Hs. rewrite pending_removeCall in Hs.
    apply lookup_delete_Some in Hs as [_ Hs]. by apply (H3 s).
  - intros c' Hc'. destruct (Hrecv c' Hc') as (H1 & H2 & H3).
    split_and!; try done. intros s Hs. rewrite pending_removeCall in Hs.
    apply lookup_delete_Some in Hs as [_ Hs]. by apply (H3 s).
  - intros err visited c' ->. done.
  - intros s c' Hs Hv. rewrite pending_removeCall in Hs.
    apply lookup_delete_Some in Hs as [_ Hs]. by apply (Hvis s).
Qed.

Lemma tinv_TermEnters t t' :
  tinv t → perform t TermEnters = Some t' → tinv t'.
Proof.
  tstart Hstep.
  destruct rv; try done. destruct sd; try done. tinj Hstep.
  split; tsimpl; tnorm; try done.
  - by apply wf_shutDown.
  - intros s c Hs _. by apply (Hpend s).
Qed.

Lemma tinv_TermVisits t s t' :
  tinv t → perform t (TermVisits s) = Some t' → tinv t'.
Proof.
  tstart Hstep.
  destruct rv as [| | | |err visited [c0|]|]; try done.
  case_decide as Hv; [done|].
  destruct (pending (client st) !! s) as [c|] eqn:Hs; [|done]. tsimpl.
  tinj Hstep. specialize (Hlock eq_refl). subst sd.
  split; tsimpl; try done.
  - by apply wf_updCall.
  - intros c'. tnorm. apply Honce.
  - intros s' c' Hs' Hv'. tnorm. apply (Hpend s' c' Hs'). simpl in *.
    intros Hin. apply Hv'. apply elem_of_union. by right.
  - intros s' c' Hs'. tnorm. by apply Hkey.
  - intros err' visited' c' [= <- <- <-]. tnorm. split.
    + by apply (Hpend s).
    + exists s. split; [|done]. apply elem_of_union. left.
      by apply elem_of_singleton.
  - intros _. tnorm. apply Hshut. by left.
  - intros s' c' Hs' Hv'. tnorm. apply elem_of_union in Hv' as [Hv'|Hv'].
    + apply elem_of_singleton in Hv' as ->. rewrite Hs in Hs'.
      injection Hs' as <-. right. eauto.
    + destruct (Hvis s' c' Hs' Hv') as [?|(e & v & [=])]. by left.
Qed.

Lemma tinv_TermSignals t t' :
  tinv t → perform t TermSignals = Some t' → tinv t'.
Proof.
  tstart Hstep.
  destruct rv as [| | | |err visited [c|]|]; try done.
  destruct (canSignal _ c); [|done]. tinj Hstep.
  specialize (Hlock eq_refl). subst sd.
  destruct (Hat err visited c eq_refl) as (Hw & s & Hsv & Hs).
  destruct (signal_spec c st Hwf (wf_pending_alloc _ Hwf _ _ Hs) Hw)
    as (Hwf' & Hw1 & Hwo & Hcalls & Hcl & Hseq).
  split; tsimpl; try done.
  - intros c'. destruct (decide (c' = c)) as [->|Hne]; [lia|].
    rewrite Hwo by done. apply Honce.
  - intros s' c'. rewrite Hcl. intros Hs' Hv'. simpl in Hv'.
    assert (c' ≠ c).
    { intros ->. apply Hv'.
      by rewrite (wf_pending_inj _ Hwf s' s c Hs' Hs). }
    rewrite Hwo by done. by apply (Hpend s').
  - intros s' c'. rewrite Hcl, Hseq. by apply Hkey.
  - intros _. rewrite Hcl. apply Hshut. by left.
  - intros ch n Hn. destruct (Htak ch n Hn) as (chan & Hch & Hle).
    destruct (done_chans c st ch chan Hch) as (chan' & Hch' & _ & Hle').
    exists chan'. split; [done|lia].
  - intros s' c'. rewrite Hcl. intros Hs' Hv'. left.
    destruct (decide (c' = c)) as [->|Hne]; [done|]. rewrite Hwo by done.
    destruct (Hvis s' c' Hs' Hv') as [?|(e & v & [= _ _ ->])]; done.
Qed.

Lemma tinv_TermReturns t t' :
  tinv t → perform t TermReturns = Some t' → tinv t'.
Proof.
  tstart Hstep.
  destruct rv as [| | | |err visited [c|]|]; try done.
  case_decide as Hv; [|done]. tinj Hstep.
  specialize (Hlock eq_refl). subst sd.
  split; tsimpl; try done.
  - intros _. apply Hshut. by left.
  - intros s c Hs _. left.
    assert (Hin : s ∈ visited).
    { apply Hv. apply elem_of_dom. eauto. }
    destruct (Hvis s c Hs Hin) as [?|(e & v & [=])]. done.
Qed.

Lemma tinv_SendSignals t t' :
  tinv t → perform t SendSignals = Some t' → tinv t'.
Proof.
  tstart Hstep.
  destruct sd as [| |c]; try done.
  destruct (canSignal _ c); [|done]. tinj Hstep.
  destruct (Hsend c eq_refl) as (Hc & Hw & Hnp & Hnr).
  destruct (signal_spec c st Hwf Hc Hw)
    as (Hwf' & Hw1 & Hwo & Hcalls & Hcl & Hseq).
  split; tsimpl; rewrite ?Hcl, ?Hcalls; try done.
  - intros c'. destruct (decide (c' = c)) as [->|Hne]; [lia|].
    rewrite Hwo by done. apply Honce.
  - intros s' c' Hs' Hv'.
    assert (c' ≠ c) by (intros ->; by apply (Hnp s')).
    rewrite Hwo by done. by apply (Hpend s').
  - intros s' c'. rewrite Hseq. by apply Hkey.
  - intros c' Hc'. destruct (Hrecv c' Hc') as (H1 & H2 & H3).
    assert (c' ≠ c) by congruence.
    rewrite Hwo by done. done.
  - intros err visited c' ->. by specialize (Hlock eq_refl).
  - intros ch n Hn. destruct (Htak ch n Hn) as (chan & Hch & Hle).
    destruct (done_chans c st ch chan Hch) as (chan' & Hch' & _ & Hle').
    exists chan'. split; [done|lia].
  - intros s' c' Hs' Hv'.
    assert (c' ≠ c) by (intros ->; by apply (Hnp s')).
    rewrite Hwo by done. by apply (Hvis s').
Qed.

Lemma afterFrame_facts err :
  recvHolds (afterFrame err) = None
  ∧ holdsMu (afterFrame err) = false
  ∧ afterFrame err ≠ RecvExited
  ∧ (∀ s, unvisited (afterFrame err) s)
  ∧ (∀ e visited c, afterFrame err ≠ Terminating e visited c)
  ∧ ∀ s, ¬ visitedBy (afterFrame err) s.
Proof. destruct err; split_and!; try done; by intros ? []. Qed.

Lemma tinv_RecvSignals t t' :
  tinv t → perform t RecvSignals = Some t' → tinv t'.
Proof.
  tstart Hstep.
  destruct rv as [| |c err| | |]; try done.
  destruct (canSignal _ c); [|done]. tinj Hstep.
  destruct (Hrecv c eq_refl) as (Hc & Hw & Hnp).
  destruct (signal_spec c st Hwf Hc Hw)
    as (Hwf' & Hw1 & Hwo & Hcalls & Hcl & Hseq).
  destruct (afterFrame_facts err) as (Hr1 & Hr2 & Hr3 & Hr4 & Hr5 & Hr6).
  split; tsimpl; rewrite ?Hcl, ?Hcalls, ?Hr1, ?Hr2; try done.
  - intros c'. destruct (decide (c' = c)) as [->|Hne]; [lia|].
    rewrite Hwo by done. apply Honce.
  - intros s' c' Hs' _.
    assert (c' ≠ c) by (intros ->; by apply (Hnp s')).
    rewrite Hwo by done. by apply (Hpend s').
  - intros s' c'. rewrite Hseq. by apply Hkey.
  - intros c' Hc'. destruct (Hsend c' Hc') as (H1 & H2 & H3 & H4).
    assert (c' ≠ c) by (simpl in H4; congruence).
    rewrite Hwo by done. done.
  - intros err' visited c' E. by destruct (Hr5 err' visited (Some c')).
  - by intros [?|?].
  - intros ch n Hn. destruct (Htak ch n Hn) as (chan & Hch & Hle).
    destruct (done_chans c st ch chan Hch) as (chan' & Hch' & _ & Hle').
    exists chan'. split; [done|lia].
  - intros s' c' _ Hv'. by destruct (Hr6 s').
Qed.

Lemma tinv_BodyRead t body berr t' :
  tinv t → perform t (BodyRead body berr) = Some t' → tinv t'.
Proof.
  tstart Hstep.
  destruct rv as [|h [c|]| | | |]; try done.
  - destruct (Hrecv c eq_refl) as (Hc & Hw & Hnp).
    assert (Hgoal : ∀ st', wfState st' →
              (∀ c', writes st' c' = writes st c') →
              (∀ c', seqOf st' c' = seqOf st c') →
              (∀ c', is_Some (calls st' !! c') ↔ is_Some (calls st !! c')) →
              client st' = client st → chans st' = chans st →
              tinv {| store := st'; sendTask := sd;
                      recvTask := RecvSignalling c berr; received := rc |}).
    { intros st' Hwf' Hw' Hseq' Hal' Hcl' Hch'.
      split; tsimpl; rewrite ?Hcl', ?Hch'; try done.
      - intros c'. rewrite Hw'. apply Honce.
      - intros s' c' Hs' _. rewrite Hw'. by apply (Hpend s').
      - intros s' c' Hs'. rewrite Hseq'. by apply Hkey.
      - intros c' Hc'. destruct (Hsend c' Hc') as (H1 & H2 & H3 & H4).
        rewrite Hal', Hw'. done.
      - intros c' [= <-]. rewrite Hal', Hw'. done.
      - by intros [?|?]. }
    case_bool_decide; [|destruct berr as [e|]]; tinj Hstep; apply Hgoal;
      try done; intros; tnorm; try done;
      try (by apply wf_updCall); try apply alloc_setError;
      try apply alloc_setReply.
  - tinj Hstep.
    destruct (afterFrame_facts berr) as (Hr1 & Hr2 & Hr3 & Hr4 & Hr5 & Hr6).
    split; tsimpl; rewrite ?Hr1, ?Hr2; try done.
    + intros s' c' Hs' _. by apply (Hpend s').
    + intros err' visited c' E. by destruct (Hr5 err' visited (Some c')).
    + by intros [?|?].
    + intros s' c' _ Hv'. by destruct (Hr6 s').
Qed.

Lemma tinv_HeaderRead t h t' :
  tinv t → perform t (HeaderRead h) = Some t' → tinv t'.
Proof.
  tstart Hstep.
  destruct rv; try done.
  assert (Hrm : removeCall (hSeq h) st
                = ((removeCall (hSeq h) st).1, pending (client st) !! hSeq h))
    by done.
  rewrite Hrm in Hstep. clear Hrm.
  set (st1 := (removeCall (hSeq h) st).1) in *.
  assert (Hwf1 : wfState st1) by by apply wf_removeCall.
  assert (Hp1 : ∀ s c, pending (client st1) !! s = Some c →
                       s ≠ hSeq h ∧ pending (client st) !! s = Some c).
  { intros s c Hs. unfold st1 in Hs. rewrite pending_removeCall in Hs.
    apply lookup_delete_Some in Hs as [Hne Hs]. split; [by intros ->|done]. }
  assert (Hgoal : ∀ st' call,
            pending (client st) !! hSeq h = call →
            wfState st' →
            (∀ c', writes st' c' = writes st c') →
            (∀ c', seqOf st' c' = seqOf st c') →
            (∀ c', is_Some (calls st' !! c') ↔ is_Some (calls st !! c')) →
            client st' = client st1 → chans st' = chans st →
            tinv {| store := st'; sendTask := sd;
                    recvTask := RecvBody h call; received := rc |}).
  { intros st' call Hcall Hwf' Hw' Hseq' Hal' Hcl' Hch'.
    split; tsimpl; rewrite ?Hcl', ?Hch'; try done.
    - intros c'. rewrite Hw'. apply Honce.
    - intros s' c' Hs' _. rewrite Hw'. apply (Hpend s'); [|done].
      by apply Hp1.
    - intros s' c' Hs'. rewrite Hseq'. by apply Hkey, Hp1.
    - intros c' Hc'. destruct (Hsend c' Hc') as (H1 & H2 & H3 & H4).
      rewrite Hal', Hw'. split_and!; try done.
      + intros s' Hs'. by apply (H3 s'), Hp1.
      + destruct call as [c|]; [|done]. simpl. intros [= ->].
        by apply (H3 (hSeq h)).
    - intros c'. destruct call as [c|]; [|done]. simpl. intros [= <-].
      rewrite Hal', Hw'. split_and!.
      + by apply (wf_pending_alloc _ Hwf (hSeq h)).
      + by apply (Hpend (hSeq h)).
      + intros s' Hs'. destruct (Hp1 _ _ Hs') as [Hne Hs''].
        apply Hne. by apply (wf_pending_inj _ Hwf s' (hSeq h) c).
    - by intros [?|?]. }
  destruct (pending (client st) !! hSeq h) as [c|] eqn:Hs.
  - case_bool_decide; tinj Hstep; apply Hgoal; try done; intros; tnorm;
      try done; try (by apply wf_updCall);
      try (rewrite alloc_setError; unfold st1; by rewrite calls_removeCall).
  - tinj Hstep. by apply Hgoal.
Qed.

Lemma tinv_perform t a t' : tinv t → perform t a = Some t' → tinv t'.
Proof.
  intros Hinv Hstep. destruct a.
  - by eapply tinv_GoSend.
  - by eapply tinv_WriteReturns.
  - by eapply tinv_SendSignals.
  - by eapply tinv_HeaderRead.
  - by eapply tinv_HeaderFails.
  - by eapply tinv_BodyRead.
  - by eapply tinv_RecvSignals.
  - by eapply tinv_TermEnters.
  - by eapply tinv_TermVisits.
  - by eapply tinv_TermSignals.
  - by eapply tinv_TermReturns.
  - by eapply tinv_Cancels.
  - by eapply tinv_Closes.
  - by eapply tinv_Takes.
Qed.

Lemma tinv_performs acts t t' : tinv t → performs t acts = Some t' → tinv t'.
Proof.
  revert t. induction acts as [|a acts IH]; intros t Hinv Hrun;
    cbn [ClientTasks.performs] in Hrun.
  - by injection Hrun as <-.
  - destruct (perform t a) as [t1|] eqn:E; [|done].
    cbn [mbind option_bind] in Hrun.
    eapply IH; [by eapply tinv_perform|done].
Qed.

Lemma tinv_reachable userChans acts t :
  performs (newTasks userChans) acts = Some t → tinv t.
Proof. apply tinv_performs, tinv_newTasks. Qed.

(** ** Who writes on [Done] *)

Lemma writes_unallocated st c : calls st !! c = None → writes st c = 0.
Proof. intros H. unfold writes. by rewrite H. Qed.

(** The only steps that write on a channel are the three [call.done()]:
    each takes the count of its call from 0 to 1 and leaves the other
    counts as they are. *)
Lemma perform_writes t a t' c :
  tinv t → perform t a = Some t' →
  (signalled t a = Some c → writes (store t) c = 0 ∧ writes (store t') c = 1)
  ∧ (signalled t a ≠ Some c → writes (store t') c = writes (store t) c).
Proof.
  intros Hinv Hstep. pose proof Hinv as HI. revert Hinv Hstep. destruct a.
  - (* GoSend *)
    intros [Hwf _ _ _ _ _ _ _ _ _ _ _] Hstep.
    pose proof (GoSend_spec _ _ _ _ _ Hwf Hstep) as H. cbv zeta in H.
    destruct H as (Hsd & _ & _ & _ & Hfresh & _ & Hoth & Hwc & _).
    split; [by destruct (sendTask t), (recvTask t)|]. intros _.
    destruct (decide (c = fresh (dom (calls (store t))))) as [->|Hne].
    + by rewrite Hwc, writes_unallocated.
    + by apply Hoth.
  - (* WriteReturns *)
    tstart Hstep. split; [by destruct sd, rv|]. intros _.
    destruct sd as [|c0 s|]; try done. destruct (holdsMu rv); [done|].
    destruct werr as [e|]; [|by tinj Hstep].
    assert (Hrm : removeCall s st
                  = ((removeCall s st).1, pending (client st) !! s)) by done.
    rewrite Hrm in Hstep. clear Hrm.
    destruct (pending (client st) !! s); tinj Hstep; by tnorm.
  - (* SendSignals *)
    tstart Hstep. destruct sd as [| |c0]; try done.
    destruct (canSignal _ c0); [|done]. tinj Hstep.
    destruct (Hsend c0 eq_refl) as (Hc & Hw & _).
    destruct (signal_spec c0 st Hwf Hc Hw) as (_ & Hw1 & Hwo & _).
    unfold signalled. tsimpl. split.
    + by intros [= <-].
    + intros Hne. apply Hwo. congruence.
  - (* HeaderRead *)
    tstart Hstep. split; [by destruct sd, rv|]. intros _.
    destruct rv; try done.
    assert (Hrm : removeCall (hSeq h) st
                  = ((removeCall (hSeq h) st).1, pending (client st) !! hSeq h))
      by done.
    rewrite Hrm in Hstep. clear Hrm.
    destruct (pending (client st) !! hSeq h); [case_bool_decide|];
      tinj Hstep; by tnorm.
  - (* HeaderFails *)
    tstart Hstep. split; [by destruct sd, rv|]. intros _.
    destruct rv; try done. by tinj Hstep.
  - (* BodyRead *)
    tstart Hstep. split; [by destruct sd, rv|]. intros _.
    destruct rv as [|h [c0|]| | | |]; try done.
    + case_bool_decide; [|destruct berr]; tinj Hstep; by tnorm.
    + by tinj Hstep.
  - (* RecvSignals *)
    tstart Hstep. destruct rv as [| |c0 err| | |]; try done.
    destruct (canSignal _ c0); [|done]. tinj Hstep.
    destruct (Hrecv c0 eq_refl) as (Hc & Hw & _).
    destruct (signal_spec c0 st Hwf Hc Hw) as (_ & Hw1 & Hwo & _).
    unfold signalled. tsimpl. split.
    + destruct sd; by intros [= <-].
    + intros Hne. apply Hwo. destruct sd; congruence.
  - (* TermEnters *)
    tstart Hstep. split; [by destruct sd, rv|]. intros _.
    destruct rv; try done. destruct sd; try done. by tinj Hstep.
  - (* TermVisits *)
    tstart Hstep. split; [by destruct sd, rv|]. intros _.
    destruct rv as [| | | |err visited [c0|]|]; try done.
    case_decide; [done|].
    destruct (pending (client st) !! s); [|done]. tsimpl. tinj Hstep.
    by tnorm.
  - (* TermSignals *)
    tstart Hstep. destruct rv as [| | | |err visited [c0|]|]; try done.
    destruct (canSignal _ c0); [|done]. tinj Hstep.
    destruct (Hat err visited c0 eq_refl) as (Hw & s & _ & Hs).
    destruct (signal_spec c0 st Hwf (wf_pending_alloc _ Hwf _ _ Hs) Hw)
      as (_ & Hw1 & Hwo & _).
    unfold signalled. tsimpl. split.
    + destruct sd; by intros [= <-].
    + intros Hne. apply Hwo. destruct sd; congruence.
  - (* TermReturns *)
    tstart Hstep. split; [by destruct sd, rv|]. intros _.
    destruct rv as [| | | |err visited [c0|]|]; try done.
    case_decide; [|done]. by tinj Hstep.
  - (* Cancels *)
    tstart Hstep. split; [by destruct sd, rv|]. intros _.
    destruct (holdsMu rv); [done|].
    destruct (calls st !! c0); [|done]. tsimpl. tinj Hstep. by tnorm.
  - (* Closes *)
    tstart Hstep. split; [by destruct sd, rv|]. intros _.
    destruct (holdsMu rv); [done|]. by tinj Hstep.
  - (* Takes *)
    tstart Hstep. split; [by destruct sd, rv|]. intros _.
    unfold take in Hstep. tsimpl.
    destruct (chans st !! ch); [|done]. tsimpl.
    destruct (sent _ !! _); [|done]. tsimpl. by tinj Hstep.
Qed.

(** The call a task is about to signal: [send] and [receive] have taken
    theirs out of [pending]; the range of [terminateCalls] has found its
    one there. *)
Lemma signalled_where t a c :
  tinv t → signalled t a = Some c →
  is_Some (calls (store t) !! c)
  ∧ (a = TermSignals → ∃ s, pending (client (store t)) !! s = Some c)
  ∧ (a ≠ TermSignals → ∀ s, pending (client (store t)) !! s ≠ Some c).
Proof.
  intros [Hwf _ _ _ Hsend Hrecv Hat _ _ _ _ _] Hs. unfold signalled in Hs.
  destruct a; try (by destruct (sendTask t), (recvTask t)).
  - destruct (sendTask t) as [| |c0] eqn:E; try done. injection Hs as ->.
    destruct (Hsend c eq_refl) as (H1 & _ & H3 & _). done.
  - destruct (recvTask t) as [| |c0 err| | |] eqn:E;
      try (by destruct (sendTask t)).
    assert (c0 = c) by (by destruct (sendTask t); injection Hs). subst c0.
    destruct (Hrecv c eq_refl) as (H1 & _ & H3). done.
  - destruct (recvTask t) as [| | | |err visited [c0|]|] eqn:E;
      try (by destruct (sendTask t)).
    assert (c0 = c) by (by destruct (sendTask t); injection Hs). subst c0.
    destruct (Hat err visited c eq_refl) as (_ & s & _ & Hp).
    split_and!; [by apply (wf_pending_alloc _ Hwf s)|eauto|done].
Qed.

(** ** Calls that nobody holds *)

(** How a call comes into [pending] or into the hands of a task: [pending]
    gains new calls only; [send] takes its call from [pending], or it is
    new; [receive] takes its call from [pending].  No call is ever
    deallocated. *)
Lemma perform_holds t a t' :
  wfState (store t) → perform t a = Some t' →
  (∀ s c, pending (client (store t')) !! s = Some c →
          pending (client (store t)) !! s = Some c ∨ calls (store t) !! c = None)
  ∧ (∀ c, sendTask t' = SendSignalling c →
          sendTask t = SendSignalling c
          ∨ (∃ s, pending (client (store t)) !! s = Some c)
          ∨ calls (store t) !! c = None)
  ∧ (∀ c, recvHolds (recvTask t') = Some c →
          recvHolds (recvTask t) = Some c
          ∨ ∃ s, pending (client (store t)) !! s = Some c)
  ∧ (∀ c, is_Some (calls (store t) !! c) → is_Some (calls (store t') !! c)).
Proof.
  intros Hwf Hstep. destruct a.
  - (* GoSend *)
    pose proof (GoSend_spec _ _ _ _ _ Hwf Hstep) as H. cbv zeta in H.
    destruct H as (Hsd & _ & Hrv & _ & Hfresh & _ & Hoth & _ & _ & Hrej & Hacc).
    assert (Halloc : ∀ c', is_Some (calls (store t) !! c') →
                           c' ≠ fresh (dom (calls (store t)))).
    { intros c' [x Hx] ->. congruence. }
    rewrite Hrv.
    destruct (isShutdown (client (store t)) || isClosed (client (store t))).
    + destruct (Hrej eq_refl) as (Hs1 & Hcl & _). rewrite Hs1, Hcl.
      split_and!; [by left| |by left|].
      * intros c [= <-]. by right; right.
      * intros c Hc. by rewrite (proj1 (Hoth c (Halloc c Hc))).
    + destruct (Hacc eq_refl) as (Hs1 & Hp & _). rewrite Hs1, Hp.
      split_and!; [|done|by left|].
      * intros s c Hs.
        destruct (decide (seq (client (store t)) = s)) as [<-|Hne].
        -- rewrite lookup_insert_eq in Hs. injection Hs as <-. by right.
        -- rewrite lookup_insert_ne in Hs by done. by left.
      * intros c Hc. by rewrite (proj1 (Hoth c (Halloc c Hc))).
  - (* WriteReturns *)
    destruct t as [st sd rv rc]. unfold ClientTasks.perform in Hstep. tsimpl.
    destruct sd as [|c0 s|]; try done. destruct (holdsMu rv); [done|].
    destruct werr as [e|]; [|tinj Hstep; split_and!; try done; by left].
    assert (Hrm : removeCall s st
                  = ((removeCall s st).1, pending (client st) !! s)) by done.
    rewrite Hrm in Hstep. clear Hrm.
    destruct (pending (client st) !! s) as [c|] eqn:Hs; tinj Hstep;
      (split_and!; [| |by left|]).
    + intros s' c'. tnorm. intros Hx.
      apply lookup_delete_Some in Hx as [_ Hx]. by left.
    + intros c' [= <-]. right. left. eauto.
    + intros c'. by rewrite alloc_setError.
    + intros s' c'. tnorm. intros Hx.
      apply lookup_delete_Some in Hx as [_ Hx]. by left.
    + done.
    + done.
  - (* SendSignals *)
    destruct t as [st sd rv rc]. unfold ClientTasks.perform in Hstep. tsimpl.
    destruct sd as [| |c0]; try done.
    destruct (canSignal _ c0); [|done]. tinj Hstep.
    split_and!; [|done|by left|].
    + intros s c. tnorm. by left.
    + intros c. by tnorm.
  - (* HeaderRead *)
    destruct t as [st sd rv rc]. unfold ClientTasks.perform in Hstep. tsimpl.
    destruct rv; try done.
    assert (Hrm : removeCall (hSeq h) st
                  = ((removeCall (hSeq h) st).1, pending (client st) !! hSeq h))
      by done.
    rewrite Hrm in Hstep. clear Hrm.
    destruct (pending (client st) !! hSeq h) as [c|] eqn:Hs;
      [case_bool_decide|]; tinj Hstep;
      (split_and!; [|by left| |]); try done.
    + intros s' c'. tnorm. intros Hx.
      apply lookup_delete_Some in Hx as [_ Hx]. by left.
    + intros c' [= <-]. right. eauto.
    + intros c'. by rewrite alloc_setError.
    + intros s' c'. tnorm. intros Hx.
      apply lookup_delete_Some in Hx as [_ Hx]. by left.
    + intros c' [= <-]. right. eauto.
    + intros s' c'. tnorm. intros Hx.
      apply lookup_delete_Some in Hx as [_ Hx]. by left.
  - (* HeaderFails *)
    destruct t as [st sd rv rc]. unfold ClientTasks.perform in Hstep. tsimpl.
    destruct rv; try done. tinj Hstep. split_and!; try done; by left.
  - (* BodyRead *)
    destruct t as [st sd rv rc]. unfold ClientTasks.perform in Hstep. tsimpl.
    destruct rv as [|h [c0|]| | | |]; try done.
    + case_bool_decide; [|destruct berr]; tinj Hstep;
        (split_and!; [by left|by left|by left|]); try done.
      * intros c. by rewrite alloc_setError.
      * intros c. by rewrite alloc_setReply.
    + tinj Hstep. split_and!; [by left|by left| |done].
      intros c Hc. by destruct berr.
  - (* RecvSignals *)
    destruct t as [st sd rv rc]. unfold ClientTasks.perform in Hstep. tsimpl.
    destruct rv as [| |c0 err| | |]; try done.
    destruct (canSignal _ c0); [|done]. tinj Hstep.
    split_and!; [|by left| |].
    + intros s c. tnorm. by left.
    + intros c Hc. by destruct err.
    + intros c. by tnorm.
  - (* TermEnters *)
    destruct t as [st sd rv rc]. unfold ClientTasks.perform in Hstep. tsimpl.
    destruct rv; try done. destruct sd; try done. tinj Hstep.
    split_and!; try done. intros s c. tnorm. by left.
  - (* TermVisits *)
    destruct t as [st sd rv rc]. unfold ClientTasks.perform in Hstep. tsimpl.
    destruct rv as [| | | |err visited [c0|]|]; try done.
    case_decide; [done|].
    destruct (pending (client st) !! s) as [c|]; [|done]. tsimpl. tinj Hstep.
    split_and!; [by left|by left|done|].
    intros c'. by rewrite alloc_setError.
  - (* TermSignals *)
    destruct t as [st sd rv rc]. unfold ClientTasks.perform in Hstep. tsimpl.
    destruct rv as [| | | |err visited [c0|]|]; try done.
    destruct (canSignal _ c0); [|done]. tinj Hstep.
    split_and!; [|by left|done|].
    + intros s c. tnorm. by left.
    + intros c. by tnorm.
  - (* TermReturns *)
    destruct t as [st sd rv rc]. unfold ClientTasks.perform in Hstep. tsimpl.
    destruct rv as [| | | |err visited [c0|]|]; try done.
    case_decide; [|done]. tinj Hstep. split_and!; try done; by left.
  - (* Cancels *)
    destruct t as [st sd rv rc]. unfold ClientTasks.perform in Hstep. tsimpl.
    destruct (holdsMu rv); [done|].
    destruct (calls st !! c) as [call|]; [|done]. tsimpl. tinj Hstep.
    split_and!; [|by left|by left|done].
    intros s' c'. tnorm. intros Hx.
    apply lookup_delete_Some in Hx as [_ Hx]. by left.
  - (* Closes *)
    destruct t as [st sd rv rc]. unfold ClientTasks.perform in Hstep. tsimpl.
    destruct (holdsMu rv); [done|]. tinj Hstep.
    split_and!; [|by left|by left|done].
    intros s c. unfold Close. simpl. destruct (isClosed (client st)); by left.
  - (* Takes *)
    destruct t as [st sd rv rc]. unfold ClientTasks.perform in Hstep. tsimpl.
    unfold take in Hstep. tsimpl.
    destruct (chans st !! ch); [|done]. tsimpl.
    destruct (sent _ !! _); [|done]. tsimpl. tinj Hstep.
    split_and!; try done; by left.
Qed.

(** A call that is allocated and out of the client's reach stays so, and
    no step writes on its channel for it. *)
Lemma perform_released t a t' c :
  tinv t → is_Some (calls (store t) !! c) → released t c →
  perform t a = Some t' →
  writes (store t') c = writes (store t) c
  ∧ is_Some (calls (store t') !! c)
  ∧ released t' c.
Proof.
  intros Hinv Hc (Hnp & Hns & Hnr) Hstep.
  destruct (perform_holds _ _ _ (tinv_wf _ Hinv) Hstep) as (H1 & H2 & H3 & H4).
  assert (Hal : calls (store t) !! c ≠ None) by (destruct Hc; congruence).
  split_and!.
  - apply (perform_writes _ _ _ c Hinv Hstep). intros Hs.
    destruct (signalled_where _ _ _ Hinv Hs) as (_ & Ht & Hn).
    unfold signalled in Hs. destruct a; try (by destruct (sendTask t), (recvTask t)).
    + destruct (sendTask t); try done. by injection Hs as ->.
    + destruct (Ht eq_refl) as [s Hs']. by apply (Hnp s).
  - by apply H4.
  - split_and!.
    + intros s Hs. destruct (H1 s c Hs) as [?|?]; [by apply (Hnp s)|done].
    + intros Hs. destruct (H2 c Hs) as [?|[[s ?]|?]];
        [done|by apply (Hnp s)|done].
    + intros Hr. destruct (H3 c Hr) as [?|[s ?]]; [done|by apply (Hnp s)].
Qed.

Lemma performs_released acts : ∀ t t' c,
  tinv t → is_Some (calls (store t) !! c) → released t c →
  performs t acts = Some t' →
  writes (store t') c = writes (store t) c.
Proof.
  induction acts as [|a acts IH]; intros t t' c Hinv Hc Hrel Hrun;
    cbn [ClientTasks.performs] in Hrun.
  - by injection Hrun as <-.
  - destruct (perform t a) as [t1|] eqn:E; [|done].
    cbn [mbind option_bind] in Hrun.
    destruct (perform_released _ _ _ _ Hinv Hc Hrel E) as (Hw & Hc1 & Hrel1).
    rewrite <- Hw. eapply IH; [by eapply tinv_perform|done|done|done].
Qed.

(** ** How the tasks move *)

(** [send] moves by its own three steps only. *)
Lemma perform_send t a t' :
  perform t a = Some t' →
  sendTask t' = sendTask t
  ∨ ((∃ sm args d, a = GoSend sm args d) ∧ sendTask t = SendIdle)
  ∨ ((∃ werr, a = WriteReturns werr) ∧ ∃ c s, sendTask t = SendWriting c s)
  ∨ (a = SendSignals ∧ ∃ c, sendTask t = SendSignalling c).
Proof.
  intros Hstep. destruct t as [st sd rv rc].
  unfold ClientTasks.perform in Hstep. tsimpl.
  destruct a; unfold take in *; tsimpl.
  - destruct sd; try done. right. left. eauto.
  - destruct sd; try done. right. right. left. eauto.
  - destruct sd; try done. right. right. right. eauto.
  - left. repeat (case_match; try done); by tinj Hstep.
  - left. repeat (case_match; try done); by tinj Hstep.
  - left. repeat (case_match; try done); by tinj Hstep.
  - left. repeat (case_match; try done); by tinj Hstep.
  - left. repeat (case_match; try done); by tinj Hstep.
  - left. destruct rv as [| | | |err visited [c0|]|]; try done.
    case_decide; [done|]. destruct (pending _ !! s); [|done]. tsimpl.
    by tinj Hstep.
  - left. repeat (case_match; try done); by tinj Hstep.
  - left. repeat (case_match; try done); by tinj Hstep.
  - left. destruct (holdsMu rv); [done|]. destruct (calls st !! c); [|done].
    tsimpl. by tinj Hstep.
  - left. repeat (case_match; try done); by tinj Hstep.
  - left. destruct (chans st !! ch); [|done]. tsimpl.
    destruct (sent _ !! _); [|done]. tsimpl. by tinj Hstep.
Qed.

(** The receive task moves by its own steps only, one state at a time. *)
Lemma perform_recv t a t' :
  perform t a = Some t' →
  recvTask t' = recvTask t
  ∨ (∃ h, a = HeaderRead h ∧ recvTask t = RecvHeader
          ∧ recvTask t' = RecvBody h (pending (client (store t)) !! hSeq h))
  ∨ (∃ err, a = HeaderFails err ∧ recvTask t = RecvHeader
            ∧ recvTask t' = RecvFailing err)
  ∨ (∃ body berr h call,
       a = BodyRead body berr ∧ recvTask t = RecvBody h call
       ∧ recvTask t' = match call with
                       | Some c => RecvSignalling c berr
                       | None => afterFrame berr
                       end)
  ∨ (∃ c err, a = RecvSignals ∧ recvTask t = RecvSignalling c err
              ∧ recvTask t' = afterFrame err)
  ∨ (∃ err, a = TermEnters ∧ recvTask t = RecvFailing err
            ∧ recvTask t' = Terminating err ∅ None)
  ∨ (∃ s err visited c,
       a = TermVisits s ∧ recvTask t = Terminating err visited None
       ∧ (s ∉ visited) ∧ pending (client (store t)) !! s = Some c
       ∧ recvTask t' = Terminating err ({[s]} ∪ visited) (Some c))
  ∨ (∃ err visited c,
       a = TermSignals ∧ recvTask t = Terminating err visited (Some c)
       ∧ recvTask t' = Terminating err visited None)
  ∨ (∃ err visited,
       a = TermReturns ∧ recvTask t = Terminating err visited None
       ∧ dom (pending (client (store t))) ⊆ visited
       ∧ recvTask t' = RecvExited).
Proof.
  intros Hstep. destruct t as [st sd rv rc].
  unfold ClientTasks.perform in Hstep. tsimpl.
  destruct a; unfold take in *; tsimpl.
  - left. destruct sd; try done. destruct (holdsMu rv); [done|].
    destruct (resolveDone d st) as [[st0 ch]|]; [|done]. tsimpl.
    destruct (newCall sm args ch st0) as [st1 c].
    destruct (registerCall c st1) as [[st2 s] [e|]]; by tinj Hstep.
  - left. destruct sd as [|c0 s|]; try done. destruct (holdsMu rv); [done|].
    destruct werr; [|by tinj Hstep].
    destruct (removeCall s st) as [st1 [c|]]; by tinj Hstep.
  - left. repeat (case_match; try done); by tinj Hstep.
  - right. left. destruct rv; try done.
    assert (Hrm : removeCall (hSeq h) st
                  = ((removeCall (hSeq h) st).1, pending (client st) !! hSeq h))
      by done.
    rewrite Hrm in Hstep. clear Hrm. exists h.
    destruct (pending (client st) !! hSeq h); [case_bool_decide|];
      by tinj Hstep.
  - do 2 right. left. destruct rv; try done. tinj Hstep. eauto.
  - do 3 right. left. destruct rv as [|h call| | | |]; try done.
    exists body, berr, h, call. split; [done|]. split; [done|].
    destruct call; [case_bool_decide; [|destruct berr]|]; by tinj Hstep.
  - do 4 right. left. destruct rv as [| |c err| | |]; try done.
    destruct (canSignal _ c); [|done]. tinj Hstep. eauto.
  - do 5 right. left. destruct rv; try done. destruct sd; try done.
    tinj Hstep. eauto.
  - do 6 right. left. destruct rv as [| | | |err visited [c0|]|]; try done.
    case_decide; [done|].
    destruct (pending (client st) !! s) as [c|] eqn:Hs; [|done]. tsimpl.
    tinj Hstep. exists s, err, visited, c. done.
  - do 7 right. left. destruct rv as [| | | |err visited [c|]|]; try done.
    destruct (canSignal _ c); [|done]. tinj Hstep.
    by exists err, visited, c.
  - do 8 right. destruct rv as [| | | |err visited [c|]|]; try done.
    case_decide; [|done]. tinj Hstep. by exists err, visited.
  - left. destruct (holdsMu rv); [done|]. destruct (calls st !! c); [|done].
    tsimpl. by tinj Hstep.
  - left. repeat (case_match; try done); by tinj Hstep.
  - left. destruct (chans st !! ch); [|done]. tsimpl.
    destruct (sent _ !! _); [|done]. tsimpl. by tinj Hstep.
Qed.

(** A call in the hands of a task stays there until that task signals
    it. *)
Lemma perform_inHand t a t' c :
  perform t a = Some t' → inHand t c →
  inHand t' c ∨ signalled t a = Some c.
Proof.
  intros Hstep [Hs|[Hr|(err & visited & Hr)]].
  - destruct (perform_send _ _ _ Hstep)
      as [E|[[_ E]|[[_ (c0 & s & E)]|[-> _]]]].
    + left. left. congruence.
    + congruence.
    + congruence.
    + right. unfold signalled. by rewrite Hs.
  - destruct (perform_recv _ _ _ Hstep)
      as [E|[(h & _ & E & _)|[(e & _ & E & _)
         |[(body & berr & h & call & _ & E & E')
         |[(c0 & e & -> & E & _)|[(e & _ & E & _)
         |[(s & e & v & c0 & _ & E & _)|[(e & v & c0 & _ & E & _)
         |(e & v & _ & E & _)]]]]]]]];
      rewrite ?E in Hr; try done.
    + left. right. left. congruence.
    + left. right. left. rewrite E'. destruct call; [done|]. done.
    + right. unfold signalled. rewrite E. simpl in Hr.
      destruct (sendTask t); congruence.
  - destruct (perform_recv _ _ _ Hstep)
      as [E|[(h & _ & E & _)|[(e & _ & E & _)
         |[(body & berr & h & call & _ & E & E')
         |[(c0 & e & _ & E & _)|[(e & _ & E & _)
         |[(s & e & v & c0 & _ & E & _)|[(e & v & c0 & -> & E & _)
         |(e & v & _ & E & _)]]]]]]]];
      rewrite ?E in Hr; try done.
    + left. right. right. exists err, visited. congruence.
    + right. unfold signalled. rewrite E.
      destruct (sendTask t); congruence.
Qed.

(** A [call.done()] returns as soon as, and only when, the channel of the
    call has room. *)
Lemma signal_enabled t a c :
  signalled t a = Some c → (perform t a = None ↔ canSignal t c = false).
Proof.
  intros Hs. destruct t as [st sd rv rc]. unfold signalled in Hs. tsimpl.
  unfold ClientTasks.perform. tsimpl.
  destruct a; try (by destruct sd, rv).
  - destruct sd as [| |c0]; try done. injection Hs as ->.
    by destruct (canSignal _ c).
  - destruct rv as [| |c0 err| | |]; try (by destruct sd).
    assert (c0 = c) by (by destruct sd; injection Hs). subst c0.
    by destruct (canSignal _ c).
  - destruct rv as [| | | |err visited [c0|]|]; try (by destruct sd).
    assert (c0 = c) by (by destruct sd; injection Hs). subst c0.
    by destruct (canSignal _ c).
Qed.

(** The [removeCall(call.Seq)] of an abandoned [Call]. *)
Lemma Cancels_spec t c call t' :
  tinv t → perform t (Cancels c) = Some t' →
  calls (store t) !! c = Some call →
  holdsMu (recvTask t) = false
  ∧ store t' = (removeCall (Seq call) (store t)).1
  ∧ sendTask t' = sendTask t ∧ recvTask t' = recvTask t
  ∧ received t' = received t
  ∧ (∀ s, pending (client (store t')) !! s ≠ Some c).
Proof.
  intros Hinv Hstep Hc. destruct t as [st sd rv rc].
  unfold ClientTasks.perform in Hstep. tsimpl.
  destruct (holdsMu rv); [done|]. rewrite Hc in Hstep. tsimpl. tinj Hstep.
  split_and!; try done.
  intros s. tnorm. intros Hs. apply lookup_delete_Some in Hs as [Hne Hs].
  pose proof (tinv_keyed _ Hinv s c Hs) as Hk. unfold seqOf in Hk. tsimpl.
  rewrite Hc in Hk. simpl in Hk. congruence.
Qed.

(** How a call comes into the hands of a task. *)
Lemma HeaderRead_holds t h t' :
  perform t (HeaderRead h) = Some t' →
  recvHolds (recvTask t') = pending (client (store t)) !! hSeq h.
Proof.
  intros Hstep.
  destruct (perform_recv _ _ _ Hstep)
    as [E|[(h' & [= <-] & _ & ->)|[(? & [=] & _)|[(? & ? & ? & ? & [=] & _)
       |[(? & ? & [=] & _)|[(? & [=] & _)|[(? & ? & ? & ? & [=] & _)
       |[(? & ? & ? & [=] & _)|(? & ? & [=] & _)]]]]]]]].
  - destruct t as [st sd rv rc]. unfold ClientTasks.perform in Hstep. tsimpl.
    destruct rv; try done. exfalso.
    assert (Hrm : removeCall (hSeq h) st
                  = ((removeCall (hSeq h) st).1, pending (client st) !! hSeq h))
      by done.
    rewrite Hrm in Hstep. clear Hrm.
    destruct (pending (client st) !! hSeq h); [case_bool_decide|];
      tinj Hstep; done.
  - simpl. by destruct (pending (client (store t)) !! hSeq h).
Qed.

Lemma WriteReturns_holds t e t' c0 s c :
  perform t (WriteReturns (Some e)) = Some t' →
  sendTask t = SendWriting c0 s → pending (client (store t)) !! s = Some c →
  sendTask t' = SendSignalling c.
Proof.
  intros Hstep Hs Hp. destruct t as [st sd rv rc].
  unfold ClientTasks.perform in Hstep. tsimpl. subst sd.
  destruct (holdsMu rv); [done|].
  assert (Hrm : removeCall s st
                = ((removeCall s st).1, pending (client st) !! s)) by done.
  rewrite Hrm, Hp in Hstep. by tinj Hstep.
Qed.

Lemma TermVisits_holds t s t' c :
  perform t (TermVisits s) = Some t' →
  pending (client (store t)) !! s = Some c → inHand t' c.
Proof.
  intros Hstep Hp.
  destruct (perform_recv _ _ _ Hstep)
    as [E|[(? & [=] & _)|[(? & [=] & _)|[(? & ? & ? & ? & [=] & _)
       |[(? & ? & [=] & _)|[(? & [=] & _)
       |[(s' & err & v & c' & [= <-] & _ & _ & Hp' & E)
       |[(? & ? & ? & [=] & _)|(? & ? & [=] & _)]]]]]]]].
  - exfalso. destruct t as [st sd rv rc].
    unfold ClientTasks.perform in Hstep. tsimpl.
    destruct rv as [| | | |err visited [c0|]|]; try done.
    case_decide; [done|]. rewrite Hp in Hstep. tsimpl. tinj Hstep.
    tsimpl. by injection E.
  - right. right. exists err, ({[s]} ∪ v). congruence.
Qed.

(** C3, as the code has it.  In every state the client can reach, each
    call has been sent on its [Done] channel at most once.  A call in
    [pending] has not been signalled before [terminateCalls] comes to it,
    and is signalled when [terminateCalls] has returned.  The only steps
    that write on a channel are the [call.done()] of [send], of [receive]
    and of [terminateCalls]: each takes the count of its call from 0 to 1,
    the first two for a call they have taken out of [pending] (or, in
    [send], a call whose registration was refused), the third for a call
    it finds there; it returns exactly when the channel has room, and
    until then the call stays in the task's hands.  A call comes into the
    hands of [receive] by a header with its number, of [send] by a failed
    write that finds it pending or by a refused registration, and of
    [terminateCalls] by its range.  The [removeCall] of an abandoned
    [Client.Call] writes nothing and leaves the call out of [pending]: a
    call that was still pending, before [terminateCalls] has run, has not
    been signalled and never will be; a call already in the hands of a
    task stays there, to be signalled once. *)
Theorem done_written_at_most_once
    (userChans : gmap nat nat) (acts : list act) (t : Tasks) :
  performs (newTasks userChans) acts = Some t →
  (∀ c, writes (store t) c ≤ 1)
  ∧ (∀ s c, pending (client (store t)) !! s = Some c →
       (unvisited (recvTask t) s → writes (store t) c = 0)
       ∧ (recvTask t = RecvExited → writes (store t) c = 1))
  ∧ (∀ a t' c, perform t a = Some t' →
       (signalled t a = Some c →
          writes (store t) c = 0 ∧ writes (store t') c = 1
          ∧ (a = TermSignals → ∃ s, pending (client (store t)) !! s = Some c)
          ∧ (a ≠ TermSignals → ∀ s, pending (client (store t)) !! s ≠ Some c))
       ∧ (signalled t a ≠ Some c → writes (store t') c = writes (store t) c)
       ∧ (inHand t c → inHand t' c ∨ signalled t a = Some c))
  ∧ (∀ a c, signalled t a = Some c →
       (perform t a = None ↔ canSignal t c = false))
  ∧ (∀ h t', perform t (HeaderRead h) = Some t' →
       recvHolds (recvTask t') = pending (client (store t)) !! hSeq h)
  ∧ (∀ e t' c0 s c, perform t (WriteReturns (Some e)) = Some t' →
       sendTask t = SendWriting c0 s →
       pending (client (store t)) !! s = Some c →
       sendTask t' = SendSignalling c)
  ∧ (∀ sm args d t', IsAvailable (client (store t)) = false →
       perform t (GoSend sm args d) = Some t' →
       sendTask t' = SendSignalling (fresh (dom (calls (store t)))))
  ∧ (∀ s t' c, perform t (TermVisits s) = Some t' →
       pending (client (store t)) !! s = Some c → inHand t' c)
  ∧ (∀ c call t', perform t (Cancels c) = Some t' →
       calls (store t) !! c = Some call →
       (∀ c', writes (store t') c' = writes (store t) c')
       ∧ (∀ s, pending (client (store t')) !! s ≠ Some c)
       ∧ (inHand t c → inHand t' c)
       ∧ (pending (client (store t)) !! Seq call = Some c →
          recvTask t ≠ RecvExited →
          writes (store t) c = 0
          ∧ ∀ acts' t'', performs t' acts' = Some t'' →
                         writes (store t'') c = 0)).
Proof.
  intros Hrun. pose proof (tinv_reachable _ _ _ Hrun) as Hinv. split_and!.
  - apply Hinv.
  - intros s c Hs. split.
    + by apply (tinv_pending _ Hinv s).
    + intros E. destruct (tinv_visited _ Hinv s c Hs) as [?|(e & v & E')];
        [by rewrite E|done|congruence].
  - intros a t' c Hstep. split_and!.
    + intros Hs. destruct (proj1 (perform_writes _ _ _ c Hinv Hstep) Hs).
      destruct (signalled_where _ _ _ Hinv Hs) as (_ & ? & ?). done.
    + apply (perform_writes _ _ _ c Hinv Hstep).
    + by apply perform_inHand.
  - intros a c. apply signal_enabled.
  - intros h t'. apply HeaderRead_holds.
  - intros e t' c0 s c. apply WriteReturns_holds.
  - intros sm args d t' Hav Hstep.
    pose proof (GoSend_spec _ _ _ _ _ (tinv_wf _ Hinv) Hstep) as H.
    cbv zeta in H. destruct H as (_ & _ & _ & _ & _ & _ & _ & _ & _ & Hrej & _).
    rewrite IsAvailable_flags in Hav. apply negb_false_iff in Hav.
    by destruct (Hrej Hav).
  - intros s t' c. apply TermVisits_holds.
  - intros c call t' Hstep Hc.
    destruct (Cancels_spec _ _ _ _ Hinv Hstep Hc)
      as (Hmu & Hst & Hsd & Hrv & Hrc & Hnp).
    split_and!.
    + intros c'. by rewrite Hst.
    + done.
    + unfold inHand. by rewrite Hsd, Hrv.
    + intros Hp Hex.
      assert (Hun : unvisited (recvTask t) (Seq call)).
      { destruct (recvTask t); try done. }
      pose proof (tinv_pending _ Hinv _ _ Hp Hun) as Hw. split; [done|].
      intros acts' t'' Hrun'. rewrite <- Hw.
      assert (Hw' : writes (store t') c = writes (store t) c) by by rewrite Hst.
      rewrite <- Hw'.
      eapply performs_released; [by eapply tinv_perform| | |done].
      * rewrite Hst. tnorm. eauto.
      * split_and!; [done| |].
        -- rewrite Hsd. intros E.
           destruct (tinv_send _ Hinv c E) as (_ & _ & H3 & _).
           by apply (H3 (Seq call)).
        -- rewrite Hrv. intros E.
           destruct (tinv_recv _ Hinv c E) as (_ & _ & H3).
           by apply (H3 (Seq call)).
Qed.

(** ** [Go], with the wait at [call.done()] *)

Abbreviation Go := (ClientTasks.Go Errorf).
Abbreviation Client_Call := (ClientTasks.Client_Call Errorf).

(** The channel [Go] ends up with has room, unless it is one the caller
    already uses. *)
Lemma room_after_resolveDone d t st0 ch t1 :
  resolveDone d (store t) = Some (st0, ch) →
  chans (store t1) = chans st0 → received t1 = received t →
  hasRoom t1 ch = match d with
                  | DoneChan ch0 => hasRoom t ch0
                  | _ => true
                  end.
Proof.
  intros Hr Hch Hrc. unfold hasRoom. rewrite Hch, Hrc.
  destruct (resolveDone_chans _ _ _ _ Hr) as [_ Hd]. destruct d as [|cap|ch0].
  - destruct Hd as [_ ->]. by simpl.
  - destruct Hd as (_ & Hcap & ->). simpl. apply bool_decide_eq_true. lia.
  - by destruct Hd as [-> ->].
Qed.

(** [Go] after its registration step [t1]: either the write succeeds and
    [send] returns without a signal, or [send] comes to [call.done()] in
    the state [t2], and returns from there if the channel has room. *)
Lemma Go_cases t sm args d werr t1 :
  tinv t → perform t (GoSend sm args d) = Some t1 →
  let c := fresh (dom (calls (store t))) in
  let s := seq (client (store t)) in
  let room := match d with
              | DoneChan ch => hasRoom t ch
              | _ => true
              end in
  (IsAvailable (client (store t)) = true ∧ werr = None
   ∧ Go sm args d werr t = Some (withSend t1 (store t1) SendIdle, c))
  ∨ (∃ t2,
       performs t (GoSend sm args d ::
                   if IsAvailable (client (store t)) then [WriteReturns werr]
                   else []) = Some t2
       ∧ (IsAvailable (client (store t)) = false ∨ werr ≠ None)
       ∧ sendTask t2 = SendSignalling c
       ∧ canSignal t2 c = room
       ∧ Go sm args d werr t
         = (if room then Some (withSend t2 (done c (store t2)) SendIdle, c)
            else None)
       ∧ (IsAvailable (client (store t)) = false →
            t2 = t1)
       ∧ (IsAvailable (client (store t)) = true →
            ∃ e, werr = Some e
                 ∧ t2 = withSend t1 (setError c (Some e)
                                       (removeCall s (store t1)).1)
                                 (SendSignalling c))).
Proof.
  intros Hinv Hstep c s room.
  destruct (GoSend_spec _ _ _ _ _ (tinv_wf _ Hinv) Hstep)
    as (Hidle & Hmu & Hrv & Hrc & Hfresh & Hwf1 & Hother & Hw1
        & (st0 & ch & Hr & Hch & Hdone) & Hrej & Hacc).
  fold c in Hdone, Hrej, Hacc. fold s in Hacc.
  rewrite IsAvailable_flags.
  destruct (isShutdown (client (store t)) || isClosed (client (store t)))
    eqn:Hflags; cbn [negb].
  - right. destruct (Hrej eq_refl) as (Hsd & Hcl & ch' & Hc1). exists t1.
    assert (Hcan : canSignal t1 c = room).
    { unfold canSignal. rewrite Hc1 in Hdone |- *. injection Hdone as ->.
      cbn [Done]. by eapply room_after_resolveDone. }
    split_and!; try done.
    + cbn [ClientTasks.performs]. rewrite Hstep. done.
    + by left.
    + unfold ClientTasks.Go. rewrite Hstep. cbn [mbind option_bind]. rewrite Hsd.
      cbn [mbind option_bind]. rewrite Hsd.
      unfold ClientTasks.perform. rewrite Hsd, Hcan. by destruct room.
  - destruct (Hacc eq_refl) as (Hsd & Hp & Hseq & Hhd & Hsh & Hclosed & ch' & Hc1).
    destruct werr as [e|].
    + right.
      assert (Hrm : removeCall s (store t1)
                    = ((removeCall s (store t1)).1, Some c)).
      { unfold removeCall. cbn [fst]. f_equal.
        by rewrite Hp, lookup_insert_eq. }
      assert (Hw : perform t1 (WriteReturns (Some e))
                   = Some (withSend t1 (setError c (Some e)
                                          (removeCall s (store t1)).1)
                                    (SendSignalling c))).
      { unfold ClientTasks.perform. rewrite Hsd, Hrv, Hmu. by rewrite Hrm. }
      set (t2 := withSend t1 (setError c (Some e) (removeCall s (store t1)).1)
                          (SendSignalling c)) in *.
      assert (Hcan : canSignal t2 c = room).
      { unfold canSignal, t2. tsimpl. unfold setError, updCall. cbn [calls].
        rewrite calls_removeCall, lookup_alter_eq, Hc1.
        cbn [fmap option_fmap option_map Done].
        rewrite Hc1 in Hdone. injection Hdone as ->.
        eapply room_after_resolveDone; [exact Hr| |done].
        tsimpl. by rewrite chans_removeCall. }
      exists t2. split_and!.
      * cbn [ClientTasks.performs]. rewrite Hstep. cbn [mbind option_bind].
        by rewrite Hw.
      * by right.
      * done.
      * done.
      * unfold ClientTasks.Go. rewrite Hstep. cbn [mbind option_bind].
        rewrite Hsd, Hw. cbn [mbind option_bind]. fold t2.
        replace (sendTask t2) with (SendSignalling c) by done.
        unfold ClientTasks.perform.
        replace (sendTask t2) with (SendSignalling c) by done.
        rewrite Hcan. by destruct room.
      * done.
      * intros _. by exists e.
    + left. split_and!; try done.
      unfold ClientTasks.Go. rewrite Hstep. cbn [mbind option_bind]. rewrite Hsd.
      assert (Hw : perform t1 (WriteReturns None)
                   = Some (withSend t1 (store t1) SendIdle)).
      { unfold ClientTasks.perform. by rewrite Hsd, Hrv, Hmu. }
      by rewrite Hw.
Qed.

Lemma GoSend_None t sm args d :
  sendTask t = SendIdle → holdsMu (recvTask t) = false →
  perform t (GoSend sm args d) = None ↔ resolveDone d (store t) = None.
Proof.
  intros Hsd Hmu. unfold ClientTasks.perform. rewrite Hsd, Hmu.
  destruct (resolveDone d (store t)) as [[st0 ch]|]; [|done].
  cbn [mbind option_bind].
  destruct (newCall sm args ch st0) as [st1 c0].
  by destruct (registerCall c0 st1) as [[st2 s2] [e|]].
Qed.


(** ** A frame, from its header to the signal *)

(** [ReadHeader] returns and [removeCall(h.Seq)] is done. *)
Lemma HeaderRead_spec t h t' :
  tinv t → perform t (HeaderRead h) = Some t' →
  recvTask t = RecvHeader
  ∧ recvTask t' = RecvBody h (pending (client (store t)) !! hSeq h)
  ∧ sendTask t' = sendTask t ∧ received t' = received t
  ∧ chans (store t') = chans (store t)
  ∧ pending (client (store t')) = delete (hSeq h) (pending (client (store t)))
  ∧ (∀ c', writes (store t') c' = writes (store t) c')
  ∧ (∀ c', pending (client (store t)) !! hSeq h ≠ Some c' →
           calls (store t') !! c' = calls (store t) !! c')
  ∧ (∀ c, pending (client (store t)) !! hSeq h = Some c →
       ∃ call call',
         calls (store t) !! c = Some call
         ∧ calls (store t') !! c = Some call'
         ∧ Seq call = hSeq h ∧ writes (store t) c = 0
         ∧ Seq call' = Seq call ∧ ServiceMethod call' = ServiceMethod call
         ∧ Args call' = Args call ∧ Reply call' = Reply call
         ∧ Done call' = Done call
         ∧ Error call' = if bool_decide (hError h ≠ "")
                         then Some (Errorf (hError h)) else Error call).
Proof.
  intros [Hwf Honce Hpend Hkey Hsend Hrecv Hat Hwr Hlock Hshut Htak Hvis] Hstep.
  unfold ClientTasks.perform in Hstep.
  destruct (recvTask t) eqn:Hrv; try done.
  assert (Hrm : removeCall (hSeq h) (store t)
                = ((removeCall (hSeq h) (store t)).1,
                   pending (client (store t)) !! hSeq h)) by done.
  rewrite Hrm in Hstep. clear Hrm.
  destruct (pending (client (store t)) !! hSeq h) as [c|] eqn:Hs.
  - destruct (wf_pending_alloc _ Hwf _ _ Hs) as [call Hc].
    pose proof (Hkey _ _ Hs) as Hseq. unfold seqOf in Hseq.
    rewrite Hc in Hseq. injection Hseq as Hseq.
    assert (Hw0 : writes (store t) c = 0) by by apply (Hpend _ _ Hs).
    case_bool_decide as He; tinj Hstep; tnorm.
    + split_and!; try done; try (intros c'; by tnorm).
      * intros c' Hne. unfold setError, updCall. cbn [calls].
        rewrite lookup_alter_ne by congruence. by rewrite calls_removeCall.
      * intros c0 [= <-]. exists call. eexists. split; [done|].
        split.
        { unfold setError, updCall. cbn [calls].
          by rewrite lookup_alter_eq, calls_removeCall, Hc. }
        done.
    + split_and!; try done; try (intros c'; by tnorm).
      intros c0 [= <-]. exists call, call. by tnorm.
  - tinj Hstep. tnorm. split_and!; try done; try (intros c'; by tnorm).
Qed.

(** [ReadBody] returns. *)
Lemma BodyRead_spec t body berr t' :
  tinv t → perform t (BodyRead body berr) = Some t' →
  ∃ h call,
    recvTask t = RecvBody h call
    ∧ recvTask t' = match call with
                    | Some c => RecvSignalling c berr
                    | None => afterFrame berr
                    end
    ∧ sendTask t' = sendTask t ∧ received t' = received t
    ∧ chans (store t') = chans (store t)
    ∧ client (store t') = client (store t)
    ∧ (∀ c', writes (store t') c' = writes (store t) c')
    ∧ (∀ c', call ≠ Some c' → calls (store t') !! c' = calls (store t) !! c')
    ∧ (∀ c, call = Some c →
         ∃ call0 call',
           calls (store t) !! c = Some call0
           ∧ calls (store t') !! c = Some call'
           ∧ writes (store t) c = 0
           ∧ (∀ s, pending (client (store t)) !! s ≠ Some c)
           ∧ Seq call' = Seq call0 ∧ ServiceMethod call' = ServiceMethod call0
           ∧ Args call' = Args call0 ∧ Done call' = Done call0
           ∧ (hError h ≠ "" → call' = call0)
           ∧ (hError h = "" → ∀ e, berr = Some e →
                Error call' = Some ("reading body " +:+ e))
           ∧ (hError h = "" → berr = None →
                Reply call' = body ∧ Error call' = Error call0)).
Proof.
  intros [Hwf Honce Hpend Hkey Hsend Hrecv Hat Hwr Hlock Hshut Htak Hvis] Hstep.
  unfold ClientTasks.perform in Hstep.
  destruct (recvTask t) as [|h [c|]| | | |] eqn:Hrv; try done.
  - exists h, (Some c).
    destruct (Hrecv c eq_refl) as ([call Hc] & Hw0 & Hnp).
    case_bool_decide as He; [|destruct berr as [e|]]; tinj Hstep; tnorm;
      (split_and!; try done; try (intros c'; by tnorm)).
    + intros c0 [= <-]. exists call, call. done.
    + intros c' Hne. unfold setError, updCall. cbn [calls].
      by rewrite lookup_alter_ne by congruence.
    + intros c0 [= <-]. exists call. eexists. split; [done|]. split.
      { unfold setError, updCall. cbn [calls].
        by rewrite lookup_alter_eq, Hc. }
      cbn. split_and!; try done. by intros _ e0 [= <-].
    + intros c' Hne. unfold setReply, updCall. cbn [calls].
      by rewrite lookup_alter_ne by congruence.
    + intros c0 [= <-]. exists call. eexists. split; [done|]. split.
      { unfold setReply, updCall. cbn [calls].
        by rewrite lookup_alter_eq, Hc. }
      cbn. split_and!; done.
  - exists h, None. tinj Hstep. split_and!; done.
Qed.

(** [call.done()] in [receive]. *)
Lemma RecvSignals_spec t c err :
  tinv t → recvTask t = RecvSignalling c err →
  (perform t RecvSignals = None ↔ canSignal t c = false)
  ∧ ∀ t', perform t RecvSignals = Some t' →
      writes (store t) c = 0 ∧ writes (store t') c = 1
      ∧ (∀ c', c' ≠ c → writes (store t') c' = writes (store t) c')
      ∧ calls (store t') = calls (store t)
      ∧ client (store t') = client (store t)
      ∧ recvTask t' = afterFrame err
      ∧ sendTask t' = sendTask t ∧ received t' = received t
      ∧ store t' = done c (store t).
Proof.
  intros [Hwf Honce Hpend Hkey Hsend Hrecv Hat Hwr Hlock Hshut Htak Hvis] Hrv.
  split.
  { apply signal_enabled. unfold signalled. rewrite Hrv.
    by destruct (sendTask t). }
  intros t' Hstep. unfold ClientTasks.perform in Hstep. rewrite Hrv in Hstep.
  destruct (canSignal t c); [|done]. tinj Hstep.
  destruct (Hrecv c) as (Hc & Hw0 & _); [by rewrite Hrv|].
  destruct (signal_spec c (store t) Hwf Hc Hw0) as (_ & Hw & Hwo & Hcs & Hcl & _).
  split_and!; done.
Qed.

(** X12. A frame read by the receive task goes to the call that was
    registered under the frame's [Seq], and that call carries this very
    number in its [Seq] field.  When the header is read the call leaves
    [pending] and, if the header names an error, gets as its [Error] what
    [fmt.Errorf] makes of that text.  When the body is read and the header
    named no error, the call gets the error of reading the body, or the
    body as its [Reply].  Then the call is signalled, once, as soon as its
    channel has room; until then the receive task waits.  None of the
    three steps changes or signals another call, and a frame for a number
    that is not pending changes no call at all. *)
Theorem reply_reaches_its_call
    (userChans : gmap nat nat) (acts : list act) (t : Tasks) :
  performs (newTasks userChans) acts = Some t →
  (∀ h t', perform t (HeaderRead h) = Some t' →
     recvTask t = RecvHeader
     ∧ recvTask t' = RecvBody h (pending (client (store t)) !! hSeq h)
     ∧ pending (client (store t')) = delete (hSeq h) (pending (client (store t)))
     ∧ (∀ c', writes (store t') c' = writes (store t) c')
     ∧ (∀ c', pending (client (store t)) !! hSeq h ≠ Some c' →
              calls (store t') !! c' = calls (store t) !! c')
     ∧ (∀ c, pending (client (store t)) !! hSeq h = Some c →
          ∃ call call',
            calls (store t) !! c = Some call
            ∧ calls (store t') !! c = Some call'
            ∧ Seq call = hSeq h ∧ writes (store t) c = 0
            ∧ Seq call' = Seq call ∧ ServiceMethod call' = ServiceMethod call
            ∧ Args call' = Args call ∧ Reply call' = Reply call
            ∧ Done call' = Done call
            ∧ Error call' = if bool_decide (hError h ≠ "")
                            then Some (Errorf (hError h)) else Error call))
  ∧ (∀ body berr t', perform t (BodyRead body berr) = Some t' →
     ∃ h call,
       recvTask t = RecvBody h call
       ∧ recvTask t' = match call with
                       | Some c => RecvSignalling c berr
                       | None => afterFrame berr
                       end
       ∧ client (store t') = client (store t)
       ∧ (∀ c', writes (store t') c' = writes (store t) c')
       ∧ (∀ c', call ≠ Some c' → calls (store t') !! c' = calls (store t) !! c')
       ∧ (∀ c, call = Some c →
            ∃ call0 call',
              calls (store t) !! c = Some call0
              ∧ calls (store t') !! c = Some call'
              ∧ writes (store t) c = 0
              ∧ (∀ s, pending (client (store t)) !! s ≠ Some c)
              ∧ Seq call' = Seq call0 ∧ ServiceMethod call' = ServiceMethod call0
              ∧ Args call' = Args call0 ∧ Done call' = Done call0
              ∧ (hError h ≠ "" → call' = call0)
              ∧ (hError h = "" → ∀ e, berr = Some e →
                   Error call' = Some ("reading body " +:+ e))
              ∧ (hError h = "" → berr = None →
                   Reply call' = body ∧ Error call' = Error call0)))
  ∧ (∀ c err, recvTask t = RecvSignalling c err →
       (perform t RecvSignals = None ↔ canSignal t c = false)
       ∧ ∀ t', perform t RecvSignals = Some t' →
           writes (store t) c = 0 ∧ writes (store t') c = 1
           ∧ (∀ c', c' ≠ c → writes (store t') c' = writes (store t) c')
           ∧ calls (store t') = calls (store t)
           ∧ client (store t') = client (store t)
           ∧ recvTask t' = afterFrame err).
Proof.
  intros Hrun. pose proof (tinv_reachable _ _ _ Hrun) as Hinv. split_and!.
  - intros h t' Hstep.
    destruct (HeaderRead_spec _ _ _ Hinv Hstep)
      as (H1 & H2 & _ & _ & _ & H3 & H4 & H5 & H6).
    split_and!; done.
  - intros body berr t' Hstep.
    destruct (BodyRead_spec _ _ _ _ Hinv Hstep)
      as (h & call & H1 & H2 & _ & _ & _ & H3 & H4 & H5 & H6).
    exists h, call. split_and!; done.
  - intros c err Hrv. destruct (RecvSignals_spec _ _ _ Hinv Hrv) as [H1 H2].
    split; [done|]. intros t' Hstep.
    destruct (H2 t' Hstep) as (? & ? & ? & ? & ? & ? & _). split_and!; done.
Qed.

(** ** [Client.Call] *)

Lemma done_sent c st call chan :
  calls st !! c = Some call → chans st !! Done call = Some chan →
  chans (done c st) !! Done call
  = Some {| capacity := capacity chan; sent := sent chan ++ [c] |}.
Proof.
  intros Hc Hch. unfold done. rewrite Hc. cbn [chans].
  by rewrite lookup_alter_eq, Hch.
Qed.

Lemma performs_alloc acts : ∀ t t' c,
  tinv t → performs t acts = Some t' →
  is_Some (calls (store t) !! c) → is_Some (calls (store t') !! c).
Proof.
  induction acts as [|a acts IH]; intros t t' c Hinv Hrun Hc.
  - cbn in Hrun. by injection Hrun as <-.
  - cbn [ClientTasks.performs] in Hrun.
    destruct (perform t a) as [t1|] eqn:Hstep; [|done].
    cbn [mbind option_bind] in Hrun.
    apply (IH t1 t' c); [by eapply tinv_perform|done|].
    by apply (perform_holds _ _ _ (tinv_wf _ Hinv) Hstep).
Qed.

(** [Go] on the channel that [Call] has just made: it always returns. *)
Lemma Go_for_Call t sm args werr :
  tinv t → sendTask t = SendIdle → holdsMu (recvTask t) = false →
  let c := fresh (dom (calls (store t))) in
  let s := seq (client (store t)) in
  ∃ t1 ch call,
    Go sm args (DoneMake 1) werr t = Some (t1, c)
    ∧ tinv t1
    ∧ sendTask t1 = SendIdle ∧ recvTask t1 = recvTask t
    ∧ chans (store t) !! ch = None
    ∧ received t1 !! ch = None
    ∧ calls (store t1) !! c = Some call ∧ Done call = ch
    ∧ (IsAvailable (client (store t)) = false →
         Error call = Some ErrShutdown
         ∧ chans (store t1) !! ch = Some {| capacity := 1; sent := [c] |})
    ∧ (IsAvailable (client (store t)) = true → ∀ e, werr = Some e →
         Error call = Some e
         ∧ chans (store t1) !! ch = Some {| capacity := 1; sent := [c] |})
    ∧ (IsAvailable (client (store t)) = true → werr = None →
         Error call = None ∧ Seq call = s
         ∧ chans (store t1) !! ch = Some {| capacity := 1; sent := [] |}
         ∧ pending (client (store t1)) = <[s := c]> (pending (client (store t)))).
Proof.
  intros Hinv Hsd Hmu c s.
  destruct (perform t (GoSend sm args (DoneMake 1))) as [t0|] eqn:Hstep.
  2:{ apply GoSend_None in Hstep; [|done|done]. by vm_compute in Hstep. }
  destruct (GoSend_spec _ _ _ _ _ (tinv_wf _ Hinv) Hstep)
    as (_ & _ & Hrv & Hrc & Hfresh & Hwf1 & Hother & Hw1
        & (st0 & ch & Hr & Hch & Hdone) & Hrej & Hacc).
  fold c in Hfresh, Hw1, Hdone, Hrej, Hacc. fold s in Hacc.
  destruct (resolveDone_chans _ _ _ _ Hr) as (_ & Hnew & _ & Hch0).
  assert (Hrc0 : received t !! ch = None).
  { destruct (received t !! ch) as [n|] eqn:E; [|done].
    destruct (tinv_taken _ Hinv _ _ E) as (chan & Hchan & _). congruence. }
  pose proof (tinv_perform _ _ _ Hinv Hstep) as Hinv0.
  pose proof (Go_cases t sm args (DoneMake 1) werr t0 Hinv Hstep) as Hcases.
  cbv zeta in Hcases. fold c s in Hcases.
  destruct Hcases as [(Hav & -> & HGo)
                     |(t2 & Hrun2 & Hwhy & Hsd2 & Hcan & HGo & Hrej2 & Hacc2)].
  - rewrite IsAvailable_flags in Hav. apply negb_true_iff in Hav.
    destruct (Hacc Hav) as (Hsd1 & Hp & Hseq & Hhd & Hsh & Hclosed & ch' & Hc1).
    rewrite Hc1 in Hdone. injection Hdone as ->.
    assert (Hw : perform t0 (WriteReturns None)
                 = Some (withSend t0 (store t0) SendIdle)).
    { unfold ClientTasks.perform. by rewrite Hsd1, Hrv, Hmu. }
    eexists _, ch, _. split; [exact HGo|]. tsimpl.
    split_and!; try done.
    + by eapply tinv_perform.
    + by rewrite Hrc.
    + intros Hav'. rewrite IsAvailable_flags, Hav in Hav'. done.
    + intros _ _. split_and!; try done. by rewrite Hch.
  - pose proof (tinv_performs _ _ _ Hinv Hrun2) as Hinv2.
    assert (Hsig : perform t2 SendSignals
                   = Some (withSend t2 (done c (store t2)) SendIdle)).
    { unfold ClientTasks.perform. by rewrite Hsd2, Hcan. }
    pose proof (tinv_perform _ _ _ Hinv2 Hsig) as Hinv3.
    rewrite IsAvailable_flags in *.
    destruct (isShutdown (client (store t)) || isClosed (client (store t)))
      eqn:Hflags; cbn [negb] in *.
    + rewrite (Hrej2 eq_refl) in *. destruct (Hrej eq_refl) as (_ & _ & ch' & Hc1).
      rewrite Hc1 in Hdone. injection Hdone as ->.
      eexists _, ch, _. split; [exact HGo|]. tsimpl. rewrite calls_done.
      split_and!; try done.
      * by rewrite Hrc.
      * intros _. split; [done|].
        pose proof (done_sent c (store t0) _ {| capacity := 1; sent := [] |} Hc1)
          as Hds. cbn [Done capacity sent app] in Hds. apply Hds.
        by rewrite Hch.
    + destruct (Hacc2 eq_refl) as (e & -> & Ht2).
      destruct (Hacc eq_refl) as (_ & Hp & _ & _ & _ & _ & ch' & Hc1).
      rewrite Hc1 in Hdone. injection Hdone as ->.
      assert (Hst2 : store t2
                     = setError c (Some e) (removeCall s (store t0)).1)
        by by rewrite Ht2.
      assert (Hc2 : calls (store t2) !! c
                    = Some {| Seq := s; ServiceMethod := sm; Args := args;
                              Reply := ""; Error := Some e; Done := ch |}).
      { rewrite Hst2. unfold setError, updCall. cbn [calls].
        by rewrite calls_removeCall, lookup_alter_eq, Hc1. }
      eexists _, ch, _. split; [exact HGo|]. tsimpl. rewrite calls_done.
      split_and!; try done.
      * by rewrite Ht2.
      * rewrite Ht2. tsimpl. by rewrite Hrc.
      * intros _ e' [= <-]. split; [done|].
        pose proof (done_sent c (store t2) _ {| capacity := 1; sent := [] |} Hc2)
          as Hds. cbn [Done capacity sent app] in Hds. apply Hds.
        rewrite Hst2, chans_setError, chans_removeCall. by rewrite Hch.
Qed.

Lemma take_signalled t c call k :
  calls (store t) !! c = Some call →
  chans (store t) !! Done call = Some {| capacity := k; sent := [c] |} →
  received t !! Done call = None →
  ∃ t', take (Done call) t = Some (t', c) ∧ store t' = store t.
Proof.
  intros Hc Hch Hrc. unfold take. rewrite Hch. cbn [mbind option_bind].
  rewrite Hrc. cbn. eauto.
Qed.

Lemma take_empty t ch k :
  chans (store t) !! ch = Some {| capacity := k; sent := [] |} →
  take ch t = None.
Proof. intros Hch. unfold take. by rewrite Hch. Qed.

End Errorf.

(** C3 as stated fails for the cancellation.  [Client.Call] registers and
    sends its call, and its context is cancelled before any reply.  The
    reply then comes late and is dropped, the connection fails and
    [terminateCalls] runs to its end.  The call has ended, with the
    cancellation error; no task of the client is left that could signal
    it; and nothing was ever written on its [Done] channel. *)
Lemma cancelled_call_is_never_signalled :
  ∃ t1 t2,
    Client_Call plainErrorf "Arith.Sum" "3,4" None []
      (Some "context deadline exceeded") (newTasks ∅)
    = Some (t1, Some "rpc client: call failed: context deadline exceeded")
    ∧ performs plainErrorf t1 lateReply = Some t2
    ∧ Seq <$> calls (store t2) !! 0 = Some 1%Z
    ∧ writes (store t1) 0 = 0
    ∧ writes (store t2) 0 = 0
    ∧ (chans (store t2) : gmap nat Chan) !! 0
      = Some {| capacity := 1; sent := [] |}
    ∧ pending (client (store t2)) = ∅
    ∧ sendTask t2 = SendIdle
    ∧ recvTask t2 = RecvExited.
Proof. do 2 eexists. split_and!; by vm_compute. Qed.

(** The other end of the cancellation.  The header of the reply has been
    read, so the call is in the hands of [receive], when the context is
    cancelled: [removeCall] finds nothing, [Call] returns the cancellation
    error, and the call is signalled afterwards, on a channel that nobody
    reads any more. *)
Example cancelled_call_is_signalled_late :
  ∃ t1 t2,
    Client_Call plainErrorf "Arith.Sum" "3,4" None replyHeader
      (Some "context canceled") (newTasks ∅)
    = Some (t1, Some "rpc client: call failed: context canceled")
    ∧ performs plainErrorf t1 replyRest = Some t2
    ∧ writes (store t1) 0 = 0
    ∧ writes (store t2) 0 = 1
    ∧ (chans (store t2) : gmap nat Chan) !! 0
      = Some {| capacity := 1; sent := [0] |}.
Proof. do 2 eexists. split_and!; by vm_compute. Qed.

(** And when the reply has been signalled already: the [select] may
    still take the cancellation, and [Call] returns its error with the one
    value left in the channel. *)
Example cancelled_call_was_signalled :
  ∃ t1,
    Client_Call plainErrorf "Arith.Sum" "3,4" None (replyHeader ++ replyRest)
      (Some "context canceled") (newTasks ∅)
    = Some (t1, Some "rpc client: call failed: context canceled")
    ∧ writes (store t1) 0 = 1
    ∧ received t1 !! 0 = None.
Proof. eexists. split_and!; by vm_compute. Qed.

(** The same call when its reply comes in time: signalled once, and [Call]
    returns the nil error with the reply decoded. *)
Example answered_call_is_signalled_once :
  ∃ t,
    Client_Call plainErrorf "Arith.Sum" "3,4" None (replyHeader ++ replyRest)
      None (newTasks ∅)
    = Some (t, None)
    ∧ writes (store t) 0 = 1
    ∧ Reply <$> calls (store t) !! 0 = Some "7"
    ∧ received t !! 0 = Some 1.
Proof. eexists. split_and!; by vm_compute. Qed.

(** On the first run, stopped right after the call is sent. *)
Lemma done_written_at_most_once_witness :
  ∃ t,
    performs plainErrorf (newTasks ∅)
      [GoSend "Arith.Sum" "3,4" (DoneMake 1); WriteReturns None] = Some t
    ∧ (∀ c, writes (store t) c ≤ 1)
    ∧ (∀ t', perform plainErrorf t (Cancels 0) = Some t' →
             ∀ acts' t'', performs plainErrorf t' acts' = Some t'' →
                          writes (store t'') 0 = 0).
Proof.
  eexists. split; [by vm_compute|].
  match goal with
  | |- (∀ c, writes (store ?t0) c ≤ 1) ∧ _ =>
      destruct (done_written_at_most_once plainErrorf ∅
        [GoSend "Arith.Sum" "3,4" (DoneMake 1); WriteReturns None] t0)
        as (H1 & _ & _ & _ & _ & _ & _ & _ & H9); [by vm_compute|]
  end.
  split; [exact H1|].
  intros t' Hstep acts' t'' Hrun.
  destruct (H9 0 {| Seq := 1; ServiceMethod := "Arith.Sum"; Args := "3,4";
                    Reply := ""; Error := None; Done := 0 |} t' Hstep)
    as (_ & _ & _ & Hnever); [by vm_compute|].
  destruct Hnever as [_ Hnever]; [by vm_compute|done|].
  exact (Hnever acts' t'' Hrun).
Defined.

Lemma reply_reaches_its_call_witness :
  ∃ t',
    perform plainErrorf twoWaiting
      (HeaderRead {| hServiceMethod := "Arith.Sum"; hSeq := 2; hError := "" |})
    = Some t'
    ∧ recvTask t'
      = RecvBody {| hServiceMethod := "Arith.Sum"; hSeq := 2; hError := "" |}
                 (Some 1)
    ∧ pending (client (store t'))
      = delete 2%Z (pending (client (store twoWaiting))).
Proof.
  destruct (perform plainErrorf twoWaiting
              (HeaderRead {| hServiceMethod := "Arith.Sum"; hSeq := 2;
                             hError := "" |})) as [t'|] eqn:E;
    [|by vm_compute in E].
  exists t'. split; [done|].
  destruct (reply_reaches_its_call plainErrorf ∅ twoSent twoWaiting)
    as (H1 & _); [by vm_compute|].
  destruct (H1 _ _ E) as (_ & Hrv & Hp & _). split; [|exact Hp].
  rewrite Hrv. by vm_compute.
Defined.



End ClientTasksSpec.
(* ===================================================================== *)
(** * Dial: the zero connect timeout *)
(* ===================================================================== *)

Module DialSpec.
Import ClientCore Dial.

(** [parseOption] keeps the caller's timeouts. *)
Lemma parseOption_timeout opts opt :
  parseOption opts = (Some opt, None) →
  opts = [] ∧ opt = DefaultOption
  ∨ (∃ rest, opts = None :: rest) ∧ opt = DefaultOption
  ∨ ∃ o, opts = [Some o] ∧ ConnectTimeout opt = ConnectTimeout o
         ∧ MagicNumber opt = MagicNumberConst.
Proof.
  destruct opts as [|[o|] rest]; simpl.
  - intros [= <-]. by left.
  - case_bool_decide as Hl; simpl; [|done]. intros [= <-].
    right. right. exists o. destruct rest; [done|]. simpl in Hl. lia.
  - intros [= <-]. right. left. eauto.
Qed.

(** C7. With [ConnectTimeout = 0], once the connection is open
    [dialTimeout] returns exactly what [newClient(conn, opt)] returns (and
    never returns if the constructor never does), whichever way the
    scheduler would break a tie; the caller takes the result at the
    hand-off, after the constructor has finished, and no timer is
    started.  When the constructor reports an error the connection is
    closed on the way out. *)
Theorem dialTimeout_zero_runs_newClient
    (netDialTimeout : string → string → Z → outcome (nat + string))
    (durationString : Z → string) (f : newClientFunc) (timerFirst : bool)
    (network address : string) (opts : list (option Option))
    (opt : Option) (conn : nat) :
  parseOption opts = (Some opt, None) →
  ConnectTimeout opt = 0%Z →
  netDialTimeout network address 0%Z = Returns (inl conn) →
  let r := dialTimeout netDialTimeout durationString f timerFirst
             network address opts in
  r.1 = newClientDirectly f conn opt
  ∧ filter (λ e, isTimer e = true) r.2 = []
  ∧ r = dialTimeout netDialTimeout durationString f (negb timerFirst)
          network address opts
  ∧ (∀ client err, f conn opt = Returns (client, err) →
       r.2 = [NetDial network address 0; WorkerSpawned; HandOff]
             ++ closeOnError conn err).
Proof.
  intros Hopt Hzero Hdial r. unfold r, dialTimeout, newClientDirectly.
  rewrite Hopt, Hzero, Hdial. rewrite bool_decide_eq_true_2 by done.
  destruct (f conn opt) as [[client err]|].
  - split_and!; try done.
    + by destruct err.
    + by intros client' err' [= <- <-].
  - split_and!; done.
Qed.

(** A dial over TCP with [ConnectTimeout = 0] on a healthy network. *)
Lemma dialTimeout_zero_runs_newClient_witness :
  (Dial netOk encodeOk showNanos true "tcp" "10.0.0.1:9999" [Some noTimeout]).1
  = NewClient encodeOk 7
      {| MagicNumber := MagicNumberConst; CodecType := GobType;
         ConnectTimeout := 0; HandleTimeout := 0 |}
  ∧ filter (λ e, isTimer e = true)
      (Dial netOk encodeOk showNanos true "tcp" "10.0.0.1:9999" [Some noTimeout]).2
    = [].
Proof.
  destruct (dialTimeout_zero_runs_newClient netOk showNanos (NewClient encodeOk)
              true "tcp" "10.0.0.1:9999" [Some noTimeout]
              {| MagicNumber := MagicNumberConst; CodecType := GobType;
                 ConnectTimeout := 0; HandleTimeout := 0 |} 7)
    as (H1 & H2 & _); [reflexivity|reflexivity|reflexivity|].
  split; [exact H1|exact H2].
Defined.

(** With a non-zero timeout the timer is started, and it wins against a
    constructor that never returns. *)
Example dialTimeout_timer :
  Dial netOk (λ _ _, Hangs) showNanos false "tcp" "10.0.0.1:9999" []
  = (Returns (None, Some "rpc client: connect timeout: expect within 10s"),
     [NetDial "tcp" "10.0.0.1:9999" 10000000000; WorkerSpawned;
      TimerStarted 10000000000; ConnClosed 7]).
Proof. reflexivity. Qed.

Example XDial_dispatch :
  (XDial netOk encodeOk responseOk showNanos false "http@10.0.0.1:7001" []).1
  = Returns (Some NewClientCodec, None)
  ∧ (XDial netOk encodeOk responseOk showNanos false "10.0.0.1:7001" []).1
    = Returns (None, Some "rpc client err: wrong format '10.0.0.1:7001', expect protocol@addr").
Proof. split; reflexivity. Qed.

End DialSpec.

(* ===================================================================== *)
(** * Dial: options, the connection, the address format *)
(* ===================================================================== *)

Module DialFlowSpec.
Import ClientCore Dial.

(** [parseOption] returns an option or an error, never both and never
    neither. *)
Lemma parseOption_xor (opts : list (option Option)) :
  (parseOption opts).2 = None ↔ is_Some (parseOption opts).1.
Proof.
  destruct opts as [|[o|] [|o' rest]]; simpl; split; try done; eauto;
    by intros [? ?].
Qed.

(** X16. [parseOption] returns an option or an error, never both and never
    neither.  It fails exactly when more than one option is passed and the
    first is not nil.  The option it returns always carries the magic
    number and a codec type that is not empty; the timeouts and a
    non-empty codec type of the caller's option are kept; and passing the
    result through [parseOption] again gives it back. *)
Theorem parseOption_normal_form (opts : list (option Option)) :
  ((parseOption opts).2 = None ↔ is_Some (parseOption opts).1)
  ∧ ((parseOption opts).2 ≠ None
     ↔ ∃ o o' rest, opts = Some o :: o' :: rest)
  ∧ (∀ e, (parseOption opts).2 = Some e →
          e = "number of options is more than 1")
  ∧ ((opts = [] ∨ ∃ rest, opts = None :: rest) →
     parseOption opts = (Some DefaultOption, None))
  ∧ ∀ opt, (parseOption opts).1 = Some opt →
      MagicNumber opt = MagicNumberConst
      ∧ CodecType opt ≠ ""
      ∧ parseOption [Some opt] = (Some opt, None)
      ∧ ∀ o, opts = [Some o] →
          ConnectTimeout opt = ConnectTimeout o
          ∧ HandleTimeout opt = HandleTimeout o
          ∧ CodecType opt = (if bool_decide (CodecType o = "")
                             then GobType else CodecType o).
Proof.
  split; [apply parseOption_xor|].
  split.
  { destruct opts as [|[o|] [|o' rest]]; simpl; split; try done;
      try (by intros (? & ? & ? & ?)); eauto. }
  split.
  { destruct opts as [|[o|] [|o' rest]]; simpl; try done. by intros e [= <-]. }
  split.
  { by intros [->|[rest ->]]. }
  intros opt Hopt.
  assert (Hdef : MagicNumber DefaultOption = MagicNumberConst
                 ∧ CodecType DefaultOption ≠ ""
                 ∧ parseOption [Some DefaultOption] = (Some DefaultOption, None))
    by (split_and!; done).
  destruct opts as [|[o|] [|o' rest]]; simpl in Hopt; try done;
    try (injection Hopt as <-; destruct Hdef as (? & ? & ?);
         split_and!; done).
  injection Hopt as <-. simpl. split_and!.
  - done.
  - by case_bool_decide.
  - destruct (decide (CodecType o = "")) as [Hc|Hc].
    + by rewrite !(bool_decide_eq_true_2 _ Hc).
    + by rewrite !(bool_decide_eq_false_2 _ Hc).
  - by intros ? [= <-].
Qed.

Section Network.
Variable netDialTimeout : string → string → Z → outcome (nat + string).
Variable encodeOption : nat → Option → outcome error.
Variable readResponse : nat → outcome (string + string).
Variable durationString : Z → string.

Lemma closeOnError_spec conn err :
  closeOnError conn err = if err is Some _ then [ConnClosed conn] else [].
Proof. by destruct err. Qed.

(** [dialTimeout] once the options are parsed and the connection is
    open, in the runs where the results are assigned in order. *)
Lemma dialTimeout_connected f timerFirst network address opts opt conn :
  parseOption opts = (Some opt, None) →
  netDialTimeout network address (ConnectTimeout opt) = Returns (inl conn) →
  ordered f timerFirst conn opt →
  let r := dialTimeout netDialTimeout durationString f timerFirst
             network address opts in
  filter (λ e, isDial e = true) r.2
  = [NetDial network address (ConnectTimeout opt)]
  ∧ (∀ x, r.1 = Returns (x, None) → filter (λ e, isClose e = true) r.2 = [])
  ∧ (∀ x e, r.1 = Returns (x, Some e) →
            filter (λ e, isClose e = true) r.2 = [ConnClosed conn])
  ∧ (ConnectTimeout opt ≠ 0%Z → f conn opt = Hangs →
     r.1 = Returns (None,
             Some ("rpc client: connect timeout: expect within "
                   +:+ durationString (ConnectTimeout opt))))
  ∧ (∀ res, f conn opt = Returns res → r.1 = Returns res)
  ∧ (ConnectTimeout opt = 0%Z → f conn opt = Hangs → r.1 = Hangs).
Proof.
  intros Hopt Hdial Hord r. unfold r, dialTimeout. rewrite Hopt, Hdial.
  case_bool_decide as Hz.
  - destruct (f conn opt) as [[client [e|]]|]; simpl;
      split_and!; try done; try (by intros ? ? [= <-]); try (by intros ? [= <-]).
  - destruct Hord as [Hord|[Hord| ->]]; [done| |].
    + rewrite Hord. simpl. split_and!; try done.
    + destruct (f conn opt) as [[client [e|]]|]; simpl;
        split_and!; try done; try (by intros ? ? [= <-]);
        try (by intros ? [= <-]).
Qed.

(** A constructor that returns a client or an error, never both and never
    neither, makes [dialTimeout] do the same in those runs. *)
Lemma dialTimeout_xor f timerFirst network address opts :
  (∀ conn opt client err, f conn opt = Returns (client, err) →
                          (client = None ↔ err ≠ None)) →
  (∀ opt conn, parseOption opts = (Some opt, None) →
     netDialTimeout network address (ConnectTimeout opt) = Returns (inl conn) →
     ordered f timerFirst conn opt) →
  ∀ client err,
    (dialTimeout netDialTimeout durationString f timerFirst
       network address opts).1 = Returns (client, err) →
    (client = None ↔ err ≠ None).
Proof.
  intros Hf Hord client err. unfold dialTimeout.
  pose proof (parseOption_xor opts) as Hx.
  destruct (parseOption opts) as [[opt|] [e|]] eqn:Hopt; simpl in Hx.
  - intros [= <- <-]. split; [done|by intros ?].
  - destruct (netDialTimeout network address (ConnectTimeout opt))
      as [[conn|e]|] eqn:Hd; [| |done].
    + specialize (Hord opt conn eq_refl Hd).
      pose proof (Hf conn opt) as HN.
      case_bool_decide as Hz.
      * destruct (f conn opt) as [[c e]|]; [|done].
        intros [= <- <-]. by apply HN.
      * destruct Hord as [Hord|[Hord| ->]]; [done| |].
        -- rewrite Hord. intros [= <- <-]. split; [done|by intros ?].
        -- destruct (f conn opt) as [[c e]|].
           ++ intros [= <- <-]. by apply HN.
           ++ intros [= <- <-]. split; [done|by intros ?].
    + intros [= <- <-]. split; [done|by intros ?].
  - intros [= <- <-]. split; [done|by intros ?].
  - destruct Hx as [Hx _]. by destruct (Hx eq_refl).
Qed.

(** Only [NewClient] makes clients, and it reports an error exactly when
    it makes none. *)
Lemma NewClient_xor conn opt client err :
  NewClient encodeOption conn opt = Returns (client, err) →
  (client = None ↔ err ≠ None)
  ∧ (err = None → client = Some NewClientCodec ∧ CodecType opt = GobType).
Proof.
  unfold NewClient. case_bool_decide as Hc; simpl.
  - destruct (encodeOption conn opt) as [[e|]|]; intros [= <- <-];
      split; try done; (split; [done|by intros ?]).
  - intros [= <- <-]. split; [|done]. split; [done|by intros ?].
Qed.

Lemma NewHTTPClient_xor conn opt client err :
  NewHTTPClient encodeOption readResponse conn opt = Returns (client, err) →
  (client = None ↔ err ≠ None)
  ∧ (err = None → client = Some NewClientCodec ∧ CodecType opt = GobType
                  ∧ readResponse conn = Returns (inl connected)).
Proof.
  unfold NewHTTPClient. destruct (readResponse conn) as [[status|e]|]; [| |done].
  - case_bool_decide as Hs.
    + intros H. destruct (NewClient_xor _ _ _ _ H) as [H1 H2].
      split; [done|]. intros He. destruct (H2 He). by subst.
    + intros [= <- <-]. split; [|done]. split; [done|by intros ?].
  - intros [= <- <-]. split; [|done]. split; [done|by intros ?].
Qed.

(** X17. What [dialTimeout] does with the connection.  Nothing is dialled
    when the options are refused, and one [net.DialTimeout] is made
    otherwise, with the option's [ConnectTimeout]; its error is returned
    as it is.  Once the connection is open, in the runs where the results
    are assigned in order (no timeout is set, or the caller takes the
    hand-off, or the constructor never returns): a result with an error
    always closes the connection and a result without an error never
    does; what the constructor returns is returned; when the constructor
    hangs, the call hangs with a zero [ConnectTimeout] and returns the
    timeout error otherwise; and [Dial] and [DialHTTP] return a client or
    an error, never both and never neither. *)
Theorem dialTimeout_closes_on_error
    (f : newClientFunc) (timerFirst : bool) (network address : string)
    (opts : list (option Option)) :
  let r := dialTimeout netDialTimeout durationString f timerFirst
             network address opts in
  ((parseOption opts).2 ≠ None → r.2 = [] ∧ r.1 = Returns (None, (parseOption opts).2))
  ∧ (∀ opt, parseOption opts = (Some opt, None) →
       (∀ e, netDialTimeout network address (ConnectTimeout opt) = Returns (inr e) →
             r = (Returns (None, Some e),
                  [NetDial network address (ConnectTimeout opt)]))
       ∧ (netDialTimeout network address (ConnectTimeout opt) = Hangs →
             r = (Hangs, [NetDial network address (ConnectTimeout opt)]))
       ∧ ∀ conn,
           netDialTimeout network address (ConnectTimeout opt) = Returns (inl conn) →
           ordered f timerFirst conn opt →
           filter (λ e, isDial e = true) r.2
           = [NetDial network address (ConnectTimeout opt)]
           ∧ (∀ x, r.1 = Returns (x, None) →
                   filter (λ e, isClose e = true) r.2 = [])
           ∧ (∀ x e, r.1 = Returns (x, Some e) →
                     filter (λ e, isClose e = true) r.2 = [ConnClosed conn])
           ∧ (ConnectTimeout opt ≠ 0%Z → f conn opt = Hangs →
              r.1 = Returns (None,
                      Some ("rpc client: connect timeout: expect within "
                            +:+ durationString (ConnectTimeout opt))))
           ∧ (∀ res, f conn opt = Returns res → r.1 = Returns res)
           ∧ (ConnectTimeout opt = 0%Z → f conn opt = Hangs → r.1 = Hangs))
  ∧ ((∀ opt conn, parseOption opts = (Some opt, None) →
        netDialTimeout network address (ConnectTimeout opt) = Returns (inl conn) →
        ordered (NewClient encodeOption) timerFirst conn opt) →
     ∀ client err,
       (Dial netDialTimeout encodeOption durationString timerFirst
          network address opts).1 = Returns (client, err) →
       (client = None ↔ err ≠ None))
  ∧ ((∀ opt conn, parseOption opts = (Some opt, None) →
        netDialTimeout network address (ConnectTimeout opt) = Returns (inl conn) →
        ordered (NewHTTPClient encodeOption readResponse) timerFirst conn opt) →
     ∀ client err,
       (DialHTTP netDialTimeout encodeOption readResponse durationString
          timerFirst network address opts).1 = Returns (client, err) →
       (client = None ↔ err ≠ None)).
Proof.
  intros r. split_and!.
  - unfold r, dialTimeout. destruct (parseOption opts) as [[o|] [e|]]; simpl;
      try done; by intros H.
  - intros opt Hopt. split_and!.
    + intros e Hd. unfold r, dialTimeout. by rewrite Hopt, Hd.
    + intros Hd. unfold r, dialTimeout. by rewrite Hopt, Hd.
    + intros conn Hd Hord. by apply dialTimeout_connected.
  - intros Hord. apply dialTimeout_xor; [|done].
    intros conn opt client err H. by destruct (NewClient_xor _ _ _ _ H).
  - intros Hord. apply dialTimeout_xor; [|done].
    intros conn opt client err H. by destruct (NewHTTPClient_xor _ _ _ _ H).
Qed.

(** X18. [XDial] reads its address as [protocol@addr]: an address with no
    [@] or with more than one is refused with the format error and nothing
    is dialled; an address with exactly one [@] is dialled over TCP by
    [DialHTTP] when the protocol is [http], and by [Dial] on the network
    the protocol names otherwise. *)
Theorem XDial_reads_protocol_and_address
    (timerFirst : bool) (rpcAddr : string) (opts : list (option Option)) :
  let n := length (filter (λ a, a = "@"%char) (String.list_ascii_of_string rpcAddr)) in
  let xdial := XDial netDialTimeout encodeOption readResponse durationString
                 timerFirst in
  (n ≠ 1 →
   xdial rpcAddr opts
   = (Returns (None, Some ("rpc client err: wrong format '" +:+ rpcAddr
                           +:+ "', expect protocol@addr")), []))
  ∧ (n = 1 → ∃ protocol addr,
       rpcAddr = protocol +:+ "@" +:+ addr
       ∧ GoString.contains protocol "@"%char = false
       ∧ GoString.contains addr "@"%char = false)
  ∧ (∀ protocol addr,
       GoString.contains protocol "@"%char = false →
       GoString.contains addr "@"%char = false →
       xdial (protocol +:+ "@" +:+ addr) opts
       = if bool_decide (protocol = "http")
         then DialHTTP netDialTimeout encodeOption readResponse durationString
                timerFirst "tcp" addr opts
         else Dial netDialTimeout encodeOption durationString timerFirst
                protocol addr opts).
Proof.
  intros n xdial.
  pose proof (GoStringFacts.Split_length rpcAddr "@"%char) as Hlen.
  fold n in Hlen. split_and!.
  - intros Hn. unfold xdial, XDial.
    destruct (GoString.Split rpcAddr "@"%char) as [|p [|a [|b l]]]; try done.
    simpl in Hlen. lia.
  - intros Hn.
    pose proof (GoStringFacts.Join_Split rpcAddr "@"%char) as HJ.
    pose proof (GoStringFacts.Split_fields rpcAddr "@"%char) as HF.
    destruct (GoString.Split rpcAddr "@"%char) as [|p [|a [|b l]]];
      simpl in Hlen; try lia.
    exists p, a. apply Forall_cons in HF as [Hp HF].
    apply Forall_cons in HF as [Ha _]. split_and!; done.
  - intros protocol addr Hp Ha. unfold xdial, XDial.
    change (protocol +:+ "@" +:+ addr) with (protocol +:+ String "@"%char addr).
    rewrite GoStringFacts.Split_app_sep by done.
    by rewrite GoStringFacts.Split_no_sep.
Qed.

End Network.

(** A dial whose constructor hangs at the handshake: with the default
    timeout of ten seconds the call returns the timeout error and the
    connection is closed. *)
Example dialTimeout_constructor_hangs :
  ordered (NewClient (λ _ _, Hangs)) true 7 DefaultOption
  ∧ Dial netOk (λ _ _, Hangs) showNanos true "tcp" "10.0.0.1:9999" []
    = (Returns (None, Some "rpc client: connect timeout: expect within 10s"),
       [NetDial "tcp" "10.0.0.1:9999" 10000000000; WorkerSpawned;
        TimerStarted 10000000000; ConnClosed 7]).
Proof. split; [right; by left|reflexivity]. Qed.

(** A healthy network: the dial of [tcp@10.0.0.1:9999] goes over TCP. *)
Example XDial_tcp :
  (XDial netOk encodeOk responseOk showNanos false "tcp@10.0.0.1:9999" []).2
  = [NetDial "tcp" "10.0.0.1:9999" 10000000000; WorkerSpawned;
     TimerStarted 10000000000; HandOff].
Proof. reflexivity. Qed.

End DialFlowSpec.

(* ===================================================================== *)
(** * XClient: which client a Call goes through *)
(* ===================================================================== *)

Module XClientSpec.
Import ClientCore Dial Discovery XClientM.

Section Facts.
Context {D : Type}.
Variable dGet : SelectMode → D → D * string * error.
Variable xdial : string → list (option Option) → Client + string.
Variable clientCall : nat → string → string → error.

(** [xc.dial] does what its name promises: an available cached client is
    returned as it is and nothing is dialled. *)
Lemma dial_reuses_available rpcAddr (xc : XClient D) w p :
  clients xc !! rpcAddr = Some p → availableAt p w = true →
  dial xdial rpcAddr xc w = (xc, w, Some p, None).
Proof. intros Hc Ha. unfold dial. by rewrite Hc, Ha. Qed.

(** [xc.Call] never reads or writes the cache, and dials on every call. *)
Lemma Call_ignores_cache sm args (xc : XClient D) w :
  clients (Call dGet xdial clientCall sm args xc w).1.1 = clients xc
  ∧ (∀ rpcAddr d', dGet (mode xc) (d xc) = (d', rpcAddr, None) →
       dials (Call dGet xdial clientCall sm args xc w).1.2
       = dials w ++ [(rpcAddr, [])]).
Proof.
  unfold Call. destruct (dGet (mode xc) (d xc)) as [[d' rpcAddr] err] eqn:E.
  split.
  - destruct err; [done|]. unfold call, XDialW.
    by destruct (xdial rpcAddr []).
  - intros a d0 [= <- <- ->]. unfold call, XDialW.
    by destruct (xdial rpcAddr []).
Qed.

End Facts.

(** C1, on the code.  The cache holds an available client (address 0) for
    the only server.  [xc.Call] nevertheless dials the server again, with no
    options, and sends the call through the new client (address 1); the
    cache is as before, and a second [Call] dials a third client.
    [xc.dial], which nothing calls, would have returned the cached client
    and dialled nothing. *)
Theorem Call_bypasses_client_cache :
  let r1 := Call oneServer dialOk callOk "Arith.Sum" "3,4" cachedXClient cachedWorld in
  let r2 := Call oneServer dialOk callOk "Arith.Sum" "5,6" r1.1.1 r1.1.2 in
  availableAt 0 cachedWorld = true
  ∧ calls r1.1.2 = [(1, "Arith.Sum")]
  ∧ dials r1.1.2 = [("tcp@10.0.0.1:9999", [])]
  ∧ clients r1.1.1 = clients cachedXClient
  ∧ calls r2.1.2 = [(1, "Arith.Sum"); (2, "Arith.Sum")]
  ∧ dials r2.1.2 = [("tcp@10.0.0.1:9999", []); ("tcp@10.0.0.1:9999", [])]
  ∧ dial dialOk "tcp@10.0.0.1:9999" cachedXClient cachedWorld
    = (cachedXClient, cachedWorld, Some 0, None).
Proof. split_and!; by vm_compute. Qed.

End XClientSpec.

(* ===================================================================== *)
(** * XClient: the cache of clients, Close, Broadcast *)
(* ===================================================================== *)

Module XClientFlowSpec.
Import ClientCore Dial Discovery XClientM.

Lemma Close_idem cl : (Close (Close cl).1).1 = (Close cl).1.
Proof. unfold Close. by destruct (isClosed cl) eqn:E; simpl; rewrite ?E. Qed.

Lemma Close_unavailable cl : IsAvailable (Close cl).1 = false.
Proof.
  unfold Close, IsAvailable. destruct (isClosed cl) eqn:E; simpl.
  - rewrite E. apply andb_false_r.
  - apply andb_false_r.
Qed.

Section Dialing.
Context {D : Type}.
Variable xdial : string → list (option Option) → Client + string.


(** ** [XClient.Close] *)

Lemma closeOne_fold entries : ∀ m w,
  foldl closeOne (m, w) entries
  = (foldl (λ m e, delete e.1 m) m entries,
     foldl (λ w e, closeAt e.2 w) w entries).
Proof.
  induction entries as [|e entries IH]; intros m w; simpl; [done|].
  unfold closeOne at 2. simpl. apply IH.
Qed.

Lemma delete_fold (entries : list (string * nat)) : ∀ (m : gmap string nat) a,
  foldl (λ m e, delete e.1 m) m entries !! a
  = if decide (a ∈ entries.*1) then None else m !! a.
Proof.
  induction entries as [|e entries IH]; intros m a; simpl; [done|].
  rewrite IH. destruct (decide (a ∈ entries.*1)) as [Hin|Hnin].
  - rewrite decide_True; [done|]. by right.
  - destruct (decide (a = e.1)) as [->|Hne].
    + rewrite decide_True by left. by rewrite lookup_delete_eq.
    + rewrite decide_False; [by rewrite lookup_delete_ne|].
      intros Hin. apply elem_of_cons in Hin as [?|?]; done.
Qed.

Lemma closeAt_fold (entries : list (string * nat)) : ∀ w p,
  heap (foldl (λ w e, closeAt e.2 w) w entries) !! p
  = (if decide (p ∈ entries.*2) then (λ cl, (Close cl).1) <$> heap w !! p
     else heap w !! p)
  ∧ dials (foldl (λ w e, closeAt e.2 w) w entries) = dials w
  ∧ calls (foldl (λ w e, closeAt e.2 w) w entries) = calls w.
Proof.
  induction entries as [|e entries IH]; intros w p; simpl; [done|].
  destruct (IH (closeAt e.2 w) p) as (-> & -> & ->). split_and!; [|done|done].
  unfold closeAt. simpl.
  destruct (decide (p ∈ entries.*2)) as [Hin|Hnin].
  - rewrite decide_True by by right.
    destruct (decide (p = e.2)) as [->|Hne].
    + rewrite lookup_alter_eq. destruct (heap w !! e.2); simpl; [|done].
      by rewrite Close_idem.
    + by rewrite lookup_alter_ne.
  - destruct (decide (p = e.2)) as [->|Hne].
    + rewrite decide_True by left. by rewrite lookup_alter_eq.
    + rewrite decide_False; [by rewrite lookup_alter_ne|].
      intros Hin. apply elem_of_cons in Hin as [?|?]; done.
Qed.

(** X20. [XClient.Close] returns nil and empties the cache, in whatever
    order the range statement visits it.  Every client that was cached is
    closed, so that it is not available any more; the other clients are
    untouched; nothing is dialled or called. *)
Theorem XClient_Close_empties_the_cache
    (entries : list (string * nat)) (xc : XClient D) (w : World) :
  entries ≡ₚ map_to_list (clients xc) →
  let xc' := (CloseIn entries xc w).1.1 in
  let w' := (CloseIn entries xc w).1.2 in
  (CloseIn entries xc w).2 = None
  ∧ clients xc' = ∅
  ∧ d xc' = d xc ∧ mode xc' = mode xc ∧ opt xc' = opt xc
  ∧ dials w' = dials w ∧ calls w' = calls w
  ∧ (∀ a p, clients xc !! a = Some p →
            heap w' !! p = (λ cl, (Close cl).1) <$> heap w !! p
            ∧ availableAt p w' = false)
  ∧ (∀ p, (∀ a, clients xc !! a ≠ Some p) → heap w' !! p = heap w !! p).
Proof.
  intros Hp xc' w'. unfold xc', w', CloseIn. rewrite closeOne_fold. simpl.
  assert (Hin : ∀ a p, clients xc !! a = Some p ↔ (a, p) ∈ entries).
  { intros a p. rewrite Hp. by rewrite elem_of_map_to_list. }
  split_and!; try done.
  - apply map_eq. intros a. rewrite delete_fold, lookup_empty.
    destruct (decide (a ∈ entries.*1)) as [|Hnin]; [done|].
    destruct (clients xc !! a) as [p|] eqn:E; [|done].
    destruct Hnin. apply list_elem_of_fmap. exists (a, p). split; [done|].
    by apply Hin.
  - by destruct (closeAt_fold entries w 0) as (_ & -> & _).
  - by destruct (closeAt_fold entries w 0) as (_ & _ & ->).
  - intros a p Hc.
    assert (Hp2 : p ∈ entries.*2).
    { apply list_elem_of_fmap. exists (a, p). split; [done|]. by apply Hin. }
    destruct (closeAt_fold entries w p) as (Hh & _ & _).
    rewrite decide_True in Hh by done. split; [done|].
    unfold availableAt. rewrite Hh. destruct (heap w !! p); simpl; [|done].
    apply Close_unavailable.
  - intros p Hno. destruct (closeAt_fold entries w p) as (Hh & _ & _).
    rewrite decide_False in Hh; [done|]. intros Hin2.
    apply list_elem_of_fmap in Hin2 as ([a p'] & -> & Hin2).
    apply Hin in Hin2. by apply (Hno a).
Qed.

End Dialing.

Lemma XClient_Close_empties_the_cache_witness :
  clients (XClient_Close cachedXClient cachedWorld).1.1 = ∅
  ∧ availableAt 0 (XClient_Close cachedXClient cachedWorld).1.2 = false.
Proof.
  destruct (XClient_Close_empties_the_cache
              (map_to_list (clients cachedXClient)) cachedXClient cachedWorld)
    as (_ & H1 & _ & _ & _ & _ & _ & H2 & _); [done|].
  split; [exact H1|].
  apply (H2 "tcp@10.0.0.1:9999" 0). by vm_compute.
Defined.

(** ** [Broadcast] *)

(** The loop of critical sections, from any state of the shared
    variables. *)
Lemma gather_fold (results : list (error * string)) : ∀ g0,
  e (foldl gather g0 results)
  = (if e g0 is Some x then Some x else head (omap fst results))
  ∧ cancelled (foldl gather g0 results)
    = (if e g0 is Some _ then cancelled g0
       else if head (omap fst results) is Some _ then true else cancelled g0)
  ∧ reply (foldl gather g0 results)
    = (if replyDone g0 then reply g0
       else if head (omap (λ r, if r.1 is None then Some r.2 else None) results)
              is Some v
            then Some v else reply g0).
Proof.
  induction results as [|[[x|] v] rs IH]; intros g0; cbn [foldl].
  - simpl. by destruct (e g0), (replyDone g0).
  - destruct (IH (gather g0 (Some x, v))) as (-> & -> & ->).
    unfold gather. simpl. by destruct (e g0) eqn:E; simpl; rewrite ?E.
  - destruct (IH (gather g0 (None, v))) as (-> & -> & ->).
    unfold gather. simpl. destruct (e g0) eqn:E; simpl;
      destruct (replyDone g0) eqn:R; simpl; by rewrite ?E, ?R.
Qed.

(** X21. What [Broadcast] returns and leaves in [reply].  When [GetAll]
    fails it returns that error and starts no task.  Otherwise it returns
    the error of the first task to fail, in the order in which the tasks
    finish, and nil exactly when every call succeeded; [cancel] is called
    exactly when some call failed.  If [reply] is not nil it receives the
    reply of the first task to succeed, also when [Broadcast] returns an
    error; if it is nil, or no call succeeded, nothing is stored. *)
Theorem Broadcast_first_error_first_reply
    (getAll : list string * error) (replyGiven : bool)
    (results : list (error * string)) :
  (∀ err, getAll.2 = Some err →
          Broadcast getAll replyGiven results = (Some err, None))
  ∧ (getAll.2 = None →
     ∃ g, Broadcast getAll replyGiven results = (e g, Some g)
          ∧ e g = head (omap fst results)
          ∧ (e g = None ↔ Forall (λ r, r.1 = None) results)
          ∧ cancelled g = (if e g is Some _ then true else false)
          ∧ reply g
            = if replyGiven
              then head (omap (λ r, if r.1 is None then Some r.2 else None)
                           results)
              else None).
Proof.
  split.
  - intros err Hg. unfold Broadcast. by rewrite Hg.
  - intros Hg. unfold Broadcast. rewrite Hg. eexists. split; [done|].
    destruct (gather_fold results
                {| e := None; replyDone := negb replyGiven; reply := None;
                   cancelled := false |}) as (He & Hc & Hr).
    simpl in He, Hc, Hr. rewrite He, Hc, Hr. split_and!; try done.
    + clear. induction results as [|[[x|] v] rs IH]; simpl.
      * split; [intros _; constructor|done].
      * split; [done|]. intros H. by apply Forall_cons in H as [? _].
      * rewrite IH. split; [intros H; by constructor|].
        intros H. by apply Forall_cons in H as [_ ?].
    + destruct replyGiven; simpl; [|done].
      match goal with |- context [head ?l] => by destruct (head l) end.
Qed.

(** Three servers: the second to finish fails, the third succeeds after
    the first has: [Broadcast] returns the error and [reply] holds the
    first reply. *)
Example Broadcast_error_and_reply :
  Broadcast (["a"; "b"; "c"], None) true
    [(None, "7"); (Some "rpc client: call failed: timeout", ""); (None, "8")]
  = (Some "rpc client: call failed: timeout",
     Some {| e := Some "rpc client: call failed: timeout"; replyDone := true;
             reply := Some "7"; cancelled := true |}).
Proof. reflexivity. Qed.

End XClientFlowSpec.

(* ===================================================================== *)
(** * From the registry to the discovery *)
(* ===================================================================== *)

Module RegistryDiscoverySpec.
Import GoString GoSlice Registry Discovery RegistryHTTP RegistrySpec DiscoverySpec.

Lemma plain_fields (l : list string) :
  Forall (λ a, TrimSpace a = a ∧ a ≠ "") l →
  filter (λ x, x ≠ "") (TrimSpace <$> l) = l.
Proof.
  induction 1 as [|a l [Ht Hne] _ IH]; [done|].
  rewrite fmap_cons, Ht, filter_cons_True by done. by rewrite IH.
Qed.

Lemma header_round_trip (l : list string) :
  Forall plainAddr l →
  filter (λ x, x ≠ "") (TrimSpace <$> Split (Join l ",") ","%char) = l.
Proof.
  intros Hall. destruct l as [|a l]; [by vm_compute|].
  rewrite (GoStringFacts.Split_Join (a :: l) ","%char); [|done|].
  - apply plain_fields. eapply Forall_impl; [exact Hall|].
    by intros x (_ & _ & ? & ?).
  - eapply Forall_impl; [exact Hall|]. by intros x (? & _).
Qed.

(** X10. The list the registry sends is the list the discovery ends up
    with: when the addresses registered hold no comma and no control
    character, have no white space around them and are not empty, a
    refresh of a stale discovery against the registry succeeds and the
    discovery then lists exactly the alive servers of the registry, in the
    registry's sorted order. *)
Theorem registry_list_reaches_discovery
    (now : Z) (r : CenterRegistry) (h : Heap) (d : CenterRegistryDiscovery) :
  (∀ a, a ∈ dom (Registry.servers r) → plainAddr a) →
  (lastUpdate d + Discovery.timeout d ≤ now)%Z →
  (CRefresh (httpGetFrom now r) now h d).1.2 = None
  ∧ read (CRefresh (httpGetFrom now r) now h d).1.1.1
         (Discovery.servers (base (CRefresh (httpGetFrom now r) now h d).1.1.2))
    = (getAliveServers now r).1
  ∧ ∀ a, a ∈ read (CRefresh (httpGetFrom now r) now h d).1.1.1
               (Discovery.servers
                  (base (CRefresh (httpGetFrom now r) now h d).1.1.2))
         ↔ ∃ item, Registry.servers r !! a = Some item
                   ∧ (Registry.timeout r = 0%Z
                      ∨ (now < start item + Registry.timeout r)%Z).
Proof.
  intros Hplain Hstale.
  assert (Hhdr : httpGetFrom now r (registryAddr d)
                 = HttpOk (Join (getAliveServers now r).1 ",")).
  { unfold httpGetFrom, ServeHTTP, getRequest. simpl.
    by destruct (getAliveServers now r). }
  destruct (CRefresh_parses (httpGetFrom now r) now h d _ Hstale Hhdr)
    as (h2 & s2 & -> & Hread & _ & _).
  cbn [fst snd base Discovery.servers].
  assert (Hl : read h2 s2 = (getAliveServers now r).1).
  { rewrite Hread. apply header_round_trip. apply Forall_forall.
    intros a Ha. apply Hplain. apply getAliveServers_elem in Ha as (x & Hx & _).
    apply elem_of_dom. eauto. }
  split_and!; [done|done|].
  intros a. rewrite Hl. apply getAliveServers_elem.
Qed.

Lemma registry_list_reaches_discovery_witness :
  read (CRefresh (httpGetFrom 45 (threeServers 30)) 45 twoServersHeap
          {| base := twoServers; registryAddr := "http://reg/myRPC/registry";
             Discovery.timeout := 10; lastUpdate := 0 |}).1.1.1
       (Discovery.servers
          (base (CRefresh (httpGetFrom 45 (threeServers 30)) 45 twoServersHeap
                   {| base := twoServers;
                      registryAddr := "http://reg/myRPC/registry";
                      Discovery.timeout := 10; lastUpdate := 0 |}).1.1.2))
  = ["tcp@b:2"; "tcp@c:3"].
Proof.
  destruct (registry_list_reaches_discovery 45 (threeServers 30) twoServersHeap
              {| base := twoServers; registryAddr := "http://reg/myRPC/registry";
                 Discovery.timeout := 10; lastUpdate := 0 |})
    as (_ & H & _).
  - intros a Ha. apply elem_of_dom in Ha as [x Hx].
    assert (Hin : (a, x) ∈ map_to_list (Registry.servers (threeServers 30)))
      by by apply elem_of_map_to_list.
    vm_compute in Hin.
    repeat (apply elem_of_cons in Hin as [Hin|Hin];
            [injection Hin as -> _; by vm_compute|]).
    by apply elem_of_nil in Hin.
  - by vm_compute.
  - rewrite H. by vm_compute.
Defined.

(** ** Selection over the registry's list *)

Lemma Get_picks (Intn : nat → nat) h mode d :
  wf h (Discovery.servers d) → len (Discovery.servers d) ≠ 0 →
  (∀ n, 0 < n → Intn n < n) →
  mode = RandomSelect ∨ mode = RoundRobinSelect →
  ∃ d' s, Get Intn h mode d = Some (d', s, None)
          ∧ s ∈ read h (Discovery.servers d).
Proof.
  intros Hwf Hn HI Hmode. unfold Get. rewrite decide_False by done.
  destruct Hmode as [-> | ->].
  - destruct (read_lookup_lt h (Discovery.servers d)
                (Intn (len (Discovery.servers d))) Hwf) as [s Hs].
    { apply HI. lia. }
    rewrite Hs. simpl. eexists _, s. split; [done|].
    by eapply list_elem_of_lookup_2.
  - destruct (read_lookup_lt h (Discovery.servers d)
                (index d `mod` len (Discovery.servers d)) Hwf) as [s Hs].
    { by apply Nat.mod_upper_bound. }
    rewrite Hs. simpl. eexists _, s. split; [done|].
    by eapply list_elem_of_lookup_2.
Qed.

(** X27. From the registry to the address a call goes to.  When the
    addresses registered are plain and the discovery's cache is stale,
    [Get] in random or round-robin mode makes one request to the registry
    and then returns an address that is alive in the registry at that
    instant; if no server is alive it returns the error
    "rpc discovery: no available servers". *)
Theorem Get_returns_an_alive_server
    (Intn : nat → nat) (now : Z) (r : CenterRegistry) (h : Heap)
    (d : CenterRegistryDiscovery) (mode : SelectMode) :
  (∀ a, a ∈ dom (Registry.servers r) → plainAddr a) →
  (lastUpdate d + Discovery.timeout d ≤ now)%Z →
  (∀ n, 0 < n → Intn n < n) →
  mode = RandomSelect ∨ mode = RoundRobinSelect →
  (CGet (httpGetFrom now r) Intn now h mode d).1.2 = [registryAddr d]
  ∧ ((getAliveServers now r).1 = [] →
     (CGet (httpGetFrom now r) Intn now h mode d).2
     = Some ("", Some "rpc discovery: no available servers"))
  ∧ ((getAliveServers now r).1 ≠ [] →
     ∃ s, (CGet (httpGetFrom now r) Intn now h mode d).2 = Some (s, None)
          ∧ ∃ item, Registry.servers r !! s = Some item
                    ∧ (Registry.timeout r = 0%Z
                       ∨ (now < start item + Registry.timeout r)%Z)).
Proof.
  intros Hplain Hstale HI Hmode.
  assert (Hhdr : httpGetFrom now r (registryAddr d)
                 = HttpOk (Join (getAliveServers now r).1 ",")).
  { unfold httpGetFrom, ServeHTTP, getRequest. simpl.
    by destruct (getAliveServers now r). }
  destruct (CRefresh_parses (httpGetFrom now r) now h d _ Hstale Hhdr)
    as (h2 & s2 & HR & Hread & Hwf & _).
  assert (Hl : read h2 s2 = (getAliveServers now r).1).
  { rewrite Hread. apply header_round_trip. apply Forall_forall.
    intros a Ha. apply Hplain. apply getAliveServers_elem in Ha as (x & Hx & _).
    apply elem_of_dom. eauto. }
  pose proof (length_read_wf h2 s2 Hwf) as Hlen.
  unfold CGet. rewrite HR. cbn [base].
  destruct (decide (len s2 = 0)) as [Hz|Hnz].
  - unfold Get. cbn [Discovery.servers]. rewrite decide_True by done.
    cbn [fst snd]. split_and!; [done|done|].
    intros Hne. destruct Hne. rewrite <- Hl. apply nil_length_inv. lia.
  - destruct (Get_picks Intn h2 mode
                {| Discovery.servers := s2; index := index (base d) |})
      as (d' & s & HG & Hin); try done.
    rewrite HG. cbn [fst snd]. split_and!; [done| |].
    + intros He. rewrite <- Hl in He. rewrite He in Hlen. simpl in Hlen. lia.
    + intros _. exists s. split; [done|]. cbn [Discovery.servers] in Hin.
      rewrite Hl in Hin. by apply getAliveServers_elem.
Qed.

Lemma Get_returns_an_alive_server_witness :
  ∃ s, (CGet (httpGetFrom 45 (threeServers 30)) (λ _, 0) 45 twoServersHeap
          RoundRobinSelect
          {| base := twoServers; registryAddr := "http://reg/myRPC/registry";
             Discovery.timeout := 10; lastUpdate := 0 |}).2 = Some (s, None)
       ∧ is_Some (Registry.servers (threeServers 30) !! s).
Proof.
  destruct (Get_returns_an_alive_server (λ _, 0) 45 (threeServers 30)
              twoServersHeap
              {| base := twoServers; registryAddr := "http://reg/myRPC/registry";
                 Discovery.timeout := 10; lastUpdate := 0 |} RoundRobinSelect)
    as (_ & _ & H).
  - intros a Ha. apply elem_of_dom in Ha as [x Hx].
    assert (Hin : (a, x) ∈ map_to_list (Registry.servers (threeServers 30)))
      by by apply elem_of_map_to_list.
    vm_compute in Hin.
    repeat (apply elem_of_cons in Hin as [Hin|Hin];
            [injection Hin as -> _; by vm_compute|]).
    by apply elem_of_nil in Hin.
  - by vm_compute.
  - intros n Hn. lia.
  - by right.
  - destruct H as (s & Hs & item & Hi & _); [by vm_compute|].
    exists s. split; [exact Hs|]. by rewrite Hi.
Defined.

End RegistryDiscoverySpec.
